(** * Mini-Compiler: a shallow embedding of the compilation pipeline

    The development follows the C++ sources file by file:
    [token.hpp], [ast.h], [lexer.cpp], [parser.cpp], [symboltable.cpp],
    [typechecker.cpp], [codegen.cpp] and [main.cpp].

    Conventions.
    - [std::string] is [string]; [std::vector] is [list]; a nullable
      [std::unique_ptr] child of an AST node is an [option].
    - [std::unordered_map<std::string, Symbol>] is a [gmap string Symbol].
    - C++ exceptions are modelled by explicit result types; an object that
      is mutated before an exception is thrown keeps its mutation, so the
      stateful phases return their state together with the outcome.
    - Recursion that is not structural is driven by a fuel argument; running
      out of fuel is a distinct outcome that no handler catches. *)

From Stdlib Require Import String Ascii List Arith Lia Bool DecimalString Decimal
  DecimalNat.
From stdpp Require Import base option list gmap strings.
Import ListNotations.
Set Warnings "-register-all".
Local Open Scope string_scope.
Local Open Scope list_scope.

(** ** token.hpp *)

Inductive TokenType : Set :=
  (* Single-character tokens *)
  | LPAREN | RPAREN | LBRACE | RBRACE | LBRACKET | RBRACKET
  | COMMA | DOT | MINUS | PLUS | SEMICOLON | SLASH | MULTIPLY
  | AMPERSAND | PIPE
  (* One or two character tokens *)
  | NOT | NOT_EQUAL
  | EQUAL | EQUAL_EQUAL
  | LESS | LESS_EQUAL | LEFT_SHIFT
  | GREATER | GREATER_EQUAL | RIGHT_SHIFT
  | AND | OR
  | INCREMENT | DECREMENT
  | ARROW
  | PLUS_EQUAL | MINUS_EQUAL | MULTIPLY_EQUAL | DIVIDE_EQUAL
  (* Literals *)
  | IDENTIFIER | STRING_LITERAL | CHAR_LITERAL
  | INTEGER_LITERAL | FLOAT_LITERAL | BOOL_LITERAL
  (* Keywords *)
  | IF | ELSE | WHILE | FOR | RETURN
  | INT | FLOAT | CHAR | VOID | BOOL
  | USING | NAMESPACE | STD
  | COUT | CIN | ENDL
  | TRUE | FALSE
  (* Preprocessor *)
  | HASH | INCLUDE
  (* Special *)
  | POINTER
  | END_OF_FILE.

(** The integer value of an enumerator ([static_cast<int>]). *)
Definition TokenType_code (t : TokenType) : nat :=
  match t with
  | LPAREN => 0 | RPAREN => 1 | LBRACE => 2 | RBRACE => 3 | LBRACKET => 4 | RBRACKET => 5
  | COMMA => 6 | DOT => 7 | MINUS => 8 | PLUS => 9 | SEMICOLON => 10 | SLASH => 11
  | MULTIPLY => 12 | AMPERSAND => 13 | PIPE => 14
  | NOT => 15 | NOT_EQUAL => 16 | EQUAL => 17 | EQUAL_EQUAL => 18
  | LESS => 19 | LESS_EQUAL => 20 | LEFT_SHIFT => 21
  | GREATER => 22 | GREATER_EQUAL => 23 | RIGHT_SHIFT => 24
  | AND => 25 | OR => 26 | INCREMENT => 27 | DECREMENT => 28 | ARROW => 29
  | PLUS_EQUAL => 30 | MINUS_EQUAL => 31 | MULTIPLY_EQUAL => 32 | DIVIDE_EQUAL => 33
  | IDENTIFIER => 34 | STRING_LITERAL => 35 | CHAR_LITERAL => 36
  | INTEGER_LITERAL => 37 | FLOAT_LITERAL => 38 | BOOL_LITERAL => 39
  | IF => 40 | ELSE => 41 | WHILE => 42 | FOR => 43 | RETURN => 44
  | INT => 45 | FLOAT => 46 | CHAR => 47 | VOID => 48 | BOOL => 49
  | USING => 50 | NAMESPACE => 51 | STD => 52
  | COUT => 53 | CIN => 54 | ENDL => 55
  | TRUE => 56 | FALSE => 57
  | HASH => 58 | INCLUDE => 59
  | POINTER => 60
  | END_OF_FILE => 61
  end.

(** [a == b] on enumerators. *)
Definition TokenType_eqb (a b : TokenType) : bool :=
  Nat.eqb (TokenType_code a) (TokenType_code b).

Record Token : Set := mkToken {
  type : TokenType;
  lexeme : string;
  line : nat
}.

(** [Token()], the default constructor. *)
Definition defaultToken : Token := mkToken END_OF_FILE "" 0.

(** [std::to_string] on a non-negative [int]. *)
Definition to_string (n : nat) : string :=
  NilZero.string_of_uint (Nat.to_uint n).

(** ** Outcomes and the state-and-exception monad

    A C++ member function that may throw is a function from the object's
    state to an outcome and the state it leaves behind. *)

Inductive Outcome (A : Type) : Type :=
  | Ok (a : A)
  | Throw (what : string)
  | OutOfFuel.
Arguments Ok {A} a.
Arguments Throw {A} what.
Arguments OutOfFuel {A}.

Definition M (S A : Type) : Type := S -> Outcome A * S.

(** [e.what()]: the explanatory string of an exception is handed out as a
    C string, which ends before the first NUL byte.  Every handler of the
    program reads the message this way. *)
Fixpoint what (message : string) : string :=
  match message with
  | EmptyString => EmptyString
  | String c rest =>
      if Ascii.eqb c (ascii_of_nat 0) then EmptyString else String c (what rest)
  end.

Definition ret {S A} (a : A) : M S A := fun s => (Ok a, s).

Definition bind {S A B} (m : M S A) (k : A -> M S B) : M S B :=
  fun s =>
    match m s with
    | (Ok a, s') => k a s'
    | (Throw w, s') => (Throw w, s')
    | (OutOfFuel, s') => (OutOfFuel, s')
    end.

Definition throw {S A} (what : string) : M S A := fun s => (Throw what, s).

Definition outOfFuel {S A} : M S A := fun s => (OutOfFuel, s).

(** [try { body } catch (const std::runtime_error& e) { handler(e.what()) }] *)
Definition tryCatch {S A} (body : M S A) (handler : string -> M S A) : M S A :=
  fun s =>
    match body s with
    | (Throw w, s') => handler w s'
    | r => r
    end.

Definition get {S} : M S S := fun s => (Ok s, s).
Definition put {S} (s : S) : M S unit := fun _ => (Ok tt, s).
Definition modify {S} (f : S -> S) : M S unit := fun s => (Ok tt, f s).
Definition gets {S A} (f : S -> A) : M S A := fun s => (Ok (f s), s).

Notation "'let*' x ':=' m 'in' k" := (bind m (fun x => k))
  (at level 10, x pattern, m at level 100, k at level 200).
Notation "m ;; k" := (bind m (fun _ => k))
  (at level 100, k at level 200, right associativity).

(** [std::endl] written into a [std::stringstream]. *)
Definition endl : string := String (ascii_of_nat 10) "".

(** ** ast.h *)

Inductive Expression : Type :=
  | BinaryExpression (left : Expression) (op : TokenType) (right : Expression)
  | UnaryExpression (op : TokenType) (operand : Expression)
  | IdentifierExpression (name : string)
  | LiteralExpression (value : string) (literalType : TokenType)
  | CallExpression (callee : string) (arguments : list Expression)
  | LogicalExpression (left : Expression) (op : TokenType) (right : Expression)
  | AssignExpression (name : string) (op : TokenType) (value : Expression).

Inductive Statement : Type :=
  | BlockStatement (statements : list Statement)
  | ExpressionStatement (expression : Expression)
  | IfStatement (condition : Expression) (thenBranch : Statement)
                (elseBranch : option Statement)
  | WhileStatement (condition : Expression) (body : Statement)
  | ForStatement (initializer : option Statement) (condition : option Expression)
                 (increment : option Expression) (body : Statement)
  | ReturnStatement (value : option Expression)
  | VariableDeclaration (declType : TokenType) (isPointer : bool) (name : string)
                        (initializer : option Expression)
  | FunctionDeclaration (name : string) (returnType : TokenType)
                        (parameters : list (string * TokenType)) (body : Statement).

(** ** codegen.h / codegen.cpp *)

Module CodeGen.

Inductive OpCode : Set :=
  | LOAD | STORE | ADD | SUB | MUL | DIV | CMP | JMP | JE | JNE | JG | JL
  | CALL | RET | PUSH | POP | PRINT | LABEL.

Definition OpCode_code (o : OpCode) : nat :=
  match o with
  | LOAD => 0 | STORE => 1 | ADD => 2 | SUB => 3 | MUL => 4 | DIV => 5
  | CMP => 6 | JMP => 7 | JE => 8 | JNE => 9 | JG => 10 | JL => 11
  | CALL => 12 | RET => 13 | PUSH => 14 | POP => 15 | PRINT => 16 | LABEL => 17
  end.

Definition OpCode_eqb (a b : OpCode) : bool :=
  Nat.eqb (OpCode_code a) (OpCode_code b).

Record Instruction : Set := mkInstruction {
  opcode : OpCode;
  arg1 : string;
  arg2 : string;
  result : string
}.

(** The generator object: the instruction vector and the two counters.
    [cerr] collects the warnings the generator writes to [std::cerr]. *)
Record CodeGenerator : Set := mkCodeGenerator {
  instructions : list Instruction;
  tempVarCounter : nat;
  labelCounter : nat;
  cerr : list string
}.

(** [CodeGenerator::CodeGenerator()] *)
Definition newCodeGenerator : CodeGenerator := mkCodeGenerator [] 0 0 [].

(** [instructions.emplace_back(op, a1, a2, res)] *)
Definition emplace_back (op : OpCode) (a1 a2 res : string) (g : CodeGenerator)
  : CodeGenerator :=
  mkCodeGenerator (instructions g ++ [mkInstruction op a1 a2 res])
                  (tempVarCounter g) (labelCounter g) (cerr g).

Definition warn (msg : string) (g : CodeGenerator) : CodeGenerator :=
  mkCodeGenerator (instructions g) (tempVarCounter g) (labelCounter g)
                  (cerr g ++ [msg]).

(** [generateTemp]: pre-increment the counter, return ["t" + to_string]. *)
Definition generateTemp (g : CodeGenerator) : string * CodeGenerator :=
  let n := S (tempVarCounter g) in
  ("t" +:+ to_string n,
   mkCodeGenerator (instructions g) n (labelCounter g) (cerr g)).

Definition generateLabel (g : CodeGenerator) : string * CodeGenerator :=
  let n := S (labelCounter g) in
  ("L" +:+ to_string n,
   mkCodeGenerator (instructions g) (tempVarCounter g) n (cerr g)).

Definition generateIdentifier (name : string) (g : CodeGenerator) : CodeGenerator :=
  let '(temp, g) := generateTemp g in
  emplace_back LOAD name "" temp g.

Definition generateLiteral (value : string) (g : CodeGenerator) : CodeGenerator :=
  let '(temp, g) := generateTemp g in
  emplace_back STORE value "" temp g.

(** [generateExpression] with [generateBinaryExpression] and
    [generateFunctionCall] inlined at their case; unary, logical and
    assignment expressions only produce a warning. *)
Fixpoint generateExpression (expr : Expression) (g : CodeGenerator) : CodeGenerator :=
  match expr with
  | BinaryExpression l op r =>
      let g := generateExpression l g in
      let '(leftTemp, g) := generateTemp g in
      let g := generateExpression r g in
      let '(rightTemp, g) := generateTemp g in
      let '(resultTemp, g) := generateTemp g in
      match op with
      | PLUS => emplace_back ADD leftTemp rightTemp resultTemp g
      | MINUS => emplace_back SUB leftTemp rightTemp resultTemp g
      | MULTIPLY => emplace_back MUL leftTemp rightTemp resultTemp g
      | SLASH => emplace_back DIV leftTemp rightTemp resultTemp g
      | EQUAL_EQUAL | NOT_EQUAL | LESS | LESS_EQUAL | GREATER | GREATER_EQUAL =>
          emplace_back CMP leftTemp rightTemp resultTemp g
      | _ => warn "Warning: Unsupported binary operator" g
      end
  | IdentifierExpression name => generateIdentifier name g
  | LiteralExpression value _ => generateLiteral value g
  | CallExpression callee args =>
      (* Generate code for arguments *)
      let '(argTemps, g) :=
        fold_left (fun (acc : list string * CodeGenerator) arg =>
                     let '(temps, g) := acc in
                     let g := generateExpression arg g in
                     let '(temp, g) := generateTemp g in
                     (temps ++ [temp], g))
                  args ([], g) in
      (* Push arguments *)
      let g := fold_left (fun g temp => emplace_back PUSH temp "" "" g) argTemps g in
      (* Generate call *)
      let g := emplace_back CALL callee "" "" g in
      (* Pop arguments *)
      let g := fold_left (fun g _ => emplace_back POP "" "" "" g) argTemps g in
      (* Store return value *)
      let '(resultTemp, g) := generateTemp g in
      emplace_back STORE "retval" "" resultTemp g
  | _ => warn "Warning: Unsupported expression type" g
  end.

Definition generateVariableDeclaration (name : string) (init : option Expression)
    (g : CodeGenerator) : CodeGenerator :=
  let '(value, g) :=
    match init with
    | Some e =>
        let g := generateExpression e g in
        generateTemp g
    | None => ("", g)
    end in
  emplace_back STORE value "" name g.

Definition generateReturnStatement (value : option Expression) (g : CodeGenerator)
  : CodeGenerator :=
  let g := match value with
           | Some e => generateExpression e g
           | None => g
           end in
  emplace_back RET "" "" "" g.

(** [instructions.empty() || instructions.back().opcode != OpCode::RET] *)
Definition needsRet (g : CodeGenerator) : bool :=
  match last (instructions g) with
  | None => true
  | Some i => negb (OpCode_eqb (opcode i) RET)
  end.

Fixpoint generateStatement (stmt : Statement) (g : CodeGenerator) : CodeGenerator :=
  match stmt with
  | VariableDeclaration _ _ name init => generateVariableDeclaration name init g
  | FunctionDeclaration name _ _ body =>
      let g := emplace_back LABEL name "" "" g in
      let g := generateStatement body g in
      if needsRet g then emplace_back RET "" "" "" g else g
  | BlockStatement stmts =>
      (fix generateBlock (l : list Statement) (g : CodeGenerator) : CodeGenerator :=
         match l with
         | [] => g
         | s :: l' => generateBlock l' (generateStatement s g)
         end) stmts g
  | IfStatement cond thenB elseB =>
      let '(elseLabel, g) := generateLabel g in
      let '(endLabel, g) := generateLabel g in
      let g := generateExpression cond g in
      let g := emplace_back JE elseLabel "" "" g in
      let g := generateStatement thenB g in
      let g := emplace_back JMP endLabel "" "" g in
      let g := emplace_back LABEL elseLabel "" "" g in
      let g := match elseB with
               | Some s => generateStatement s g
               | None => g
               end in
      emplace_back LABEL endLabel "" "" g
  | WhileStatement cond body =>
      let '(startLabel, g) := generateLabel g in
      let '(endLabel, g) := generateLabel g in
      let g := emplace_back LABEL startLabel "" "" g in
      let g := generateExpression cond g in
      let g := emplace_back JE endLabel "" "" g in
      let g := generateStatement body g in
      let g := emplace_back JMP startLabel "" "" g in
      emplace_back LABEL endLabel "" "" g
  | ForStatement init cond inc body =>
      let '(startLabel, g) := generateLabel g in
      let '(endLabel, g) := generateLabel g in
      let g := match init with
               | Some s => generateStatement s g
               | None => g
               end in
      let g := emplace_back LABEL startLabel "" "" g in
      let g := match cond with
               | Some c => emplace_back JE endLabel "" "" (generateExpression c g)
               | None => g
               end in
      let g := generateStatement body g in
      let g := match inc with
               | Some i => generateExpression i g
               | None => g
               end in
      let g := emplace_back JMP startLabel "" "" g in
      emplace_back LABEL endLabel "" "" g
  | ReturnStatement value => generateReturnStatement value g
  | ExpressionStatement e => generateExpression e g
  end.

(** [CodeGenerator::generate] *)
Definition generate (statements : list Statement) (g : CodeGenerator) : CodeGenerator :=
  fold_left (fun g stmt => generateStatement stmt g) statements g.

(** [instructions.erase(it)] with the iterator given as an index; the
    returned iterator is the same index. *)
Definition erase (it : nat) (v : list Instruction) : list Instruction :=
  take it v ++ drop (S it) v.

(** The [while (it != instructions.end())] loop of [optimize].  Every
    iteration either advances [it] or shortens the vector, so the length
    of the vector is enough fuel. *)
Fixpoint optimize_loop (fuel : nat) (it : nat) (v : list Instruction)
  : option (list Instruction) :=
  match v !! it with
  | None => Some v                        (* it == instructions.end() *)
  | Some cur =>
      match fuel with
      | 0 => None
      | S fuel' =>
          if OpCode_eqb (opcode cur) LOAD &&
             match v !! (S it) with       (* std::next(it) != end && ... *)
             | Some nxt => OpCode_eqb (opcode nxt) STORE
             | None => false
             end
          then optimize_loop fuel' it (erase it (erase it v))
          else optimize_loop fuel' (S it) v
      end
  end.

Definition optimize (g : CodeGenerator) : option CodeGenerator :=
  match optimize_loop (length (instructions g)) 0 (instructions g) with
  | Some v => Some (mkCodeGenerator v (tempVarCounter g) (labelCounter g) (cerr g))
  | None => None
  end.

(** One line of [dumpCode], without the trailing newline. *)
Definition dumpInstruction (instr : Instruction) : string :=
  "  " +:+
  match opcode instr with
  | LOAD => "LOAD " +:+ arg1 instr +:+ " -> " +:+ result instr
  | STORE => "STORE " +:+ arg1 instr +:+ " -> " +:+ result instr
  | ADD => "ADD " +:+ arg1 instr +:+ ", " +:+ arg2 instr +:+ " -> " +:+ result instr
  | SUB => "SUB " +:+ arg1 instr +:+ ", " +:+ arg2 instr +:+ " -> " +:+ result instr
  | MUL => "MUL " +:+ arg1 instr +:+ ", " +:+ arg2 instr +:+ " -> " +:+ result instr
  | DIV => "DIV " +:+ arg1 instr +:+ ", " +:+ arg2 instr +:+ " -> " +:+ result instr
  | CMP => "CMP " +:+ arg1 instr +:+ ", " +:+ arg2 instr +:+ " -> " +:+ result instr
  | JMP => "JMP " +:+ arg1 instr
  | JE => "JE " +:+ arg1 instr
  | JNE => "JNE " +:+ arg1 instr
  | JG => "JG " +:+ arg1 instr
  | JL => "JL " +:+ arg1 instr
  | CALL => "CALL " +:+ arg1 instr
  | RET => "RET"
  | PUSH => "PUSH " +:+ arg1 instr
  | POP => "POP"
  | PRINT => "PRINT " +:+ arg1 instr
  | LABEL => arg1 instr +:+ ":"
  end.

Definition dumpCode (g : CodeGenerator) : list string :=
  map dumpInstruction (instructions g).

(** The peephole rule in the words of the specification: scan left to
    right; a [LOAD] immediately followed by a [STORE] is deleted together
    with that [STORE] and the scan resumes after the pair.  One pass. *)
Fixpoint single_scan (l : list Instruction) : list Instruction :=
  match l with
  | [] => []
  | a :: tl =>
      match tl with
      | b :: rest =>
          if OpCode_eqb (opcode a) LOAD && OpCode_eqb (opcode b) STORE
          then single_scan rest
          else a :: single_scan tl
      | [] => [a]
      end
  end.

(** Some [LOAD] is immediately followed by a [STORE]. *)
Fixpoint has_load_store_pair (l : list Instruction) : bool :=
  match l with
  | a :: tl =>
      match tl with
      | b :: _ =>
          (OpCode_eqb (opcode a) LOAD && OpCode_eqb (opcode b) STORE)
          || has_load_store_pair tl
      | [] => false
      end
  | [] => false
  end.

End CodeGen.

(** ** symboltable.h / symboltable.cpp *)

Module Symbols.

Inductive SymbolKind : Set := VARIABLE | FUNCTION | PARAMETER.

Definition SymbolKind_eqb (a b : SymbolKind) : bool :=
  match a, b with
  | VARIABLE, VARIABLE | FUNCTION, FUNCTION | PARAMETER, PARAMETER => true
  | _, _ => false
  end.

(** The two-argument constructors of [Symbol] leave [returnType]
    (variables, parameters) or [type] (functions) indeterminate; the
    checker never reads the indeterminate member, and the model fills it
    with [VOID]. *)
Record Symbol : Type := mkSymbol {
  name : string;
  type : TokenType;
  isPointer : bool;
  kind : SymbolKind;
  returnType : TokenType;
  parameters : list (string * TokenType)
}.

(** [Symbol(name, type, isPointer, kind)] *)
Definition variableSymbol (n : string) (t : TokenType) (p : bool) (k : SymbolKind)
  : Symbol := mkSymbol n t p k VOID [].

(** [Symbol(name, returnType, parameters)] *)
Definition functionSymbol (n : string) (rt : TokenType)
    (params : list (string * TokenType)) : Symbol :=
  mkSymbol n VOID false FUNCTION rt params.

Abbreviation Scope := (gmap string Symbol).

Definition Scope_contains (n : string) (sc : Scope) : bool :=
  match sc !! n with Some _ => true | None => false end.

(** [Scope::define]: the new scope and the returned flag. *)
Definition Scope_define (sym : Symbol) (sc : Scope) : bool * Scope :=
  if Scope_contains (name sym) sc then (false, sc)
  else (true, <[name sym := sym]> sc).

Definition Scope_resolve (n : string) (sc : Scope) : option Symbol := sc !! n.

(** The vector of scopes; index 0 is the global scope, the last element
    is [scopes.back()]. *)
Record SymbolTable : Type := mkSymbolTable { scopes : list Scope }.

Definition enterScope (st : SymbolTable) : SymbolTable :=
  mkSymbolTable (scopes st ++ [∅]).

(** [SymbolTable::SymbolTable()] creates the global scope. *)
Definition newSymbolTable : SymbolTable := enterScope (mkSymbolTable []).

Definition exitScope (st : SymbolTable) : SymbolTable :=
  if (1 <? length (scopes st))%nat
  then mkSymbolTable (removelast (scopes st))       (* pop_back *)
  else st.

(** [scopes.back()->define(symbol)]; on an empty vector [back()] is
    undefined behaviour, which never arises after construction: the model
    leaves the table unchanged and answers [false]. *)
Definition define (sym : Symbol) (st : SymbolTable) : bool * SymbolTable :=
  match last (scopes st) with
  | Some sc =>
      let '(ok, sc') := Scope_define sym sc in
      (ok, mkSymbolTable (removelast (scopes st) ++ [sc']))
  | None => (false, st)
  end.

(** Search from innermost to outermost scope. *)
Definition resolve (n : string) (st : SymbolTable) : option Symbol :=
  (fix walk (l : list Scope) : option Symbol :=
     match l with
     | [] => None
     | sc :: l' =>
         match Scope_resolve n sc with
         | Some sym => Some sym
         | None => walk l'
         end
     end) (rev (scopes st)).

Definition resolveLocal (n : string) (st : SymbolTable) : option Symbol :=
  match last (scopes st) with
  | Some sc => Scope_resolve n sc
  | None => None
  end.

Definition isGlobalScope (st : SymbolTable) : bool :=
  (length (scopes st) =? 1)%nat.

(** Calls a client can make on a table, and their replay. *)
Inductive ScopeCall : Type :=
  | CallEnter
  | CallExit
  | CallDefine (sym : Symbol).

Definition runCall (c : ScopeCall) (st : SymbolTable) : SymbolTable :=
  match c with
  | CallEnter => enterScope st
  | CallExit => exitScope st
  | CallDefine sym => snd (define sym st)
  end.

Definition runCalls (cs : list ScopeCall) (st : SymbolTable) : SymbolTable :=
  fold_left (fun st c => runCall c st) cs st.

(** A sequence of calls is balanced when every [exit_scope] closes an
    earlier, still open [enter_scope] and none stays open at the end.
    [open] counts the scopes entered and not yet exited. *)
Fixpoint balancedFrom (open : nat) (cs : list ScopeCall) : bool :=
  match cs with
  | [] => (open =? 0)%nat
  | CallEnter :: cs' => balancedFrom (S open) cs'
  | CallExit :: cs' =>
      match open with
      | 0 => false
      | S o => balancedFrom o cs'
      end
  | CallDefine _ :: cs' => balancedFrom open cs'
  end.

Definition balanced (cs : list ScopeCall) : bool := balancedFrom 0 cs.

(** The symbols a sequence of calls defines in the scope it starts in:
    those of the [define] calls made while no scope entered by the
    sequence is open. *)
Fixpoint outerDefines (open : nat) (cs : list ScopeCall) : list Symbol :=
  match cs with
  | [] => []
  | CallEnter :: cs' => outerDefines (S open) cs'
  | CallExit :: cs' => outerDefines (Nat.pred open) cs'
  | CallDefine sym :: cs' =>
      match open with
      | 0 => sym :: outerDefines open cs'
      | S _ => outerDefines open cs'
      end
  end.

(** [define] for each symbol of a list, in order. *)
Definition defineAll (syms : list Symbol) (st : SymbolTable) : SymbolTable :=
  fold_left (fun st sym => snd (define sym st)) syms st.

End Symbols.

(** ** typechecker.h / typechecker.cpp *)

Module TypeCheck.

Import Symbols.

Record TypeChecker : Type := mkTypeChecker {
  symbolTable : SymbolTable;
  currentFunctionReturnType : TokenType;
  inFunctionBody : bool;
  currentFunctionName : string
}.

(** [TypeChecker::TypeChecker()] *)
Definition newTypeChecker : TypeChecker :=
  mkTypeChecker newSymbolTable VOID false "".

Definition withSymbolTable (f : SymbolTable -> SymbolTable) (tc : TypeChecker)
  : TypeChecker :=
  mkTypeChecker (f (symbolTable tc)) (currentFunctionReturnType tc)
                (inFunctionBody tc) (currentFunctionName tc).

Definition setFunctionContext (n : string) (rt : TokenType) (inBody : bool)
    (tc : TypeChecker) : TypeChecker :=
  mkTypeChecker (symbolTable tc) rt inBody n.

Definition isNumericType (t : TokenType) : bool :=
  TokenType_eqb t INTEGER_LITERAL || TokenType_eqb t FLOAT_LITERAL ||
  TokenType_eqb t INT || TokenType_eqb t FLOAT.

Definition isBooleanType (t : TokenType) : bool :=
  TokenType_eqb t BOOL || TokenType_eqb t BOOL_LITERAL ||
  TokenType_eqb t TRUE || TokenType_eqb t FALSE.

Definition isPointerType (t : TokenType) : bool := TokenType_eqb t POINTER.

Definition isCompatibleType (l r : TokenType) : bool :=
  (* Exact match *)
  if TokenType_eqb l r then true
  (* Numeric type compatibility *)
  else if isNumericType l && isNumericType r then true
  (* Boolean type compatibility *)
  else if isBooleanType l && isBooleanType r then true
  (* Pointer compatibility (simplified): allow pointer = 0 (null) *)
  else if isPointerType l && TokenType_eqb r INTEGER_LITERAL then true
  else false.

Definition tokenTypeToString (t : TokenType) : string :=
  match t with
  | INT => "int"
  | FLOAT => "float"
  | CHAR => "char"
  | VOID => "void"
  | BOOL => "bool"
  | STRING_LITERAL => "string"
  | INTEGER_LITERAL => "int"
  | FLOAT_LITERAL => "float"
  | CHAR_LITERAL => "char"
  | BOOL_LITERAL => "bool"
  | POINTER => "pointer"
  | _ => "unknown"
  end.

Abbreviation TC := (M TypeChecker).

Definition resolveM (n : string) : TC (option Symbol) :=
  gets (fun tc => resolve n (symbolTable tc)).

(** [symbol->isPointer ? TokenType::POINTER : symbol->type] *)
Definition symbolType (sym : Symbol) : TokenType :=
  if Symbols.isPointer sym then POINTER else Symbols.type sym.

Definition isComparison (op : TokenType) : bool :=
  TokenType_eqb op EQUAL_EQUAL || TokenType_eqb op NOT_EQUAL ||
  TokenType_eqb op LESS || TokenType_eqb op LESS_EQUAL ||
  TokenType_eqb op GREATER || TokenType_eqb op GREATER_EQUAL.

Definition isArithmetic (op : TokenType) : bool :=
  TokenType_eqb op PLUS || TokenType_eqb op MINUS ||
  TokenType_eqb op MULTIPLY || TokenType_eqb op SLASH.

(** The part of [checkBinary] after both operands have been checked. *)
Definition checkBinaryTypes (leftType op rightType : TokenType) : TC TokenType :=
  (* Special case for stream operators *)
  if TokenType_eqb op LEFT_SHIFT || TokenType_eqb op RIGHT_SHIFT then ret leftType
  (* Check arithmetic operators *)
  else if isArithmetic op then
    (* String concatenation with + *)
    if TokenType_eqb op PLUS &&
       (TokenType_eqb leftType STRING_LITERAL || TokenType_eqb rightType STRING_LITERAL)
    then ret STRING_LITERAL
    (* Pointer arithmetic *)
    else if (TokenType_eqb op PLUS || TokenType_eqb op MINUS) &&
            (TokenType_eqb leftType POINTER && isNumericType rightType)
    then ret POINTER
    else if (TokenType_eqb op PLUS || TokenType_eqb op MINUS) &&
            (TokenType_eqb rightType POINTER && TokenType_eqb op PLUS &&
             isNumericType leftType)
    then ret POINTER
    (* Regular arithmetic *)
    else if negb (isNumericType leftType) || negb (isNumericType rightType) then
      throw ("Binary operator '" +:+ tokenTypeToString op +:+
             "' requires numeric operands, got " +:+
             tokenTypeToString leftType +:+ " and " +:+
             tokenTypeToString rightType)
    else if TokenType_eqb leftType FLOAT_LITERAL || TokenType_eqb rightType FLOAT_LITERAL
    then ret FLOAT_LITERAL
    else ret INTEGER_LITERAL
  (* Comparison operators *)
  else if isComparison op then
    if negb (isCompatibleType leftType rightType) then
      throw ("Cannot compare incompatible types: " +:+
             tokenTypeToString leftType +:+ " and " +:+
             tokenTypeToString rightType)
    else ret BOOL
  else throw ("Unsupported binary operator: " +:+ to_string (TokenType_code op)).

(** The [switch] of [checkUnary]. *)
Definition checkUnaryType (op rightType : TokenType) : TC TokenType :=
  match op with
  | MINUS | PLUS =>
      if negb (isNumericType rightType)
      then throw "Unary '+' and '-' operators require numeric operands"
      else ret rightType
  | NOT => ret BOOL
  | INCREMENT | DECREMENT =>
      if negb (isNumericType rightType)
      then throw "Increment and decrement operators require numeric operands"
      else ret rightType
  | MULTIPLY =>
      if negb (TokenType_eqb rightType POINTER)
      then throw "Cannot dereference non-pointer type"
      else ret INT
  | AMPERSAND => ret POINTER
  | _ => throw ("Unsupported unary operator: " +:+ to_string (TokenType_code op))
  end.

(** [leftType != rightType && !(leftType == FLOAT && (rightType ==
    INTEGER_LITERAL || rightType == INT))], the strict rule of assignments
    and arguments. *)
Definition strictMismatch (leftType rightType : TokenType) : bool :=
  negb (TokenType_eqb leftType rightType) &&
  negb (TokenType_eqb leftType FLOAT &&
        (TokenType_eqb rightType INTEGER_LITERAL || TokenType_eqb rightType INT)).

Fixpoint checkExpression (expr : Expression) : TC TokenType :=
  match expr with
  | LiteralExpression _ literalType => ret literalType
  | IdentifierExpression n =>
      let* symbol := resolveM n in
      match symbol with
      | None => throw ("Undefined variable '" +:+ n +:+ "'")
      | Some sym =>
          if SymbolKind_eqb (kind sym) FUNCTION
          then throw ("'" +:+ n +:+ "' is a function and cannot be used as a variable")
          else ret (symbolType sym)
      end
  | UnaryExpression op operand =>
      let* rightType := checkExpression operand in
      checkUnaryType op rightType
  | BinaryExpression l op r =>
      let* leftType := checkExpression l in
      let* rightType := checkExpression r in
      checkBinaryTypes leftType op rightType
  | LogicalExpression l op r =>
      let* leftType := checkExpression l in
      let* rightType := checkExpression r in
      if negb (isBooleanType leftType) then
        throw ("Left operand of logical operator must be boolean, got " +:+
               tokenTypeToString leftType)
      else if negb (isBooleanType rightType) then
        throw ("Right operand of logical operator must be boolean, got " +:+
               tokenTypeToString rightType)
      else ret BOOL
  | AssignExpression n op value =>
      let* symbol := resolveM n in
      match symbol with
      | None => throw ("Cannot assign to undeclared variable '" +:+ n +:+ "'")
      | Some sym =>
          if SymbolKind_eqb (kind sym) FUNCTION
          then throw ("Cannot assign to function '" +:+ n +:+ "'")
          else
            let leftType := symbolType sym in
            let* rightType := checkExpression value in
            if strictMismatch leftType rightType then
              throw ("Cannot assign " +:+ tokenTypeToString rightType +:+
                     " to variable of type " +:+ tokenTypeToString leftType)
            else ret leftType
      end
  | CallExpression callee args =>
      let* symbol := resolveM callee in
      match symbol with
      | None => throw ("Undefined function '" +:+ callee +:+ "'")
      | Some sym =>
          if negb (SymbolKind_eqb (kind sym) FUNCTION)
          then throw ("'" +:+ callee +:+ "' is not a function")
          else
            let params := Symbols.parameters sym in
            if negb (length params =? length args)%nat then
              throw ("Function '" +:+ callee +:+ "' expects " +:+
                     to_string (length params) +:+ " arguments, but got " +:+
                     to_string (length args))
            else
              (fix checkArgs (i : nat) (rest : list Expression) : TC unit :=
                 match rest with
                 | [] => ret tt
                 | arg :: rest' =>
                     let* argType := checkExpression arg in
                     match params !! i with
                     | Some (_, paramType) =>
                         if strictMismatch paramType argType then
                           throw ("Argument " +:+ to_string (i + 1) +:+
                                  " to function '" +:+ callee +:+
                                  "' has incompatible type: expected " +:+
                                  tokenTypeToString paramType +:+ ", got " +:+
                                  tokenTypeToString argType)
                         else checkArgs (S i) rest'
                     | None => checkArgs (S i) rest'   (* sizes are equal *)
                     end
                 end) 0 args;;
              ret (Symbols.returnType sym)
      end
  end.

Definition checkVariableDeclaration (t : TokenType) (isPtr : bool) (n : string)
    (init : option Expression) : TC unit :=
  (* Check if already defined in any scope, not just the current one *)
  let* existing := resolveM n in
  match existing with
  | Some _ => throw ("Variable '" +:+ n +:+ "' already defined")
  | None =>
      match init with
      | Some e =>
          let* initType := checkExpression e in
          if negb (isCompatibleType t initType) then
            throw ("Cannot initialize variable of type " +:+
                   tokenTypeToString (if isPtr then POINTER else t) +:+
                   " with value of type " +:+ tokenTypeToString initType)
          else ret tt
      | None => ret tt
      end;;
      modify (withSymbolTable (fun st => snd (define (variableSymbol n t isPtr VARIABLE) st)))
  end.

Definition checkReturnStatement (value : option Expression) : TC unit :=
  let* tc := get in
  if negb (inFunctionBody tc) then throw "Return statement outside of function body"
  else
    match value with
    | Some e =>
        let* rt := checkExpression e in
        if TokenType_eqb (currentFunctionReturnType tc) VOID then
          throw "Cannot return a value from void function"
        else if negb (isCompatibleType (currentFunctionReturnType tc) rt) then
          throw ("Function '" +:+ currentFunctionName tc +:+ "' returns " +:+
                 tokenTypeToString (currentFunctionReturnType tc) +:+
                 " but got " +:+ tokenTypeToString rt)
        else ret tt
    | None =>
        if negb (TokenType_eqb (currentFunctionReturnType tc) VOID) then
          throw ("Function '" +:+ currentFunctionName tc +:+
                 "' must return a value of type " +:+
                 tokenTypeToString (currentFunctionReturnType tc))
        else ret tt
    end.

(** The condition check shared by [if], [while] and [for]; [what] is the
    prefix of the message. *)
Definition checkCondition (what : string) (cond : Expression) : TC unit :=
  let* condType := checkExpression cond in
  if negb (isBooleanType condType)
  then throw (what +:+ tokenTypeToString condType)
  else ret tt.

Fixpoint checkStatement (stmt : Statement) : TC unit :=
  match stmt with
  | ExpressionStatement e => checkExpression e;; ret tt
  | BlockStatement stmts =>
      modify (withSymbolTable enterScope);;
      (fix checkAll (l : list Statement) : TC unit :=
         match l with
         | [] => ret tt
         | s :: l' => checkStatement s;; checkAll l'
         end) stmts;;
      modify (withSymbolTable exitScope)
  | VariableDeclaration t isPtr n init => checkVariableDeclaration t isPtr n init
  | FunctionDeclaration n rt params body =>
      (* Function should already be in symbol table from first pass *)
      let* symbol := resolveM n in
      match symbol with
      | Some sym =>
          if negb (SymbolKind_eqb (kind sym) FUNCTION)
          then throw "Internal error: function not found in symbol table"
          else
            (* Set current function for return checking *)
            let* saved := get in
            modify (setFunctionContext n rt true);;
            (* Enter function scope *)
            modify (withSymbolTable enterScope);;
            (* Add parameters to symbol table *)
            modify (withSymbolTable (fun st =>
              fold_left (fun st (param : string * TokenType) =>
                           snd (define (variableSymbol (fst param) (snd param)
                                          (TokenType_eqb (snd param) POINTER)
                                          PARAMETER) st))
                        params st));;
            (* Check function body *)
            checkStatement body;;
            (* Exit function scope *)
            modify (withSymbolTable exitScope);;
            (* Restore previous function context *)
            modify (setFunctionContext (currentFunctionName saved)
                                       (currentFunctionReturnType saved)
                                       (inFunctionBody saved))
      | None => throw "Internal error: function not found in symbol table"
      end
  | IfStatement cond thenB elseB =>
      checkCondition "If condition must be boolean, got " cond;;
      checkStatement thenB;;
      match elseB with
      | Some s => checkStatement s
      | None => ret tt
      end
  | WhileStatement cond body =>
      checkCondition "While condition must be boolean, got " cond;;
      checkStatement body
  | ForStatement init cond inc body =>
      modify (withSymbolTable enterScope);;
      match init with
      | Some s => checkStatement s
      | None => ret tt
      end;;
      match cond with
      | Some c => checkCondition "For loop condition must be boolean, got " c
      | None => ret tt
      end;;
      match inc with
      | Some i => checkExpression i;; ret tt
      | None => ret tt
      end;;
      checkStatement body;;
      modify (withSymbolTable exitScope)
  | ReturnStatement value => checkReturnStatement value
  end.

(** First pass of [check]: register the top-level functions; the
    messages for duplicates are appended to [errors]. *)
Fixpoint registerFunctions (stmts : list Statement) (errors : list string)
    (tc : TypeChecker) : list string * TypeChecker :=
  match stmts with
  | [] => (errors, tc)
  | FunctionDeclaration n rt params _ :: rest =>
      let '(ok, st) := define (functionSymbol n rt params) (symbolTable tc) in
      let tc := withSymbolTable (fun _ => st) tc in
      registerFunctions rest
        (if ok then errors else errors ++ ["Function '" +:+ n +:+ "' already defined"])
        tc
  | _ :: rest => registerFunctions rest errors tc
  end.

(** Second pass of [check]: each statement under its own [try]. *)
Fixpoint checkAllStatements (stmts : list Statement) (errors : list string)
    (tc : TypeChecker) : list string * TypeChecker :=
  match stmts with
  | [] => (errors, tc)
  | stmt :: rest =>
      match checkStatement stmt tc with
      | (Throw w, tc') => checkAllStatements rest (errors ++ [what w]) tc'
      | (_, tc') => checkAllStatements rest errors tc'
      end
  end.

Definition errorReport (errors : list string) : string :=
  "Found " +:+ to_string (length errors) +:+ " semantic errors:" +:+ endl +:+
  fold_left (fun acc e => acc +:+ "- " +:+ e +:+ endl) errors "".

(** [TypeChecker::check] *)
Definition check (statements : list Statement) : TC unit :=
  fun tc =>
    let '(errors, tc) := registerFunctions statements [] tc in
    let '(errors, tc) := checkAllStatements statements errors tc in
    match errors with
    | [] => (Ok tt, tc)
    | _ => (Throw (errorReport errors), tc)
    end.

(** The number of live scopes of the checker's table. *)
Definition scopeDepth (tc : TypeChecker) : nat :=
  length (scopes (symbolTable tc)).

End TypeCheck.

(** ** lexer.h / lexer.cpp *)

Module Lex.

Record Lexer : Set := mkLexer {
  source : string;
  position : nat;
  line : nat;
  column : nat
}.

(** [Lexer::Lexer(source)] *)
Definition newLexer (src : string) : Lexer := mkLexer src 0 1 1.

(** The keyword table filled by [initializeKeywords]. *)
Definition keywords : gmap string TokenType :=
  <["int" := INT]> (<["float" := FLOAT]> (<["char" := CHAR]> (<["void" := VOID]> (
  <["bool" := BOOL]> (<["string" := STRING_LITERAL]> (<["if" := IF]> (
  <["else" := ELSE]> (<["while" := WHILE]> (<["for" := FOR]> (
  <["return" := RETURN]> (<["true" := TRUE]> (<["false" := FALSE]> (
  <["cout" := COUT]> (<["cin" := CIN]> (<["endl" := ENDL]> (
  <["using" := USING]> (<["namespace" := NAMESPACE]> (<["std" := STD]> (
  <["include" := INCLUDE]> ∅))))))))))))))))))).

Abbreviation LX := (M Lexer).

Definition NUL : ascii := ascii_of_nat 0.

(** [<cctype>] in the "C" locale. *)
Definition isspace (c : ascii) : bool :=
  let n := nat_of_ascii c in ((9 <=? n) && (n <=? 13) || (n =? 32))%nat.
Definition isdigit (c : ascii) : bool :=
  let n := nat_of_ascii c in ((48 <=? n) && (n <=? 57))%nat.
Definition isalpha (c : ascii) : bool :=
  let n := nat_of_ascii c in
  ((65 <=? n) && (n <=? 90) || (97 <=? n) && (n <=? 122))%nat.
Definition isalnum (c : ascii) : bool := isalpha c || isdigit c.

(** [source[i]] for [i < source.length()]. *)
Definition charAt (i : nat) (src : string) : ascii :=
  match String.get i src with
  | Some c => c
  | None => NUL
  end.

Definition peekAt (lx : Lexer) : ascii :=
  if (String.length (source lx) <=? position lx)%nat then NUL
  else charAt (position lx) (source lx).

Definition peek : LX ascii := gets peekAt.

Definition advance : LX ascii :=
  fun lx =>
    let current := peekAt lx in
    (Ok current,
     if Ascii.eqb current (ascii_of_nat 10)
     then mkLexer (source lx) (S (position lx)) (S (line lx)) 1
     else mkLexer (source lx) (S (position lx)) (line lx) (S (column lx))).

Definition match_ (expected : ascii) : LX bool :=
  let* c := peek in
  if Ascii.eqb c expected then advance;; ret true else ret false.

(** [position + 1 < source.length()] *)
Definition hasNext (lx : Lexer) : bool :=
  (position lx + 1 <? String.length (source lx))%nat.

(** [source[position + 1]], read only under [hasNext]. *)
Definition nextChar (lx : Lexer) : ascii := charAt (position lx + 1) (source lx).

(** [while (cond(peek())) advance();] *)
Fixpoint skipWhile (fuel : nat) (cond : ascii -> bool) : LX unit :=
  let* c := peek in
  if cond c then
    match fuel with
    | 0 => outOfFuel
    | S fuel' => advance;; skipWhile fuel' cond
    end
  else ret tt.

(** [while (cond(peek())) lexeme += advance();] *)
Fixpoint readWhile (fuel : nat) (cond : ascii -> bool) (lexeme : string) : LX string :=
  let* c := peek in
  if cond c then
    match fuel with
    | 0 => outOfFuel
    | S fuel' => let* a := advance in readWhile fuel' cond (lexeme +:+ String a "")
    end
  else ret lexeme.

Definition skipWhitespace (fuel : nat) : LX unit := skipWhile fuel isspace.

(** The loop of the multi-line branch of [skipComment]. *)
Fixpoint skipBlockComment (fuel : nat) : LX unit :=
  let* lx := get in
  if hasNext lx then
    match fuel with
    | 0 => outOfFuel
    | S fuel' =>
        if Ascii.eqb (peekAt lx) "*"%char && Ascii.eqb (nextChar lx) "/"%char
        then advance;; advance;; ret tt       (* Skip the closing pair, break *)
        else advance;; skipBlockComment fuel'
    end
  else ret tt.

Definition skipComment (fuel : nat) : LX unit :=
  let* lx := get in
  if Ascii.eqb (peekAt lx) "/"%char && hasNext lx then
    if Ascii.eqb (nextChar lx) "/"%char then
      (* Single-line comment *)
      skipWhile fuel (fun c => negb (Ascii.eqb c (ascii_of_nat 10)) &&
                               negb (Ascii.eqb c NUL))
    else if Ascii.eqb (nextChar lx) "*"%char then
      (* Multi-line comment *)
      advance;; advance;; skipBlockComment fuel
    else ret tt
  else ret tt.

Definition token (t : TokenType) (lexeme : string) : LX Token :=
  gets (fun lx => mkToken t lexeme (line lx)).

Definition identifier (fuel : nat) : LX Token :=
  let* lexeme := readWhile fuel (fun c => isalnum c || Ascii.eqb c "_"%char) "" in
  match keywords !! lexeme with
  | Some t => token t lexeme
  | None => token IDENTIFIER lexeme
  end.

(** The loop of [number]; [isFloat] is set by the first ['.']. *)
Fixpoint numberLoop (fuel : nat) (isFloat : bool) (lexeme : string)
  : LX (bool * string) :=
  let* c := peek in
  if isdigit c || Ascii.eqb c "."%char then
    if Ascii.eqb c "."%char && isFloat then ret (isFloat, lexeme)     (* break *)
    else
      match fuel with
      | 0 => outOfFuel
      | S fuel' =>
          let* a := advance in
          numberLoop fuel' (isFloat || Ascii.eqb c "."%char) (lexeme +:+ String a "")
      end
  else ret (isFloat, lexeme).

Definition number (fuel : nat) : LX Token :=
  let* (isFloat, lexeme) := numberLoop fuel false "" in
  token (if isFloat then FLOAT_LITERAL else INTEGER_LITERAL) lexeme.

Definition QUOTE : ascii := ascii_of_nat 34.
Definition APOSTROPHE : ascii := ascii_of_nat 39.
Definition BACKSLASH : ascii := ascii_of_nat 92.

(** The character an escape letter stands for in [string()]. *)
Definition stringEscape (c : ascii) : ascii :=
  if Ascii.eqb c "n"%char then ascii_of_nat 10
  else if Ascii.eqb c "t"%char then ascii_of_nat 9
  else if Ascii.eqb c "r"%char then ascii_of_nat 13
  else c.                       (* backslash, quote and every other character *)

Fixpoint stringLoop (fuel : nat) (lexeme : string) : LX string :=
  let* c := peek in
  if negb (Ascii.eqb c QUOTE) && negb (Ascii.eqb c NUL) then
    match fuel with
    | 0 => outOfFuel
    | S fuel' =>
        if Ascii.eqb c BACKSLASH then
          advance;;
          let* e := peek in
          advance;;
          stringLoop fuel' (lexeme +:+ String (stringEscape e) "")
        else
          let* a := advance in
          stringLoop fuel' (lexeme +:+ String a "")
    end
  else ret lexeme.

Definition string_ (fuel : nat) : LX Token :=
  let* lexeme := stringLoop fuel "" in
  let* c := peek in
  if Ascii.eqb c QUOTE then
    advance;;                                      (* Consume closing quote *)
    token STRING_LITERAL lexeme
  else throw "Unterminated string".

Definition character : LX Token :=
  let* c := peek in
  let* value :=
    if Ascii.eqb c BACKSLASH then
      advance;;                                    (* Skip backslash *)
      let* e := peek in
      advance;;
      ret (String (stringEscape e) "")
    else
      let* a := advance in ret (String a "") in
  let* c := peek in
  if Ascii.eqb c APOSTROPHE then
    advance;;                                      (* Skip closing quote *)
    token CHAR_LITERAL value
  else throw "Invalid character literal".

Definition preprocessorDirective (fuel : nat) : LX Token :=
  advance;;                                        (* Skip the # *)
  skipWhitespace fuel;;
  let* lexeme := readWhile fuel isalpha "" in
  let* c0 :=
    (if String.eqb lexeme "include" then skipWhitespace fuel else ret tt);;
    peek in
  if String.eqb lexeme "include" &&
     (Ascii.eqb c0 "<"%char || Ascii.eqb c0 QUOTE) then
    let terminator := if Ascii.eqb c0 "<"%char then ">"%char else QUOTE in
    advance;;                                      (* Skip opening < or quote *)
    let* header :=
      readWhile fuel (fun c => negb (Ascii.eqb c terminator) &&
                               negb (Ascii.eqb c NUL)) "" in
    let* c := peek in
    (if Ascii.eqb c terminator then advance;; ret tt else ret tt);;
    token INCLUDE header
  else token HASH lexeme.

(** The [switch (c)] of [getNextToken], after [c] has been consumed. *)
Definition punctuation (fuel : nat) (c : ascii) : LX Token :=
  let two (second : ascii) (t : TokenType) (lexeme : string) (otherwise : LX Token)
    : LX Token :=
    let* m := match_ second in
    if m then token t lexeme else otherwise in
  if Ascii.eqb c "+"%char then
    two "+"%char INCREMENT "++" (two "="%char PLUS_EQUAL "+=" (token PLUS "+"))
  else if Ascii.eqb c "-"%char then
    two "-"%char DECREMENT "--" (two "="%char MINUS_EQUAL "-="
      (two ">"%char ARROW "->" (token MINUS "-")))
  else if Ascii.eqb c "*"%char then
    two "="%char MULTIPLY_EQUAL "*=" (token MULTIPLY "*")
  else if Ascii.eqb c "/"%char then
    two "="%char DIVIDE_EQUAL "/=" (token SLASH "/")
  else if Ascii.eqb c "("%char then token LPAREN "("
  else if Ascii.eqb c ")"%char then token RPAREN ")"
  else if Ascii.eqb c "{"%char then token LBRACE "{"
  else if Ascii.eqb c "}"%char then token RBRACE "}"
  else if Ascii.eqb c "["%char then token LBRACKET "["
  else if Ascii.eqb c "]"%char then token RBRACKET "]"
  else if Ascii.eqb c ";"%char then token SEMICOLON ";"
  else if Ascii.eqb c ","%char then token COMMA ","
  else if Ascii.eqb c "."%char then token DOT "."
  else if Ascii.eqb c "&"%char then
    two "&"%char AND "&&" (token AMPERSAND "&")
  else if Ascii.eqb c "|"%char then
    two "|"%char OR "||" (token PIPE "|")
  else if Ascii.eqb c "<"%char then
    two "="%char LESS_EQUAL "<=" (two "<"%char LEFT_SHIFT "<<" (token LESS "<"))
  else if Ascii.eqb c ">"%char then
    two "="%char GREATER_EQUAL ">=" (two ">"%char RIGHT_SHIFT ">>" (token GREATER ">"))
  else if Ascii.eqb c "="%char then
    two "="%char EQUAL_EQUAL "==" (token EQUAL "=")
  else if Ascii.eqb c "!"%char then
    two "="%char NOT_EQUAL "!=" (token NOT "!")
  else if Ascii.eqb c QUOTE then string_ fuel
  else if Ascii.eqb c APOSTROPHE then character
  (* the byte is appended to a std::string; the message of the exception,
     a C string, ends before it when the byte is NUL *)
  else throw (what ("Unexpected character: " +:+ String c "")).

(** [getNextToken]; [fuel] bounds the recursion after a comment and each
    inner loop. *)
Fixpoint getNextTokenFuel (fuel : nat) : LX Token :=
  skipWhitespace fuel;;
  let* lx := get in
  if (String.length (source lx) <=? position lx)%nat then token END_OF_FILE ""
  else
    let c := peekAt lx in
    (* Handle comments *)
    if Ascii.eqb c "/"%char && hasNext lx &&
       (Ascii.eqb (nextChar lx) "/"%char || Ascii.eqb (nextChar lx) "*"%char) then
      match fuel with
      | 0 => outOfFuel
      | S fuel' => skipComment fuel;; getNextTokenFuel fuel'
      end
    (* Handle preprocessor directives *)
    else if Ascii.eqb c "#"%char then preprocessorDirective fuel
    else if isalpha c || Ascii.eqb c "_"%char then identifier fuel
    else if isdigit c then number fuel
    else
      advance;;                                    (* Consume the character *)
      punctuation fuel c.

(** Every loop iteration and every recursive call consumes a character,
    so the length of the source bounds them all. *)
Definition getNextToken : LX Token :=
  fun lx => getNextTokenFuel (S (String.length (source lx))) lx.

(** What successive calls of [getNextToken] deliver: a token or the
    message of the exception thrown instead. *)
Inductive Lexed : Set :=
  | Tok (t : Token)
  | LexError (what : string).

(** The results of the calls of [getNextToken] up to and including the
    first [END_OF_FILE]; later calls repeat that token. *)
Fixpoint tokenizeFuel (fuel : nat) (lx : Lexer) : option (list Lexed) :=
  match fuel with
  | 0 => None
  | S fuel' =>
      match getNextToken lx with
      | (Ok t, lx') =>
          if TokenType_eqb (type t) END_OF_FILE then Some [Tok t]
          else option_map (cons (Tok t)) (tokenizeFuel fuel' lx')
      | (Throw w, lx') => option_map (cons (LexError w)) (tokenizeFuel fuel' lx')
      | (OutOfFuel, _) => None
      end
  end.

Definition tokenize (src : string) : option (list Lexed) :=
  tokenizeFuel (S (S (String.length src))) (newLexer src).

End Lex.

(** ** parser.h / parser.cpp *)

Module Parse.



(** The parser object.  [lexer] stands for the [Lexer&] member: the parser
    only ever calls [getNextToken] on it, and the lexer's answers do not
    depend on the parser, so the member is represented by the results of
    its coming calls (see [Lex.tokenize]); once they are used up the lexer
    keeps answering [END_OF_FILE]. *)
Record Parser : Set := mkParser {
  currentToken : Token;
  lexer : list Lex.Lexed
}.

Abbreviation P := (M Parser).

(** [currentToken = lexer.getNextToken()]; when the lexer throws, the
    assignment does not happen. *)
Definition advance : P unit :=
  fun p =>
    match lexer p with
    | Lex.Tok t :: rest => (Ok tt, mkParser t rest)
    | Lex.LexError w :: rest => (Throw w, mkParser (currentToken p) rest)
    | [] => (Ok tt, mkParser (mkToken END_OF_FILE "" (line (currentToken p))) [])
    end.

(** [Parser::Parser(lexer)] gets the first token. *)
Definition newParser (results : list Lex.Lexed) : Outcome unit * Parser :=
  advance (mkParser defaultToken results).

Definition peek : P Token := gets currentToken.

Definition check (t : TokenType) : P bool :=
  gets (fun p => TokenType_eqb (type (currentToken p)) t).

(** [check(t1) || check(t2) || ...] *)
Definition checkAny (ts : list TokenType) : P bool :=
  gets (fun p => existsb (TokenType_eqb (type (currentToken p))) ts).

Definition match_ (t : TokenType) : P bool :=
  let* c := check t in
  if c then advance;; ret true else ret false.

Definition consume (t : TokenType) (message : string) : P unit :=
  let* c := check t in
  if c then advance else throw message.

(** The tokens at which [synchronize] stops without consuming them. *)
Definition statementStart : list TokenType :=
  [INT; FLOAT; CHAR; VOID; IF; WHILE; FOR; RETURN].

(** The [while] loop of [synchronize], by recursion on the results the
    lexer still holds: each turn of the loop that does not return calls
    [advance]. *)
Fixpoint synchronizeLoop (cur : Token) (pending : list Lex.Lexed) : Outcome unit * Parser :=
  if TokenType_eqb (type cur) END_OF_FILE then (Ok tt, mkParser cur pending)
  else if TokenType_eqb (type cur) SEMICOLON || TokenType_eqb (type cur) RBRACE
  then advance (mkParser cur pending)
  else if existsb (TokenType_eqb (type cur)) statementStart
  then (Ok tt, mkParser cur pending)
  else
    match pending with
    | Lex.Tok t :: rest => synchronizeLoop t rest
    | Lex.LexError w :: rest => (Throw w, mkParser cur rest)
    | [] => (Ok tt, mkParser (mkToken END_OF_FILE "" (line cur)) [])
    end.

Definition synchronize : P unit :=
  advance;;
  fun p => synchronizeLoop (currentToken p) (lexer p).

(** [while (cond(currentToken)) { acc += currentToken.lexeme; advance(); }]
    for a condition that fails on [END_OF_FILE]; the accumulated lexemes
    are returned. *)
Fixpoint advanceWhileLoop (cond : Token -> bool) (acc : string) (cur : Token)
    (pending : list Lex.Lexed) : Outcome string * Parser :=
  if cond cur then
    match pending with
    | Lex.Tok t :: rest => advanceWhileLoop cond (acc +:+ lexeme cur) t rest
    | Lex.LexError w :: rest => (Throw w, mkParser cur rest)
    | [] =>
        let eof := mkToken END_OF_FILE "" (line cur) in
        if cond eof then (OutOfFuel, mkParser eof [])
        else (Ok (acc +:+ lexeme cur), mkParser eof [])
    end
  else (Ok acc, mkParser cur pending).

Definition advanceWhile (cond : Token -> bool) : P string :=
  fun p => advanceWhileLoop cond "" (currentToken p) (lexer p).

(** [try { body } catch (const std::runtime_error& e) { synchronize(); throw; }] *)
Definition recovering {A} (body : P A) : P A :=
  tryCatch body (fun w => synchronize;; throw w).

(** The escape processing of a character literal in [parsePrimary]. *)
Definition charLiteralValue (lexeme : string) : string :=
  if (2 <=? String.length lexeme)%nat then
    let value := String.substring 1 (String.length lexeme - 2) lexeme in
    match value with
    | String c0 (String c1 rest) =>
        if Ascii.eqb c0 Lex.BACKSLASH then
          if Ascii.eqb c1 "n"%char then String (ascii_of_nat 10) ""
          else if Ascii.eqb c1 "t"%char then String (ascii_of_nat 9) ""
          else if Ascii.eqb c1 Lex.BACKSLASH then String Lex.BACKSLASH ""
          else if Ascii.eqb c1 Lex.APOSTROPHE then String Lex.APOSTROPHE ""
          else if Ascii.eqb c1 Lex.QUOTE then String Lex.QUOTE ""
          else String c1 rest                       (* value.substr(1) *)
        else value
    | _ => value
    end
  else lexeme.

(** The [for] loop over [value] of the string-literal case. *)
Fixpoint unescape (value : string) : string :=
  match value with
  | EmptyString => EmptyString
  | String c rest =>
      if Ascii.eqb c Lex.BACKSLASH then
        match rest with
        | String d rest' =>
            String (if Ascii.eqb d "n"%char then ascii_of_nat 10
                    else if Ascii.eqb d "t"%char then ascii_of_nat 9
                    else d)
                   (unescape rest')
        | EmptyString => String c EmptyString
        end
      else String c (unescape rest)
  end.

Definition stringLiteralValue (lexeme : string) : string :=
  if (2 <=? String.length lexeme)%nat
  then unescape (String.substring 1 (String.length lexeme - 2) lexeme)
  else lexeme.

Definition unaryOperators : list TokenType :=
  [NOT; MULTIPLY; AMPERSAND; INCREMENT; DECREMENT; PLUS; MINUS].

Section Expressions.

(** The call of [parseExpression] from inside [parsePrimary]; the knot is
    tied by [parseExpression] below. *)
Variable parseExpressionRec : P Expression.

(** The [do ... while] over the arguments of a call. *)
Fixpoint parseArguments (fuel : nat) (arguments : list Expression)
  : P (list Expression) :=
  match fuel with
  | 0 => outOfFuel
  | S fuel' =>
      let* arguments :=
        tryCatch
          (let* comma := check COMMA in
           if comma then advance;; ret arguments            (* continue *)
           else
             let* arg := parseExpressionRec in
             ret (arguments ++ [arg]))
          (fun _ =>
             (* Skip to next argument or closing parenthesis *)
             advanceWhile (fun t => negb (TokenType_eqb (type t) RPAREN) &&
                                    negb (TokenType_eqb (type t) COMMA) &&
                                    negb (TokenType_eqb (type t) END_OF_FILE));;
             let* comma := check COMMA in
             (if comma then advance else ret tt);;
             ret arguments) in
      let* stop := checkAny [RPAREN; END_OF_FILE] in
      if stop then ret arguments else parseArguments fuel' arguments
  end.

(** The [do ... while] of a stream chain. *)
Fixpoint parseStream (fuel : nat) (left_ : Expression) : P Expression :=
  match fuel with
  | 0 => outOfFuel
  | S fuel' =>
      let* op := gets (fun p => type (currentToken p)) in
      advance;;
      let* isEndl := check ENDL in
      let* left_ :=
        if isEndl then
          (* Handle endl as a special case *)
          advance;;
          ret (BinaryExpression left_ op (IdentifierExpression "endl"))
        else
          let* right_ := parseExpressionRec in
          ret (BinaryExpression left_ op right_) in
      let* more := checkAny [LEFT_SHIFT; RIGHT_SHIFT] in
      if more then parseStream fuel' left_ else ret left_
  end.

Fixpoint parsePrimary (fuel : nat) : P Expression :=
  match fuel with
  | 0 => outOfFuel
  | S fuel' =>
      recovering (
        let* tok := peek in
        (* Handle unary operators *)
        if existsb (TokenType_eqb (type tok)) unaryOperators then
          advance;;
          let* expr := parsePrimary fuel' in
          ret (UnaryExpression (type tok) expr)
        else if TokenType_eqb (type tok) TRUE then
          advance;; ret (LiteralExpression "true" BOOL_LITERAL)
        else if TokenType_eqb (type tok) FALSE then
          advance;; ret (LiteralExpression "false" BOOL_LITERAL)
        (* Handle literals *)
        else if TokenType_eqb (type tok) INTEGER_LITERAL ||
                TokenType_eqb (type tok) FLOAT_LITERAL then
          advance;; ret (LiteralExpression (lexeme tok) (type tok))
        (* Handle character literals *)
        else if TokenType_eqb (type tok) CHAR_LITERAL then
          advance;; ret (LiteralExpression (charLiteralValue (lexeme tok)) CHAR_LITERAL)
        (* Handle string literals *)
        else if TokenType_eqb (type tok) STRING_LITERAL then
          advance;; ret (LiteralExpression (stringLiteralValue (lexeme tok)) STRING_LITERAL)
        else if TokenType_eqb (type tok) IDENTIFIER then
          let name := lexeme tok in
          advance;;
          let* next := gets (fun p => type (currentToken p)) in
          (* Handle post-increment/decrement *)
          if TokenType_eqb next INCREMENT || TokenType_eqb next DECREMENT then
            advance;;
            ret (UnaryExpression next (IdentifierExpression name))
          (* Function call *)
          else if TokenType_eqb next LPAREN then
            advance;;
            let* empty := check RPAREN in
            let* arguments :=
              if empty then ret [] else parseArguments fuel' [] in
            consume RPAREN "Expect ')' after arguments.";;
            ret (CallExpression name arguments)
          (* Handle stream operators *)
          else if TokenType_eqb next LEFT_SHIFT || TokenType_eqb next RIGHT_SHIFT then
            parseStream fuel' (IdentifierExpression name)
          else ret (IdentifierExpression name)
        else if TokenType_eqb (type tok) LPAREN then
          advance;;
          let* expr := parseExpressionRec in
          consume RPAREN "Expect ')' after expression.";;
          ret expr
        else throw "Expect expression.")
  end.

(** The [while (check(op1) || ...)] loop shared by the binary levels:
    [mk] builds the node, [operand] parses the next operand. *)
Fixpoint binaryLoop (fuel : nat) (ops : list TokenType)
    (mk : Expression -> TokenType -> Expression -> Expression)
    (operand : P Expression) (expr : Expression) : P Expression :=
  let* op := gets (fun p => type (currentToken p)) in
  if existsb (TokenType_eqb op) ops then
    match fuel with
    | 0 => outOfFuel
    | S fuel' =>
        advance;;
        let* right_ := operand in
        binaryLoop fuel' ops mk operand (mk expr op right_)
    end
  else ret expr.

(** The common shape of [parseLogicalOr] ... [parseFactor]. *)
Definition binaryLevel (fuel : nat) (ops : list TokenType)
    (mk : Expression -> TokenType -> Expression -> Expression)
    (operand : P Expression) : P Expression :=
  recovering (
    let* expr := operand in
    binaryLoop fuel ops mk operand expr).

Definition parseFactor (fuel : nat) : P Expression :=
  binaryLevel fuel [MULTIPLY; SLASH] BinaryExpression (parsePrimary fuel).

Definition parseTerm (fuel : nat) : P Expression :=
  binaryLevel fuel [PLUS; MINUS] BinaryExpression (parseFactor fuel).

Definition parseComparison (fuel : nat) : P Expression :=
  binaryLevel fuel [LESS; LESS_EQUAL; GREATER; GREATER_EQUAL] BinaryExpression
              (parseTerm fuel).

Definition parseEquality (fuel : nat) : P Expression :=
  binaryLevel fuel [EQUAL_EQUAL; NOT_EQUAL] BinaryExpression (parseComparison fuel).

Definition parseLogicalAnd (fuel : nat) : P Expression :=
  binaryLevel fuel [AND] LogicalExpression (parseEquality fuel).

Definition parseLogicalOr (fuel : nat) : P Expression :=
  binaryLevel fuel [OR] LogicalExpression (parseLogicalAnd fuel).

Definition assignmentOperators : list TokenType :=
  [EQUAL; PLUS_EQUAL; MINUS_EQUAL; MULTIPLY_EQUAL; DIVIDE_EQUAL].

(** The arithmetic operator a compound assignment stands for. *)
Definition binaryOp (op : TokenType) : TokenType :=
  if TokenType_eqb op PLUS_EQUAL then PLUS
  else if TokenType_eqb op MINUS_EQUAL then MINUS
  else if TokenType_eqb op MULTIPLY_EQUAL then MULTIPLY
  else SLASH.

(** [parseAssignment]; [depth] bounds the right_-recursion, [fuel] is
    handed to the levels below. *)
Fixpoint parseAssignmentFuel (depth fuel : nat) : P Expression :=
  match depth with
  | 0 => outOfFuel
  | S depth' =>
      recovering (
        let* expr := parseLogicalOr fuel in
        let* op := gets (fun p => type (currentToken p)) in
        (* Handle assignment operators *)
        if existsb (TokenType_eqb op) assignmentOperators then
          advance;;
          match expr with
          | IdentifierExpression name =>
              let* right_ := parseAssignmentFuel depth' fuel in
              if negb (TokenType_eqb op EQUAL) then
                ret (AssignExpression name EQUAL
                       (BinaryExpression (IdentifierExpression name) (binaryOp op) right_))
              else ret (AssignExpression name op right_)
          | _ => throw "Invalid assignment target."
          end
        (* Handle increment/decrement operators *)
        else if TokenType_eqb op INCREMENT || TokenType_eqb op DECREMENT then
          match expr with
          | IdentifierExpression name =>
              advance;;
              ret (UnaryExpression op (IdentifierExpression name))
          | _ => throw "Invalid increment/decrement target."
          end
        else ret expr)
  end.

Definition parseAssignment (fuel : nat) : P Expression :=
  parseAssignmentFuel fuel fuel.

End Expressions.

Fixpoint parseExpression (fuel : nat) : P Expression :=
  match fuel with
  | 0 => outOfFuel
  | S fuel' => recovering (parseAssignment (parseExpression fuel') fuel')
  end.

(** The tokens that start a declaration in [parseStatement]. *)
Definition startsDeclaration (withVoid : bool) (tok : Token) : bool :=
  TokenType_eqb (type tok) INT || TokenType_eqb (type tok) FLOAT ||
  TokenType_eqb (type tok) CHAR ||
  (withVoid && TokenType_eqb (type tok) VOID) ||
  TokenType_eqb (type tok) BOOL || TokenType_eqb (type tok) STRING_LITERAL ||
  (TokenType_eqb (type tok) IDENTIFIER && String.eqb (lexeme tok) "string").

(** [type == IDENTIFIER && lexeme == "string" ? STRING_LITERAL : type] *)
Definition declaredType (tok : Token) : TokenType :=
  if TokenType_eqb (type tok) IDENTIFIER && String.eqb (lexeme tok) "string"
  then STRING_LITERAL else type tok.

Definition parsePreprocessorDirective : P Statement :=
  advance;;                                              (* consume # *)
  let* isInclude := match_ INCLUDE in
  if isInclude then
    let* isLess := match_ LESS in
    let* header :=
      if isLess then
        (* Handle system header *)
        let* header :=
          advanceWhile (fun t => negb (TokenType_eqb (type t) GREATER) &&
                                 negb (TokenType_eqb (type t) END_OF_FILE)) in
        consume GREATER "Expect '>' after include path";;
        ret header
      else
        let* isString := match_ STRING_LITERAL in
        if isString then
          (* Handle local header *)
          gets (fun p => lexeme (currentToken p))
        else throw "Expect header name after #include" in
    ret (ExpressionStatement (LiteralExpression header STRING_LITERAL))
  else throw "Unsupported preprocessor directive".

Definition parseUsingDirective : P Statement :=
  advance;;                                              (* consume 'using' *)
  let* isNamespace := match_ NAMESPACE in
  let* isStd := if isNamespace then match_ STD else ret false in
  if isStd then
    consume SEMICOLON "Expect ';' after namespace std";;
    ret (ExpressionStatement (IdentifierExpression "using_namespace_std"))
  else throw "Unsupported using directive".

(** The [do ... while (match(COMMA))] over the parameters. *)
Fixpoint parseParameters (fuel : nat) (parameters : list (string * TokenType))
  : P (list (string * TokenType)) :=
  match fuel with
  | 0 => outOfFuel
  | S fuel' =>
      let* tok := peek in
      let paramType := declaredType tok in
      advance;;
      let* isParamPointer := match_ MULTIPLY in
      let* nameTok := peek in
      if negb (TokenType_eqb (type nameTok) IDENTIFIER)
      then throw "Expect parameter name."
      else
        advance;;
        let parameters :=
          parameters ++ [(lexeme nameTok, if isParamPointer then POINTER else paramType)] in
        let* comma := match_ COMMA in
        if comma then parseParameters fuel' parameters else ret parameters
  end.

(** [if (check(EQUAL)) { advance(); try { initializer = parseExpression(); }
    catch (...) { synchronize(); throw; } }] *)
Definition parseInitializer (fuel : nat) : P (option Expression) :=
  let* hasInit := check EQUAL in
  if hasInit then
    advance;;
    let* e := recovering (parseExpression fuel) in
    ret (Some e)
  else ret None.

(** The [while (match(COMMA))] over the further declarators. *)
Fixpoint parseDeclarators (fuel : nat) (t : TokenType) (isPointer : bool)
    (declarations : list Statement) : P (list Statement) :=
  let* comma := match_ COMMA in
  if comma then
    match fuel with
    | 0 => outOfFuel
    | S fuel' =>
        let* nameTok := peek in
        if negb (TokenType_eqb (type nameTok) IDENTIFIER)
        then throw "Expect identifier after ','."
        else
          advance;;
          let* nextInitializer := parseInitializer fuel in
          parseDeclarators fuel' t isPointer
            (declarations ++ [VariableDeclaration t isPointer (lexeme nameTok) nextInitializer])
    end
  else ret declarations.

Section Statements.

(** The call of [parseStatement] from inside [parseBlock]. *)
Variable parseStatementRec : P Statement.

Fixpoint parseBlockLoop (fuel : nat) (statements : list Statement) : P (list Statement) :=
  let* stop := checkAny [RBRACE; END_OF_FILE] in
  if stop then ret statements
  else
    match fuel with
    | 0 => outOfFuel
    | S fuel' =>
        let* stmt := parseStatementRec in
        parseBlockLoop fuel' (statements ++ [stmt])
    end.

Definition parseBlock (fuel : nat) : P Statement :=
  let* statements := parseBlockLoop fuel [] in
  ret (BlockStatement statements).

(** [consume(LBRACE, m1); b = parseBlock(); consume(RBRACE, m2);] *)
Definition parseBracedBlock (fuel : nat) (m1 m2 : string) : P Statement :=
  consume LBRACE m1;;
  let* b := parseBlock fuel in
  consume RBRACE m2;;
  ret b.

Definition parseFunctionOrVariableDeclaration (fuel : nat) : P Statement :=
  recovering (
    let* tok := peek in
    let t := declaredType tok in
    advance;;
    (* Handle pointer types *)
    let* isPointer := match_ MULTIPLY in
    let* nameTok := peek in
    if negb (TokenType_eqb (type nameTok) IDENTIFIER)
    then throw "Expect identifier after type."
    else
      let name := lexeme nameTok in
      advance;;
      let* isFunction := check LPAREN in
      if isFunction then
        (* Function declaration *)
        advance;;
        let* empty := check RPAREN in
        let* parameters := if empty then ret [] else parseParameters fuel [] in
        consume RPAREN "Expect ')' after parameters.";;
        let* body := parseBracedBlock fuel "Expect '{' before function body."
                                           "Expect '}' after function body." in
        ret (FunctionDeclaration name t parameters body)
      else
        (* Variable declaration *)
        let* initializer := parseInitializer fuel in
        let* declarations :=
          parseDeclarators fuel t isPointer
            [VariableDeclaration t isPointer name initializer] in
        let* semi := check SEMICOLON in
        if negb semi then throw "Expect ';' after variable declaration."
        else
          advance;;
          match declarations with
          | [d] => ret d
          | _ => ret (BlockStatement declarations)
          end).

Definition parseStatementBody (fuel : nat) : P Statement :=
  recovering (
    (* Skip any extra semicolons *)
    advanceWhile (fun t => TokenType_eqb (type t) SEMICOLON);;
    let* tok := peek in
    if TokenType_eqb (type tok) HASH then parsePreprocessorDirective
    else if TokenType_eqb (type tok) USING then parseUsingDirective
    else if TokenType_eqb (type tok) RETURN then
      advance;;
      let* semi := check SEMICOLON in
      let* value :=
        if semi then ret None
        else let* e := parseExpression fuel in ret (Some e) in
      consume SEMICOLON "Expect ';' after return value.";;
      ret (ReturnStatement value)
    else if TokenType_eqb (type tok) IF then
      advance;;
      consume LPAREN "Expect '(' after 'if'.";;
      let* condition := parseExpression fuel in
      consume RPAREN "Expect ')' after if condition.";;
      let* thenBranch := parseBracedBlock fuel "Expect '{' before if body."
                                               "Expect '}' after if body." in
      let* hasElse := match_ ELSE in
      let* elseBranch :=
        if hasElse then
          let* b := parseBracedBlock fuel "Expect '{' before else body."
                                          "Expect '}' after else body." in
          ret (Some b)
        else ret None in
      ret (IfStatement condition thenBranch elseBranch)
    else if TokenType_eqb (type tok) WHILE then
      advance;;
      consume LPAREN "Expect '(' after 'while'.";;
      let* condition := parseExpression fuel in
      consume RPAREN "Expect ')' after condition.";;
      let* body := parseBracedBlock fuel "Expect '{' before while body."
                                         "Expect '}' after while body." in
      ret (WhileStatement condition body)
    else if TokenType_eqb (type tok) FOR then
      advance;;
      consume LPAREN "Expect '(' after 'for'.";;
      (* Initializer *)
      let* first := peek in
      let* initializer :=
        if negb (TokenType_eqb (type first) SEMICOLON) then
          if startsDeclaration false first then
            let* d := parseFunctionOrVariableDeclaration fuel in ret (Some d)
          else
            let* expr := parseExpression fuel in
            consume SEMICOLON "Expect ';' after for initializer.";;
            ret (Some (ExpressionStatement expr))
        else advance;; ret None in
      (* Condition *)
      let* semi := check SEMICOLON in
      let* condition :=
        if semi then ret None
        else let* e := parseExpression fuel in ret (Some e) in
      consume SEMICOLON "Expect ';' after for condition.";;
      (* Increment *)
      let* close := check RPAREN in
      let* increment :=
        if close then ret None
        else let* e := parseExpression fuel in ret (Some e) in
      consume RPAREN "Expect ')' after for clauses.";;
      let* body := parseBracedBlock fuel "Expect '{' before for body."
                                         "Expect '}' after for body." in
      ret (ForStatement initializer condition increment body)
    (* Type declarations *)
    else if startsDeclaration true tok then parseFunctionOrVariableDeclaration fuel
    else
      (* Handle expression statement *)
      let* expr := parseExpression fuel in
      consume SEMICOLON "Expect ';' after expression.";;
      ret (ExpressionStatement expr)).

End Statements.

Fixpoint parseStatement (fuel : nat) : P Statement :=
  match fuel with
  | 0 => outOfFuel
  | S fuel' => parseStatementBody (parseStatement fuel') fuel'
  end.

(** The loop of [Parser::parse].  [diagnostics] are the lines written to
    [std::cerr]; an exception thrown by [synchronize] inside the handler
    leaves [parse]. *)
Fixpoint parseLoop (fuel : nat) (statements : list Statement)
    (diagnostics : list string) (p : Parser)
  : Outcome (list Statement) * list string * Parser :=
  if TokenType_eqb (type (currentToken p)) END_OF_FILE
  then (Ok statements, diagnostics, p)
  else
    match fuel with
    | 0 => (OutOfFuel, diagnostics, p)
    | S fuel' =>
        let attempt : P (option Statement) :=
          let* semi := check SEMICOLON in
          if semi then advance;; ret None               (* Skip extra semicolons *)
          else let* stmt := parseStatement fuel in ret (Some stmt) in
        match attempt p with
        | (Ok (Some stmt), p') => parseLoop fuel' (statements ++ [stmt]) diagnostics p'
        | (Ok None, p') => parseLoop fuel' statements diagnostics p'
        | (Throw w, p') =>
            let diagnostics := diagnostics ++ ["Error: " +:+ what w] in
            match synchronize p' with
            | (Ok _, p'') => parseLoop fuel' statements diagnostics p''
            | (Throw w', p'') => (Throw w', diagnostics, p'')
            | (OutOfFuel, p'') => (OutOfFuel, diagnostics, p'')
            end
        | (OutOfFuel, p') => (OutOfFuel, diagnostics, p')
        end
    end.

(** [Parser::parse].  Every turn of a loop and every nested call consumes
    a token; a statement, an expression inside it and a primary inside
    that may start at the same token, so the fuel is the number of
    pending results, the current token, and three more. *)
Definition parse (p : Parser) : Outcome (list Statement) * list string * Parser :=
  parseLoop (length (lexer p) + 4) [] [] p.

End Parse.

(** ** main.cpp *)

Module Driver.

Import CodeGen TypeCheck.

(** What a run of the compiler leaves behind: the exit code and the lines
    written to the two streams. *)
Record Run : Set := mkRun {
  exitCode : nat;
  stdout : list string;
  stderr : list string
}.

(** The [try] block of [main] once the source has been read.  [None]
    stands for a model that ran out of fuel. *)
Definition compile (source : string) : option Run :=
  match Lex.tokenize source with
  | None => None
  | Some results =>
      (* Lexer lexer(source); Parser parser(lexer); *)
      match Parse.newParser results with
      | (Throw w, _) => Some (mkRun 1 [] ["Error: " +:+ what w])
      | (OutOfFuel, _) => None
      | (Ok _, parser) =>
          let out := ["Parsing source code..."] in
          match Parse.parse parser with
          | (OutOfFuel, _, _) => None
          | (Throw w, diagnostics, _) =>
              Some (mkRun 1 out (diagnostics ++ ["Error: " +:+ what w]))
          | (Ok ast, diagnostics, _) =>
              let out := out ++ ["Performing semantic analysis..."] in
              match check ast newTypeChecker with
              | (OutOfFuel, _) => None
              | (Throw w, _) =>
                  Some (mkRun 1 out
                          (diagnostics ++ ["Type error: " +:+ what w;
                                           "Compilation stopped due to semantic errors."]))
              | (Ok _, _) =>
                  let out := out ++ ["No semantic errors found."; "Generating code..."] in
                  let codeGen := generate ast newCodeGenerator in
                  let out := out ++ ["Optimizing..."] in
                  match optimize codeGen with
                  | None => None
                  | Some codeGen =>
                      Some (mkRun 0
                              (out ++ [endl +:+ "Generated Code:"; "----------------"]
                                   ++ dumpCode codeGen)
                              (diagnostics ++ cerr codeGen))
                  end
              end
          end
      end
  end.

(** [main]: [argv] without the program name would be one path;
    [readFile] answers [None] when the file cannot be opened. *)
Definition main (argv : list string) (readFile : string -> option string)
  : option Run :=
  match argv with
  | [_; path] =>
      match readFile path with
      | Some source => compile source
      | None => Some (mkRun 1 [] ["Error: " +:+ what ("Could not open file: " +:+ path)])
      end
  | prog :: _ => Some (mkRun 1 [] ["Usage: " +:+ prog +:+ " <source_file>"])
  | [] => Some (mkRun 1 [] ["Usage:  <source_file>"])
  end.

(** The statements the parser returns for a source text, when the lexer
    and the parser raise nothing. *)
Definition parsedProgram (source : string) : option (list Statement) :=
  match Lex.tokenize source with
  | Some results =>
      match Parse.newParser results with
      | (Ok _, p) =>
          match Parse.parse p with
          | (Ok ast, [], _) => Some ast
          | _ => None
          end
      | _ => None
      end
  | None => None
  end.

(** The outcome of the parsing phase as [main] sees it: the statements
    returned or the exception that left the parser, and the diagnostics
    the parser wrote. *)
Definition frontEnd (source : string)
  : option (Outcome (list Statement) * list string) :=
  match Lex.tokenize source with
  | Some results =>
      match Parse.newParser results with
      | (Ok _, p) =>
          match Parse.parse p with
          | (OutOfFuel, _, _) => None
          | (r, diagnostics, _) => Some (r, diagnostics)
          end
      | (Throw w, _) => Some (Throw w, [])
      | (OutOfFuel, _) => None
      end
  | None => None
  end.

(** The phases show on [stdout]. *)
Definition ranTypeChecker (r : Run) : bool :=
  existsb (String.eqb "Performing semantic analysis...") (stdout r).
Definition ranEmitter (r : Run) : bool :=
  existsb (String.eqb "Generating code...") (stdout r).

End Driver.

(** ** Notions used to state properties of the parser *)

Section ParserRuns.

Import Parse.

(** [m'] answers as [m] wherever [m] does not run out of fuel. *)
Definition refines {A} (m m' : P A) : Prop :=
  forall p, fst (m p) = OutOfFuel \/ m p = m' p.

(** The parser has consumed all its input. *)
Definition AtEOF (p : Parser) : Prop :=
  type (currentToken p) = END_OF_FILE /\ lexer p = [].

(** The lexer delivers [END_OF_FILE] only at the end of the source. *)
Definition noEOF (r : Lex.Lexed) : Prop :=
  match r with
  | Lex.Tok tk => type tk <> END_OF_FILE
  | Lex.LexError _ => True
  end.

(** At the end of its input a computation can only throw. *)
Definition Dead {A} (m : P A) : Prop :=
  forall p, AtEOF p ->
    match m p with
    | (Ok _, _) => False
    | (Throw _, p') => AtEOF p'
    | (OutOfFuel, _) => True
    end.

(** At the end of its input a computation stays there. *)
Definition Stay {A} (m : P A) : Prop :=
  forall p, AtEOF p -> fst (m p) = OutOfFuel \/ AtEOF (snd (m p)).

(** Two runs of the parser are compared: run A on the tokens of an
    expression alone, run B on the same tokens followed by the token
    [follow] and the results [ext].  The runs agree token by token
    ([Lock]) until A has consumed its last token; from then on A sits at
    the end of its input while B sits at [follow] ([Div]). *)
Section Follower.

Variable follow : Token.
Variable ext : list Lex.Lexed.

Definition Lock (p q : Parser) : Prop :=
  currentToken q = currentToken p
  /\ lexer q = lexer p ++ Lex.Tok follow :: ext
  /\ type (currentToken p) <> END_OF_FILE
  /\ Forall noEOF (lexer p).

Definition Div (p q : Parser) : Prop := AtEOF p /\ q = mkParser follow ext.

Definition Rel (p q : Parser) : Prop := Lock p q \/ Div p q.

(** What a computation started in two locked states may do.  [lost]
    allows A to return at the end of its input with B anywhere; this is
    the case inside an argument list, whose handler skips tokens. *)
Definition post {A} (lost : Prop) (m : P A) (p q : Parser) : Prop :=
  match m p with
  | (Ok a, p') => (exists q', m q = (Ok a, q') /\ Rel p' q') \/ (lost /\ AtEOF p')
  | (Throw w, p') => AtEOF p' \/ exists q', m q = (Throw w, q') /\ Lock p' q'
  | (OutOfFuel, _) => True
  end.

Definition SimL {A} (lost : Prop) (m : P A) : Prop :=
  forall p q, Lock p q -> post lost m p q.

(** At the end of A's input: either both runs return the same value
    without moving, or A throws. *)
Definition SimD {A} (m : P A) : Prop :=
  forall p, AtEOF p ->
    match m p with
    | (Ok a, p') => m (mkParser follow ext) = (Ok a, mkParser follow ext) /\ AtEOF p'
    | (Throw _, p') => AtEOF p'
    | (OutOfFuel, _) => True
    end.

(** Both runs do the same, or A ends at the end of its input. *)
Definition agree {A} (m : P A) (p q : Parser) : Prop :=
  AtEOF (snd (m p)) \/ exists q', m q = (fst (m p), q') /\ Lock (snd (m p)) q'.

End Follower.

(** The operators of the binary levels from [level] upwards
    (0: [parseFactor], 1: [parseTerm], 2: [parseComparison]). *)
Definition operatorsFrom (level : nat) : list TokenType :=
  match level with
  | 0 => [MULTIPLY; SLASH; PLUS; MINUS; LESS; LESS_EQUAL; GREATER; GREATER_EQUAL;
          EQUAL_EQUAL; NOT_EQUAL; AND; OR]
  | 1 => [PLUS; MINUS; LESS; LESS_EQUAL; GREATER; GREATER_EQUAL;
          EQUAL_EQUAL; NOT_EQUAL; AND; OR]
  | _ => [LESS; LESS_EQUAL; GREATER; GREATER_EQUAL; EQUAL_EQUAL; NOT_EQUAL; AND; OR]
  end.

(** The lexeme the lexer gives a punctuation token. *)
Definition spelling (t : TokenType) : string :=
  match t with
  | PLUS => "+" | MINUS => "-" | MULTIPLY => "*" | SLASH => "/" | EQUAL => "="
  | PLUS_EQUAL => "+=" | MINUS_EQUAL => "-=" | MULTIPLY_EQUAL => "*="
  | DIVIDE_EQUAL => "/=" | LPAREN => "(" | RPAREN => ")" | SEMICOLON => ";"
  | _ => ""
  end.

Definition punct (t : TokenType) (ln : nat) : Lex.Lexed :=
  Lex.Tok (mkToken t (spelling t) ln).

(** The compound assignment operators, each with the arithmetic operator
    it stands for, in the words of the specification: [+=] stands for
    [+], [-=] for [-], [*=] for [*] and [/=] for [/]. *)
Definition compoundOperators : list (TokenType * TokenType) :=
  [(PLUS_EQUAL, PLUS); (MINUS_EQUAL, MINUS);
   (MULTIPLY_EQUAL, MULTIPLY); (DIVIDE_EQUAL, SLASH)].

(** The tokens of [x op= e;], where [e] are the tokens of the expression
    and [ln i] is the line of the [i]-th of the other tokens. *)
Definition compoundStatement (ln : nat -> nat) (name : string) (op : TokenType)
    (e : list Lex.Lexed) : list Lex.Lexed :=
  Lex.Tok (mkToken IDENTIFIER name (ln 0)) :: punct op (ln 1)
  :: e ++ [punct SEMICOLON (ln 2)].

(** The tokens of [x = x op' (e);], with the lines likewise. *)
Definition plainStatement (ln : nat -> nat) (name : string) (op' : TokenType)
    (e : list Lex.Lexed) : list Lex.Lexed :=
  Lex.Tok (mkToken IDENTIFIER name (ln 0)) :: punct EQUAL (ln 1)
  :: Lex.Tok (mkToken IDENTIFIER name (ln 2)) :: punct op' (ln 3)
  :: punct LPAREN (ln 4) :: e ++ [punct RPAREN (ln 5); punct SEMICOLON (ln 6)].

(** A parser constructed on [tokens] parses one statement. *)
Definition parseStatementOn (fuel : nat) (tokens : list Lex.Lexed)
  : Outcome Statement * Parser :=
  match newParser tokens with
  | (Ok _, p) => parseStatement fuel p
  | (Throw w, p) => (Throw w, p)
  | (OutOfFuel, p) => (OutOfFuel, p)
  end.

(** [E] is the parse of the tokens [e]: a parser constructed on [e]
    alone returns [E] from [parseExpression] and has consumed them all. *)
Definition parsesTo (fuel : nat) (e : list Lex.Lexed) (E : Expression) : Prop :=
  exists p p', newParser e = (Ok tt, p)
               /\ parseExpression fuel p = (Ok E, p') /\ AtEOF p'.

(** A token without its line. *)
Definition eraseLine (t : Token) : Token := mkToken (type t) (lexeme t) 0.

Definition eraseLexed (r : Lex.Lexed) : Lex.Lexed :=
  match r with
  | Lex.Tok t => Lex.Tok (eraseLine t)
  | Lex.LexError w => Lex.LexError w
  end.

(** The state of a parser without the lines of its tokens. *)
Definition eraseLines (p : Parser) : Parser :=
  mkParser (eraseLine (currentToken p)) (map eraseLexed (lexer p)).

(** A computation that does not look at the lines of the tokens: run
    without them, it answers the same and leaves the same state. *)
Definition lineBlind {A} (m : P A) : Prop :=
  forall p, m (eraseLines p) = (fst (m p), eraseLines (snd (m p))).

(** [Parser parser(lexer); parser.parse()] on the results of the lexer:
    the statements returned or the exception that leaves [parse], and
    the diagnostics written. *)
Definition parseProgram (tokens : list Lex.Lexed)
  : Outcome (list Statement) * list string :=
  match newParser tokens with
  | (Ok _, p) => fst (parse p)
  | (Throw w, _) => (Throw w, [])
  | (OutOfFuel, _) => (OutOfFuel, [])
  end.

(** The tokens the parser can still consume: the current one, unless the
    lexer is exhausted and it is [END_OF_FILE], and the pending ones. *)
Definition tokensLeft (p : Parser) : nat :=
  match lexer p with
  | [] => if TokenType_eqb (type (currentToken p)) END_OF_FILE then 0 else 1
  | _ :: _ => S (length (lexer p))
  end.

(** [m] answers from [p]: it returns or throws, it only consumes tokens,
    and what it returns satisfies [Q]. *)
Definition answers {A} (m : P A) (p : Parser) (Q : A -> Parser -> Prop) : Prop :=
  match m p with
  | (Ok a, p') => tokensLeft p' <= tokensLeft p /\ Q a p'
  | (Throw _, p') => tokensLeft p' <= tokensLeft p
  | (OutOfFuel, _) => False
  end.

Definition anywhere {A} : A -> Parser -> Prop := fun _ _ => True.

(** The state after a token of [p] has been consumed. *)
Definition past {A} (p : Parser) : A -> Parser -> Prop :=
  fun _ p' => tokensLeft p' < tokensLeft p.

End ParserRuns.

(** ** Notions used to state properties of the lexer *)

Section LexerRuns.

Import Lex.

(** The characters the lexer has not consumed. *)
Definition remaining (lx : Lexer) : nat := String.length (source lx) - position lx.

(** [lx'] is a later state of the lexer [lx]. *)
Definition onward (lx lx' : Lexer) : Prop :=
  String.length (source lx') = String.length (source lx)
  /\ position lx <= position lx'.

(** [m] answers from [lx]: it returns in a later state that satisfies
    [Q], or throws in a later state that satisfies [E]. *)
Definition scans {A} (m : LX A) (lx : Lexer)
    (Q : A -> Lexer -> Prop) (E : Lexer -> Prop) : Prop :=
  match m lx with
  | (Ok a, lx') => onward lx lx' /\ Q a lx'
  | (Throw _, lx') => onward lx lx' /\ E lx'
  | (OutOfFuel, _) => False
  end.

(** Whatever [m] returns satisfies [Q]. *)
Definition returns {A} (m : LX A) (Q : A -> Prop) : Prop :=
  forall lx a lx', m lx = (Ok a, lx') -> Q a.

(** The word [string] is a keyword, not an identifier. *)
Definition properToken (t : Token) : Prop :=
  type t = IDENTIFIER -> lexeme t <> "string".

End LexerRuns.

(** ** Notions used to state properties of the type checker *)

Section CheckerRuns.

Import TypeCheck.

(** The function the checker is in: what [checkFunctionDeclaration] sets
    and restores. *)
Definition functionContext (tc : TypeChecker) : string * TokenType * bool :=
  (currentFunctionName tc, currentFunctionReturnType tc, inFunctionBody tc).

(** A run of the checker from a state that satisfies [P]: it returns in
    a state that satisfies [Q], or throws in a state that satisfies [E]. *)
Definition checks {A} (P : TypeChecker -> Prop) (m : TC A)
    (Q : A -> TypeChecker -> Prop) (E : TypeChecker -> Prop) : Prop :=
  forall tc, P tc ->
    match m tc with
    | (Ok a, tc') => Q a tc'
    | (Throw _, tc') => E tc'
    | (OutOfFuel, _) => False
    end.

(** [m] only reads the checker's state. *)
Definition readsOnly {A} (m : TC A) : Prop :=
  forall tc, snd (m tc) = tc /\ fst (m tc) <> OutOfFuel.

(** The first top-level function of the name [n]. *)
Fixpoint firstFunction (n : string) (stmts : list Statement)
  : option (TokenType * list (string * TokenType)) :=
  match stmts with
  | [] => None
  | FunctionDeclaration f rt params _ :: rest =>
      if String.eqb f n then Some (rt, params) else firstFunction n rest
  | _ :: rest => firstFunction n rest
  end.

(** The state of the checker as far as scopes go: [d] live scopes, in
    the function [c]. *)
Definition atDepth (d : nat) (c : string * TokenType * bool) (tc : TypeChecker) : Prop :=
  scopeDepth tc = d /\ functionContext tc = c.

(** Checking [s] at [d] live scopes gives back [d] live scopes and the
    function context; when it raises, no earlier scope is lost. *)
Definition balancedAt (d : nat) (s : Statement) : Prop :=
  forall c, checks (atDepth d c) (checkStatement s)
                   (fun _ => atDepth d c) (fun tc => d <= scopeDepth tc).

End CheckerRuns.

(** ** Notions used to state properties of the emitter *)

Section EmitterRuns.

Import CodeGen.

(** [g'] is [g] after more code has been emitted: the instructions and
    the warnings of [g] with more at the end, and counters that did not go
    down. *)
Definition extends (g g' : CodeGenerator) : Prop :=
  (exists code, instructions g' = instructions g ++ code)
  /\ tempVarCounter g <= tempVarCounter g'
  /\ labelCounter g <= labelCounter g'
  /\ (exists warnings, cerr g' = cerr g ++ warnings).

(** The instructions the peephole pass never touches. *)
Definition isMemoryAccess (i : Instruction) : bool :=
  OpCode_eqb (opcode i) LOAD || OpCode_eqb (opcode i) STORE.

(** The name [generateTemp] gives the temporary of the number [n]. *)
Definition temporary (n : nat) : string := "t" +:+ to_string n.

(** The binary operators [generateBinaryExpression] has an instruction
    for. *)
Definition loweredOperator (op : TokenType) : bool :=
  existsb (TokenType_eqb op)
    [PLUS; MINUS; MULTIPLY; SLASH;
     EQUAL_EQUAL; NOT_EQUAL; LESS; LESS_EQUAL; GREATER; GREATER_EQUAL].

(** The expressions whose code ends with the instruction that writes
    their value. *)
Definition leavesValue (e : Expression) : bool :=
  match e with
  | LiteralExpression _ _ | IdentifierExpression _ | CallExpression _ _ => true
  | BinaryExpression _ op _ => loweredOperator op
  | _ => false
  end.

End EmitterRuns.

(** ** Notions used to state further properties of the lexer *)

Section LexerResults.

Import Lex.

(** Whatever [m] throws satisfies [E]. *)
Definition raises {A} (m : LX A) (E : string -> Prop) : Prop :=
  forall lx w lx', m lx = (Throw w, lx') -> E w.

(** Whatever [m] returns satisfies [Q], together with the state it
    returns in. *)
Definition lands {A} (m : LX A) (Q : A -> Lexer -> Prop) : Prop :=
  forall lx a lx', m lx = (Ok a, lx') -> Q a lx'.

(** The three messages of the lexer, as [what()] hands them out: the
    third names the offending character, unless that is the NUL byte, at
    which the C string ends. *)
Definition lexicalError (w : string) : Prop :=
  w = "Unterminated string" \/ w = "Invalid character literal"
  \/ w = "Unexpected character: "
  \/ exists c : ascii, c <> NUL /\ w = "Unexpected character: " +:+ String c "".

(** The lexer has consumed its source. *)
Definition atEnd (lx : Lexer) : Prop := String.length (source lx) <= position lx.

(** A token made from characters of the source: it is not the end
    marker, and when it is an identifier its lexeme is no keyword. *)
Definition wordToken (t : Token) : Prop :=
  type t <> END_OF_FILE /\ (type t = IDENTIFIER -> keywords !! lexeme t = None).

End LexerResults.

Section LexerInput.

Import Lex.

(** The part of the source the lexer has not consumed is [s]. *)
Definition reads (lx : Lexer) (s : string) : Prop :=
  forall i, String.get (position lx + i) (source lx) = String.get i s.

(** The characters of an identifier after the first. *)
Definition identifierChar (c : ascii) : bool := isalnum c || Ascii.eqb c "_"%char.

(** The first character of an identifier. *)
Definition identifierStart (c : ascii) : bool := isalpha c || Ascii.eqb c "_"%char.

(** Every character of [s] satisfies [cond]. *)
Fixpoint allChars (cond : ascii -> bool) (s : string) : bool :=
  match s with
  | EmptyString => true
  | String c rest => cond c && allChars cond rest
  end.

(** [s] is empty or starts with a character that fails [cond]. *)
Definition stopsAt (cond : ascii -> bool) (s : string) : bool :=
  match s with
  | EmptyString => true
  | String c _ => negb (cond c)
  end.

(** [w] is spelled like an identifier or a keyword. *)
Definition isWord (w : string) : bool :=
  match w with
  | EmptyString => false
  | String c rest => identifierStart c && allChars identifierChar rest
  end.

(** A character that stands for itself inside a string literal. *)
Definition plainChar (c : ascii) : bool :=
  negb (Ascii.eqb c QUOTE) && negb (Ascii.eqb c BACKSLASH) && negb (Ascii.eqb c NUL).

(** The line feeds of [s]. *)
Fixpoint lineFeeds (s : string) : nat :=
  match s with
  | EmptyString => 0
  | String c rest => (if Ascii.eqb c (ascii_of_nat 10) then 1 else 0) + lineFeeds rest
  end.

End LexerInput.

(** ** Notions used to state further properties of the parser *)

Section ParserStreams.

Import Parse.

(** [m] only takes results from the front of the lexer's stream: what
    is pending after [m] is the end of what was pending before. *)
Definition draws {A} (m : P A) : Prop :=
  forall p, lexer (snd (m p)) `suffix_of` lexer p.

End ParserStreams.

(** * Properties *)

Import CodeGen Driver.

(** ** Enumerations *)

Lemma TokenType_code_inj (a b : TokenType) :
  TokenType_code a = TokenType_code b -> a = b.
Proof. destruct a; destruct b; simpl; intros H; solve [reflexivity | discriminate H]. Qed.

Lemma TokenType_eqb_eq (a b : TokenType) : TokenType_eqb a b = true <-> a = b.
Proof.
  unfold TokenType_eqb. rewrite Nat.eqb_eq. split.
  - apply TokenType_code_inj.
  - intros ->. reflexivity.
Qed.

Lemma TokenType_eqb_refl (a : TokenType) : TokenType_eqb a a = true.
Proof. apply TokenType_eqb_eq. reflexivity. Qed.

Lemma OpCode_eqb_eq (a b : OpCode) : OpCode_eqb a b = true <-> a = b.
Proof.
  split.
  - destruct a; destruct b; simpl; intros H; solve [reflexivity | discriminate H].
  - intros ->. destruct b; reflexivity.
Qed.

(** ** The peephole pass *)

Section Peephole.

Implicit Types (v pre l : list Instruction) (it fuel : nat).

Lemma lookup_at_prefix pre l : (pre ++ l) !! length pre = head l.
Proof.
  rewrite lookup_app_r by lia.
  rewrite Nat.sub_diag. destruct l; reflexivity.
Qed.

Lemma lookup_after_prefix pre a l : (pre ++ a :: l) !! S (length pre) = head l.
Proof.
  replace (pre ++ a :: l) with ((pre ++ [a]) ++ l) by (rewrite <- app_assoc; reflexivity).
  replace (S (length pre)) with (length (pre ++ [a])) by (rewrite length_app; simpl; lia).
  apply lookup_at_prefix.
Qed.

Lemma erase_at_prefix pre a l : erase (length pre) (pre ++ a :: l) = pre ++ l.
Proof.
  unfold erase. rewrite take_app_length.
  replace (S (length pre)) with (length (pre ++ [a])) by (rewrite length_app; simpl; lia).
  replace (pre ++ a :: l) with ((pre ++ [a]) ++ l) by (rewrite <- app_assoc; reflexivity).
  rewrite drop_app_length. reflexivity.
Qed.

(** With the iterator at the end of [pre], the loop leaves [pre] alone
    and scans the rest; the length of the rest is enough fuel. *)
Lemma optimize_loop_scan fuel : forall pre l,
  length l <= fuel ->
  optimize_loop fuel (length pre) (pre ++ l) = Some (pre ++ single_scan l).
Proof.
  induction fuel as [|fuel IH]; intros pre l Hlen.
  - destruct l as [|a tl]; [|simpl in Hlen; lia].
    simpl. rewrite lookup_at_prefix. reflexivity.
  - destruct l as [|a tl].
    + simpl. rewrite lookup_at_prefix. reflexivity.
    + cbn [optimize_loop]. rewrite lookup_at_prefix, lookup_after_prefix.
      cbn [head].
      assert (Hstep : forall tl', length tl' <= fuel ->
                optimize_loop fuel (S (length pre)) (pre ++ a :: tl')
                = Some (pre ++ a :: single_scan tl')).
      { intros tl' Hle.
        replace (pre ++ a :: tl') with ((pre ++ [a]) ++ tl')
          by (rewrite <- app_assoc; reflexivity).
        replace (S (length pre)) with (length (pre ++ [a]))
          by (rewrite length_app; simpl; lia).
        rewrite IH by exact Hle. rewrite <- app_assoc. reflexivity. }
      destruct tl as [|b rest].
      * rewrite andb_false_r. rewrite Hstep by (simpl; lia). reflexivity.
      * cbn [head single_scan].
        destruct (OpCode_eqb (opcode a) LOAD && OpCode_eqb (opcode b) STORE) eqn:Hpair.
        -- rewrite !erase_at_prefix. apply IH. simpl in Hlen; lia.
        -- apply Hstep. simpl in *; lia.
Qed.

(** The pass on a generator object. *)
Lemma optimize_scan (g : CodeGenerator) :
  optimize g = Some (mkCodeGenerator (single_scan (instructions g))
                       (tempVarCounter g) (labelCounter g) (cerr g)).
Proof.
  unfold optimize.
  pose proof (optimize_loop_scan (length (instructions g)) [] (instructions g)) as H.
  simpl in H. rewrite H by lia. reflexivity.
Qed.

End Peephole.

(** C4.  [optimize] always returns, and what it returns is the single
    left-to-right scan that deletes every [LOAD] immediately followed by
    a [STORE] and resumes after the deleted pair; the counters are left
    alone.  The pass is not repeated: the scan of
    [LOAD a; LOAD b; STORE c; STORE d] deletes the inner pair and returns
    [LOAD a; STORE d], in which a [LOAD] is again followed by a [STORE]. *)
Theorem optimize_is_single_scan :
  (forall g : CodeGenerator,
      optimize g = Some (mkCodeGenerator (single_scan (instructions g))
                           (tempVarCounter g) (labelCounter g) (cerr g)))
  /\ (let g := mkCodeGenerator
                 [mkInstruction LOAD "a" "" "t1"; mkInstruction LOAD "b" "" "t2";
                  mkInstruction STORE "t2" "" "c"; mkInstruction STORE "t3" "" "d"]
                 3 0 [] in
      option_map instructions (optimize g)
        = Some [mkInstruction LOAD "a" "" "t1"; mkInstruction STORE "t3" "" "d"]
      /\ has_load_store_pair
           [mkInstruction LOAD "a" "" "t1"; mkInstruction STORE "t3" "" "d"] = true).
Proof.
  split.
  - apply optimize_scan.
  - split; reflexivity.
Qed.

(** ** Lowering of variable declarations *)

(** C10.  A declaration without initializer appends exactly one
    instruction, [STORE] with an empty first operand into the variable,
    and leaves both counters alone; [int x;] is such a declaration and is
    dumped as [STORE], two blanks, [-> x]. *)
Theorem declaration_without_initializer :
  (forall (t : TokenType) (isPointer : bool) (name : string) (g : CodeGenerator),
      generateStatement (VariableDeclaration t isPointer name None) g
        = mkCodeGenerator (instructions g ++ [mkInstruction STORE "" "" name])
                          (tempVarCounter g) (labelCounter g) (cerr g))
  /\ parsedProgram "int x;" = Some [VariableDeclaration INT false "x" None]
  /\ dumpCode (generate [VariableDeclaration INT false "x" None] newCodeGenerator)
       = ["  STORE  -> x"].
Proof.
  split; [|split].
  - intros. reflexivity.
  - vm_compute. reflexivity.
  - vm_compute. reflexivity.
Qed.

(** C1.  The variable is not given the value of its initialiser.  For
    [int x = 5;] the emitter produces [STORE 5 -> t1] and then
    [STORE t2 -> x]: [generateVariableDeclaration] mints a new temporary
    after the initialiser has been lowered and stores that one, which no
    instruction writes, instead of [t1], which holds the value; the
    specification wants [STORE t1 -> x].  The peephole pass, which only
    deletes a [LOAD] with the [STORE] after it, returns the two
    instructions as they are, not [STORE 5 -> x].  No diagnostic is
    written.  The same holds for every literal initialiser and every
    variable name. *)
Theorem scenario_A_stores_unwritten_temporary :
  let g := generate [VariableDeclaration INT false "x"
                       (Some (LiteralExpression "5" INTEGER_LITERAL))]
                    newCodeGenerator in
  parsedProgram "int x = 5;"
    = Some [VariableDeclaration INT false "x"
              (Some (LiteralExpression "5" INTEGER_LITERAL))]
  /\ instructions g = [mkInstruction STORE "5" "" "t1"; mkInstruction STORE "t2" "" "x"]
  /\ Forall (fun i => result i <> "t2") (instructions g)
  /\ instructions g <> [mkInstruction STORE "5" "" "t1"; mkInstruction STORE "t1" "" "x"]
  /\ optimize g = Some g
  /\ option_map instructions (optimize g) <> Some [mkInstruction STORE "5" "" "x"]
  /\ option_map dumpCode (optimize g) = Some ["  STORE 5 -> t1"; "  STORE t2 -> x"]
  /\ cerr g = []
  /\ forall (t lt : TokenType) (isPointer : bool) (name value : string),
       let g := generate [VariableDeclaration t isPointer name
                            (Some (LiteralExpression value lt))]
                         newCodeGenerator in
       instructions g
       = [mkInstruction STORE value "" "t1"; mkInstruction STORE "t2" "" name]
       /\ optimize g = Some g.
Proof.
  intros g.
  split; [vm_compute; reflexivity|]. split; [reflexivity|].
  split; [repeat constructor; discriminate|].
  split; [intros H; discriminate H|].
  split; [rewrite optimize_scan; reflexivity|].
  split; [rewrite optimize_scan; intros H; discriminate H|].
  split; [rewrite optimize_scan; reflexivity|]. split; [reflexivity|].
  intros t lt isPointer name value g'. split; [reflexivity|].
  rewrite optimize_scan. reflexivity.
Qed.

(** ** The symbol table *)

Section SymbolTableFacts.

Import Symbols.

Implicit Types (st : SymbolTable) (cs : list ScopeCall).
Implicit Types (sc : Scope) (sym : Symbol) (n : string).

Lemma length_removelast {A} (l : list A) : length (removelast l) = length l - 1.
Proof.
  induction l as [|a l IH]; [reflexivity|].
  destruct l as [|b l]; [reflexivity|].
  change (removelast (a :: b :: l)) with (a :: removelast (b :: l)).
  cbn [length] in *. lia.
Qed.

Lemma last_Some_nonempty {A} (l : list A) (x : A) : last l = Some x -> 1 <= length l.
Proof. destruct l; [discriminate|]. simpl. lia. Qed.

Lemma depth_enterScope st : length (scopes (enterScope st)) = S (length (scopes st)).
Proof. unfold enterScope. simpl. rewrite length_app. simpl. lia. Qed.

Lemma depth_exitScope st :
  length (scopes (exitScope st))
  = if (1 <? length (scopes st))%nat then length (scopes st) - 1 else length (scopes st).
Proof.
  unfold exitScope. destruct (1 <? length (scopes st))%nat; [|reflexivity].
  simpl. apply length_removelast.
Qed.

Lemma depth_define sym st :
  length (scopes (snd (define sym st))) = length (scopes st).
Proof.
  unfold define. destruct (last (scopes st)) as [sc|] eqn:Hlast; [|reflexivity].
  destruct (Scope_define sym sc) as [ok sc']. simpl.
  rewrite length_app, length_removelast. simpl.
  apply last_Some_nonempty in Hlast. lia.
Qed.

Lemma exitScope_global_only st : length (scopes st) = 1 -> exitScope st = st.
Proof. intros H. unfold exitScope. rewrite H. reflexivity. Qed.

Lemma depth_runCall_positive c st :
  1 <= length (scopes st) -> 1 <= length (scopes (runCall c st)).
Proof.
  intros H. destruct c; cbn [runCall].
  - rewrite depth_enterScope. lia.
  - rewrite depth_exitScope.
    destruct (1 <? length (scopes st))%nat eqn:E; [apply Nat.ltb_lt in E|]; lia.
  - rewrite depth_define. exact H.
Qed.

Lemma depth_runCalls_positive cs : forall st,
  1 <= length (scopes st) -> 1 <= length (scopes (runCalls cs st)).
Proof.
  induction cs as [|c cs IH]; intros st H; [exact H|].
  apply IH, depth_runCall_positive, H.
Qed.

(** From a table with [S open] live scopes, a sequence that closes the
    [open] inner ones and is otherwise balanced leaves one scope. *)
Lemma balancedFrom_depth cs : forall open st,
  balancedFrom open cs = true ->
  length (scopes st) = S open ->
  length (scopes (runCalls cs st)) = 1.
Proof.
  induction cs as [|c cs IH]; intros open st Hbal Hdepth.
  - simpl in *. apply Nat.eqb_eq in Hbal. lia.
  - destruct c; simpl in Hbal.
    + apply (IH (S open)); [exact Hbal|].
      change (runCall CallEnter st) with (enterScope st).
      rewrite depth_enterScope. lia.
    + destruct open as [|o]; [discriminate|].
      apply (IH o); [exact Hbal|].
      change (runCall CallExit st) with (exitScope st).
      rewrite depth_exitScope, Hdepth. reflexivity.
    + apply (IH open); [exact Hbal|].
      change (runCall (CallDefine sym) st) with (snd (define sym st)).
      rewrite depth_define. exact Hdepth.
Qed.

Lemma last_Some_snoc {A} (l : list A) (x : A) :
  last l = Some x -> l = removelast l ++ [x].
Proof.
  intros H. apply last_Some in H. destruct H as [l' ->].
  rewrite removelast_last. reflexivity.
Qed.

(** [resolve] looks into the innermost scope first. *)
Lemma resolve_snoc n (l : list Scope) sc :
  resolve n (mkSymbolTable (l ++ [sc]))
  = match sc !! n with
    | Some sym => Some sym
    | None => resolve n (mkSymbolTable l)
    end.
Proof.
  unfold resolve. cbn [scopes]. rewrite rev_app_distr. reflexivity.
Qed.

Lemma resolveLocal_snoc n (l : list Scope) sc :
  resolveLocal n (mkSymbolTable (l ++ [sc])) = sc !! n.
Proof. unfold resolveLocal. cbn [scopes]. rewrite last_snoc. reflexivity. Qed.

Lemma define_snoc sym (l : list Scope) sc :
  define sym (mkSymbolTable (l ++ [sc]))
  = match sc !! name sym with
    | Some _ => (false, mkSymbolTable (l ++ [sc]))
    | None => (true, mkSymbolTable (l ++ [<[name sym := sym]> sc]))
    end.
Proof.
  unfold define. cbn [scopes]. rewrite last_snoc, removelast_last.
  unfold Scope_define, Scope_contains. destruct (sc !! name sym); reflexivity.
Qed.

(** A table with a scope, seen from its innermost scope. *)
Lemma table_snoc st :
  1 <= length (scopes st) -> exists l sc, st = mkSymbolTable (l ++ [sc]).
Proof.
  destruct st as [l]. cbn [scopes]. intros H.
  destruct (last l) as [sc|] eqn:E.
  - exists (removelast l), sc. rewrite <- (last_Some_snoc _ _ E). reflexivity.
  - apply last_None in E. subst l. simpl in H. lia.
Qed.

(** How the three calls act on a table seen as the scopes [base] it had
    and the scopes [inner] entered since. *)
Lemma enterScope_app (base inner : list Scope) :
  enterScope (mkSymbolTable (base ++ inner)) = mkSymbolTable (base ++ (inner ++ [∅])).
Proof. unfold enterScope. cbn [scopes]. rewrite app_assoc. reflexivity. Qed.

Lemma exitScope_app (base inner : list Scope) sc :
  1 <= length base ->
  exitScope (mkSymbolTable (base ++ inner ++ [sc])) = mkSymbolTable (base ++ inner).
Proof.
  intros Hbase. unfold exitScope. cbn [scopes].
  replace (1 <? length (base ++ inner ++ [sc]))%nat with true
    by (symmetry; apply Nat.ltb_lt; rewrite !length_app; cbn [length]; lia).
  rewrite app_assoc, removelast_last. reflexivity.
Qed.

Lemma define_app (base inner : list Scope) sc sym :
  exists sc',
    snd (define sym (mkSymbolTable (base ++ inner ++ [sc])))
    = mkSymbolTable (base ++ inner ++ [sc']).
Proof.
  rewrite app_assoc, define_snoc.
  destruct (sc !! name sym); eexists; cbn [snd]; rewrite <- app_assoc; reflexivity.
Qed.

Lemma define_table sym (base : list Scope) :
  exists base',
    snd (define sym (mkSymbolTable base)) = mkSymbolTable base'
    /\ length base' = length base.
Proof.
  exists (scopes (snd (define sym (mkSymbolTable base)))).
  split; [destruct (snd _); reflexivity|]. apply (depth_define sym (mkSymbolTable base)).
Qed.

(** A balanced sequence acts like the definitions it makes outside the
    scopes it enters: with [open] scopes of its own still open, it pops
    them all and leaves the scopes [base] with those definitions. *)
Lemma balancedFrom_run cs : forall open (base inner : list Scope),
  balancedFrom open cs = true -> length inner = open -> 1 <= length base ->
  runCalls cs (mkSymbolTable (base ++ inner))
  = defineAll (outerDefines open cs) (mkSymbolTable base).
Proof.
  induction cs as [|c cs IH]; intros open base inner Hbal Hlen Hbase.
  - cbn [balancedFrom] in Hbal. apply Nat.eqb_eq in Hbal. subst open.
    destruct inner; [|discriminate Hlen]. rewrite app_nil_r. reflexivity.
  - destruct c as [| |sym]; cbn [balancedFrom] in Hbal; cbn [outerDefines].
    + change (runCalls (CallEnter :: cs) (mkSymbolTable (base ++ inner)))
        with (runCalls cs (enterScope (mkSymbolTable (base ++ inner)))).
      rewrite enterScope_app. apply IH; [exact Hbal| |exact Hbase].
      rewrite length_app. cbn [length]. lia.
    + destruct open as [|o]; [discriminate Hbal|].
      destruct inner as [|sc inner _] using rev_ind; [discriminate Hlen|].
      rewrite length_app in Hlen. cbn [length] in Hlen.
      change (runCalls (CallExit :: cs) (mkSymbolTable (base ++ inner ++ [sc])))
        with (runCalls cs (exitScope (mkSymbolTable (base ++ inner ++ [sc])))).
      rewrite (exitScope_app _ _ _ Hbase). cbn [Nat.pred].
      apply IH; [exact Hbal|lia|exact Hbase].
    + change (runCalls (CallDefine sym :: cs) (mkSymbolTable (base ++ inner)))
        with (runCalls cs (snd (define sym (mkSymbolTable (base ++ inner))))).
      destruct open as [|o].
      * destruct inner; [|discriminate Hlen]. rewrite app_nil_r.
        destruct (define_table sym base) as (base' & Hdef & Hlen').
        unfold defineAll. cbn [fold_left]. rewrite Hdef.
        rewrite <- (app_nil_r base') at 1. apply (IH 0); [exact Hbal|reflexivity|lia].
      * destruct inner as [|sc inner _] using rev_ind; [discriminate Hlen|].
        destruct (define_app base inner sc sym) as [sc' Hdef]. rewrite Hdef.
        apply IH; [exact Hbal| |exact Hbase].
        rewrite length_app in Hlen |- *. exact Hlen.
Qed.

(** No call removes the first scope of a table or a symbol from it. *)
Lemma runCall_keeps_global c (g : Scope) (rest : list Scope) :
  exists (g' : Scope) (rest' : list Scope),
    runCall c (mkSymbolTable (g :: rest)) = mkSymbolTable (g' :: rest')
    /\ forall n sym, g !! n = Some sym -> g' !! n = Some sym.
Proof.
  destruct c as [| |new]; cbn [runCall].
  - exists g, (rest ++ [∅]). split; [reflexivity|]. auto.
  - destruct rest as [|r rest].
    + exists g, []. split; [reflexivity|]. auto.
    + exists g, (removelast (r :: rest)). split; [|auto].
      unfold exitScope. cbn [scopes length]. reflexivity.
  - destruct rest as [|sc rest _] using rev_ind.
    + change (mkSymbolTable [g]) with (mkSymbolTable ([] ++ [g])). rewrite define_snoc.
      destruct (g !! name new) eqn:Hg.
      * exists g, []. split; [reflexivity|]. auto.
      * exists (<[name new := new]> g), []. split; [reflexivity|].
        intros n sym Hn. rewrite lookup_insert_ne; [exact Hn|]. congruence.
    + change (g :: rest ++ [sc]) with ((g :: rest) ++ [sc]). rewrite define_snoc.
      destruct (sc !! name new); eexists g, _; (split; [reflexivity|auto]).
Qed.

Lemma runCalls_keeps_global cs : forall (g : Scope) (rest : list Scope),
  exists (g' : Scope) (rest' : list Scope),
    runCalls cs (mkSymbolTable (g :: rest)) = mkSymbolTable (g' :: rest')
    /\ forall n sym, g !! n = Some sym -> g' !! n = Some sym.
Proof.
  induction cs as [|c cs IH]; intros g rest.
  - exists g, rest. split; [reflexivity|]. auto.
  - destruct (runCall_keeps_global c g rest) as (g1 & rest1 & Hstep & Hkeep1).
    destruct (IH g1 rest1) as (g' & rest' & Hrun & Hkeep).
    exists g', rest'. split; [|auto].
    change (runCalls (c :: cs) (mkSymbolTable (g :: rest)))
      with (runCalls cs (runCall c (mkSymbolTable (g :: rest)))).
    rewrite Hstep. exact Hrun.
Qed.

End SymbolTableFacts.

(** C8.  Entering a scope pushes and exiting pops, down to the global
    scope, which stays.  A balanced sequence of [enter_scope] /
    [exit_scope] calls (with any [define] calls in between) acts on a
    table exactly like the definitions it makes outside the scopes it
    enters: every scope it entered is gone with its symbols, and the
    scopes that were there are there, with their symbols.  So on a fresh
    table exactly one scope is live afterwards, and on a table that holds
    only the global scope [g] the one scope left is [g] with every symbol
    it had.  [exit_scope] on a table that holds only the global scope
    changes nothing; and no sequence of calls, balanced or not, removes
    the first scope of a table or a symbol from it, or brings the number
    of live scopes below one. *)
Theorem symbol_table_stack_discipline (cs : list Symbols.ScopeCall)
    (Hbalanced : Symbols.balanced cs = true) :
  length (Symbols.scopes (Symbols.runCalls cs Symbols.newSymbolTable)) = 1
  /\ (forall st, 1 <= length (Symbols.scopes st) ->
        Symbols.runCalls cs st
        = Symbols.defineAll (Symbols.outerDefines 0 cs) st)
  /\ (forall g : Symbols.Scope,
        exists g' : Symbols.Scope,
          Symbols.runCalls cs (Symbols.mkSymbolTable [g]) = Symbols.mkSymbolTable [g']
          /\ forall n sym, g !! n = Some sym -> g' !! n = Some sym)
  /\ (forall st, length (Symbols.scopes st) = 1 -> Symbols.exitScope st = st)
  /\ (forall cs' (g : Symbols.Scope) rest,
        exists (g' : Symbols.Scope) rest',
          Symbols.runCalls cs' (Symbols.mkSymbolTable (g :: rest))
          = Symbols.mkSymbolTable (g' :: rest')
          /\ forall n sym, g !! n = Some sym -> g' !! n = Some sym)
  /\ (forall cs' st, 1 <= length (Symbols.scopes st) ->
                     1 <= length (Symbols.scopes (Symbols.runCalls cs' st))).
Proof.
  split; [|split; [|split; [|split; [|split]]]].
  - apply (balancedFrom_depth cs 0); [exact Hbalanced | reflexivity].
  - intros [base] Hbase. cbn [Symbols.scopes] in Hbase.
    rewrite <- (app_nil_r base) at 1.
    apply balancedFrom_run; [exact Hbalanced|reflexivity|exact Hbase].
  - intros g. destruct (runCalls_keeps_global cs g []) as (g' & rest' & Hrun & Hkeep).
    pose proof (balancedFrom_depth cs 0 (Symbols.mkSymbolTable [g]) Hbalanced eq_refl)
      as Hone.
    rewrite Hrun in Hone. cbn [Symbols.scopes length] in Hone.
    destruct rest'; [|discriminate Hone]. exists g'. split; [exact Hrun|exact Hkeep].
  - apply exitScope_global_only.
  - intros cs'. apply runCalls_keeps_global.
  - intros cs'. apply depth_runCalls_positive.
Qed.

Lemma symbol_table_stack_discipline_witness :
  let total := Symbols.variableSymbol "total" INT false Symbols.VARIABLE in
  let cs := [Symbols.CallDefine total; Symbols.CallEnter;
             Symbols.CallDefine (Symbols.variableSymbol "i" INT false Symbols.VARIABLE);
             Symbols.CallEnter; Symbols.CallExit; Symbols.CallExit] in
  Symbols.balanced cs = true
  /\ Symbols.runCalls cs Symbols.newSymbolTable
     = Symbols.defineAll [total] Symbols.newSymbolTable.
Proof.
  intros total cs.
  assert (H : Symbols.balanced cs = true) by reflexivity.
  split; [exact H|].
  apply (proj1 (proj2 (symbol_table_stack_discipline cs H))).
  vm_compute. lia.
Defined.

(** ** The type checker *)

Import TypeCheck.

(** C3 fails on the code: [checkBlock] and [checkFunctionDeclaration]
    call [exitScope] only on the path without exception.  Checking the
    one top-level statement of [int f() { return y; }] raises
    [Undefined variable 'y'] and leaves three live scopes where there was
    one, and the function context is not restored either; in
    [int f(int a) { return y; } int g() { return a; }] the leaked
    parameter [a] then resolves inside [g]. *)
Theorem checker_leaks_scopes_on_error :
  let f := FunctionDeclaration "f" INT []
             (BlockStatement [ReturnStatement (Some (IdentifierExpression "y"))]) in
  parsedProgram "int f() { return y; }" = Some [f]
  /\ (let tc := snd (registerFunctions [f] [] newTypeChecker) in
      scopeDepth tc = 1
      /\ fst (checkStatement f tc) = Throw "Undefined variable 'y'"
      /\ scopeDepth (snd (checkStatement f tc)) = 3
      /\ inFunctionBody (snd (checkStatement f tc)) = true)
  /\ (exists ast tc,
        parsedProgram "int f(int a) { return y; } int g() { return a; }" = Some ast
        /\ check ast newTypeChecker
           = (Throw ("Found 1 semantic errors:" +:+ endl +:+
                     "- Undefined variable 'y'" +:+ endl), tc)
        /\ scopeDepth tc = 3).
Proof.
  split; [vm_compute; reflexivity|].
  split; [repeat split; vm_compute; reflexivity|].
  eexists. eexists. split; [vm_compute; reflexivity|].
  split; vm_compute; reflexivity.
Qed.

(** C7 as stated: the compatibility relation is not symmetric. *)
Lemma compatibility_not_symmetric :
  ~ (forall a b : TokenType, isCompatibleType a b = isCompatibleType b a).
Proof.
  intros H. specialize (H POINTER INTEGER_LITERAL). vm_compute in H. discriminate H.
Qed.

(** C7, amended.  Compatibility is symmetric on every pair of kinds
    other than POINTER with INTEGER_LITERAL; on that pair it holds with
    the pointer on the left only.  So a comparison of a pointer variable
    with an integer literal is accepted with the literal on the right and
    rejected with the literal on the left. *)
Theorem compatibility_symmetric_except_null_pointer (a b : TokenType)
    (Hnot_pl : (a, b) <> (POINTER, INTEGER_LITERAL))
    (Hnot_lp : (a, b) <> (INTEGER_LITERAL, POINTER)) :
  isCompatibleType a b = isCompatibleType b a
  /\ isCompatibleType POINTER INTEGER_LITERAL = true
  /\ isCompatibleType INTEGER_LITERAL POINTER = false
  /\ (forall (tc : TypeChecker) (p v : string) (sym : Symbols.Symbol) (op : TokenType),
        Symbols.resolve p (symbolTable tc) = Some sym ->
        Symbols.kind sym <> Symbols.FUNCTION ->
        Symbols.isPointer sym = true ->
        isComparison op = true ->
        checkExpression (BinaryExpression (IdentifierExpression p) op
                           (LiteralExpression v INTEGER_LITERAL)) tc
          = (Ok BOOL, tc)
        /\ checkExpression (BinaryExpression (LiteralExpression v INTEGER_LITERAL) op
                              (IdentifierExpression p)) tc
          = (Throw "Cannot compare incompatible types: int and pointer", tc)).
Proof.
  split; [|split; [reflexivity|split; [reflexivity|]]].
  - destruct a; destruct b; try reflexivity;
      solve [exfalso; apply Hnot_pl; reflexivity | exfalso; apply Hnot_lp; reflexivity].
  - intros tc p v sym op Hres Hkind Hptr Hcmp.
    assert (Hk : Symbols.SymbolKind_eqb (Symbols.kind sym) Symbols.FUNCTION = false).
    { destruct (Symbols.kind sym); try reflexivity. exfalso. apply Hkind. reflexivity. }
    assert (Hid : checkExpression (IdentifierExpression p) tc = (Ok POINTER, tc)).
    { cbn [checkExpression]. unfold bind, resolveM, gets. rewrite Hres, Hk.
      unfold symbolType. rewrite Hptr. reflexivity. }
    split.
    + cbn [checkExpression] in *. unfold bind at 1. rewrite Hid. unfold bind, ret.
      destruct op; try discriminate Hcmp; reflexivity.
    + cbn [checkExpression] in *. unfold bind at 1. unfold ret at 1.
      unfold bind at 1. rewrite Hid.
      destruct op; try discriminate Hcmp; reflexivity.
Qed.

Lemma compatibility_symmetric_except_null_pointer_witness :
  (INT, FLOAT_LITERAL) <> (POINTER, INTEGER_LITERAL)
  /\ (INT, FLOAT_LITERAL) <> (INTEGER_LITERAL, POINTER)
  /\ isCompatibleType INT FLOAT_LITERAL = isCompatibleType FLOAT_LITERAL INT.
Proof.
  split; [discriminate|]. split; [discriminate|].
  apply (compatibility_symmetric_except_null_pointer INT FLOAT_LITERAL); discriminate.
Defined.

(** ** The lexer *)

(** C9 fails on the code: the loop of [skipComment] stops one character
    before the end of the source, so the last byte of an unterminated
    comment is handed back to the scanner.  It comes out as a token
    ([x], [*]) or as a lexical error ([@]); only white space vanishes. *)
Theorem unterminated_comment_leaks_last_byte :
  Lex.tokenize "/*x"
    = Some [Lex.Tok (mkToken IDENTIFIER "x" 1); Lex.Tok (mkToken END_OF_FILE "" 1)]
  /\ fst (Lex.getNextToken (Lex.newLexer "/*x")) = Ok (mkToken IDENTIFIER "x" 1)
  /\ Lex.tokenize "int a; /* no end *"
    = Some [Lex.Tok (mkToken INT "int" 1); Lex.Tok (mkToken IDENTIFIER "a" 1);
            Lex.Tok (mkToken SEMICOLON ";" 1); Lex.Tok (mkToken MULTIPLY "*" 1);
            Lex.Tok (mkToken END_OF_FILE "" 1)]
  /\ fst (Lex.getNextToken (Lex.newLexer "/* note @"))
    = Throw "Unexpected character: @"
  /\ fst (Lex.getNextToken (Lex.newLexer "/* note ")) = Ok (mkToken END_OF_FILE "" 1).
Proof. repeat split; vm_compute; reflexivity. Qed.

(** ** The parser *)

(** C6 fails on the code for identifier operands: the right operand of
    a stream operator is parsed by [parseExpression], whose
    [parsePrimary] takes an identifier followed by a stream operator as
    the start of a chain of its own.  [s << a << b] nests to the right;
    with literal operands, or after [endl], the chain nests to the left. *)
Theorem stream_chain_of_identifiers_nests_right :
  let s := IdentifierExpression "s" in
  let a := IdentifierExpression "a" in
  let b := IdentifierExpression "b" in
  parsedProgram "s << a << b;"
    = Some [ExpressionStatement
              (BinaryExpression s LEFT_SHIFT (BinaryExpression a LEFT_SHIFT b))]
  /\ parsedProgram "s << a << b;"
    <> Some [ExpressionStatement
               (BinaryExpression (BinaryExpression s LEFT_SHIFT a) LEFT_SHIFT b)]
  /\ parsedProgram "s << 1 << 2;"
    = Some [ExpressionStatement
              (BinaryExpression
                 (BinaryExpression s LEFT_SHIFT (LiteralExpression "1" INTEGER_LITERAL))
                 LEFT_SHIFT (LiteralExpression "2" INTEGER_LITERAL))]
  /\ parsedProgram "s << endl << b;"
    = Some [ExpressionStatement
              (BinaryExpression
                 (BinaryExpression s LEFT_SHIFT (IdentifierExpression "endl"))
                 LEFT_SHIFT b)].
Proof.
  split; [vm_compute; reflexivity|].
  split; [vm_compute; intros H; discriminate H|].
  split; vm_compute; reflexivity.
Qed.

(** ** The lexer answers *)

Section LexerTermination.

Import Lex.

Lemma onward_refl lx : onward lx lx.
Proof. unfold onward. lia. Qed.

Lemma onward_trans a b c : onward a b -> onward b c -> onward a c.
Proof. unfold onward. lia. Qed.

Lemma scans_ret {A} (a : A) lx (Q : A -> Lexer -> Prop) E : Q a lx -> scans (ret a) lx Q E.
Proof. intros H. unfold scans, ret. split; [apply onward_refl|exact H]. Qed.

Lemma scans_throw {A} w lx (Q : A -> Lexer -> Prop) (E : Lexer -> Prop) :
  E lx -> scans (throw w) lx Q E.
Proof. intros H. unfold scans, throw. split; [apply onward_refl|exact H]. Qed.

Lemma scans_gets {A} (g : Lexer -> A) lx (Q : A -> Lexer -> Prop) E :
  Q (g lx) lx -> scans (gets g) lx Q E.
Proof. intros H. unfold scans, gets. split; [apply onward_refl|exact H]. Qed.

Lemma scans_gets_bind {A B} (g : Lexer -> A) (f : A -> LX B) lx Q E :
  scans (f (g lx)) lx Q E -> scans (bind (gets g) f) lx Q E.
Proof. intros H. exact H. Qed.

Lemma scans_get_bind {B} (f : Lexer -> LX B) lx Q E :
  scans (f lx) lx Q E -> scans (bind get f) lx Q E.
Proof. intros H. exact H. Qed.

Lemma scans_ret_bind {A B} (a : A) (f : A -> LX B) lx Q E :
  scans (f a) lx Q E -> scans (bind (ret a) f) lx Q E.
Proof. intros H. exact H. Qed.

Lemma scans_bind_assoc {A B C} (m : LX A) (f : A -> LX B) (g : B -> LX C) lx Q E :
  scans (bind m (fun a => bind (f a) g)) lx Q E -> scans (bind (bind m f) g) lx Q E.
Proof.
  unfold scans, bind. destruct (m lx) as [[a|w|] lx']; intros H; exact H.
Qed.

Lemma scans_weaken {A} (m : LX A) lx (Q Q' : A -> Lexer -> Prop) (E E' : Lexer -> Prop) :
  scans m lx Q E ->
  (forall a lx', onward lx lx' -> Q a lx' -> Q' a lx') ->
  (forall lx', onward lx lx' -> E lx' -> E' lx') ->
  scans m lx Q' E'.
Proof.
  unfold scans. intros H HQ HE. destruct (m lx) as [[a|w|] lx']; [| |exact H].
  - split; [apply H|]. apply HQ; apply H.
  - split; [apply H|]. apply HE; apply H.
Qed.

Lemma scans_post {A} (m : LX A) lx (Q Q' : A -> Lexer -> Prop) (E : Lexer -> Prop) :
  scans m lx Q E ->
  (forall a lx', onward lx lx' -> Q a lx' -> Q' a lx') ->
  scans m lx Q' E.
Proof.
  intros H HQ. apply scans_weaken with (Q := Q) (E := E); [exact H|exact HQ|].
  intros lx' _ HE. exact HE.
Qed.

Lemma scans_bind {A B} (m : LX A) (f : A -> LX B) lx (R : A -> Lexer -> Prop) Q E :
  scans m lx R E ->
  (forall a lx', R a lx' -> onward lx lx' -> scans (f a) lx' Q E) ->
  scans (bind m f) lx Q E.
Proof.
  unfold scans at 1 3, bind. intros Hm Hf.
  destruct (m lx) as [[a|w|] lx']; [|exact Hm|exact Hm].
  destruct Hm as [Hon HR]. specialize (Hf a lx' HR Hon). unfold scans in Hf.
  destruct (f a lx') as [[b|w|] lx'']; [| |exact Hf].
  - split; [eapply onward_trans; [exact Hon|apply Hf]|apply Hf].
  - split; [eapply onward_trans; [exact Hon|apply Hf]|apply Hf].
Qed.

Lemma scans_advance lx E :
  scans advance lx (fun _ lx' => position lx' = S (position lx)) E.
Proof.
  unfold scans, advance, onward. destruct (Ascii.eqb _ _); cbn [source position]; lia.
Qed.

(** A character other than the end marker is a character of the source. *)
Lemma peekAt_not_NUL lx : peekAt lx <> NUL -> position lx < String.length (source lx).
Proof.
  unfold peekAt. destruct (_ <=? _)%nat eqn:E; [congruence|].
  intros _. apply Nat.leb_gt. exact E.
Qed.

Ltac char_left :=
  repeat match goal with
  | H : ?b = _ |- _ =>
      match b with
      | context [peekAt ?q] =>
          lazymatch goal with
          | _ : position q < String.length (source q) |- _ => fail
          | _ => idtac
          end;
          let Hp := fresh "Hpos" in
          assert (Hp : position q < String.length (source q))
            by (apply peekAt_not_NUL;
                let He := fresh in
                intros He; rewrite He in H;
                first [congruence | vm_compute in H; discriminate H])
      end
  end.

Ltac lex_measure :=
  cbv beta in *; unfold onward, remaining, hasNext in *;
  repeat match goal with
  | H : _ /\ _ |- _ => destruct H
  | H : (_ <=? _)%nat = true |- _ => apply Nat.leb_le in H
  | H : (_ <=? _)%nat = false |- _ => apply Nat.leb_gt in H
  | H : (_ <? _)%nat = true |- _ => apply Nat.ltb_lt in H
  | H : (_ <? _)%nat = false |- _ => apply Nat.ltb_ge in H
  | H : _ && _ = true |- _ => apply andb_prop in H
  end;
  char_left; first [exact I | lia | intros; lia].

Lemma scans_match_ c lx E : scans (match_ c) lx (fun _ _ => True) E.
Proof.
  unfold match_, peek. apply scans_gets_bind.
  destruct (Ascii.eqb _ _); [|apply scans_ret; exact I].
  eapply scans_bind; [apply scans_advance|]. intros. apply scans_ret. exact I.
Qed.

Ltac scan_step :=
  cbv beta zeta;
  lazymatch goal with
  | |- scans (ret _) _ _ _ => apply scans_ret
  | |- scans (throw _) _ _ _ => apply scans_throw
  | |- scans (token _ _) _ _ _ => unfold token; apply scans_gets
  | |- scans (bind (gets _) _) _ _ _ => apply scans_gets_bind
  | |- scans (bind get _) _ _ _ => apply scans_get_bind
  | |- scans (bind peek _) _ _ _ => unfold peek at 1
  | |- scans (bind (ret _) _) _ _ _ => apply scans_ret_bind
  | |- scans (bind (bind _ _) _) _ _ _ => apply scans_bind_assoc
  | |- scans (bind advance _) _ _ _ =>
      eapply scans_bind; [apply scans_advance | intros ? ? ? ?]
  | |- scans (bind (match_ _) _) _ _ _ =>
      eapply scans_bind; [apply scans_match_ | intros ? ? ? ?]
  | |- scans (bind (if ?b then _ else _) _) _ _ _ => destruct b eqn:?
  | |- scans (if ?b then _ else _) _ _ _ => destruct b eqn:?
  | |- scans (match ?o with Some _ => _ | None => _ end) _ _ _ => destruct o
  | |- scans outOfFuel _ _ _ => exfalso
  end.

Ltac scan := repeat scan_step.

Ltac lex_call H :=
  eapply scans_bind; [apply H; lex_measure | intros ? ? ? ?]; scan; try lex_measure.
Ltac lex_tail H :=
  eapply scans_post; [apply H; lex_measure | intros ? ? ? ?; lex_measure].

Section Loops.

Variable cond : ascii -> bool.
Hypothesis Hcond : cond NUL = false.

Lemma scans_skipWhile E f : forall lx,
  remaining lx <= f ->
  scans (skipWhile f cond) lx
        (fun _ lx' => cond (peekAt lx) = true -> position lx < position lx') E.
Proof.
  induction f as [|f IH]; intros lx Hf; cbn [skipWhile]; scan; try lex_measure.
  lex_tail IH.
Qed.

Lemma scans_readWhile E f : forall lexeme lx,
  remaining lx <= f ->
  scans (readWhile f cond lexeme) lx
        (fun _ lx' => cond (peekAt lx) = true -> position lx < position lx') E.
Proof.
  induction f as [|f IH]; intros lexeme lx Hf; cbn [readWhile]; scan; try lex_measure.
  lex_tail IH.
Qed.

End Loops.

Ltac lex_loop :=
  eapply scans_bind;
  [ first [apply scans_readWhile | apply scans_skipWhile];
    [ first [reflexivity | apply andb_false_intro2; reflexivity] | lex_measure ]
  | intros ? ? ? ? ];
  scan; try lex_measure.

Lemma scans_skipWhitespace E f lx :
  remaining lx <= f -> scans (skipWhitespace f) lx (fun _ _ => True) E.
Proof.
  intros Hf. unfold skipWhitespace.
  eapply scans_post; [apply scans_skipWhile; [reflexivity|exact Hf]|].
  intros; exact I.
Qed.

Lemma scans_skipBlockComment E f : forall lx,
  remaining lx <= f -> scans (skipBlockComment f) lx (fun _ _ => True) E.
Proof.
  induction f as [|f IH]; intros lx Hf; cbn [skipBlockComment]; scan; try lex_measure.
  lex_tail IH.
Qed.

Lemma scans_skipComment E f lx :
  remaining lx <= f ->
  scans (skipComment f) lx
        (fun _ lx' =>
           Ascii.eqb (peekAt lx) "/"%char && hasNext lx &&
           (Ascii.eqb (nextChar lx) "/"%char || Ascii.eqb (nextChar lx) "*"%char) = true ->
           position lx < position lx') E.
Proof.
  intros Hf. unfold skipComment. apply scans_get_bind.
  destruct (Ascii.eqb (peekAt lx) "/"%char && hasNext lx) eqn:Hslash;
    [|apply scans_ret; cbn; discriminate].
  destruct (Ascii.eqb (nextChar lx) "/"%char) eqn:Hline.
  - eapply scans_post; [apply scans_skipWhile; [reflexivity|exact Hf]|].
    intros [] lx' _ Hstep _. apply Hstep.
    apply andb_prop in Hslash. destruct Hslash as [Hc _].
    apply Ascii.eqb_eq in Hc. rewrite Hc. reflexivity.
  - destruct (Ascii.eqb (nextChar lx) "*"%char) eqn:Hblock;
      [|apply scans_ret; cbn; discriminate].
    scan. eapply scans_post; [apply scans_skipBlockComment; lex_measure|].
    intros [] lx2 Hon _ _. lex_measure.
Qed.

Lemma scans_identifier E f lx :
  remaining lx <= f ->
  scans (identifier f) lx
        (fun _ lx' => isalpha (peekAt lx) || Ascii.eqb (peekAt lx) "_"%char = true ->
                      position lx < position lx') E.
Proof.
  intros Hf. unfold identifier.
  eapply scans_bind; [apply scans_readWhile; [reflexivity|exact Hf]|].
  intros lexeme lx' Hstep Hon.
  assert (HQ : isalpha (peekAt lx) || Ascii.eqb (peekAt lx) "_"%char = true ->
               position lx < position lx').
  { intros H. apply Hstep. unfold isalnum.
    destruct (isalpha (peekAt lx)); [reflexivity|].
    cbn [orb] in *. rewrite H. apply orb_true_r. }
  scan; exact HQ.
Qed.

Lemma scans_numberLoop E f : forall isFloat lexeme lx,
  remaining lx <= f ->
  scans (numberLoop f isFloat lexeme) lx
        (fun _ lx' => isdigit (peekAt lx) = true -> position lx < position lx') E.
Proof.
  induction f as [|f IH]; intros isFloat lexeme lx Hf; cbn [numberLoop];
    apply scans_gets_bind.
  - destruct (isdigit (peekAt lx) || Ascii.eqb (peekAt lx) "."%char) eqn:Hd;
      [|apply scans_ret; intros H; rewrite H in Hd; discriminate Hd].
    destruct (Ascii.eqb (peekAt lx) "."%char && isFloat) eqn:Hdot.
    + apply scans_ret. intros H. apply andb_prop in Hdot. destruct Hdot as [Hc _].
      apply Ascii.eqb_eq in Hc. rewrite Hc in H. discriminate H.
    + exfalso. lex_measure.
  - destruct (isdigit (peekAt lx) || Ascii.eqb (peekAt lx) "."%char) eqn:Hd;
      [|apply scans_ret; intros H; rewrite H in Hd; discriminate Hd].
    destruct (Ascii.eqb (peekAt lx) "."%char && isFloat) eqn:Hdot.
    + apply scans_ret. intros H. apply andb_prop in Hdot. destruct Hdot as [Hc _].
      apply Ascii.eqb_eq in Hc. rewrite Hc in H. discriminate H.
    + scan. lex_tail IH.
Qed.

Lemma scans_number E f lx :
  remaining lx <= f ->
  scans (number f) lx
        (fun _ lx' => isdigit (peekAt lx) = true -> position lx < position lx') E.
Proof.
  intros Hf. unfold number.
  eapply scans_bind; [apply scans_numberLoop; exact Hf|].
  intros [isFloat lexeme] lx' Hstep Hon. scan. exact Hstep.
Qed.

Lemma scans_stringLoop E f : forall lexeme lx,
  remaining lx <= f -> scans (stringLoop f lexeme) lx (fun _ _ => True) E.
Proof.
  induction f as [|f IH]; intros lexeme lx Hf; cbn [stringLoop]; scan; try lex_measure.
  - lex_tail IH.
  - lex_tail IH.
Qed.

Lemma scans_string_ (E : Lexer -> Prop) f lx :
  remaining lx <= f -> (forall lx', onward lx lx' -> E lx') ->
  scans (string_ f) lx (fun _ _ => True) E.
Proof.
  intros Hf HE. unfold string_.
  eapply scans_bind; [apply scans_stringLoop; exact Hf|].
  intros lexeme lx' _ Hon. scan; try lex_measure. apply HE. exact Hon.
Qed.

Lemma scans_character (E : Lexer -> Prop) lx :
  (forall lx', onward lx lx' -> E lx') ->
  scans character lx (fun _ _ => True) E.
Proof.
  intros HE. unfold character. scan; try lex_measure.
  - apply HE. lex_measure.
  - apply HE. lex_measure.
Qed.

Lemma scans_preprocessorDirective E f lx :
  remaining lx <= f ->
  scans (preprocessorDirective f) lx (fun _ lx' => position lx < position lx') E.
Proof.
  intros Hf. unfold preprocessorDirective. scan.
  lex_call scans_skipWhitespace.
  eapply scans_bind; [apply scans_readWhile; [reflexivity|lex_measure]|].
  intros lexeme lx2 _ Hon2. scan.
  all: try lex_measure.
  lex_call scans_skipWhitespace. lex_loop.
Qed.

Lemma scans_punctuation (E : Lexer -> Prop) f c lx :
  remaining lx <= f -> (forall lx', onward lx lx' -> E lx') ->
  scans (punctuation f c) lx (fun _ _ => True) E.
Proof.
  intros Hf HE. unfold punctuation. scan; try exact I.
  - apply scans_string_; assumption.
  - apply scans_character; assumption.
  - apply HE, onward_refl.
Qed.

(** A call of [getNextToken] returns [END_OF_FILE] or consumes a
    character, also when it throws. *)
Lemma scans_getNextTokenFuel f : forall lx,
  remaining lx < f ->
  scans (getNextTokenFuel f) lx
        (fun t lx' => type t = END_OF_FILE \/ remaining lx' < remaining lx)
        (fun lx' => remaining lx' < remaining lx).
Proof.
  induction f as [|f IH]; intros lx Hf; [lia|].
  cbn [getNextTokenFuel].
  eapply scans_bind; [apply scans_skipWhitespace; lia|].
  intros [] lx1 _ Hon1. apply scans_get_bind.
  destruct (String.length (source lx1) <=? position lx1)%nat eqn:Hend.
  { unfold token. apply scans_gets. left. reflexivity. }
  apply Nat.leb_gt in Hend. cbv zeta.
  destruct (_ && _ && _) eqn:Hcomment.
  { eapply scans_bind; [apply scans_skipComment; lex_measure|].
    intros [] lx2 Hstep Hon2. specialize (Hstep Hcomment).
    eapply scans_weaken; [apply IH; lex_measure| |].
    - intros t lx3 Hon3 [Ht|Hlt]; [left; exact Ht|right; lex_measure].
    - intros lx3 Hon3 Hlt. lex_measure. }
  destruct (Ascii.eqb (peekAt lx1) "#"%char) eqn:Hhash.
  { eapply scans_weaken; [apply scans_preprocessorDirective; lex_measure| |].
    - intros t lx2 Hon2 Hlt. right. lex_measure.
    - intros lx2 Hon2 Hlt. exact Hlt. }
  destruct (isalpha (peekAt lx1) || Ascii.eqb (peekAt lx1) "_"%char) eqn:Hident.
  { eapply scans_weaken; [apply scans_identifier; lex_measure| |].
    - intros t lx2 Hon2 Hstep. specialize (Hstep Hident). right. lex_measure.
    - intros lx2 Hon2 Hlt. exact Hlt. }
  destruct (isdigit (peekAt lx1)) eqn:Hdigit.
  { eapply scans_weaken; [apply scans_number; lex_measure| |].
    - intros t lx2 Hon2 Hstep. specialize (Hstep Hdigit). right. lex_measure.
    - intros lx2 Hon2 Hlt. exact Hlt. }
  eapply scans_bind; [apply scans_advance|].
  intros c lx2 Hpos Hon2. cbv beta in Hpos.
  eapply scans_post; [apply scans_punctuation; [lex_measure|]|].
  - intros lx3 Hon3. lex_measure.
  - intros t lx3 Hon3 _. right. lex_measure.
Qed.

Lemma scans_getNextToken lx :
  scans getNextToken lx
        (fun t lx' => type t = END_OF_FILE \/ remaining lx' < remaining lx)
        (fun lx' => remaining lx' < remaining lx).
Proof.
  assert (H : remaining lx < S (String.length (source lx)))
    by (unfold remaining; lia).
  apply scans_getNextTokenFuel in H. unfold scans in *. unfold getNextToken.
  exact H.
Qed.

Lemma tokenizeFuel_answers fuel : forall lx,
  remaining lx < fuel -> tokenizeFuel fuel lx <> None.
Proof.
  induction fuel as [|fuel IH]; intros lx Hfuel; [lia|].
  cbn [tokenizeFuel]. pose proof (scans_getNextToken lx) as H. unfold scans in H.
  destruct (getNextToken lx) as [[t|w|] lx']; [| |destruct H].
  - destruct (TokenType_eqb (type t) END_OF_FILE) eqn:Heof; [discriminate|].
    destruct H as [_ [Ht|Hlt]].
    { rewrite Ht in Heof. discriminate Heof. }
    specialize (IH lx'). destruct (tokenizeFuel fuel lx'); [discriminate|].
    exfalso. apply IH; [lia|reflexivity].
  - destruct H as [_ Hlt].
    specialize (IH lx'). destruct (tokenizeFuel fuel lx'); [discriminate|].
    exfalso. apply IH; [lia|reflexivity].
Qed.

(** The lexer answers on every source text. *)
Lemma tokenize_answers src : tokenize src <> None.
Proof.
  unfold tokenize. apply tokenizeFuel_answers. unfold remaining, newLexer.
  cbn [source position]. lia.
Qed.


End LexerTermination.

(** ** The tokens of the lexer *)

Section LexerTokens.

Import Lex.

Lemma returns_bind {A B} (m : LX A) (f : A -> LX B) Q :
  (forall a, returns (f a) Q) -> returns (bind m f) Q.
Proof.
  intros Hf lx b lx'. unfold bind. destruct (m lx) as [[a|w|] lx1]; [|discriminate..].
  apply Hf.
Qed.

Lemma returns_token t lexeme (Q : Token -> Prop) :
  (forall ln, Q (mkToken t lexeme ln)) -> returns (token t lexeme) Q.
Proof. intros H lx a lx' E. injection E as <- _. apply H. Qed.

Lemma returns_throw {A} w (Q : A -> Prop) : returns (throw w) Q.
Proof. intros lx a lx'. discriminate. Qed.

Lemma returns_outOfFuel {A} (Q : A -> Prop) : returns outOfFuel Q.
Proof. intros lx a lx'. discriminate. Qed.

Lemma keywords_not_IDENTIFIER lexeme : keywords !! lexeme <> Some IDENTIFIER.
Proof.
  unfold keywords. intros H.
  repeat (apply lookup_insert_Some in H; destruct H as [[_ H]|[_ H]]; [discriminate H|]).
  rewrite lookup_empty in H. discriminate H.
Qed.

Lemma returns_identifier f : returns (identifier f) properToken.
Proof.
  unfold identifier. apply returns_bind. intros word.
  destruct (keywords !! word) as [t|] eqn:E; apply returns_token; intros ln Ht Hs;
    cbn [type lexeme] in *.
  - subst t. exact (keywords_not_IDENTIFIER _ E).
  - subst word. vm_compute in E. discriminate E.
Qed.

Ltac tokens :=
  repeat first
    [ apply returns_identifier
    | apply returns_throw
    | apply returns_outOfFuel
    | apply returns_token; intros ? ?; discriminate
    | apply returns_bind; intros ?
    | lazymatch goal with
      | |- returns (if ?b then _ else _) _ => destruct b
      | |- returns (token (if ?b then _ else _) _) _ => destruct b
      | |- returns (let (_, _) := ?x in _) _ => destruct x
      end ].

Lemma returns_getNextTokenFuel f : returns (getNextTokenFuel f) properToken.
Proof.
  induction f as [|f IH]; cbn [getNextTokenFuel]; unfold number, preprocessorDirective,
    punctuation, string_, character; tokens; exact IH.
Qed.

Lemma returns_getNextToken : returns getNextToken properToken.
Proof. intros lx t lx' E. exact (returns_getNextTokenFuel _ lx t lx' E). Qed.

(** What the lexer delivers: [END_OF_FILE] is the last token and the
    only one of its type, and no identifier is spelled [string]. *)
Lemma tokenizeFuel_tokens fuel : forall lx results,
  tokenizeFuel fuel lx = Some results ->
  exists pre eof,
    results = pre ++ [Tok eof] /\ type eof = END_OF_FILE
    /\ Forall noEOF pre
    /\ forall t, In (Tok t) results -> properToken t.
Proof.
  induction fuel as [|fuel IH]; intros lx results; cbn [tokenizeFuel]; [discriminate|].
  pose proof (returns_getNextToken lx) as Hproper.
  destruct (getNextToken lx) as [[t|w|] lx']; [| |discriminate].
  - specialize (Hproper t lx' eq_refl).
    destruct (TokenType_eqb (type t) END_OF_FILE) eqn:Heof.
    + intros [= <-]. exists [], t. split; [reflexivity|].
      split; [apply TokenType_eqb_eq; exact Heof|]. split; [constructor|].
      intros t' [[= <-]|[]]. exact Hproper.
    + destruct (tokenizeFuel fuel lx') as [rest|] eqn:Hrest; [|discriminate].
      intros [= <-]. destruct (IH _ _ Hrest) as (pre & eof & -> & Hty & Hpre & Hall).
      exists (Tok t :: pre), eof. split; [reflexivity|]. split; [exact Hty|].
      split.
      * constructor; [|exact Hpre]. cbn. intros H. rewrite H in Heof. discriminate Heof.
      * intros t' [[= <-]|Hin]; [exact Hproper|apply Hall, Hin].
  - clear Hproper.
    destruct (tokenizeFuel fuel lx') as [rest|] eqn:Hrest; [|discriminate].
    intros [= <-]. destruct (IH _ _ Hrest) as (pre & eof & -> & Hty & Hpre & Hall).
    exists (LexError w :: pre), eof. split; [reflexivity|]. split; [exact Hty|].
    split.
    * constructor; [exact I|exact Hpre].
    * intros t' [Hin|Hin]; [discriminate Hin|apply Hall, Hin].
Qed.

Lemma tokenize_tokens src :
  exists pre eof,
    tokenize src = Some (pre ++ [Tok eof]) /\ type eof = END_OF_FILE
    /\ Forall noEOF pre
    /\ forall t, In (Tok t) (pre ++ [Tok eof]) -> properToken t.
Proof.
  pose proof (tokenize_answers src) as H.
  destruct (tokenize src) as [results|] eqn:E; [clear H|congruence].
  destruct (tokenizeFuel_tokens _ _ _ E) as (pre & eof & -> & Hty & Hpre & Hall).
  exists pre, eof. auto.
Qed.

End LexerTokens.

(** ** The parser answers *)

Section ParserTermination.

Import Parse.

Lemma tokensLeft_pos p : type (currentToken p) <> END_OF_FILE -> 0 < tokensLeft p.
Proof.
  unfold tokensLeft. destruct (lexer p); [|lia].
  destruct (TokenType_eqb _ _) eqn:E; [|lia].
  intros H. exfalso. apply H. apply TokenType_eqb_eq. exact E.
Qed.

Lemma tokensLeft_mk_le cur pending : tokensLeft (mkParser cur pending) <= S (length pending).
Proof.
  unfold tokensLeft. cbn [lexer currentToken]. destruct pending; [|cbn [length]; lia].
  destruct (TokenType_eqb _ _); cbn [length]; lia.
Qed.

Lemma tokensLeft_cons cur r pending :
  tokensLeft (mkParser cur (r :: pending)) = S (S (length pending)).
Proof. reflexivity. Qed.

Lemma tokensLeft_eof ln : tokensLeft (mkParser (mkToken END_OF_FILE "" ln) []) = 0.
Proof. reflexivity. Qed.

Lemma answers_ret {A} (a : A) p (Q : A -> Parser -> Prop) : Q a p -> answers (ret a) p Q.
Proof. intros H. unfold answers, ret. split; [lia|exact H]. Qed.

Lemma answers_throw {A} w p (Q : A -> Parser -> Prop) : answers (throw w) p Q.
Proof. unfold answers, throw. lia. Qed.

Lemma answers_gets_bind {A B} (g : Parser -> A) (f : A -> P B) p Q :
  answers (f (g p)) p Q -> answers (bind (gets g) f) p Q.
Proof. intros H. exact H. Qed.

Lemma answers_ret_bind {A B} (a : A) (f : A -> P B) p Q :
  answers (f a) p Q -> answers (bind (ret a) f) p Q.
Proof. intros H. exact H. Qed.

Lemma answers_bind_assoc {A B C} (m : P A) (f : A -> P B) (g : B -> P C) p Q :
  answers (bind m (fun a => bind (f a) g)) p Q -> answers (bind (bind m f) g) p Q.
Proof.
  unfold answers, bind. destruct (m p) as [[a|w|] p']; intros H; exact H.
Qed.

Lemma answers_throw_bind {A B} w (f : A -> P B) p Q : answers (bind (throw w) f) p Q.
Proof. unfold answers, bind, throw. lia. Qed.

Lemma answers_gets {A} (g : Parser -> A) p (Q : A -> Parser -> Prop) :
  Q (g p) p -> answers (gets g) p Q.
Proof. intros H. unfold answers, gets. split; [lia|exact H]. Qed.

Lemma answers_weaken {A} (m : P A) p (Q Q' : A -> Parser -> Prop) :
  answers m p Q ->
  (forall a p', tokensLeft p' <= tokensLeft p -> Q a p' -> Q' a p') ->
  answers m p Q'.
Proof.
  unfold answers. intros H HQ. destruct (m p) as [[a|w|] p']; [|exact H|exact H].
  split; [apply H|]. apply HQ; apply H.
Qed.

Lemma answers_bind {A B} (m : P A) (f : A -> P B) p (R : A -> Parser -> Prop) Q :
  answers m p R ->
  (forall a p', R a p' -> tokensLeft p' <= tokensLeft p -> answers (f a) p' Q) ->
  answers (bind m f) p Q.
Proof.
  unfold answers at 1 3, bind. intros Hm Hf.
  destruct (m p) as [[a|w|] p']; [|exact Hm|exact Hm].
  destruct Hm as [Hle HR]. specialize (Hf a p' HR Hle). unfold answers in Hf.
  destruct (f a p') as [[b|w|] p'']; [|lia|exact Hf].
  split; [lia|apply Hf].
Qed.

Lemma answers_tryCatch {A} (m : P A) (h : string -> P A) p Q :
  answers m p Q ->
  (forall w p', tokensLeft p' <= tokensLeft p -> answers (h w) p' Q) ->
  answers (tryCatch m h) p Q.
Proof.
  unfold answers at 1 3, tryCatch. intros Hm Hh.
  destruct (m p) as [[a|w|] p']; [exact Hm| |exact Hm].
  specialize (Hh w p' Hm). unfold answers in Hh.
  destruct (h w p') as [[b|w'|] p'']; [|lia|exact Hh].
  split; [lia|apply Hh].
Qed.

Lemma answers_advance p :
  answers advance p (fun _ p' => tokensLeft p' <= tokensLeft p - 1).
Proof.
  unfold answers, advance. destruct p as [cur pending]. cbn [lexer currentToken].
  destruct pending as [|[t|w] rest].
  - rewrite tokensLeft_eof. lia.
  - rewrite tokensLeft_cons. pose proof (tokensLeft_mk_le t rest). lia.
  - rewrite tokensLeft_cons. pose proof (tokensLeft_mk_le cur rest). lia.
Qed.

Lemma synchronizeLoop_spec pending : forall cur,
  match synchronizeLoop cur pending with
  | (OutOfFuel, _) => False
  | (_, p') => tokensLeft p' <= tokensLeft (mkParser cur pending)
  end.
Proof.
  induction pending as [|r rest IH]; intros cur; cbn [synchronizeLoop].
  - destruct (TokenType_eqb (type cur) END_OF_FILE) eqn:E; [lia|].
    destruct (_ || _).
    { unfold advance. cbn [lexer currentToken]. rewrite tokensLeft_eof. lia. }
    destruct (existsb _ _); [lia|]. rewrite tokensLeft_eof. lia.
  - destruct (TokenType_eqb (type cur) END_OF_FILE); [lia|].
    destruct (_ || _).
    { pose proof (answers_advance (mkParser cur (r :: rest))) as H.
      unfold answers in H. destruct (advance _) as [[a|w|] p']; [lia|lia|exact H]. }
    destruct (existsb _ _); [lia|].
    rewrite tokensLeft_cons. destruct r as [t|w].
    + specialize (IH t). pose proof (tokensLeft_mk_le t rest).
      destruct (synchronizeLoop t rest) as [[a|w|] p']; [lia|lia|exact IH].
    + pose proof (tokensLeft_mk_le cur rest). lia.
Qed.

Lemma answers_synchronize p :
  answers synchronize p (fun _ p' => tokensLeft p' <= tokensLeft p - 1).
Proof.
  unfold synchronize. eapply answers_bind; [apply answers_advance|].
  intros [] [cur pending] Hle _. unfold answers. cbn [currentToken lexer].
  pose proof (synchronizeLoop_spec pending cur) as H'. cbv beta in Hle.
  destruct (synchronizeLoop cur pending) as [[a|w|] p']; [lia|lia|exact H'].
Qed.

Lemma answers_recovering {A} (m : P A) p Q : answers m p Q -> answers (recovering m) p Q.
Proof.
  intros H. unfold recovering. apply answers_tryCatch; [exact H|].
  intros w p' Hle. eapply answers_bind; [apply answers_synchronize|].
  intros. apply answers_throw.
Qed.

Lemma answers_consume t msg p :
  t <> END_OF_FILE -> answers (consume t msg) p (past p).
Proof.
  intros Ht. unfold consume, check. apply answers_gets_bind.
  destruct (TokenType_eqb _ _) eqn:E; [|apply answers_throw].
  assert (0 < tokensLeft p).
  { apply tokensLeft_pos. apply TokenType_eqb_eq in E. congruence. }
  eapply answers_weaken; [apply answers_advance|].
  intros [] p' _ Hle. unfold past. cbv beta in Hle. lia.
Qed.

(** [match_] consumes the token it accepts. *)
Lemma answers_match_ t p :
  t <> END_OF_FILE ->
  answers (match_ t) p (fun b p' => b = true -> tokensLeft p' < tokensLeft p).
Proof.
  intros Ht. unfold match_, check. apply answers_gets_bind.
  destruct (TokenType_eqb _ _) eqn:E; [|apply answers_ret; discriminate].
  assert (0 < tokensLeft p).
  { apply tokensLeft_pos. apply TokenType_eqb_eq in E. congruence. }
  eapply answers_bind; [apply answers_advance|].
  intros [] p' Hle _. apply answers_ret. intros _. cbv beta in Hle. lia.
Qed.

(** A loop of [advanceWhile] whose condition fails on [END_OF_FILE]
    ends, and ends at a token that fails the condition. *)
Lemma advanceWhileLoop_spec (cond : Token -> bool)
    (Hcond : forall t, type t = END_OF_FILE -> cond t = false) pending :
  forall acc cur,
    match advanceWhileLoop cond acc cur pending with
    | (Ok _, p') =>
        tokensLeft p' <= tokensLeft (mkParser cur pending)
        /\ cond (currentToken p') = false
    | (Throw _, p') => tokensLeft p' <= tokensLeft (mkParser cur pending)
    | (OutOfFuel, _) => False
    end.
Proof.
  induction pending as [|r rest IH]; intros acc cur; cbn [advanceWhileLoop].
  - destruct (cond cur) eqn:E; [|split; [lia|exact E]].
    rewrite (Hcond (mkToken END_OF_FILE "" (line cur)) eq_refl).
    rewrite tokensLeft_eof. split; [lia|]. cbn [currentToken].
    apply Hcond. reflexivity.
  - destruct (cond cur) eqn:E; [|split; [lia|exact E]].
    rewrite tokensLeft_cons. destruct r as [t|w].
    + specialize (IH (acc +:+ lexeme cur) t). pose proof (tokensLeft_mk_le t rest).
      destruct (advanceWhileLoop _ _ t rest) as [[a|w|] p'];
        [split; [lia|apply IH]|lia|exact IH].
    + pose proof (tokensLeft_mk_le cur rest). lia.
Qed.

Lemma answers_advanceWhile (cond : Token -> bool) p :
  (forall t, type t = END_OF_FILE -> cond t = false) ->
  answers (advanceWhile cond) p (fun _ p' => cond (currentToken p') = false).
Proof.
  intros Hcond. unfold answers, advanceWhile.
  pose proof (advanceWhileLoop_spec cond Hcond (lexer p) "" (currentToken p)) as H.
  destruct p as [cur pending]. cbn [lexer currentToken] in *. exact H.
Qed.

(** A test on the current token that holds shows that a token is left. *)
Ltac token_left :=
  repeat match goal with
  | H : ?b = _ |- _ =>
      match b with
      | context [currentToken ?q] =>
          lazymatch goal with
          | _ : 0 < tokensLeft q |- _ => fail
          | _ => idtac
          end;
          let Hp := fresh "Hpos" in
          assert (Hp : 0 < tokensLeft q)
            by (apply tokensLeft_pos;
                let He := fresh in
                intros He; cbv beta delta [startsDeclaration] in H;
                rewrite He in H; cbv in H; discriminate H)
      end
  end.

Ltac measure :=
  cbv beta in *; unfold past, anywhere in *;
  repeat match goal with
  | H : true = true -> _ |- _ => specialize (H eq_refl)
  end;
  token_left; first [exact I | lia].

Ltac ans_step :=
  cbv beta zeta;
  lazymatch goal with
  | |- answers (ret _) _ _ => apply answers_ret
  | |- answers (throw _) _ _ => apply answers_throw
  | |- answers (bind (gets _) _) _ _ => apply answers_gets_bind
  | |- answers (bind (ret _) _) _ _ => apply answers_ret_bind
  | |- answers (bind (throw _) _) _ _ => apply answers_throw_bind
  | |- answers (bind (bind _ _) _) _ _ => apply answers_bind_assoc
  | |- answers (bind peek _) _ _ => unfold peek at 1
  | |- answers (bind (check _) _) _ _ => unfold check at 1
  | |- answers (bind (checkAny _) _) _ _ => unfold checkAny at 1
  | |- answers (bind advance _) _ _ =>
      eapply answers_bind; [apply answers_advance | intros [] ? ? ?]
  | |- answers (bind (consume _ _) _) _ _ =>
      eapply answers_bind; [apply answers_consume; discriminate | intros [] ? ? ?]
  | |- answers (bind (advanceWhile _) _) _ _ =>
      eapply answers_bind;
      [ apply answers_advanceWhile;
        let t := fresh in let Ht := fresh in
        intros t Ht; cbv beta; rewrite Ht; reflexivity
      | intros ? ? ? ?]
  | |- answers (bind (match_ _) _) _ _ =>
      eapply answers_bind; [apply answers_match_; discriminate | intros ? ? ? ?]
  | |- answers (bind (if ?b then _ else _) _) _ _ => destruct b eqn:?
  | |- answers (if ?b then _ else _) _ _ => destruct b eqn:?
  | |- answers (recovering _) _ _ => apply answers_recovering
  | |- answers advance _ _ => eapply answers_weaken; [apply answers_advance | intros ? ? ? ?]
  | |- answers (consume _ _) _ _ =>
      eapply answers_weaken; [apply answers_consume; discriminate | intros ? ? ? ?]
  | |- answers outOfFuel _ _ => exfalso
  | |- answers (match ?l with [] => _ | _ :: _ => _ end) _ _ => destruct l
  end.

Ltac ans := repeat ans_step.

(** A call of a function with the specification [H], followed by more;
    and such a call in tail position. *)
Ltac ans_call H :=
  eapply answers_bind; [apply H; measure | intros ? ? ? ?]; ans; try measure.
Ltac ans_tail H :=
  eapply answers_weaken; [apply H; measure | intros ? ? ? ?; measure].

Section WithExpression.

Variable rec : P Expression.
Variable K : nat.
Hypothesis Hrec : forall p, tokensLeft p < K -> answers rec p (past p).

Lemma answers_parseArguments n : forall arguments p,
  tokensLeft p < n -> tokensLeft p < K ->
  answers (parseArguments rec n arguments) p anywhere.
Proof.
  induction n as [|n IH]; intros arguments p Hn HK; [lia|].
  cbn [parseArguments].
  apply answers_bind with
    (R := fun _ p' =>
            existsb (TokenType_eqb (type (currentToken p'))) [RPAREN; END_OF_FILE] = false ->
            tokensLeft p' < tokensLeft p).
  - apply answers_tryCatch.
    + ans.
      * measure.
      * eapply answers_bind; [apply Hrec, HK|]. intros arg p' Hlt Hle.
        ans. measure.
    + intros w p' Hle.
      eapply answers_bind.
      { apply answers_advanceWhile. intros t Ht. rewrite Ht. reflexivity. }
      intros s p1 Hcond Hle1. ans.
      * intros _. measure.
      * intros Hstop. exfalso. cbv beta in Hcond. cbn [existsb] in Hstop.
        match goal with
        | H : TokenType_eqb _ COMMA = false |- _ => rewrite H in Hcond
        end.
        destruct (TokenType_eqb (type (currentToken p1)) RPAREN);
          destruct (TokenType_eqb (type (currentToken p1)) END_OF_FILE);
          cbn in *; congruence.
  - intros args p' Hstep Hle. ans; [measure|].
    apply IH; measure.
Qed.

Lemma answers_parseStream n : forall left_ p,
  0 < tokensLeft p -> tokensLeft p < n -> tokensLeft p <= K ->
  answers (parseStream rec n left_) p anywhere.
Proof.
  induction n as [|n IH]; intros left_ p Hpos Hn HK; [lia|].
  cbn [parseStream]. ans; try measure.
  - ans_tail IH.
  - ans_call Hrec. ans_tail IH.
Qed.

Lemma answers_parsePrimary n : forall p,
  tokensLeft p < n -> tokensLeft p <= K -> answers (parsePrimary rec n) p (past p).
Proof.
  induction n as [|n IH]; intros p Hn HK; [lia|].
  cbn [parsePrimary]. ans; try measure.
  - ans_call IH.
  - ans_call answers_parseArguments.
  - ans_tail answers_parseStream.
  - ans_call Hrec.
Qed.

Section BinaryLevels.

Variable ops : list TokenType.
Variable mk : Expression -> TokenType -> Expression -> Expression.
Variable operand : P Expression.
Variable B : nat.
Hypothesis Hops : existsb (TokenType_eqb END_OF_FILE) ops = false.
Hypothesis Hoperand : forall p, tokensLeft p < B -> answers operand p (past p).

Lemma ops_token_left p :
  existsb (TokenType_eqb (type (currentToken p))) ops = true -> 0 < tokensLeft p.
Proof.
  intros H. apply tokensLeft_pos. intros He. rewrite He in H. congruence.
Qed.

Lemma answers_binaryLoop n : forall expr p,
  tokensLeft p <= n -> tokensLeft p <= B ->
  answers (binaryLoop n ops mk operand expr) p anywhere.
Proof.
  induction n as [|n IH]; intros expr p Hn HB; cbn [binaryLoop]; ans; try measure.
  - match goal with H : existsb _ ops = true |- _ => apply ops_token_left in H end. lia.
  - match goal with H : existsb _ ops = true |- _ => apply ops_token_left in H end.
    ans_call Hoperand. ans_tail IH.
Qed.

Lemma answers_binaryLevel n p :
  tokensLeft p <= n -> tokensLeft p < B ->
  answers (binaryLevel n ops mk operand) p (past p).
Proof.
  intros Hn HB. unfold binaryLevel. ans. ans_call Hoperand.
  ans_tail answers_binaryLoop.
Qed.

End BinaryLevels.

Lemma answers_parseLogicalOr n p :
  tokensLeft p < n -> tokensLeft p <= K ->
  answers (parseLogicalOr rec n) p (past p).
Proof.
  intros Hn HK.
  assert (HB : tokensLeft p < Nat.min n (S K)) by lia. clear HK.
  revert p HB Hn.
  assert (H0 : forall p, tokensLeft p < Nat.min n (S K) ->
                         answers (parsePrimary rec n) p (past p)).
  { intros p Hp. apply answers_parsePrimary; lia. }
  assert (H1 : forall p, tokensLeft p < Nat.min n (S K) ->
                         answers (parseFactor rec n) p (past p)).
  { intros p Hp. apply answers_binaryLevel with (B := Nat.min n (S K));
      [reflexivity|exact H0|lia|exact Hp]. }
  assert (H2 : forall p, tokensLeft p < Nat.min n (S K) ->
                         answers (parseTerm rec n) p (past p)).
  { intros p Hp. apply answers_binaryLevel with (B := Nat.min n (S K));
      [reflexivity|exact H1|lia|exact Hp]. }
  assert (H3 : forall p, tokensLeft p < Nat.min n (S K) ->
                         answers (parseComparison rec n) p (past p)).
  { intros p Hp. apply answers_binaryLevel with (B := Nat.min n (S K));
      [reflexivity|exact H2|lia|exact Hp]. }
  assert (H4 : forall p, tokensLeft p < Nat.min n (S K) ->
                         answers (parseEquality rec n) p (past p)).
  { intros p Hp. apply answers_binaryLevel with (B := Nat.min n (S K));
      [reflexivity|exact H3|lia|exact Hp]. }
  assert (H5 : forall p, tokensLeft p < Nat.min n (S K) ->
                         answers (parseLogicalAnd rec n) p (past p)).
  { intros p Hp. apply answers_binaryLevel with (B := Nat.min n (S K));
      [reflexivity|exact H4|lia|exact Hp]. }
  intros p Hp Hn. apply answers_binaryLevel with (B := Nat.min n (S K));
    [reflexivity|exact H5|lia|exact Hp].
Qed.

Lemma answers_parseAssignmentFuel d : forall n p,
  tokensLeft p < d -> tokensLeft p < n -> tokensLeft p <= K ->
  answers (parseAssignmentFuel rec d n) p (past p).
Proof.
  induction d as [|d IH]; intros n p Hd Hn HK; [lia|].
  cbn [parseAssignmentFuel]. ans. ans_call answers_parseLogicalOr.
  - destruct a; ans; try measure. ans_call IH.
  - destruct a; ans; try measure.
Qed.

End WithExpression.

Lemma answers_parseExpression n : forall p,
  tokensLeft p + 1 < n -> answers (parseExpression n) p (past p).
Proof.
  induction n as [|n IH]; intros p Hn; [lia|].
  cbn [parseExpression]. ans. unfold parseAssignment.
  apply answers_parseAssignmentFuel with (K := n - 1); [|lia|lia|lia].
  intros q Hq. apply IH. lia.
Qed.

Lemma answers_parsePreprocessorDirective p :
  0 < tokensLeft p -> answers parsePreprocessorDirective p (past p).
Proof.
  intros Hpos. unfold parsePreprocessorDirective. ans; try measure.
Qed.

Lemma answers_parseUsingDirective p :
  0 < tokensLeft p -> answers parseUsingDirective p (past p).
Proof.
  intros Hpos. unfold parseUsingDirective. ans; try measure.
Qed.

Lemma answers_parseParameters n : forall parameters p,
  tokensLeft p < n -> answers (parseParameters n parameters) p anywhere.
Proof.
  induction n as [|n IH]; intros parameters p Hn; [lia|].
  cbn [parseParameters]. ans; try measure. ans_tail IH.
Qed.

Lemma answers_recovering_parseExpression n p :
  tokensLeft p + 1 < n -> answers (recovering (parseExpression n)) p (past p).
Proof. intros Hn. apply answers_recovering, answers_parseExpression, Hn. Qed.

Lemma answers_parseInitializer n p :
  tokensLeft p < n -> answers (parseInitializer n) p anywhere.
Proof.
  intros Hn. unfold parseInitializer. ans; try measure.
  ans_call answers_recovering_parseExpression.
Qed.

Lemma answers_parseDeclarators n : forall t isPointer declarations p,
  tokensLeft p <= n ->
  answers (parseDeclarators n t isPointer declarations) p anywhere.
Proof.
  induction n as [|n IH]; intros t isPointer declarations p Hn;
    cbn [parseDeclarators]; ans; try measure.
  ans_call answers_parseInitializer. ans_tail IH.
Qed.

Section WithStatement.

Variable rec : P Statement.
Variable K : nat.
Hypothesis Hrec : forall p, tokensLeft p < K -> answers rec p (past p).

Lemma answers_parseBlockLoop n : forall statements p,
  tokensLeft p <= n -> tokensLeft p < K ->
  answers (parseBlockLoop rec n statements) p anywhere.
Proof.
  induction n as [|n IH]; intros statements p Hn HK;
    cbn [parseBlockLoop]; ans; try measure.
  ans_call Hrec. ans_tail IH.
Qed.

Lemma answers_parseBracedBlock n m1 m2 p :
  tokensLeft p <= n -> tokensLeft p <= K ->
  answers (parseBracedBlock rec n m1 m2) p (past p).
Proof.
  intros Hn HK. unfold parseBracedBlock, parseBlock. ans.
  ans_call answers_parseBlockLoop.
Qed.

Lemma answers_parseFunctionOrVariableDeclaration n p :
  tokensLeft p < n -> tokensLeft p <= K ->
  answers (parseFunctionOrVariableDeclaration rec n) p (past p).
Proof.
  intros Hn HK. unfold parseFunctionOrVariableDeclaration. ans; try measure.
  - ans_call answers_parseBracedBlock.
  - ans_call answers_parseParameters. ans_call answers_parseBracedBlock.
  - ans_call answers_parseInitializer. ans_call answers_parseDeclarators.
Qed.

Lemma answers_parseStatementBody n p :
  tokensLeft p + 1 < n -> tokensLeft p <= K ->
  answers (parseStatementBody rec n) p (past p).
Proof.
  intros Hn HK. unfold parseStatementBody. ans; try measure.
  all: repeat first
    [ ans_tail answers_parsePreprocessorDirective
    | ans_tail answers_parseUsingDirective
    | ans_tail answers_parseFunctionOrVariableDeclaration
    | ans_call answers_parseExpression
    | ans_call answers_parseBracedBlock
    | ans_call answers_parseFunctionOrVariableDeclaration ].
Qed.

End WithStatement.

Lemma answers_parseStatement n : forall p,
  tokensLeft p + 2 < n -> answers (parseStatement n) p (past p).
Proof.
  induction n as [|n IH]; intros p Hn; [lia|].
  cbn [parseStatement].
  apply answers_parseStatementBody with (K := n - 2); [|lia|lia].
  intros q Hq. apply IH. lia.
Qed.

(** The loop of [Parser::parse] does not run out of fuel. *)
Lemma parseLoop_answers fuel : forall statements diagnostics p,
  tokensLeft p + 2 < fuel ->
  fst (fst (parseLoop fuel statements diagnostics p)) <> OutOfFuel.
Proof.
  induction fuel as [|fuel IH]; intros statements diagnostics p Hfuel; [lia|].
  cbn [parseLoop].
  destruct (TokenType_eqb (type (currentToken p)) END_OF_FILE) eqn:Heof;
    [discriminate|].
  assert (Hpos : 0 < tokensLeft p).
  { apply tokensLeft_pos. intros H. rewrite H in Heof. discriminate Heof. }
  match goal with
  | |- context [match ?attempt p with _ => _ end] =>
      assert (Hattempt : answers attempt p (past p));
      [|unfold answers in Hattempt; destruct (attempt p) as [[[stmt|]|w|] p']]
  end.
  - ans; try measure. ans_call answers_parseStatement.
  - apply IH. unfold past in Hattempt. lia.
  - apply IH. unfold past in Hattempt. lia.
  - pose proof (answers_synchronize p') as Hsync. unfold answers in Hsync.
    destruct (synchronize p') as [[[]|w'|] p'']; [|discriminate|destruct Hsync].
    apply IH. lia.
  - destruct Hattempt.
Qed.

Lemma parse_answers p : fst (fst (parse p)) <> OutOfFuel.
Proof.
  unfold parse. apply parseLoop_answers.
  destruct p as [cur pending]. pose proof (tokensLeft_mk_le cur pending).
  cbn [lexer]. lia.
Qed.

End ParserTermination.

(** ** The driver *)

(** C2.  A parse error does not stop the driver.  On [int y; int x = ;]
    the parser writes the diagnostic [Error: Expect expression.], and the
    driver still runs the type checker and the emitter on the statement
    that was recovered, prints its code and exits with code 0, where the
    specification wants exit code 1 and no emission after any parse
    error.  The same happens when the error inside a statement is a
    lexical one, as on [int y; x @;].  So it is not the case that a run
    whose parser wrote a diagnostic exits with code 1 without emitting. *)
Theorem driver_continues_after_parse_error :
  frontEnd "int y; int x = ;"
    = Some (Ok [VariableDeclaration INT false "y" None], ["Error: Expect expression."])
  /\ compile "int y; int x = ;"
    = Some (mkRun 0
              ["Parsing source code..."; "Performing semantic analysis...";
               "No semantic errors found."; "Generating code..."; "Optimizing...";
               endl +:+ "Generated Code:"; "----------------"; "  STORE  -> y"]
              ["Error: Expect expression."])
  /\ compile "int y; x @;"
    = Some (mkRun 0
              ["Parsing source code..."; "Performing semantic analysis...";
               "No semantic errors found."; "Generating code..."; "Optimizing...";
               endl +:+ "Generated Code:"; "----------------"; "  STORE  -> y"]
              ["Error: Unexpected character: @"])
  /\ ~ (forall source r ast diagnostics,
          compile source = Some r ->
          frontEnd source = Some (Ok ast, diagnostics) ->
          diagnostics <> [] ->
          exitCode r = 1 /\ ranTypeChecker r = false /\ ranEmitter r = false).
Proof.
  assert (Hfront : frontEnd "int y; int x = ;"
            = Some (Ok [VariableDeclaration INT false "y" None],
                    ["Error: Expect expression."])) by (vm_compute; reflexivity).
  assert (Hrun : compile "int y; int x = ;"
            = Some (mkRun 0
              ["Parsing source code..."; "Performing semantic analysis...";
               "No semantic errors found."; "Generating code..."; "Optimizing...";
               endl +:+ "Generated Code:"; "----------------"; "  STORE  -> y"]
              ["Error: Expect expression."])) by (vm_compute; reflexivity).
  split; [exact Hfront|]. split; [exact Hrun|]. split; [vm_compute; reflexivity|].
  intros H. destruct (H _ _ _ _ Hrun Hfront) as [Hcode _]; [discriminate|].
  discriminate Hcode.
Qed.

(** The constructor of the parser and the type checker answer. *)
Lemma newParser_answers results : fst (Parse.newParser results) <> OutOfFuel.
Proof.
  unfold Parse.newParser, Parse.advance. cbn [Parse.lexer].
  destruct results as [|[t|w] rest]; discriminate.
Qed.

Lemma check_answers ast tc : fst (check ast tc) <> OutOfFuel.
Proof.
  unfold check. destruct (TypeCheck.registerFunctions ast [] tc) as [errors tc1].
  destruct (TypeCheck.checkAllStatements ast errors tc1) as [[|e errors'] tc2];
    discriminate.
Qed.

(** The driver on every source text.  It answers, and it exits with
    code 1 exactly when an exception leaves the parser (a lexical error
    met while the parser is constructed or while its top-level loop
    recovers) or the type checker raises; in the first case neither the
    type checker nor the emitter runs, in the second the emitter does not
    run.  The diagnostics the parser's loop wrote stay on the error
    stream and change neither the exit code nor the phases that run. *)
Lemma driver_exit_code (source : string) :
  exists r : Run,
    compile source = Some r
    /\ match frontEnd source with
       | Some (Throw w, diagnostics) =>
           exitCode r = 1 /\ ranTypeChecker r = false /\ ranEmitter r = false
           /\ stderr r = diagnostics ++ ["Error: " +:+ what w]
       | Some (Ok ast, diagnostics) =>
           ranTypeChecker r = true
           /\ (forall d, In d diagnostics -> In d (stderr r))
           /\ match check ast newTypeChecker with
              | (Ok _, _) => exitCode r = 0 /\ ranEmitter r = true
              | (Throw _, _) => exitCode r = 1 /\ ranEmitter r = false
              | (OutOfFuel, _) => False
              end
       | _ => False
       end.
Proof.
  unfold compile, frontEnd.
  pose proof (tokenize_answers source) as Hlex.
  destruct (Lex.tokenize source) as [results|]; [clear Hlex|congruence].
  pose proof (newParser_answers results) as Hnew.
  destruct (Parse.newParser results) as [[u|w|] p];
    [clear Hnew| |exfalso; apply Hnew; reflexivity].
  - pose proof (parse_answers p) as Hparse.
    destruct (Parse.parse p) as [[[ast|w|] diagnostics] p'];
      [clear Hparse| |exfalso; apply Hparse; reflexivity].
    + pose proof (check_answers ast newTypeChecker) as Hcheck.
      destruct (check ast newTypeChecker) as [[u'|w|] tc];
        [clear Hcheck| |exfalso; apply Hcheck; reflexivity].
      * rewrite optimize_scan. eexists. split; [reflexivity|].
        cbn [exitCode stderr].
        split; [reflexivity|]. split; [|split; reflexivity].
        intros d Hd. apply in_or_app. left. exact Hd.
      * eexists. split; [reflexivity|]. cbn [exitCode stderr].
        split; [reflexivity|]. split; [|split; reflexivity].
        intros d Hd. apply in_or_app. left. exact Hd.
    + eexists. split; [reflexivity|]. repeat split; reflexivity.
  - eexists. split; [reflexivity|]. repeat split; reflexivity.
Qed.

(** ** Fuel of the expression parser *)

Section FuelMonotone.

Import Parse.

Lemma refines_refl {A} (m : P A) : refines m m.
Proof. intros p. right. reflexivity. Qed.

Lemma refines_outOfFuel {A} (m : P A) : refines outOfFuel m.
Proof. intros p. left. reflexivity. Qed.

Lemma refines_bind {A B} (m m' : P A) (k k' : A -> P B) :
  refines m m' -> (forall a, refines (k a) (k' a)) -> refines (bind m k) (bind m' k').
Proof.
  intros Hm Hk p. unfold bind.
  destruct (Hm p) as [Hoof | Heq].
  - left. destruct (m p) as [[a|w|] p1]; simpl in Hoof; try discriminate Hoof. reflexivity.
  - rewrite <- Heq. destruct (m p) as [[a|w|] p1].
    + apply Hk.
    + right. reflexivity.
    + left. reflexivity.
Qed.

Lemma refines_tryCatch {A} (m m' : P A) (h h' : string -> P A) :
  refines m m' -> (forall w, refines (h w) (h' w)) ->
  refines (tryCatch m h) (tryCatch m' h').
Proof.
  intros Hm Hh p. unfold tryCatch.
  destruct (Hm p) as [Hoof | Heq].
  - left. destruct (m p) as [[a|w|] p1]; simpl in Hoof; try discriminate Hoof. reflexivity.
  - rewrite <- Heq. destruct (m p) as [[a|w|] p1].
    + right. reflexivity.
    + apply Hh.
    + left. reflexivity.
Qed.

Lemma refines_recovering {A} (m m' : P A) :
  refines m m' -> refines (recovering m) (recovering m').
Proof. intros Hm. apply refines_tryCatch; [exact Hm|]. intros w. apply refines_refl. Qed.

Ltac mono_step :=
  first
    [ assumption
    | apply refines_outOfFuel
    | apply refines_recovering
    | apply refines_tryCatch; [|intros ?]
    | apply refines_bind; [|intros ?]
    | match goal with
      | |- refines (if ?c then _ else _) (if ?c then _ else _) => destruct c
      | |- refines (match ?e with _ => _ end) (match ?e with _ => _ end) => destruct e
      end
    | apply refines_refl ].

Ltac mono := repeat mono_step.

Section WithRec.

Variables rec rec' : P Expression.
Hypothesis Hrec : refines rec rec'.

Lemma parseArguments_mono n : forall n' arguments,
  n <= n' -> refines (parseArguments rec n arguments) (parseArguments rec' n' arguments).
Proof.
  induction n as [|n IH]; intros n' arguments Hle; [apply refines_outOfFuel|].
  destruct n' as [|n']; [lia|].
  cbn [parseArguments]. mono. apply IH. lia.
Qed.

Lemma parseStream_mono n : forall n' left_,
  n <= n' -> refines (parseStream rec n left_) (parseStream rec' n' left_).
Proof.
  induction n as [|n IH]; intros n' left_ Hle; [apply refines_outOfFuel|].
  destruct n' as [|n']; [lia|].
  cbn [parseStream]. mono. apply IH. lia.
Qed.

Lemma parsePrimary_mono n : forall n',
  n <= n' -> refines (parsePrimary rec n) (parsePrimary rec' n').
Proof.
  induction n as [|n IH]; intros n' Hle; [apply refines_outOfFuel|].
  destruct n' as [|n']; [lia|].
  cbn [parsePrimary]. mono.
  - apply IH. lia.
  - apply parseArguments_mono. lia.
  - apply parseStream_mono. lia.
Qed.

Lemma binaryLoop_mono ops mk (operand operand' : P Expression) n :
  refines operand operand' ->
  forall n' expr, n <= n' ->
  refines (binaryLoop n ops mk operand expr) (binaryLoop n' ops mk operand' expr).
Proof.
  intros Hop. induction n as [|n IH]; intros n' expr Hle.
  - destruct n'; cbn [binaryLoop]; mono.
  - destruct n' as [|n']; [lia|]. cbn [binaryLoop]. mono. apply IH. lia.
Qed.

Lemma binaryLevel_mono ops mk (operand operand' : P Expression) n n' :
  refines operand operand' -> n <= n' ->
  refines (binaryLevel n ops mk operand) (binaryLevel n' ops mk operand').
Proof.
  intros Hop Hle. unfold binaryLevel. mono. apply binaryLoop_mono; assumption.
Qed.

Lemma parseLogicalOr_mono n n' :
  n <= n' -> refines (parseLogicalOr rec n) (parseLogicalOr rec' n').
Proof.
  intros Hle.
  unfold parseLogicalOr, parseLogicalAnd, parseEquality, parseComparison,
    parseTerm, parseFactor.
  repeat (apply binaryLevel_mono; [|exact Hle]).
  apply parsePrimary_mono. exact Hle.
Qed.

Lemma parseAssignmentFuel_mono d : forall d' n n',
  d <= d' -> n <= n' ->
  refines (parseAssignmentFuel rec d n) (parseAssignmentFuel rec' d' n').
Proof.
  induction d as [|d IH]; intros d' n n' Hd Hn; [apply refines_outOfFuel|].
  destruct d' as [|d']; [lia|].
  cbn [parseAssignmentFuel]. apply refines_recovering.
  apply refines_bind; [apply parseLogicalOr_mono; exact Hn|].
  intros expr. mono. apply IH; lia.
Qed.

End WithRec.

Lemma parseExpression_mono n : forall n',
  n <= n' -> refines (parseExpression n) (parseExpression n').
Proof.
  induction n as [|n IH]; intros n' Hle; [apply refines_outOfFuel|].
  destruct n' as [|n']; [lia|].
  cbn [parseExpression]. apply refines_recovering. unfold parseAssignment.
  apply parseAssignmentFuel_mono; try lia. apply IH. lia.
Qed.

End FuelMonotone.

(** ** The token after an expression *)

Section FollowerFacts.

Import Parse.

Variable follow : Token.
Variable ext : list Lex.Lexed.
Hypothesis Hfollow : type follow = SEMICOLON \/ type follow = RPAREN.

Lemma Dead_SimD {A} (m : P A) : Dead m -> SimD follow ext m.
Proof.
  intros H p Hp. specialize (H p Hp).
  destruct (m p) as [[a|w|] p']; [contradiction | exact H | exact I].
Qed.

Lemma Dead_Stay {A} (m : P A) : Dead m -> Stay m.
Proof.
  intros H p Hp. specialize (H p Hp).
  destruct (m p) as [[a|w|] p']; [contradiction | right; exact H | left; reflexivity].
Qed.

Lemma SimD_Stay {A} (m : P A) : SimD follow ext m -> Stay m.
Proof.
  intros H p Hp. specialize (H p Hp).
  destruct (m p) as [[a|w|] p']; [right; apply H | right; exact H | left; reflexivity].
Qed.

Lemma SimL_weaken {A} (lost : Prop) (m : P A) : SimL follow ext False m -> SimL follow ext lost m.
Proof.
  intros H p q HL. specialize (H p q HL). unfold post in *.
  destruct (m p) as [[a|w|] p']; [|exact H|exact I].
  destruct H as [H | [[] _]]. left. exact H.
Qed.

(** *** The primitives *)

Lemma SimL_ret {A} lost (a : A) : SimL follow ext lost (ret a).
Proof. intros p q HL. left. exists q. split; [reflexivity | left; exact HL]. Qed.

Lemma SimL_throw {A} lost w : SimL follow ext lost (@throw Parser A w).
Proof. intros p q HL. right. exists q. split; [reflexivity | exact HL]. Qed.

Lemma SimL_outOfFuel {A} lost : SimL follow ext lost (@outOfFuel Parser A).
Proof. intros p q HL. exact I. Qed.

Lemma SimD_ret {A} (a : A) : SimD follow ext (ret a).
Proof. intros p Hp. split; [reflexivity | exact Hp]. Qed.

Lemma Dead_throw {A} w : Dead (@throw Parser A w).
Proof. intros p Hp. exact Hp. Qed.

Lemma Dead_outOfFuel {A} : Dead (@outOfFuel Parser A).
Proof. intros p Hp. exact I. Qed.

Lemma AtEOF_advance p : AtEOF p -> exists p', advance p = (Ok tt, p') /\ AtEOF p'.
Proof.
  intros [Hty Hl]. unfold advance. rewrite Hl.
  eexists. split; [reflexivity|]. split; reflexivity.
Qed.

Lemma SimL_advance : SimL follow ext False advance.
Proof.
  intros [cur pending] q (Hc & Hl & Hne & Hno). simpl in *.
  unfold post, advance. rewrite Hl, Hc. simpl.
  destruct pending as [|[tk|w] rest]; simpl.
  - left. eexists. split; [reflexivity|]. right. split; [split; reflexivity | reflexivity].
  - left. eexists. split; [reflexivity|]. left.
    inversion Hno; subst. repeat split; simpl; assumption.
  - right. eexists. split; [reflexivity|].
    inversion Hno; subst. repeat split; simpl; assumption.
Qed.

Lemma Stay_advance : Stay advance.
Proof.
  intros p Hp. destruct (AtEOF_advance p Hp) as (p' & Heq & Hp'). rewrite Heq. right. exact Hp'.
Qed.

(** *** Sequencing *)

Lemma SimL_bind_gen {A B} (lm lost : Prop) (m : P A) (k : A -> P B) :
  SimL follow ext lm m ->
  (forall a, SimL follow ext lost (k a)) ->
  (forall a, SimD follow ext (k a)) ->
  (lm -> forall a, Dead (k a)) ->
  SimL follow ext lost (bind m k).
Proof.
  intros Hm Hk HkD HkDead p q HL. specialize (Hm p q HL).
  unfold post in *. unfold bind at 1.
  destruct (m p) as [[a|w|] p1]; [| |exact I].
  - destruct Hm as [(q1 & Hq & [HL1 | [He Hq0]]) | [Hlost He]].
    + specialize (Hk a p1 q1 HL1). unfold post in Hk.
      destruct (k a p1) as [[b|w|] p2]; [| |exact I].
      * destruct Hk as [(q2 & Hq2 & HR) | Hl]; [left | right; exact Hl].
        exists q2. split; [unfold bind; rewrite Hq; exact Hq2 | exact HR].
      * destruct Hk as [He | (q2 & Hq2 & HL2)]; [left; exact He | right].
        exists q2. split; [unfold bind; rewrite Hq; exact Hq2 | exact HL2].
    + subst q1. specialize (HkD a p1 He).
      destruct (k a p1) as [[b|w|] p2]; [| left; exact HkD | exact I].
      destruct HkD as [Hq2 He2]. left. eexists.
      split; [unfold bind; rewrite Hq; exact Hq2 | right; split; [exact He2 | reflexivity]].
    + specialize (HkDead Hlost a p1 He).
      destruct (k a p1) as [[b|w|] p2]; [contradiction | left; exact HkDead | exact I].
  - destruct Hm as [He | (q1 & Hq & HL1)]; [left; exact He | right].
    exists q1. split; [unfold bind; rewrite Hq; reflexivity | exact HL1].
Qed.

Lemma SimL_bind {A B} (lost : Prop) (m : P A) (k : A -> P B) :
  SimL follow ext False m -> (forall a, SimL follow ext lost (k a)) -> (forall a, SimD follow ext (k a)) ->
  SimL follow ext lost (bind m k).
Proof. intros Hm Hk HkD. apply (SimL_bind_gen False); auto. intros []. Qed.

(** Into a computation that may lose B: the continuation only has to
    stay at the end of the input. *)
Lemma SimL_bind_lost {A B} (lm : Prop) (m : P A) (k : A -> P B) :
  SimL follow ext lm m ->
  (forall a, SimL follow ext True (k a)) ->
  (forall a, Stay (k a)) ->
  SimL follow ext True (bind m k).
Proof.
  intros Hm Hk HkS p q HL. specialize (Hm p q HL).
  unfold post in *. unfold bind at 1.
  assert (Hstay : forall a p1, AtEOF p1 ->
            match k a p1 with
            | (Ok b, p') =>
                (exists q', bind m k q = (Ok b, q') /\ Rel follow ext p' q') \/ (True /\ AtEOF p')
            | (Throw w, p') =>
                AtEOF p' \/ exists q', bind m k q = (Throw w, q') /\ Lock follow ext p' q'
            | (OutOfFuel, _) => True
            end).
  { intros a p1 He. specialize (HkS a p1 He).
    destruct (k a p1) as [[b|w|] p2]; simpl in HkS.
    - destruct HkS as [Hd|He2]; [discriminate Hd|]. right. split; [exact I | exact He2].
    - destruct HkS as [Hd|He2]; [discriminate Hd|]. left. exact He2.
    - exact I. }
  destruct (m p) as [[a|w|] p1]; [| |exact I].
  - destruct Hm as [(q1 & Hq & [HL1 | [He Hq0]]) | [Hlost He]].
    + specialize (Hk a p1 q1 HL1). unfold post in Hk.
      destruct (k a p1) as [[b|w|] p2]; [| |exact I].
      * destruct Hk as [(q2 & Hq2 & HR) | Hl]; [left | right; exact Hl].
        exists q2. split; [unfold bind; rewrite Hq; exact Hq2 | exact HR].
      * destruct Hk as [He | (q2 & Hq2 & HL2)]; [left; exact He | right].
        exists q2. split; [unfold bind; rewrite Hq; exact Hq2 | exact HL2].
    + apply Hstay. exact He.
    + apply Hstay. exact He.
  - destruct Hm as [He | (q1 & Hq & HL1)]; [left; exact He | right].
    exists q1. split; [unfold bind; rewrite Hq; reflexivity | exact HL1].
Qed.

(** A test of the current token does not move either run. *)
Lemma SimL_gets_bind {A B} (lost : Prop) (f : Token -> A) (k : A -> P B) :
  (forall a, SimL follow ext lost (k a)) ->
  SimL follow ext lost (bind (gets (fun p => f (currentToken p))) k).
Proof.
  intros Hk p q HL. specialize (Hk (f (currentToken p)) p q HL).
  unfold post in *. unfold bind, gets. destruct HL as (Hc & _). rewrite Hc.
  exact Hk.
Qed.

Lemma SimD_bind {A B} (m : P A) (k : A -> P B) :
  SimD follow ext m -> (forall a, SimD follow ext (k a)) -> SimD follow ext (bind m k).
Proof.
  intros Hm Hk p Hp. specialize (Hm p Hp). unfold bind.
  destruct (m p) as [[a|w|] p1]; [| exact Hm | exact I].
  destruct Hm as [Hq He]. rewrite Hq. apply Hk. exact He.
Qed.

Lemma Dead_bind {A B} (m : P A) (k : A -> P B) : Dead m -> Dead (bind m k).
Proof.
  intros Hm p Hp. specialize (Hm p Hp). unfold bind.
  destruct (m p) as [[a|w|] p1]; [contradiction | exact Hm | exact I].
Qed.

Lemma Dead_bind_stay {A B} (m : P A) (k : A -> P B) :
  Stay m -> (forall a, Dead (k a)) -> Dead (bind m k).
Proof.
  intros Hm Hk p Hp. specialize (Hm p Hp). unfold bind.
  destruct (m p) as [[a|w|] p1]; simpl in Hm.
  - destruct Hm as [Hd|He]; [discriminate Hd|]. apply Hk. exact He.
  - destruct Hm as [Hd|He]; [discriminate Hd|]. exact He.
  - exact I.
Qed.

Lemma Stay_bind {A B} (m : P A) (k : A -> P B) :
  Stay m -> (forall a, Stay (k a)) -> Stay (bind m k).
Proof.
  intros Hm Hk p Hp. specialize (Hm p Hp). unfold bind.
  destruct (m p) as [[a|w|] p1]; simpl in Hm.
  - destruct Hm as [Hd|He]; [discriminate Hd|]. apply Hk. exact He.
  - destruct Hm as [Hd|He]; [discriminate Hd|]. right. exact He.
  - left. reflexivity.
Qed.

Lemma Stay_gets {A} (f : Parser -> A) : Stay (gets f).
Proof. intros p Hp. right. exact Hp. Qed.

Lemma Stay_ret {A} (a : A) : Stay (@ret Parser A a).
Proof. intros p Hp. right. exact Hp. Qed.

Lemma Stay_throw {A} w : Stay (@throw Parser A w).
Proof. intros p Hp. right. exact Hp. Qed.



(** *** Recovery *)

Lemma advance_agree p q : Lock follow ext p q -> agree follow ext advance p q.
Proof.
  destruct p as [cur pending]. intros (Hc & Hl & Hne & Hno). simpl in *.
  unfold agree, advance. rewrite Hl, Hc. simpl.
  destruct pending as [|[tk|w] rest]; simpl.
  - left. split; reflexivity.
  - right. eexists. split; [reflexivity|].
    inversion Hno; subst. repeat split; simpl; assumption.
  - right. eexists. split; [reflexivity|].
    inversion Hno; subst. repeat split; simpl; assumption.
Qed.

Lemma eqb_EOF_false (ty : TokenType) :
  ty <> END_OF_FILE -> TokenType_eqb ty END_OF_FILE = false.
Proof.
  intros H. destruct (TokenType_eqb ty END_OF_FILE) eqn:E; [|reflexivity].
  apply TokenType_eqb_eq in E. contradiction.
Qed.

Lemma synchronizeLoop_agree pending : forall cur,
  type cur <> END_OF_FILE -> Forall noEOF pending ->
  AtEOF (snd (synchronizeLoop cur pending))
  \/ exists q', synchronizeLoop cur (pending ++ Lex.Tok follow :: ext)
                = (fst (synchronizeLoop cur pending), q')
                /\ Lock follow ext (snd (synchronizeLoop cur pending)) q'.
Proof.
  induction pending as [|[tk|w] rest IH]; intros cur Hne Hno.
  - assert (HL : Lock follow ext (mkParser cur []) (mkParser cur ([] ++ Lex.Tok follow :: ext)))
      by (repeat split; simpl; assumption).
    cbn [synchronizeLoop app]. rewrite (eqb_EOF_false _ Hne).
    destruct (TokenType_eqb (type cur) SEMICOLON || TokenType_eqb (type cur) RBRACE).
    + apply (advance_agree _ _ HL).
    + destruct (existsb (TokenType_eqb (type cur)) statementStart).
      * right. eexists. split; [reflexivity | exact HL].
      * left. split; reflexivity.
  - assert (HL : Lock follow ext (mkParser cur (Lex.Tok tk :: rest))
                      (mkParser cur ((Lex.Tok tk :: rest) ++ Lex.Tok follow :: ext)))
      by (repeat split; simpl; assumption).
    cbn [synchronizeLoop app]. rewrite (eqb_EOF_false _ Hne).
    destruct (TokenType_eqb (type cur) SEMICOLON || TokenType_eqb (type cur) RBRACE).
    + apply (advance_agree _ _ HL).
    + destruct (existsb (TokenType_eqb (type cur)) statementStart).
      * right. eexists. split; [reflexivity | exact HL].
      * inversion Hno; subst. apply IH; assumption.
  - assert (HL : Lock follow ext (mkParser cur (Lex.LexError w :: rest))
                      (mkParser cur ((Lex.LexError w :: rest) ++ Lex.Tok follow :: ext)))
      by (repeat split; simpl; assumption).
    cbn [synchronizeLoop app]. rewrite (eqb_EOF_false _ Hne).
    destruct (TokenType_eqb (type cur) SEMICOLON || TokenType_eqb (type cur) RBRACE).
    + apply (advance_agree _ _ HL).
    + destruct (existsb (TokenType_eqb (type cur)) statementStart).
      * right. eexists. split; [reflexivity | exact HL].
      * right. eexists. split; [reflexivity|].
        inversion Hno; subst. repeat split; simpl; assumption.
Qed.

Lemma AtEOF_synchronize p :
  AtEOF p -> exists p', synchronize p = (Ok tt, p') /\ AtEOF p'.
Proof.
  destruct p as [[ty lx ln] pending]. intros [Hty Hl]. simpl in *. subst.
  eexists. split; [reflexivity|]. split; reflexivity.
Qed.

Lemma synchronize_agree p q : Lock follow ext p q -> agree follow ext synchronize p q.
Proof.
  intros HL. pose proof (advance_agree p q HL) as Ha.
  unfold agree in *. unfold synchronize, bind.
  destruct (advance p) as [[u|w|] p1] eqn:Hadv; simpl in Ha.
  - destruct Ha as [He | (q1 & Hq & HL1)].
    + left. destruct p1 as [[ty lx ln] pending]. destruct He as [Hty Hl].
      simpl in *. subst. split; reflexivity.
    + rewrite Hq. destruct HL1 as (Hc & Hl & Hne & Hno).
      rewrite Hc, Hl. apply synchronizeLoop_agree; assumption.
  - destruct Ha as [He | (q1 & Hq & HL1)]; [left; exact He | right].
    rewrite Hq. exists q1. split; [reflexivity | exact HL1].
  - destruct Ha as [He | (q1 & Hq & HL1)]; [left; exact He | right].
    rewrite Hq. exists q1. split; [reflexivity | exact HL1].
Qed.

Lemma SimL_recovering {A} lost (m : P A) : SimL follow ext lost m -> SimL follow ext lost (recovering m).
Proof.
  intros Hm p q HL. specialize (Hm p q HL).
  unfold post in *. unfold recovering, tryCatch at 1.
  destruct (m p) as [[a|w|] p1]; [| |exact I].
  - destruct Hm as [(q1 & Hq & HR) | Hl]; [left | right; exact Hl].
    exists q1. split; [unfold tryCatch; rewrite Hq; reflexivity | exact HR].
  - destruct Hm as [He | (q1 & Hq & HL1)].
    + destruct (AtEOF_synchronize p1 He) as (p2 & Hs & He2).
      unfold bind. rewrite Hs. left. exact He2.
    + pose proof (synchronize_agree p1 q1 HL1) as Hs. unfold agree in Hs.
      unfold tryCatch. rewrite Hq. unfold bind.
      destruct (synchronize p1) as [[u|w'|] p2]; simpl in Hs; [| |exact I].
      * destruct Hs as [He | (q2 & Hq2 & HL2)]; [left; exact He | right].
        rewrite Hq2. exists q2. split; [reflexivity | exact HL2].
      * destruct Hs as [He | (q2 & Hq2 & HL2)]; [left; exact He | right].
        rewrite Hq2. exists q2. split; [reflexivity | exact HL2].
Qed.

Lemma Dead_recovering {A} (m : P A) : Dead m -> Dead (recovering m).
Proof.
  intros Hm p Hp. specialize (Hm p Hp). unfold recovering, tryCatch.
  destruct (m p) as [[a|w|] p1]; [contradiction| |exact I].
  destruct (AtEOF_synchronize p1 Hm) as (p2 & Hs & He2).
  unfold bind. rewrite Hs. exact He2.
Qed.

Lemma SimD_recovering {A} (m : P A) : SimD follow ext m -> SimD follow ext (recovering m).
Proof.
  intros Hm p Hp. specialize (Hm p Hp). unfold recovering, tryCatch at 1.
  destruct (m p) as [[a|w|] p1]; [| |exact I].
  - destruct Hm as [Hq He]. unfold tryCatch. rewrite Hq. split; [reflexivity | exact He].
  - destruct (AtEOF_synchronize p1 Hm) as (p2 & Hs & He2).
    unfold bind. rewrite Hs. exact He2.
Qed.

Lemma SimL_consume t msg : SimL follow ext False (consume t msg).
Proof.
  unfold consume, check.
  apply (SimL_gets_bind False (fun tk => TokenType_eqb (type tk) t)).
  intros [|]; [apply SimL_advance | apply SimL_throw].
Qed.

Lemma Dead_consume t msg : t <> END_OF_FILE -> Dead (consume t msg).
Proof.
  intros Hne p [Hty Hl]. unfold consume, check, bind, gets. rewrite Hty.
  destruct (TokenType_eqb END_OF_FILE t) eqn:E.
  - apply TokenType_eqb_eq in E. congruence.
  - split; assumption.
Qed.

(** *** Skipping inside an argument list *)

Lemma advanceWhileLoop_lock (cond : Token -> bool) pending : forall acc cur,
  type cur <> END_OF_FILE -> Forall noEOF pending ->
  post follow ext True (fun p => advanceWhileLoop cond acc (currentToken p) (lexer p))
       (mkParser cur pending) (mkParser cur (pending ++ Lex.Tok follow :: ext)).
Proof.
  induction pending as [|[tk|w] rest IH]; intros acc cur Hne Hno; unfold post in *;
    cbn [currentToken lexer advanceWhileLoop app].
  - destruct (cond cur).
    + destruct (cond (mkToken END_OF_FILE "" (line cur))); [exact I|].
      right. split; [exact I | split; reflexivity].
    + left. eexists. split; [reflexivity|]. left. repeat split; simpl; assumption.
  - inversion Hno; subst. destruct (cond cur).
    + specialize (IH (acc +:+ lexeme cur) tk H1 H2). cbn [currentToken lexer] in IH.
      exact IH.
    + left. eexists. split; [reflexivity|]. left. repeat split; simpl; assumption.
  - inversion Hno; subst. destruct (cond cur).
    + right. eexists. split; [reflexivity|]. repeat split; simpl; assumption.
    + left. eexists. split; [reflexivity|]. left. repeat split; simpl; assumption.
Qed.

Lemma SimL_advanceWhile (cond : Token -> bool) : SimL follow ext True (advanceWhile cond).
Proof.
  intros [cur pending] q (Hc & Hl & Hne & Hno). simpl in *.
  destruct q as [qc ql]. simpl in *. subst.
  apply (advanceWhileLoop_lock cond pending "" cur Hne Hno).
Qed.

Lemma Stay_advanceWhile (cond : Token -> bool) :
  (forall tk, type tk = END_OF_FILE -> cond tk = false) -> Stay (advanceWhile cond).
Proof.
  intros Hcond [cur pending] [Hty Hl]. simpl in *. subst.
  unfold advanceWhile. simpl. rewrite (Hcond cur Hty). right. split; [exact Hty | reflexivity].
Qed.

(** *** Tests of the current token *)

Lemma SimL_peek_bind {B} lost (k : Token -> P B) :
  (forall a, SimL follow ext lost (k a)) -> SimL follow ext lost (bind peek k).
Proof. intros Hk. apply (SimL_gets_bind lost (fun tk => tk)). exact Hk. Qed.

Lemma SimL_check_bind {B} lost t (k : bool -> P B) :
  (forall a, SimL follow ext lost (k a)) -> SimL follow ext lost (bind (check t) k).
Proof.
  intros Hk. apply (SimL_gets_bind lost (fun tk => TokenType_eqb (type tk) t)). exact Hk.
Qed.

Lemma SimL_checkAny_bind {B} lost ts (k : bool -> P B) :
  (forall a, SimL follow ext lost (k a)) -> SimL follow ext lost (bind (checkAny ts) k).
Proof.
  intros Hk. apply (SimL_gets_bind lost (fun tk => existsb (TokenType_eqb (type tk)) ts)).
  exact Hk.
Qed.

Lemma SimL_type_bind {B} lost (k : TokenType -> P B) :
  (forall a, SimL follow ext lost (k a)) ->
  SimL follow ext lost (bind (gets (fun p => type (currentToken p))) k).
Proof. intros Hk. apply (SimL_gets_bind lost (fun tk => type tk)). exact Hk. Qed.

(** At the end of the input, a test for a token that is neither the
    end-of-file token nor the follower fails in both runs. *)
Lemma Dead_check_bind {B} t (k : bool -> P B) :
  t <> END_OF_FILE -> Dead (k false) -> Dead (bind (check t) k).
Proof.
  intros Hne Hk p Hp. unfold bind, check, gets. destruct Hp as [Hty Hl]. rewrite Hty.
  destruct (TokenType_eqb END_OF_FILE t) eqn:E.
  - apply TokenType_eqb_eq in E. congruence.
  - apply Hk. split; assumption.
Qed.

Lemma follow_type_cases (P : TokenType -> Prop) :
  P SEMICOLON -> P RPAREN -> P (type follow).
Proof. intros Hs Hr. destruct Hfollow as [H|H]; rewrite H; assumption. Qed.

(** The value a computation that only looks at the type of the current
    token takes at the end of A's input and at the follower. *)
Lemma SimD_type_bind {B} (k : TokenType -> P B) (b : B) :
  (forall p, k END_OF_FILE p = (Ok b, p)) ->
  (forall p, k SEMICOLON p = (Ok b, p)) ->
  (forall p, k RPAREN p = (Ok b, p)) ->
  SimD follow ext (bind (gets (fun p => type (currentToken p))) k).
Proof.
  intros He Hs Hr p Hp. unfold bind, gets. pose proof Hp as [Hty Hl]. rewrite Hty, He.
  split; [|exact Hp]. simpl.
  apply (follow_type_cases (fun ty => k ty (mkParser follow ext) = (Ok b, mkParser follow ext)));
    [apply Hs | apply Hr].
Qed.

Lemma Stay_tryCatch {A} (m : P A) (h : string -> P A) :
  Stay m -> (forall w, Stay (h w)) -> Stay (tryCatch m h).
Proof.
  intros Hm Hh p Hp. specialize (Hm p Hp). unfold tryCatch.
  destruct (m p) as [[a|w|] p1]; simpl in Hm.
  - exact Hm.
  - destruct Hm as [Hd|He]; [discriminate Hd|]. apply Hh. exact He.
  - left. reflexivity.
Qed.

Lemma Stay_outOfFuel {A} : Stay (@outOfFuel Parser A).
Proof. intros p Hp. left. reflexivity. Qed.

Lemma SimL_tryCatch_lost {A} lost (m : P A) (h : string -> P A) :
  SimL follow ext lost m -> (forall w, SimL follow ext True (h w)) -> (forall w, Stay (h w)) ->
  SimL follow ext True (tryCatch m h).
Proof.
  intros Hm Hh HhS p q HL. specialize (Hm p q HL).
  unfold post in *. unfold tryCatch at 1.
  destruct (m p) as [[a|w|] p1]; [| |exact I].
  - destruct Hm as [(q1 & Hq & HR) | [_ He]]; [left | right; split; [exact I | exact He]].
    exists q1. split; [unfold tryCatch; rewrite Hq; reflexivity | exact HR].
  - destruct Hm as [He | (q1 & Hq & HL1)].
    + specialize (HhS w p1 He).
      destruct (h w p1) as [[b|w'|] p2]; simpl in HhS; [| |exact I].
      * destruct HhS as [Hd|He2]; [discriminate Hd|]. right. split; [exact I | exact He2].
      * destruct HhS as [Hd|He2]; [discriminate Hd|]. left. exact He2.
    + specialize (Hh w p1 q1 HL1). unfold post in Hh.
      unfold tryCatch. rewrite Hq. exact Hh.
Qed.

Ltac stay :=
  repeat first
    [ assumption
    | apply Stay_ret | apply Stay_throw | apply Stay_outOfFuel | apply Stay_advance
    | apply Stay_gets
    | apply Stay_bind; [|intros ?]
    | apply Stay_tryCatch; [|intros ?]
    | match goal with
      | |- Stay (if ?c then _ else _) => destruct c
      end ].

Ltac sim :=
  repeat first
    [ assumption
    | apply SimL_ret | apply SimL_throw | apply SimL_outOfFuel | apply SimL_advance
    | apply SimL_consume
    | apply SimL_recovering
    | apply SimL_peek_bind; intros ?
    | apply SimL_check_bind; intros ?
    | apply SimL_checkAny_bind; intros ?
    | apply SimL_type_bind; intros ?
    | match goal with
      | |- SimL follow ext _ (if ?c then _ else _) => destruct c
      end ].

(** *** The expression parser *)

Section WithRecSim.

Variable rec : P Expression.
Hypothesis Hrec : SimL follow ext False rec.
Hypothesis HrecDead : Dead rec.

Lemma Stay_rec : Stay rec.
Proof. apply Dead_Stay. exact HrecDead. Qed.

Lemma Stay_parseArguments n : forall arguments, Stay (parseArguments rec n arguments).
Proof.
  pose proof Stay_rec as Hs.
  induction n as [|n IH]; intros arguments; [apply Stay_outOfFuel|].
  cbn [parseArguments]. stay.
  - apply Stay_advanceWhile. intros tk Hty. rewrite Hty. reflexivity.
  - apply IH.
Qed.

Lemma SimL_parseArguments n : forall arguments, SimL follow ext True (parseArguments rec n arguments).
Proof.
  pose proof Stay_rec as Hs.
  induction n as [|n IH]; intros arguments; [apply SimL_outOfFuel|].
  cbn [parseArguments].
  apply (SimL_bind_lost True).
  - apply (SimL_tryCatch_lost False).
    + sim.
      * apply SimL_bind; [apply SimL_advance | intros ?; apply SimL_ret | intros ?; apply SimD_ret].
      * apply SimL_bind; [exact Hrec | intros ?; apply SimL_ret | intros ?; apply SimD_ret].
    + intros w. apply (SimL_bind_lost True); [apply SimL_advanceWhile | | intros ?; stay].
      intros skipped. sim.
      apply SimL_bind; [sim | intros ?; apply SimL_ret | intros ?; apply SimD_ret].
    + intros w. stay. apply Stay_advanceWhile. intros tk Hty. rewrite Hty. reflexivity.
  - intros a. sim. apply IH.
  - intros a. stay. apply Stay_parseArguments.
Qed.

End WithRecSim.

Lemma SimD_checkAny_bind {B} ts (k : bool -> P B) :
  existsb (TokenType_eqb END_OF_FILE) ts = false ->
  existsb (TokenType_eqb SEMICOLON) ts = false ->
  existsb (TokenType_eqb RPAREN) ts = false ->
  SimD follow ext (k false) -> SimD follow ext (bind (checkAny ts) k).
Proof.
  intros He Hs Hr Hk p Hp. specialize (Hk p Hp).
  unfold bind, checkAny, gets. destruct Hp as [Hty Hl]. rewrite Hty, He. simpl.
  rewrite (follow_type_cases (fun ty => existsb (TokenType_eqb ty) ts = false) Hs Hr).
  exact Hk.
Qed.

Ltac sim_advance_ret :=
  apply SimL_bind; [apply SimL_advance | intros ?; apply SimL_ret | intros ?; apply SimD_ret].

Section WithRecSim2.

Variable rec : P Expression.
Hypothesis Hrec : SimL follow ext False rec.
Hypothesis HrecDead : Dead rec.

Lemma SimL_parseStream n : forall left_, SimL follow ext False (parseStream rec n left_).
Proof.
  induction n as [|n IH]; intros left_; [apply SimL_outOfFuel|].
  cbn [parseStream]. apply SimL_type_bind; intros op.
  apply SimL_bind; [apply SimL_advance | intros _ | intros _].
  - apply SimL_check_bind; intros isEndl.
    apply SimL_bind; [| intros l | intros l].
    + destruct isEndl; [sim_advance_ret|].
      apply SimL_bind; [exact Hrec | intros ?; apply SimL_ret | intros ?; apply SimD_ret].
    + sim. apply IH.
    + apply SimD_checkAny_bind; try reflexivity. apply SimD_ret.
  - apply Dead_SimD, Dead_check_bind; [discriminate|]. apply Dead_bind, Dead_bind, HrecDead.
Qed.

Lemma Dead_parsePrimary n : Dead (parsePrimary rec n).
Proof.
  destruct n as [|n]; [apply Dead_outOfFuel|].
  intros [[ty lx ln] pending] [Hty Hl]. simpl in Hty, Hl. subst.
  cbn. split; reflexivity.
Qed.

Lemma SimL_parsePrimary n : SimL follow ext False (parsePrimary rec n).
Proof.
  induction n as [|n IH]; [apply SimL_outOfFuel|].
  cbn [parsePrimary]. apply SimL_recovering, SimL_peek_bind. intros tok.
  sim; try sim_advance_ret.
  - (* unary operator *)
    apply SimL_bind; [apply SimL_advance | intros _ | intros _].
    + apply SimL_bind; [exact IH | intros ?; apply SimL_ret | intros ?; apply SimD_ret].
    + apply Dead_SimD, Dead_bind, Dead_parsePrimary.
  - (* identifier *)
    apply SimL_bind; [apply SimL_advance | intros _ | intros _].
    + sim; try sim_advance_ret.
      * (* call *)
        apply SimL_bind; [apply SimL_advance | intros _ | intros _].
        -- apply SimL_check_bind; intros empty.
           apply (SimL_bind_gen True).
           ++ destruct empty; [apply SimL_ret | apply SimL_parseArguments; assumption].
           ++ intros args.
              apply SimL_bind; [apply SimL_consume | intros ?; apply SimL_ret
                                | intros ?; apply SimD_ret].
           ++ intros args. apply Dead_SimD, Dead_bind, Dead_consume. discriminate.
           ++ intros _ args. apply Dead_bind, Dead_consume. discriminate.
        -- apply Dead_SimD, Dead_check_bind; [discriminate|].
           apply Dead_bind_stay; [apply Stay_parseArguments; assumption|].
           intros args. apply Dead_bind, Dead_consume. discriminate.
      * (* stream chain *)
        apply SimL_parseStream.
    + apply (SimD_type_bind _ (IdentifierExpression (lexeme tok))); intros p; reflexivity.
  - (* parenthesised expression *)
    apply SimL_bind; [apply SimL_advance | intros _ | intros _].
    + apply SimL_bind; [exact Hrec | intros expr | intros expr].
      * apply SimL_bind; [apply SimL_consume | intros ?; apply SimL_ret
                          | intros ?; apply SimD_ret].
      * apply Dead_SimD, Dead_bind, Dead_consume. discriminate.
    + apply Dead_SimD, Dead_bind, HrecDead.
Qed.

Section Level.

Variable ops : list TokenType.
Variable mk : Expression -> TokenType -> Expression -> Expression.
Variable operand : P Expression.
Hypothesis Hops_eof : existsb (TokenType_eqb END_OF_FILE) ops = false.
Hypothesis Hops_semi : existsb (TokenType_eqb SEMICOLON) ops = false.
Hypothesis Hops_rparen : existsb (TokenType_eqb RPAREN) ops = false.
Hypothesis Hoperand : SimL follow ext False operand.
Hypothesis HoperandDead : Dead operand.

Lemma SimD_binaryLoop n expr : SimD follow ext (binaryLoop n ops mk operand expr).
Proof.
  assert (H : forall ty, existsb (TokenType_eqb ty) ops = false ->
              forall p, (if existsb (TokenType_eqb ty) ops
                         then match n with
                              | 0 => outOfFuel
                              | S n' =>
                                  advance;;
                                  (let* right_ := operand in
                                   binaryLoop n' ops mk operand (mk expr ty right_))
                              end
                         else ret expr) p = (Ok expr, p)).
  { intros ty Hty p. rewrite Hty. reflexivity. }
  destruct n; cbn [binaryLoop];
    apply (SimD_type_bind _ expr); intros p; apply H; assumption.
Qed.

Lemma SimL_binaryLoop n : forall expr, SimL follow ext False (binaryLoop n ops mk operand expr).
Proof.
  induction n as [|n IH]; intros expr; cbn [binaryLoop]; apply SimL_type_bind; intros op; sim.
  apply SimL_bind; [apply SimL_advance | intros _ | intros _].
  - apply SimL_bind; [exact Hoperand | intros r; apply IH | intros r; apply SimD_binaryLoop].
  - apply Dead_SimD, Dead_bind, HoperandDead.
Qed.

Lemma SimL_binaryLevel n : SimL follow ext False (binaryLevel n ops mk operand).
Proof.
  unfold binaryLevel. apply SimL_recovering.
  apply SimL_bind; [exact Hoperand | intros e; apply SimL_binaryLoop
                    | intros e; apply SimD_binaryLoop].
Qed.

Lemma Dead_binaryLevel n : Dead (binaryLevel n ops mk operand).
Proof. unfold binaryLevel. apply Dead_recovering, Dead_bind, HoperandDead. Qed.

End Level.

Lemma SimL_Dead_parseLogicalOr n :
  SimL follow ext False (parseLogicalOr rec n) /\ Dead (parseLogicalOr rec n).
Proof.
  pose proof (SimL_parsePrimary n) as H0. pose proof (Dead_parsePrimary n) as D0.
  assert (H1 : SimL follow ext False (parseFactor rec n) /\ Dead (parseFactor rec n))
    by (split; [apply SimL_binaryLevel | apply Dead_binaryLevel];
        solve [reflexivity | assumption]).
  assert (H2 : SimL follow ext False (parseTerm rec n) /\ Dead (parseTerm rec n))
    by (split; [apply SimL_binaryLevel | apply Dead_binaryLevel];
        solve [reflexivity | apply H1]).
  assert (H3 : SimL follow ext False (parseComparison rec n) /\ Dead (parseComparison rec n))
    by (split; [apply SimL_binaryLevel | apply Dead_binaryLevel];
        solve [reflexivity | apply H2]).
  assert (H4 : SimL follow ext False (parseEquality rec n) /\ Dead (parseEquality rec n))
    by (split; [apply SimL_binaryLevel | apply Dead_binaryLevel];
        solve [reflexivity | apply H3]).
  assert (H5 : SimL follow ext False (parseLogicalAnd rec n) /\ Dead (parseLogicalAnd rec n))
    by (split; [apply SimL_binaryLevel | apply Dead_binaryLevel];
        solve [reflexivity | apply H4]).
  split; [apply SimL_binaryLevel | apply Dead_binaryLevel];
    solve [reflexivity | apply H5].
Qed.

Lemma Dead_parseAssignmentFuel d n : Dead (parseAssignmentFuel rec d n).
Proof.
  destruct d as [|d]; [apply Dead_outOfFuel|].
  cbn [parseAssignmentFuel]. apply Dead_recovering, Dead_bind, SimL_Dead_parseLogicalOr.
Qed.

Lemma SimL_parseAssignmentFuel d n : SimL follow ext False (parseAssignmentFuel rec d n).
Proof.
  induction d as [|d IH]; [apply SimL_outOfFuel|].
  cbn [parseAssignmentFuel]. apply SimL_recovering.
  apply SimL_bind; [apply SimL_Dead_parseLogicalOr | intros expr | intros expr].
  - apply SimL_type_bind; intros op. sim.
    + apply SimL_bind; [apply SimL_advance | intros _ | intros _].
      * destruct expr; try apply SimL_throw.
        apply SimL_bind; [exact IH | intros r; sim | intros r].
        destruct (negb (TokenType_eqb op EQUAL)); apply SimD_ret.
      * destruct expr; try (apply Dead_SimD, Dead_throw).
        apply Dead_SimD, Dead_bind, Dead_parseAssignmentFuel.
    + destruct expr; try apply SimL_throw. sim_advance_ret.
  - apply (SimD_type_bind _ expr); intros p; reflexivity.
Qed.

End WithRecSim2.

Lemma SimL_Dead_parseExpression n :
  SimL follow ext False (parseExpression n) /\ Dead (parseExpression n).
Proof.
  induction n as [|n [IHs IHd]]; [split; [apply SimL_outOfFuel | apply Dead_outOfFuel]|].
  cbn [parseExpression]. unfold parseAssignment. split.
  - apply SimL_recovering, SimL_parseAssignmentFuel; assumption.
  - apply Dead_recovering, Dead_parseAssignmentFuel; assumption.
Qed.

End FollowerFacts.

(** ** Compound assignment *)

Section CompoundAssignment.

Import Parse.

Lemma recovering_Ok {A} (m : P A) p a p' :
  m p = (Ok a, p') -> recovering m p = (Ok a, p').
Proof. intros H. unfold recovering, tryCatch. rewrite H. reflexivity. Qed.

Lemma recovering_Ok_inv {A} (m : P A) p a p' :
  recovering m p = (Ok a, p') -> m p = (Ok a, p').
Proof.
  unfold recovering, tryCatch, bind, throw. intros H.
  destruct (m p) as [[b|w|] p1]; [exact H | | discriminate H].
  destruct (synchronize p1) as [[u|w'|] p2]; discriminate H.
Qed.

Lemma refines_Ok {A} (m m' : P A) p a p' :
  refines m m' -> m p = (Ok a, p') -> m' p = (Ok a, p').
Proof.
  intros Hr H. destruct (Hr p) as [Hoof | Heq].
  - rewrite H in Hoof. discriminate Hoof.
  - rewrite <- Heq. exact H.
Qed.

Lemma AtEOF_not_Lock follow ext p q : AtEOF p -> Lock follow ext p q -> False.
Proof. intros [Hty _] (_ & _ & Hne & _). contradiction. Qed.

(** An expression parsed alone is parsed the same way in front of a
    semicolon or a closing parenthesis, which is left as the current
    token. *)
Lemma parseExpression_before_follower follow ext n first pending E p' :
  type follow = SEMICOLON \/ type follow = RPAREN ->
  type first <> END_OF_FILE -> Forall noEOF pending ->
  parseExpression n (mkParser first pending) = (Ok E, p') -> AtEOF p' ->
  parseExpression n (mkParser first (pending ++ Lex.Tok follow :: ext))
  = (Ok E, mkParser follow ext).
Proof.
  intros Hfollow Hne Hno Hparse Heof.
  destruct (SimL_Dead_parseExpression follow ext Hfollow n) as [Hs _].
  specialize (Hs (mkParser first pending)
                 (mkParser first (pending ++ Lex.Tok follow :: ext))).
  unfold post in Hs. rewrite Hparse in Hs.
  destruct Hs as [(q' & Hq & [HL | [_ ->]]) | [[] _]].
  - repeat split; simpl; assumption.
  - exfalso. exact (AtEOF_not_Lock _ _ _ _ Heof HL).
  - exact Hq.
Qed.

Lemma parseAssignment_before_follower follow ext f first pending E p' :
  type follow = SEMICOLON \/ type follow = RPAREN ->
  type first <> END_OF_FILE -> Forall noEOF pending ->
  parseAssignmentFuel (parseExpression f) f f (mkParser first pending) = (Ok E, p') ->
  AtEOF p' ->
  parseAssignmentFuel (parseExpression f) f f
    (mkParser first (pending ++ Lex.Tok follow :: ext))
  = (Ok E, mkParser follow ext).
Proof.
  intros Hfollow Hne Hno Hparse Heof.
  destruct (SimL_Dead_parseExpression follow ext Hfollow f) as [Hs Hd].
  pose proof (SimL_parseAssignmentFuel follow ext Hfollow (parseExpression f) Hs Hd f f)
    as Ha.
  specialize (Ha (mkParser first pending)
                 (mkParser first (pending ++ Lex.Tok follow :: ext))).
  unfold post in Ha. rewrite Hparse in Ha.
  destruct Ha as [(q' & Hq & [HL | [_ ->]]) | [[] _]].
  - repeat split; simpl; assumption.
  - exfalso. exact (AtEOF_not_Lock _ _ _ _ Heof HL).
  - exact Hq.
Qed.

Variable rec : P Expression.

(** [x op= e] at the level of [parseAssignment], given what the
    recursive call returns on [e]. *)
Lemma parseAssignment_compound d n name op lx ln ln' first pending E after :
  In op [PLUS_EQUAL; MINUS_EQUAL; MULTIPLY_EQUAL; DIVIDE_EQUAL] ->
  parseAssignmentFuel rec d (S n) (mkParser first pending) = (Ok E, after) ->
  parseAssignmentFuel rec (S d) (S n)
    (mkParser (mkToken IDENTIFIER name ln)
              (Lex.Tok (mkToken op lx ln') :: Lex.Tok first :: pending))
  = (Ok (AssignExpression name EQUAL
           (BinaryExpression (IdentifierExpression name) (binaryOp op) E)),
     after).
Proof.
  intros Hop Hinner. cbn [parseAssignmentFuel].
  remember (parseAssignmentFuel rec d (S n)) as inner eqn:Hi.
  destruct Hop as [<-|[<-|[<-|[<-|[]]]]];
    vm_compute; rewrite Hinner; reflexivity.
Qed.

End CompoundAssignment.

Section Assembly.
Import Parse.
Variable rec : P Expression.

Lemma bind_Ok {A B} (m : P A) (k : A -> P B) p a p' :
  m p = (Ok a, p') -> bind m k p = k a p'.
Proof. intros H. unfold bind. rewrite H. reflexivity. Qed.

(** A binary level whose operand is followed by none of its operators. *)
Lemma binaryLevel_pass n ops mk (operand : P Expression) p e p' :
  operand p = (Ok e, p') ->
  existsb (TokenType_eqb (type (currentToken p'))) ops = false ->
  binaryLevel n ops mk operand p = (Ok e, p').
Proof.
  intros Hop Hops. unfold binaryLevel. apply recovering_Ok.
  rewrite (bind_Ok _ _ _ _ _ Hop).
  destruct n; cbn [binaryLoop]; unfold bind, gets; rewrite Hops; reflexivity.
Qed.

(** A binary level with exactly one operator. *)
Lemma binaryLevel_once n ops mk (operand : P Expression) p e1 p1 op p2 e2 p3 :
  operand p = (Ok e1, p1) ->
  type (currentToken p1) = op ->
  existsb (TokenType_eqb op) ops = true ->
  advance p1 = (Ok tt, p2) ->
  operand p2 = (Ok e2, p3) ->
  existsb (TokenType_eqb (type (currentToken p3))) ops = false ->
  binaryLevel (S n) ops mk operand p = (Ok (mk e1 op e2), p3).
Proof.
  intros H1 <- Hin Hadv H2 Hout. unfold binaryLevel. apply recovering_Ok.
  rewrite (bind_Ok _ _ _ _ _ H1).
  cbn [binaryLoop]. unfold bind at 1. unfold gets at 1. rewrite Hin.
  rewrite (bind_Ok _ _ _ _ _ Hadv). rewrite (bind_Ok _ _ _ _ _ H2).
  destruct n; cbn [binaryLoop]; unfold bind, gets; rewrite Hout; reflexivity.
Qed.

Lemma parsePrimary_identifier n name ln next pending :
  existsb (TokenType_eqb (type next)) [INCREMENT; DECREMENT; LPAREN; LEFT_SHIFT; RIGHT_SHIFT]
    = false ->
  parsePrimary rec (S n) (mkParser (mkToken IDENTIFIER name ln) (Lex.Tok next :: pending))
  = (Ok (IdentifierExpression name), mkParser next pending).
Proof.
  intros H. cbn [parsePrimary]. apply recovering_Ok.
  unfold bind, peek, gets, advance. cbn.
  destruct (type next); try discriminate H; reflexivity.
Qed.

Lemma parsePrimary_parenthesised n x l first pending E x' l' next rest :
  rec (mkParser first pending)
    = (Ok E, mkParser (mkToken RPAREN x' l') (Lex.Tok next :: rest)) ->
  parsePrimary rec (S n) (mkParser (mkToken LPAREN x l) (Lex.Tok first :: pending))
  = (Ok E, mkParser next rest).
Proof.
  intros H. cbn [parsePrimary]. apply recovering_Ok.
  unfold bind at 1. unfold peek, gets. cbn [currentToken type existsb unaryOperators].
  cbn -[advance consume].
  unfold bind at 1. cbn [advance lexer]. unfold bind at 1. rewrite H.
  reflexivity.
Qed.

Ltac level_pass Hops :=
  apply binaryLevel_pass;
    [| match goal with
       | |- existsb (TokenType_eqb ?ty) _ = false =>
           destruct ty; try discriminate Hops; reflexivity
       end].

Lemma parseLogicalOr_from_primary n p e p' :
  parsePrimary rec n p = (Ok e, p') ->
  existsb (TokenType_eqb (type (currentToken p'))) (operatorsFrom 0) = false ->
  parseLogicalOr rec n p = (Ok e, p').
Proof.
  intros H Hops.
  unfold parseLogicalOr, parseLogicalAnd, parseEquality, parseComparison, parseTerm,
    parseFactor.
  do 6 level_pass Hops. exact H.
Qed.

Lemma parseLogicalOr_from_factor n p e p' :
  parseFactor rec n p = (Ok e, p') ->
  existsb (TokenType_eqb (type (currentToken p'))) (operatorsFrom 1) = false ->
  parseLogicalOr rec n p = (Ok e, p').
Proof.
  intros H Hops.
  unfold parseLogicalOr, parseLogicalAnd, parseEquality, parseComparison, parseTerm.
  do 5 level_pass Hops. exact H.
Qed.

Lemma parseLogicalOr_from_term n p e p' :
  parseTerm rec n p = (Ok e, p') ->
  existsb (TokenType_eqb (type (currentToken p'))) (operatorsFrom 2) = false ->
  parseLogicalOr rec n p = (Ok e, p').
Proof.
  intros H Hops.
  unfold parseLogicalOr, parseLogicalAnd, parseEquality, parseComparison.
  do 4 level_pass Hops. exact H.
Qed.

Lemma parseAssignmentFuel_pass d n p e p' :
  parseLogicalOr rec n p = (Ok e, p') ->
  existsb (TokenType_eqb (type (currentToken p')))
          (assignmentOperators ++ [INCREMENT; DECREMENT]) = false ->
  parseAssignmentFuel rec (S d) n p = (Ok e, p').
Proof.
  intros H Hops. cbn [parseAssignmentFuel]. apply recovering_Ok.
  rewrite (bind_Ok _ _ _ _ _ H). unfold bind, gets.
  destruct (type (currentToken p')); try discriminate Hops; reflexivity.
Qed.

Lemma parseAssignmentFuel_assign d n p name p1 p2 E p3 :
  parseLogicalOr rec n p = (Ok (IdentifierExpression name), p1) ->
  type (currentToken p1) = EQUAL ->
  advance p1 = (Ok tt, p2) ->
  parseAssignmentFuel rec d n p2 = (Ok E, p3) ->
  parseAssignmentFuel rec (S d) n p = (Ok (AssignExpression name EQUAL E), p3).
Proof.
  intros H Hty Hadv Hinner. cbn [parseAssignmentFuel]. apply recovering_Ok.
  rewrite (bind_Ok _ _ _ _ _ H). unfold bind at 1. unfold gets at 1. rewrite Hty.
  cbn [existsb assignmentOperators TokenType_eqb TokenType_code Nat.eqb orb].
  rewrite (bind_Ok _ _ _ _ _ Hadv). rewrite (bind_Ok _ _ _ _ _ Hinner).
  reflexivity.
Qed.

(** [x = x op' (e)] at the level of [parseAssignment], given what the
    call of [parseExpression] inside the parentheses returns. *)
Lemma parseAssignment_plain d n name op' ln l1 l2 l3 l4 l5 l6 x1 x3 x4 x5 x6
    first pending E rest :
  In op' [PLUS; MINUS; MULTIPLY; SLASH] ->
  rec (mkParser first pending)
    = (Ok E, mkParser (mkToken RPAREN x5 l5) (Lex.Tok (mkToken SEMICOLON x6 l6) :: rest)) ->
  parseAssignmentFuel rec (S (S d)) (S n)
    (mkParser (mkToken IDENTIFIER name ln)
              (Lex.Tok (mkToken EQUAL x1 l1) :: Lex.Tok (mkToken IDENTIFIER name l2)
               :: Lex.Tok (mkToken op' x3 l3) :: Lex.Tok (mkToken LPAREN x4 l4)
               :: Lex.Tok first :: pending))
  = (Ok (AssignExpression name EQUAL
           (BinaryExpression (IdentifierExpression name) op' E)),
     mkParser (mkToken SEMICOLON x6 l6) rest).
Proof.
  intros Hop Hinner.
  pose proof (parsePrimary_parenthesised n x4 l4 _ _ _ _ _ _ _ Hinner) as Hparen.
  eapply parseAssignmentFuel_assign.
  - apply parseLogicalOr_from_primary; [apply parsePrimary_identifier|]; reflexivity.
  - reflexivity.
  - reflexivity.
  - apply parseAssignmentFuel_pass; [|reflexivity].
    destruct Hop as [<-|[<-|[<-|[<-|[]]]]].
    + apply parseLogicalOr_from_term; [|reflexivity]. unfold parseTerm.
      eapply (binaryLevel_once n [PLUS; MINUS] BinaryExpression).
      * apply binaryLevel_pass; [apply parsePrimary_identifier|]; reflexivity.
      * reflexivity.
      * reflexivity.
      * reflexivity.
      * apply binaryLevel_pass; [exact Hparen | reflexivity].
      * reflexivity.
    + apply parseLogicalOr_from_term; [|reflexivity]. unfold parseTerm.
      eapply (binaryLevel_once n [PLUS; MINUS] BinaryExpression).
      * apply binaryLevel_pass; [apply parsePrimary_identifier|]; reflexivity.
      * reflexivity.
      * reflexivity.
      * reflexivity.
      * apply binaryLevel_pass; [exact Hparen | reflexivity].
      * reflexivity.
    + apply parseLogicalOr_from_factor; [|reflexivity]. unfold parseFactor.
      eapply (binaryLevel_once n [MULTIPLY; SLASH] BinaryExpression).
      * apply parsePrimary_identifier; reflexivity.
      * reflexivity.
      * reflexivity.
      * reflexivity.
      * exact Hparen.
      * reflexivity.
    + apply parseLogicalOr_from_factor; [|reflexivity]. unfold parseFactor.
      eapply (binaryLevel_once n [MULTIPLY; SLASH] BinaryExpression).
      * apply parsePrimary_identifier; reflexivity.
      * reflexivity.
      * reflexivity.
      * reflexivity.
      * exact Hparen.
      * reflexivity.
Qed.


Lemma advanceWhile_stop (cond : Token -> bool) p :
  cond (currentToken p) = false -> advanceWhile cond p = (Ok "", p).
Proof.
  destruct p as [cur [|x l]]; unfold advanceWhile; cbn; intros ->; reflexivity.
Qed.

End Assembly.

Section Statement.
Import Parse.

(** An expression statement that starts with an identifier. *)
Lemma parseStatement_expression n name ln pending expr x l rest :
  name <> "string" ->
  parseExpression n (mkParser (mkToken IDENTIFIER name ln) pending)
    = (Ok expr, mkParser (mkToken SEMICOLON x l) rest) ->
  parseStatement (S n) (mkParser (mkToken IDENTIFIER name ln) pending)
    = match advance (mkParser (mkToken SEMICOLON x l) rest) with
      | (Ok _, p') => (Ok (ExpressionStatement expr), p')
      | (Throw w, p') =>
          recovering (throw w) p'
      | (OutOfFuel, p') => (OutOfFuel, p')
      end.
Proof.
  intros Hname Hexpr. apply String.eqb_neq in Hname.
  cbn [parseStatement]. unfold parseStatementBody.
  unfold recovering at 1. unfold tryCatch at 1.
  rewrite (bind_Ok (advanceWhile (fun t => TokenType_eqb (type t) SEMICOLON)) _
             (mkParser (mkToken IDENTIFIER name ln) pending) ""
             (mkParser (mkToken IDENTIFIER name ln) pending))
    by (apply advanceWhile_stop; reflexivity).
  unfold bind at 1. unfold peek at 1. unfold gets at 1.
  cbn [currentToken type TokenType_eqb TokenType_code Nat.eqb].
  unfold startsDeclaration.
  cbn [currentToken type lexeme TokenType_eqb TokenType_code Nat.eqb andb orb].
  rewrite Hname.
  rewrite (bind_Ok _ _ _ _ _ Hexpr).
  unfold consume, check, bind, gets, ret.
  cbn [currentToken type TokenType_eqb TokenType_code Nat.eqb].
  unfold recovering, tryCatch, throw.
  destruct (advance (mkParser (mkToken SEMICOLON x l) rest)) as [[u|w|] p']; reflexivity.
Qed.

End Statement.


(** The expression parser never reads the line of a token. *)
Section LineBlind.

Import Parse.

Lemma lineBlind_ret {A} (a : A) : lineBlind (ret a).
Proof. intros p. reflexivity. Qed.

Lemma lineBlind_throw {A} w : lineBlind (throw w : P A).
Proof. intros p. reflexivity. Qed.

Lemma lineBlind_outOfFuel {A} : lineBlind (outOfFuel : P A).
Proof. intros p. reflexivity. Qed.

Lemma lineBlind_bind {A B} (m : P A) (k : A -> P B) :
  lineBlind m -> (forall a, lineBlind (k a)) -> lineBlind (bind m k).
Proof.
  intros Hm Hk p. unfold bind. rewrite (Hm p).
  destruct (m p) as [[a|w|] p']; cbn [fst snd]; [apply Hk|reflexivity|reflexivity].
Qed.

Lemma lineBlind_tryCatch {A} (m : P A) (h : string -> P A) :
  lineBlind m -> (forall w, lineBlind (h w)) -> lineBlind (tryCatch m h).
Proof.
  intros Hm Hh p. unfold tryCatch. rewrite (Hm p).
  destruct (m p) as [[a|w|] p']; cbn [fst snd]; [reflexivity|apply Hh|reflexivity].
Qed.

Lemma lineBlind_gets {A} (g : Parser -> A) :
  (forall p, g (eraseLines p) = g p) -> lineBlind (gets g).
Proof. intros Hg p. unfold gets. rewrite Hg. reflexivity. Qed.

(** What follows [peek] may use the type and the lexeme of the token. *)
Lemma lineBlind_peek {A} (k : Token -> P A) :
  (forall t, lineBlind (k t)) -> (forall t p, k (eraseLine t) p = k t p) ->
  lineBlind (bind peek k).
Proof.
  intros Hk Ht p. unfold bind, peek, gets.
  change (currentToken (eraseLines p)) with (eraseLine (currentToken p)).
  rewrite Ht. apply Hk.
Qed.

Lemma lineBlind_advance : lineBlind advance.
Proof. intros [cur [|[t|w] rest]]; reflexivity. Qed.

Lemma lineBlind_check t : lineBlind (check t).
Proof. apply lineBlind_gets. reflexivity. Qed.

Lemma lineBlind_checkAny ts : lineBlind (checkAny ts).
Proof. apply lineBlind_gets. reflexivity. Qed.

Lemma lineBlind_type : lineBlind (gets (fun p => type (currentToken p))).
Proof. apply lineBlind_gets. reflexivity. Qed.

Lemma lineBlind_consume t message : lineBlind (consume t message).
Proof.
  apply lineBlind_bind; [apply lineBlind_check|].
  intros []; [apply lineBlind_advance|apply lineBlind_throw].
Qed.

Lemma lineBlind_synchronizeLoop pending : forall cur,
  synchronizeLoop (eraseLine cur) (map eraseLexed pending)
  = (fst (synchronizeLoop cur pending), eraseLines (snd (synchronizeLoop cur pending))).
Proof.
  induction pending as [|[t|w] rest IH]; intros cur; cbn [synchronizeLoop map eraseLexed];
    change (type (eraseLine cur)) with (type cur);
    destruct (TokenType_eqb (type cur) END_OF_FILE); try reflexivity;
    destruct (TokenType_eqb (type cur) SEMICOLON || TokenType_eqb (type cur) RBRACE);
    try reflexivity;
    destruct (existsb (TokenType_eqb (type cur)) statementStart); try reflexivity.
  apply IH.
Qed.

Lemma lineBlind_synchronize : lineBlind synchronize.
Proof.
  apply lineBlind_bind; [apply lineBlind_advance|].
  intros _ p. apply lineBlind_synchronizeLoop.
Qed.

Lemma lineBlind_recovering {A} (m : P A) : lineBlind m -> lineBlind (recovering m).
Proof.
  intros Hm. apply lineBlind_tryCatch; [exact Hm|].
  intros w. apply lineBlind_bind; [apply lineBlind_synchronize|].
  intros _. apply lineBlind_throw.
Qed.

Lemma lineBlind_advanceWhileLoop (cond : Token -> bool) pending :
  (forall t, cond (eraseLine t) = cond t) ->
  forall acc cur,
    advanceWhileLoop cond acc (eraseLine cur) (map eraseLexed pending)
    = (fst (advanceWhileLoop cond acc cur pending),
       eraseLines (snd (advanceWhileLoop cond acc cur pending))).
Proof.
  intros Hcond. induction pending as [|[t|w] rest IH]; intros acc cur;
    cbn [advanceWhileLoop map eraseLexed]; rewrite Hcond;
    destruct (cond cur); try reflexivity.
  - change (mkToken END_OF_FILE "" (line (eraseLine cur)))
      with (eraseLine (mkToken END_OF_FILE "" (line cur))).
    rewrite Hcond. destruct (cond (mkToken END_OF_FILE "" (line cur))); reflexivity.
  - apply IH.
Qed.

Lemma lineBlind_advanceWhile (cond : Token -> bool) :
  (forall t, cond (eraseLine t) = cond t) -> lineBlind (advanceWhile cond).
Proof. intros Hcond p. apply lineBlind_advanceWhileLoop. exact Hcond. Qed.

Ltac blind :=
  repeat first
    [ apply lineBlind_ret | apply lineBlind_throw | apply lineBlind_outOfFuel
    | apply lineBlind_advance | apply lineBlind_check | apply lineBlind_checkAny
    | apply lineBlind_type | apply lineBlind_consume | assumption
    | apply lineBlind_recovering
    | apply lineBlind_bind; [|intros ?]
    | match goal with
      | |- lineBlind (if ?b then _ else _) => destruct b
      | |- lineBlind (match ?e with _ => _ end) => destruct e
      end ].

Section WithRec.

Variable rec : P Expression.
Hypothesis Hrec : lineBlind rec.

Lemma lineBlind_parseArguments fuel : forall arguments,
  lineBlind (parseArguments rec fuel arguments).
Proof.
  induction fuel as [|fuel IH]; intros arguments; cbn [parseArguments];
    [apply lineBlind_outOfFuel|].
  apply lineBlind_bind.
  - apply lineBlind_tryCatch; [blind|].
    intros _. apply lineBlind_bind; [apply lineBlind_advanceWhile; reflexivity|].
    intros _. blind.
  - intros args. apply lineBlind_bind; [apply lineBlind_checkAny|].
    intros []; [apply lineBlind_ret|apply IH].
Qed.

Lemma lineBlind_parseStream fuel : forall left_,
  lineBlind (parseStream rec fuel left_).
Proof.
  induction fuel as [|fuel IH]; intros left_; cbn [parseStream];
    [apply lineBlind_outOfFuel|].
  apply lineBlind_bind; [apply lineBlind_type|]. intros op.
  apply lineBlind_bind; [apply lineBlind_advance|]. intros _.
  apply lineBlind_bind; [apply lineBlind_check|]. intros isEndl.
  apply lineBlind_bind; [destruct isEndl; blind|]. intros left'.
  apply lineBlind_bind; [apply lineBlind_checkAny|].
  intros []; [apply IH|apply lineBlind_ret].
Qed.

Lemma lineBlind_parsePrimary fuel : lineBlind (parsePrimary rec fuel).
Proof.
  induction fuel as [|fuel IH]; cbn [parsePrimary]; [apply lineBlind_outOfFuel|].
  apply lineBlind_recovering. apply lineBlind_peek; [|reflexivity].
  intros tok.
  pose proof (lineBlind_parseArguments fuel []) as Hargs.
  pose proof (fun l => lineBlind_parseStream fuel l) as Hstream.
  repeat first
    [ apply lineBlind_ret | apply lineBlind_throw | apply lineBlind_advance
    | apply lineBlind_check | apply lineBlind_type | apply lineBlind_consume
    | apply Hargs | apply Hstream | apply IH | apply Hrec
    | apply lineBlind_bind; [|intros ?]
    | match goal with
      | |- lineBlind (if ?b then _ else _) => destruct b
      end ].
Qed.

Lemma lineBlind_binaryLoop ops mk (operand : P Expression) :
  lineBlind operand ->
  forall fuel expr, lineBlind (binaryLoop fuel ops mk operand expr).
Proof.
  intros Hop. induction fuel as [|fuel IH]; intros expr; cbn [binaryLoop];
    (apply lineBlind_bind; [apply lineBlind_type|]); intros op;
    destruct (existsb (TokenType_eqb op) ops);
    try apply lineBlind_ret; try apply lineBlind_outOfFuel.
  apply lineBlind_bind; [apply lineBlind_advance|]. intros _.
  apply lineBlind_bind; [exact Hop|]. intros right_. apply IH.
Qed.

Lemma lineBlind_binaryLevel fuel ops mk (operand : P Expression) :
  lineBlind operand -> lineBlind (binaryLevel fuel ops mk operand).
Proof.
  intros Hop. apply lineBlind_recovering. apply lineBlind_bind; [exact Hop|].
  intros expr. apply lineBlind_binaryLoop. exact Hop.
Qed.

Lemma lineBlind_parseLogicalOr fuel : lineBlind (parseLogicalOr rec fuel).
Proof.
  unfold parseLogicalOr, parseLogicalAnd, parseEquality, parseComparison, parseTerm,
    parseFactor.
  repeat apply lineBlind_binaryLevel. apply lineBlind_parsePrimary.
Qed.

Lemma lineBlind_parseAssignmentFuel fuel depth :
  lineBlind (parseAssignmentFuel rec depth fuel).
Proof.
  induction depth as [|depth IH]; cbn [parseAssignmentFuel]; [apply lineBlind_outOfFuel|].
  apply lineBlind_recovering.
  apply lineBlind_bind; [apply lineBlind_parseLogicalOr|]. intros expr.
  apply lineBlind_bind; [apply lineBlind_type|]. intros op.
  repeat first
    [ apply lineBlind_ret | apply lineBlind_throw | apply lineBlind_advance
    | apply IH
    | apply lineBlind_bind; [|intros ?]
    | match goal with
      | |- lineBlind (if ?b then _ else _) => destruct b
      | |- lineBlind (match ?e with _ => _ end) => destruct e
      end ].
Qed.

End WithRec.

Lemma lineBlind_parseExpression fuel : lineBlind (parseExpression fuel).
Proof.
  induction fuel as [|fuel IH]; cbn [parseExpression]; [apply lineBlind_outOfFuel|].
  apply lineBlind_recovering. unfold parseAssignment.
  apply lineBlind_parseAssignmentFuel. exact IH.
Qed.

Lemma AtEOF_eraseLines p : AtEOF (eraseLines p) <-> AtEOF p.
Proof.
  unfold AtEOF, eraseLines. cbn [currentToken lexer eraseLine type].
  split; intros [H1 H2]; (split; [exact H1|]).
  - destruct (lexer p); [reflexivity|discriminate H2].
  - rewrite H2. reflexivity.
Qed.

Lemma noEOF_lines e e' :
  map eraseLexed e' = map eraseLexed e -> Forall noEOF e -> Forall noEOF e'.
Proof.
  revert e'. induction e as [|r e IH]; intros [|r' e'] Hmap Hall;
    try discriminate Hmap; [constructor|].
  cbn [map] in Hmap. injection Hmap as Hr He. inversion Hall as [|? ? H1 H2]; subst.
  constructor; [|exact (IH _ He H2)].
  destruct r as [t|w], r' as [t'|w']; try discriminate Hr; [|exact I].
  cbn [eraseLexed] in Hr. injection Hr as Hty _. cbn [noEOF] in *. congruence.
Qed.

(** The parse of an expression does not depend on the lines its tokens
    stand on. *)
Lemma parsesTo_lines fuel e e' E :
  map eraseLexed e' = map eraseLexed e -> parsesTo fuel e E -> parsesTo fuel e' E.
Proof.
  intros Hmap (p & p' & Hnew & Hparse & Heof).
  unfold newParser in *.
  assert (Hstart : eraseLines (mkParser defaultToken e')
                   = eraseLines (mkParser defaultToken e)).
  { unfold eraseLines. cbn [currentToken lexer]. rewrite Hmap. reflexivity. }
  pose proof (lineBlind_advance (mkParser defaultToken e')) as H2.
  rewrite Hstart, (lineBlind_advance (mkParser defaultToken e)), Hnew in H2.
  cbn [fst snd] in H2.
  destruct (advance (mkParser defaultToken e')) as [o q] eqn:Hq.
  cbn [fst snd] in H2.
  assert (Ho : o = Ok tt) by (apply (f_equal fst) in H2; symmetry; exact H2).
  assert (Hpq : eraseLines q = eraseLines p)
    by (apply (f_equal snd) in H2; symmetry; exact H2).
  subst o. clear H2.
  pose proof (lineBlind_parseExpression fuel q) as H4.
  rewrite Hpq, (lineBlind_parseExpression fuel p), Hparse in H4. cbn [fst snd] in H4.
  destruct (parseExpression fuel q) as [o' q'] eqn:Hq'.
  cbn [fst snd] in H4.
  assert (Ho : o' = Ok E) by (apply (f_equal fst) in H4; symmetry; exact H4).
  assert (Hq'' : eraseLines q' = eraseLines p')
    by (apply (f_equal snd) in H4; symmetry; exact H4).
  subst o'. exists q, q'. split; [exact Hq|]. split; [exact Hq'|].
  apply AtEOF_eraseLines. rewrite Hq''. apply AtEOF_eraseLines. exact Heof.
Qed.

End LineBlind.

Section Final.
Import Parse.

Lemma parseExpression_S n :
  parseExpression (S n) = recovering (parseAssignment (parseExpression n) n).
Proof. reflexivity. Qed.

Lemma parsesTo_inv fuel e E :
  parsesTo fuel e E ->
  exists f first pending p',
    fuel = S f /\ e = Lex.Tok first :: pending
    /\ parseExpression (S f) (mkParser first pending) = (Ok E, p') /\ AtEOF p'.
Proof.
  intros (p & p' & Hnew & Hparse & Heof).
  destruct fuel as [|f]; [discriminate Hparse|].
  destruct e as [|[first|w] pending]; unfold newParser, advance in Hnew; simpl in Hnew.
  - injection Hnew as <-.
    pose proof (proj2 (SimL_Dead_parseExpression (mkToken SEMICOLON "" 0) []
                         (or_introl eq_refl) (S f))) as Hd.
    specialize (Hd (mkParser (mkToken END_OF_FILE "" 0) []) (conj eq_refl eq_refl)).
    rewrite Hparse in Hd. contradiction.
  - injection Hnew as <-. exists f, first, pending, p'.
    repeat split; solve [reflexivity | assumption | apply Heof].
  - discriminate Hnew.
Qed.

(** The fuel of an expression that parses is any fuel above the number
    of its tokens. *)
Lemma parseExpression_fuel n n' p E p' :
  parseExpression n p = (Ok E, p') ->
  tokensLeft p + 1 < n' ->
  parseExpression n' p = (Ok E, p').
Proof.
  intros Hparse Hn'.
  destruct (Nat.le_ge_cases n n') as [Hle|Hge].
  - exact (refines_Ok _ _ _ _ _ (parseExpression_mono n n' Hle) Hparse).
  - destruct (parseExpression_mono n' n Hge p) as [Hoof|Heq].
    + pose proof (answers_parseExpression n' p Hn') as H. unfold answers in H.
      destruct (parseExpression n' p) as [[a|w|] q]; [discriminate Hoof..|destruct H].
    + rewrite Heq. exact Hparse.
Qed.

(** The statement [x op= e;] in front of [rest], each token on a line
    of its own choosing. *)
Lemma compound_statement_parses name op op' first pending E f p' l0 l1 l2 n rest :
  In (op, op') compoundOperators ->
  name <> "string" ->
  noEOF (Lex.Tok first) -> Forall noEOF pending ->
  parseExpression (S f) (mkParser first pending) = (Ok E, p') -> AtEOF p' ->
  f <= n ->
  parseStatement (S (S (S (S n))))
    (mkParser (mkToken IDENTIFIER name l0)
       (punct op l1 :: Lex.Tok first
        :: pending ++ Lex.Tok (mkToken SEMICOLON (spelling SEMICOLON) l2) :: rest))
  = match advance (mkParser (mkToken SEMICOLON (spelling SEMICOLON) l2) rest) with
    | (Ok _, q) =>
        (Ok (ExpressionStatement
               (AssignExpression name EQUAL
                  (BinaryExpression (IdentifierExpression name) op' E))), q)
    | (Throw w, q) => recovering (throw w) q
    | (OutOfFuel, q) => (OutOfFuel, q)
    end.
Proof.
  intros Hop Hname Hfirst Hpending Hparse Heof Hf.
  assert (Hops : In op [PLUS_EQUAL; MINUS_EQUAL; MULTIPLY_EQUAL; DIVIDE_EQUAL]
                 /\ binaryOp op = op').
  { destruct Hop as [[= <- <-]|[[= <- <-]|[[= <- <-]|[[= <- <-]|[]]]]];
      (split; [cbn; tauto|reflexivity]). }
  destruct Hops as [Hin <-].
  apply (parseStatement_expression _ _ _ _ _ _ _ _ Hname).
  rewrite (parseExpression_S (S (S n))). apply recovering_Ok. unfold parseAssignment.
  apply parseAssignment_compound; [exact Hin|].
  rewrite parseExpression_S in Hparse.
  apply recovering_Ok_inv in Hparse. unfold parseAssignment in Hparse.
  apply (refines_Ok (parseAssignmentFuel (parseExpression f) f f)).
  - apply parseAssignmentFuel_mono; [apply parseExpression_mono; lia | lia | lia].
  - apply (parseAssignment_before_follower
             (mkToken SEMICOLON (spelling SEMICOLON) l2) rest f first pending E p');
      try assumption. left. reflexivity.
Qed.

(** The statement [x = x op' (e);] in front of [rest], likewise. *)
Lemma plain_statement_parses name op op' first pending E f p' l0 l1 l2 l3 l4 l5 l6 n rest :
  In (op, op') compoundOperators ->
  name <> "string" ->
  noEOF (Lex.Tok first) -> Forall noEOF pending ->
  parseExpression (S f) (mkParser first pending) = (Ok E, p') -> AtEOF p' ->
  f <= n ->
  parseStatement (S (S (S (S n))))
    (mkParser (mkToken IDENTIFIER name l0)
       (punct EQUAL l1 :: Lex.Tok (mkToken IDENTIFIER name l2)
        :: punct op' l3 :: punct LPAREN l4
        :: Lex.Tok first
        :: pending ++ punct RPAREN l5
           :: Lex.Tok (mkToken SEMICOLON (spelling SEMICOLON) l6) :: rest))
  = match advance (mkParser (mkToken SEMICOLON (spelling SEMICOLON) l6) rest) with
    | (Ok _, q) =>
        (Ok (ExpressionStatement
               (AssignExpression name EQUAL
                  (BinaryExpression (IdentifierExpression name) op' E))), q)
    | (Throw w, q) => recovering (throw w) q
    | (OutOfFuel, q) => (OutOfFuel, q)
    end.
Proof.
  intros Hop Hname Hfirst Hpending Hparse Heof Hf.
  apply (parseStatement_expression _ _ _ _ _ _ _ _ Hname).
  rewrite (parseExpression_S (S (S n))). apply recovering_Ok. unfold parseAssignment.
  apply (parseAssignment_plain _ _ _ _ _ _ _ _ _ _ l5 l6 _ _ _
           (spelling RPAREN) (spelling SEMICOLON)).
  - destruct Hop as [[= <- <-]|[[= <- <-]|[[= <- <-]|[[= <- <-]|[]]]]]; simpl; tauto.
  - apply (refines_Ok (parseExpression (S f))); [apply parseExpression_mono; lia|].
    apply (parseExpression_before_follower
             (mkToken RPAREN (spelling RPAREN) l5)
             (Lex.Tok (mkToken SEMICOLON (spelling SEMICOLON) l6) :: rest)
             (S f) first pending E p');
      try assumption. right. reflexivity.
Qed.

(** [Parser::parse] on a program that is one expression statement. *)
Lemma parse_one_statement name ln pending stmt eofLine n :
  parseStatement (S n) (mkParser (mkToken IDENTIFIER name ln) pending)
    = (Ok stmt, mkParser (mkToken END_OF_FILE "" eofLine) []) ->
  fst (parseLoop (S n) [] [] (mkParser (mkToken IDENTIFIER name ln) pending))
    = (Ok [stmt], []).
Proof.
  intros Hstmt. cbn [parseLoop]. cbn [currentToken type].
  change (TokenType_eqb IDENTIFIER END_OF_FILE) with false. cbv iota.
  unfold bind at 1. unfold check at 1. unfold gets at 1.
  cbn [currentToken type].
  change (TokenType_eqb IDENTIFIER SEMICOLON) with false. cbv iota.
  unfold bind at 1. rewrite Hstmt. unfold ret at 1.
  destruct n; reflexivity.
Qed.

(** Compound assignments on source text, one for each operator. *)
Lemma compound_assignment_on_source :
  parsedProgram "x += y * 2;" = parsedProgram "x = x + (y * 2);"
  /\ parsedProgram "i -= 1;" = parsedProgram "i = i - (1);"
  /\ parsedProgram "n *= f(1, k) + 3;" = parsedProgram "n = n * (f(1, k) + 3);"
  /\ parsedProgram "total /= a - b;" = parsedProgram "total = total / (a - b);"
  /\ parsedProgram "total /= a - b;"
     = Some [ExpressionStatement
               (AssignExpression "total" EQUAL
                  (BinaryExpression (IdentifierExpression "total") SLASH
                     (BinaryExpression (IdentifierExpression "a") MINUS
                        (IdentifierExpression "b"))))].
Proof. repeat apply conj; vm_compute; reflexivity. Qed.

(** C5.  A compound assignment is parsed as the assignment it stands
    for.  Let [op] be a compound operator and [op'] the arithmetic
    operator it stands for ([+=] and [+], [-=] and [-], [*=] and [*],
    [/=] and [/]); let [e] be the tokens of an expression as they stand
    in [x op= e;] and [e'] its tokens as they stand in [x = x op' (e');]
    (on other lines, say), both of which the parser, given them alone,
    parses to [E].  Whatever the lines of the tokens and whatever follows
    the statement, parsing [x op= e;] and parsing [x = x op' (e');] give
    the same result; in front of a token both return the expression
    statement of [Assign(x, =, Binary(Identifier(x), op', E))] and stop
    at that token; and when the two semicolons are on the same line the
    two parsers are left in the same state in every case.  (When the
    lexer raises an error on the text right after the semicolon, both
    parses fail alike.)  On the program that consists of the statement
    alone, [Parser::parse] returns exactly this statement for either
    form, and writes no diagnostic.  The tokens of [e] moved to any
    other lines are such an [e']: they parse to [E] as well.  An
    identifier token never has the lexeme [string], which the lexer
    scans as a keyword, and no token of an expression is END_OF_FILE
    (see [tokenize_tokens]). *)
Theorem compound_assignment_equivalence
    (name : string) (op op' : TokenType) (e e' : list Lex.Lexed) (E : Expression)
    (fuel fuel' n : nat) (lc lp : nat -> nat) (rest : list Lex.Lexed)
    (Hop : In (op, op') compoundOperators)
    (Hname : name <> "string")
    (Hwf : Forall noEOF e) (Hwf' : Forall noEOF e')
    (HE : parsesTo fuel e E) (HE' : parsesTo fuel' e' E)
    (Hfuel : fuel + 3 <= n) (Hfuel' : fuel' + 3 <= n) :
  let stmt := ExpressionStatement
                (AssignExpression name EQUAL
                   (BinaryExpression (IdentifierExpression name) op' E)) in
  fst (parseStatementOn n (compoundStatement lc name op e ++ rest))
  = fst (parseStatementOn n (plainStatement lp name op' e' ++ rest))
  /\ (forall t rest', rest = Lex.Tok t :: rest' ->
        parseStatementOn n (compoundStatement lc name op e ++ rest)
        = (Ok stmt, mkParser t rest')
        /\ parseStatementOn n (plainStatement lp name op' e' ++ rest)
           = (Ok stmt, mkParser t rest'))
  /\ (lc 2 = lp 6 ->
      parseStatementOn n (compoundStatement lc name op e ++ rest)
      = parseStatementOn n (plainStatement lp name op' e' ++ rest))
  /\ ((forall w rest', rest <> Lex.LexError w :: rest') ->
      fst (parseStatementOn n (compoundStatement lc name op e ++ rest)) = Ok stmt)
  /\ (forall eofLine,
       let eof := Lex.Tok (mkToken END_OF_FILE "" eofLine) in
       parseProgram (compoundStatement lc name op e ++ [eof]) = (Ok [stmt], [])
       /\ parseProgram (plainStatement lp name op' e' ++ [eof]) = (Ok [stmt], []))
  /\ forall e'', map eraseLexed e'' = map eraseLexed e ->
                 Forall noEOF e'' /\ parsesTo fuel e'' E.
Proof.
  intros stmt.
  assert (Hlines : forall e'', map eraseLexed e'' = map eraseLexed e ->
                               Forall noEOF e'' /\ parsesTo fuel e'' E).
  { intros e'' Hmap. split; [exact (noEOF_lines e e'' Hmap Hwf)|].
    exact (parsesTo_lines fuel e e'' E Hmap HE). }
  revert Hlines.
  destruct (parsesTo_inv _ _ _ HE) as (f & first & pending & p1 & -> & -> & Hparse & Heof).
  destruct (parsesTo_inv _ _ _ HE')
    as (f' & first' & pending' & p1' & -> & -> & Hparse' & Heof').
  inversion Hwf as [|? ? Hfirst Hpending]; subst.
  inversion Hwf' as [|? ? Hfirst' Hpending']; subst.
  intros Hlines.
  assert (Hcs : forall rest,
            compoundStatement lc name op (Lex.Tok first :: pending) ++ rest
            = Lex.Tok (mkToken IDENTIFIER name (lc 0)) :: punct op (lc 1)
              :: Lex.Tok first
              :: pending ++ Lex.Tok (mkToken SEMICOLON (spelling SEMICOLON) (lc 2)) :: rest).
  { intros r. unfold compoundStatement. simpl. rewrite <- app_assoc. reflexivity. }
  assert (Hps : forall rest,
            plainStatement lp name op' (Lex.Tok first' :: pending') ++ rest
            = Lex.Tok (mkToken IDENTIFIER name (lp 0)) :: punct EQUAL (lp 1)
              :: Lex.Tok (mkToken IDENTIFIER name (lp 2)) :: punct op' (lp 3)
              :: punct LPAREN (lp 4) :: Lex.Tok first'
              :: pending' ++ punct RPAREN (lp 5)
                 :: Lex.Tok (mkToken SEMICOLON (spelling SEMICOLON) (lp 6)) :: rest).
  { intros r. unfold plainStatement. simpl. rewrite <- app_assoc. reflexivity. }
  assert (Hc : forall m r, f <= m ->
            parseStatementOn (S (S (S (S m))))
              (compoundStatement lc name op (Lex.Tok first :: pending) ++ r)
            = match advance (mkParser (mkToken SEMICOLON (spelling SEMICOLON) (lc 2)) r) with
              | (Ok _, q) => (Ok stmt, q)
              | (Throw w, q) => recovering (throw w) q
              | (OutOfFuel, q) => (OutOfFuel, q)
              end).
  { intros m r Hm. rewrite Hcs. unfold parseStatementOn, newParser.
    unfold advance at 1. cbn [lexer currentToken].
    exact (compound_statement_parses name op op' first pending E f p1 _ _ _ m r
             Hop Hname Hfirst Hpending Hparse Heof Hm). }
  assert (Hp : forall m r, f' <= m ->
            parseStatementOn (S (S (S (S m))))
              (plainStatement lp name op' (Lex.Tok first' :: pending') ++ r)
            = match advance (mkParser (mkToken SEMICOLON (spelling SEMICOLON) (lp 6)) r) with
              | (Ok _, q) => (Ok stmt, q)
              | (Throw w, q) => recovering (throw w) q
              | (OutOfFuel, q) => (OutOfFuel, q)
              end).
  { intros m r Hm. rewrite Hps. unfold parseStatementOn, newParser.
    unfold advance at 1. cbn [lexer currentToken].
    exact (plain_statement_parses name op op' first' pending' E f' p1' _ _ _ _ _ _ _ m r
             Hop Hname Hfirst' Hpending' Hparse' Heof' Hm). }
  do 4 (destruct n as [|n]; [lia|]).
  rewrite (Hc n rest) by lia. rewrite (Hp n rest) by lia.
  split; [|split; [|split; [|split; [|split; [|exact Hlines]]]]].
  - destruct rest as [|[t|w] rest']; unfold advance; cbn [lexer currentToken fst];
      [reflexivity|reflexivity|].
    unfold recovering, tryCatch, throw, bind.
    assert (Hsync : forall cur,
              fst (synchronize (mkParser cur rest'))
              = fst (synchronize (mkParser (mkToken END_OF_FILE "" 0) rest'))).
    { intros cur. unfold synchronize, bind, advance. cbn [lexer currentToken].
      destruct rest' as [|[t|w'] rest'']; [|reflexivity|reflexivity].
      cbn [synchronizeLoop currentToken lexer type]. reflexivity. }
    pose proof (Hsync (mkToken SEMICOLON (spelling SEMICOLON) (lc 2))) as H1.
    pose proof (Hsync (mkToken SEMICOLON (spelling SEMICOLON) (lp 6))) as H2.
    destruct (synchronize (mkParser (mkToken SEMICOLON (spelling SEMICOLON) (lc 2)) rest'))
      as [[[]|w1|] q1];
      destruct (synchronize (mkParser (mkToken SEMICOLON (spelling SEMICOLON) (lp 6)) rest'))
        as [[[]|w2|] q2];
      cbn [fst] in *; congruence.
  - intros t rest' ->. unfold advance. cbn [lexer currentToken]. split; reflexivity.
  - intros ->. reflexivity.
  - intros Hrest. unfold advance. cbn [lexer currentToken].
    destruct rest as [|[t|w] rest']; [reflexivity | reflexivity |].
    exfalso. exact (Hrest w rest' eq_refl).
  - intros eofLine eof.
    assert (Hshort : parseExpression (S (length pending + 2)) (mkParser first pending)
                     = (Ok E, p1)).
    { apply (parseExpression_fuel (S f)); [exact Hparse|].
      pose proof (tokensLeft_mk_le first pending). lia. }
    assert (Hshort' : parseExpression (S (length pending' + 2)) (mkParser first' pending')
                      = (Ok E, p1')).
    { apply (parseExpression_fuel (S f')); [exact Hparse'|].
      pose proof (tokensLeft_mk_le first' pending'). lia. }
    split.
    + pose proof (compound_statement_parses name op op' first pending E
                    (length pending + 2) p1 (lc 0) (lc 1) (lc 2) (length pending + 4) [eof]
                    Hop Hname Hfirst Hpending Hshort Heof ltac:(lia)) as Hstmt.
      rewrite Hcs. unfold parseProgram, newParser, advance. cbn [lexer currentToken].
      unfold parse. cbn [lexer].
      match goal with
      | |- context [parseLoop (length ?l + 4)] =>
          replace (length l + 4) with (S (S (S (S (length pending + 4)))))
            by (cbn [length]; rewrite length_app; cbn [length]; lia)
      end.
      apply (parse_one_statement _ _ _ _ eofLine). exact Hstmt.
    + pose proof (plain_statement_parses name op op' first' pending' E
                    (length pending' + 2) p1' (lp 0) (lp 1) (lp 2) (lp 3) (lp 4) (lp 5)
                    (lp 6) (length pending' + 8) [eof]
                    Hop Hname Hfirst' Hpending' Hshort' Heof' ltac:(lia)) as Hstmt.
      rewrite Hps. unfold parseProgram, newParser, advance. cbn [lexer currentToken].
      unfold parse. cbn [lexer].
      match goal with
      | |- context [parseLoop (length ?l + 4)] =>
          replace (length l + 4) with (S (S (S (S (length pending' + 8)))))
            by (cbn [length]; rewrite length_app; cbn [length]; lia)
      end.
      apply (parse_one_statement _ _ _ _ eofLine). exact Hstmt.
Qed.

End Final.

Lemma compound_assignment_equivalence_witness :
  let line2 := String (ascii_of_nat 10) "" in
  let e := [Lex.Tok (mkToken IDENTIFIER "y" 2); Lex.Tok (mkToken MULTIPLY "*" 2);
            Lex.Tok (mkToken INTEGER_LITERAL "2" 2)] in
  let e' := [Lex.Tok (mkToken IDENTIFIER "y" 1); Lex.Tok (mkToken MULTIPLY "*" 1);
             Lex.Tok (mkToken INTEGER_LITERAL "2" 1)] in
  let E := BinaryExpression (IdentifierExpression "y") MULTIPLY
             (LiteralExpression "2" INTEGER_LITERAL) in
  let lc := fun i : nat => match i with 2 => 2 | _ => 1 end in
  let lp := fun _ : nat => 1 in
  let stmt := ExpressionStatement
                (AssignExpression "x" EQUAL
                   (BinaryExpression (IdentifierExpression "x") MINUS E)) in
  Lex.tokenize ("x -=" +:+ line2 +:+ "  y * 2;")
    = Some (compoundStatement lc "x" MINUS_EQUAL e ++ [Lex.Tok (mkToken END_OF_FILE "" 2)])
  /\ Lex.tokenize "x = x - (y * 2);"
    = Some (plainStatement lp "x" MINUS e' ++ [Lex.Tok (mkToken END_OF_FILE "" 1)])
  /\ In (MINUS_EQUAL, MINUS) compoundOperators
  /\ "x" <> "string"
  /\ Forall noEOF e /\ Forall noEOF e'
  /\ parsesTo 12 e E /\ parsesTo 12 e' E
  /\ 12 + 3 <= 15
  /\ parseProgram (compoundStatement lc "x" MINUS_EQUAL e
                    ++ [Lex.Tok (mkToken END_OF_FILE "" 2)]) = (Ok [stmt], [])
  /\ parseProgram (plainStatement lp "x" MINUS e'
                    ++ [Lex.Tok (mkToken END_OF_FILE "" 1)]) = (Ok [stmt], []).
Proof.
  intros line2 e e' E lc lp stmt.
  assert (Hop : In (MINUS_EQUAL, MINUS) compoundOperators)
    by (right; left; reflexivity).
  assert (Hname : "x" <> "string") by discriminate.
  assert (Hwf : Forall noEOF e) by (repeat constructor; discriminate).
  assert (Hwf' : Forall noEOF e') by (repeat constructor; discriminate).
  assert (HE : parsesTo 12 e E).
  { eexists. eexists. split; [reflexivity|]. split; [vm_compute; reflexivity|].
    split; reflexivity. }
  assert (HE' : parsesTo 12 e' E).
  { eexists. eexists. split; [reflexivity|]. split; [vm_compute; reflexivity|].
    split; reflexivity. }
  assert (Hfuel : 12 + 3 <= 15) by (simpl; lia).
  split; [vm_compute; reflexivity|]. split; [vm_compute; reflexivity|].
  split; [exact Hop|]. split; [exact Hname|]. split; [exact Hwf|]. split; [exact Hwf'|].
  split; [exact HE|]. split; [exact HE'|]. split; [exact Hfuel|].
  pose proof (compound_assignment_equivalence "x" MINUS_EQUAL MINUS e e' E 12 12 15 lc lp []
                Hop Hname Hwf Hwf' HE HE' Hfuel Hfuel) as H.
  cbv zeta in H. destruct H as (_ & _ & _ & _ & Hprog & _).
  split; [exact (proj1 (Hprog 2))|exact (proj2 (Hprog 1))].
Defined.

(** * Further properties *)

(** ** Definitions and lookups in the symbol table *)

Section SymbolTableLookups.

Import Symbols.

Implicit Types (st : SymbolTable) (sc : Scope) (sym : Symbol) (n : string).

Lemma define_true_nonempty sym st st' :
  define sym st = (true, st') -> 1 <= length (scopes st).
Proof.
  unfold define. destruct (last (scopes st)) as [sc|] eqn:E; [|discriminate].
  intros _. apply last_Some_nonempty in E. exact E.
Qed.

(** X1.  A definition that is accepted can be looked up: when [define]
    answers [true], the name resolves to the symbol just defined, in the
    whole table and in the current scope; every other name resolves as
    before, and no scope is added or removed. *)
Theorem define_then_resolve sym st st'
    (Hdefine : define sym st = (true, st')) :
  resolve (name sym) st' = Some sym
  /\ resolveLocal (name sym) st' = Some sym
  /\ (forall n, n <> name sym ->
        resolve n st' = resolve n st /\ resolveLocal n st' = resolveLocal n st)
  /\ length (scopes st') = length (scopes st).
Proof.
  destruct (table_snoc st (define_true_nonempty _ _ _ Hdefine)) as (l & sc & ->).
  rewrite define_snoc in Hdefine.
  destruct (sc !! name sym) eqn:E; [discriminate|]. injection Hdefine as <-.
  rewrite resolve_snoc, resolveLocal_snoc, lookup_insert_eq.
  split; [reflexivity|]. split; [reflexivity|]. split.
  - intros n Hn. rewrite !resolve_snoc, !resolveLocal_snoc.
    rewrite lookup_insert_ne by congruence. split; reflexivity.
  - cbn [scopes]. rewrite !length_app. reflexivity.
Qed.

Lemma define_then_resolve_witness :
  let sym := variableSymbol "x" INT false VARIABLE in
  define sym newSymbolTable = (true, mkSymbolTable [{["x" := sym]}])
  /\ resolve "x" (mkSymbolTable [{["x" := sym]}]) = Some sym.
Proof.
  intros sym.
  assert (H : define sym newSymbolTable = (true, mkSymbolTable [{["x" := sym]}])).
  { change newSymbolTable with (mkSymbolTable ([] ++ [∅])). rewrite define_snoc.
    rewrite lookup_empty. reflexivity. }
  split; [exact H|]. exact (proj1 (define_then_resolve _ _ _ H)).
Defined.

(** X2.  The first definition wins: when the name is already in the
    current scope, [define] answers [false] and leaves the table as it
    was, so the name still resolves to the earlier symbol. *)
Theorem define_rejects_duplicate sym old st
    (Hold : resolveLocal (name sym) st = Some old) :
  define sym st = (false, st) /\ resolve (name sym) st = Some old.
Proof.
  assert (Hne : 1 <= length (scopes st)).
  { unfold resolveLocal in Hold. destruct (last (scopes st)) eqn:E; [|discriminate].
    apply last_Some_nonempty in E. exact E. }
  destruct (table_snoc st Hne) as (l & sc & ->).
  rewrite resolveLocal_snoc in Hold. unfold Scope_resolve in Hold.
  rewrite define_snoc, resolve_snoc, Hold. split; reflexivity.
Qed.

Lemma define_rejects_duplicate_witness :
  let first := variableSymbol "x" INT false VARIABLE in
  let second := variableSymbol "x" FLOAT true VARIABLE in
  let st := mkSymbolTable [{["x" := first]}] in
  resolveLocal (name second) st = Some first
  /\ define second st = (false, st).
Proof.
  intros first second st.
  assert (H : resolveLocal (name second) st = Some first) by reflexivity.
  split; [exact H|]. exact (proj1 (define_rejects_duplicate second first st H)).
Defined.

Lemma defines_in_scope (syms : list Symbol) : forall l sc,
  exists sc',
    fold_left (fun st sym => snd (define sym st)) syms (mkSymbolTable (l ++ [sc]))
    = mkSymbolTable (l ++ [sc']).
Proof.
  induction syms as [|sym syms IH]; intros l sc; [exists sc; reflexivity|].
  cbn [fold_left]. rewrite define_snoc.
  destruct (sc !! name sym); cbn [snd]; apply IH.
Qed.

(** Leaving a scope drops the definitions made in it. *)
Lemma exit_after_defines st (syms : list Symbol) :
  1 <= length (scopes st) ->
  exitScope (fold_left (fun st sym => snd (define sym st)) syms (enterScope st)) = st.
Proof.
  intros Hscope. destruct st as [l]. unfold enterScope. cbn [scopes] in *.
  destruct (defines_in_scope syms l ∅) as [sc' ->].
  unfold exitScope. cbn [scopes]. rewrite length_app. cbn [length].
  replace (1 <? length l + 1)%nat with true by (symmetry; apply Nat.ltb_lt; lia).
  rewrite removelast_last. reflexivity.
Qed.

(** X3.  A scope is discarded whole: on a table that has a scope,
    entering a scope, making any definitions and exiting gives back
    exactly the table from before, whatever the definitions were. *)
Theorem scope_exit_restores st (syms : list Symbol)
    (Hscope : 1 <= length (scopes st)) :
  exitScope (fold_left (fun st sym => snd (define sym st)) syms (enterScope st)) = st.
Proof. exact (exit_after_defines st syms Hscope). Qed.

Lemma scope_exit_restores_witness :
  1 <= length (scopes newSymbolTable)
  /\ exitScope (fold_left (fun st sym => snd (define sym st))
                  [variableSymbol "x" INT false VARIABLE;
                   variableSymbol "y" FLOAT false VARIABLE]
                  (enterScope newSymbolTable)) = newSymbolTable.
Proof.
  assert (H : 1 <= length (scopes newSymbolTable)) by (simpl; lia).
  split; [exact H|]. exact (scope_exit_restores newSymbolTable _ H).
Defined.

(** X4.  A definition in a scope just entered is always accepted and
    shadows an outer symbol of the same name: inside the scope the name
    resolves to the new symbol, after the scope it resolves as before. *)
Theorem inner_definition_shadows sym st
    (Hscope : 1 <= length (scopes st)) :
  fst (define sym (enterScope st)) = true
  /\ resolve (name sym) (snd (define sym (enterScope st))) = Some sym
  /\ resolve (name sym) (exitScope (snd (define sym (enterScope st))))
     = resolve (name sym) st.
Proof.
  pose proof (exit_after_defines st [sym] Hscope) as Hexit. cbn [fold_left] in Hexit.
  rewrite Hexit. destruct st as [l]. unfold enterScope. cbn [scopes].
  rewrite define_snoc, lookup_empty. cbn [fst snd].
  rewrite resolve_snoc, lookup_insert_eq. repeat split.
Qed.

Lemma inner_definition_shadows_witness :
  let outer := variableSymbol "x" INT false VARIABLE in
  let inner := variableSymbol "x" FLOAT false VARIABLE in
  let st := mkSymbolTable [{["x" := outer]}] in
  1 <= length (scopes st)
  /\ resolve "x" st = Some outer
  /\ resolve "x" (snd (define inner (enterScope st))) = Some inner.
Proof.
  intros outer inner st.
  assert (H : 1 <= length (scopes st)) by (simpl; lia).
  split; [exact H|]. split; [reflexivity|].
  exact (proj1 (proj2 (inner_definition_shadows inner st H))).
Defined.

(** X5.  [resolve] answers with the innermost binding: the symbol it
    returns is held by a scope such that no scope entered later holds the
    name, and it returns nothing exactly when no scope holds the name. *)
Theorem resolve_innermost_binding n st :
  match resolve n st with
  | Some sym =>
      exists (outer : list Scope) sc (inner : list Scope),
        scopes st = outer ++ sc :: inner
        /\ sc !! n = Some sym
        /\ Forall (fun s : Scope => s !! n = None) inner
  | None => Forall (fun s : Scope => s !! n = None) (scopes st)
  end.
Proof.
  destruct st as [l]. cbn [scopes].
  induction l as [|s l IH] using rev_ind; [constructor|].
  rewrite resolve_snoc. destruct (s !! n) as [sym|] eqn:Hs.
  - exists l, s, []. repeat split; [exact Hs|constructor].
  - destruct (resolve n (mkSymbolTable l)) as [sym|].
    + destruct IH as (outer & sc & inner & -> & Hsc & Hinner).
      exists outer, sc, (inner ++ [s]). split; [rewrite <- app_assoc; reflexivity|].
      split; [exact Hsc|]. apply Forall_app. split; [exact Hinner|].
      constructor; [exact Hs|constructor].
    + apply Forall_app. split; [exact IH|]. constructor; [exact Hs|constructor].
Qed.

End SymbolTableLookups.

(** ** The state of the type checker *)

Section Induction.

(** Induction on the syntax, through the lists and options of children. *)
Lemma Expression_nested_ind (P : Expression -> Prop)
    (Hbinary : forall l op r, P l -> P r -> P (BinaryExpression l op r))
    (Hunary : forall op e, P e -> P (UnaryExpression op e))
    (Hidentifier : forall n, P (IdentifierExpression n))
    (Hliteral : forall v t, P (LiteralExpression v t))
    (Hcall : forall callee args, Forall P args -> P (CallExpression callee args))
    (Hlogical : forall l op r, P l -> P r -> P (LogicalExpression l op r))
    (Hassign : forall n op v, P v -> P (AssignExpression n op v)) :
  forall e, P e.
Proof.
  fix IH 1. intros [l op r|op e|n|v t|callee args|l op r|n op v].
  - apply Hbinary; apply IH.
  - apply Hunary; apply IH.
  - apply Hidentifier.
  - apply Hliteral.
  - apply Hcall. induction args as [|a args IHargs]; constructor; [apply IH|exact IHargs].
  - apply Hlogical; apply IH.
  - apply Hassign; apply IH.
Qed.

Lemma Statement_nested_ind (P : Statement -> Prop)
    (Hblock : forall stmts, Forall P stmts -> P (BlockStatement stmts))
    (Hexpression : forall e, P (ExpressionStatement e))
    (Hif : forall c t e, P t -> match e with Some s => P s | None => True end ->
                         P (IfStatement c t e))
    (Hwhile : forall c b, P b -> P (WhileStatement c b))
    (Hfor : forall i c inc b, match i with Some s => P s | None => True end -> P b ->
                              P (ForStatement i c inc b))
    (Hreturn : forall v, P (ReturnStatement v))
    (Hvariable : forall t p n i, P (VariableDeclaration t p n i))
    (Hfunction : forall n rt ps b, P b -> P (FunctionDeclaration n rt ps b)) :
  forall s, P s.
Proof.
  fix IH 1. intros [stmts|e|c t e|c b|i c inc b|v|t p n i|n rt ps b].
  - apply Hblock. induction stmts as [|a stmts IHs]; constructor; [apply IH|exact IHs].
  - apply Hexpression.
  - apply Hif; [apply IH|]. destruct e as [s|]; [apply IH|exact I].
  - apply Hwhile. apply IH.
  - apply Hfor; [|apply IH]. destruct i as [s|]; [apply IH|exact I].
  - apply Hreturn.
  - apply Hvariable.
  - apply Hfunction. apply IH.
Qed.

End Induction.

Section CheckerState.

Lemma readsOnly_ret {A} (a : A) : readsOnly (ret a).
Proof. intros tc. split; [reflexivity|discriminate]. Qed.

Lemma readsOnly_throw {A} w : readsOnly (@throw TypeChecker A w).
Proof. intros tc. split; [reflexivity|discriminate]. Qed.

Lemma readsOnly_gets {A} (g : TypeChecker -> A) : readsOnly (gets g).
Proof. intros tc. split; [reflexivity|discriminate]. Qed.

Lemma readsOnly_bind {A B} (m : TC A) (f : A -> TC B) :
  readsOnly m -> (forall a, readsOnly (f a)) -> readsOnly (bind m f).
Proof.
  intros Hm Hf tc. unfold bind. destruct (Hm tc) as [Hs Ho].
  destruct (m tc) as [[a|w|] tc']; cbn [fst snd] in *; subst.
  - apply Hf.
  - split; [reflexivity|discriminate].
  - congruence.
Qed.

Ltac read_only :=
  repeat first
    [ apply readsOnly_ret
    | apply readsOnly_throw
    | apply readsOnly_gets
    | assumption
    | apply readsOnly_bind; [|intros ?]
    | lazymatch goal with
      | |- readsOnly (if ?b then _ else _) => destruct b
      | |- readsOnly (match ?o with Some _ => _ | None => _ end) => destruct o
      | |- readsOnly (let (_, _) := ?x in _) => destruct x
      end ].

Lemma readsOnly_checkUnaryType op t : readsOnly (checkUnaryType op t).
Proof. unfold checkUnaryType. destruct op; read_only. Qed.

Lemma readsOnly_checkBinaryTypes l op r : readsOnly (checkBinaryTypes l op r).
Proof. unfold checkBinaryTypes. read_only. Qed.

Lemma readsOnly_checkExpression e : readsOnly (checkExpression e).
Proof.
  induction e as [l op r IHl IHr|op e IH|n|v t|callee args IH|l op r IHl IHr|n op v IH]
    using Expression_nested_ind; cbn [checkExpression]; unfold resolveM.
  - read_only. apply readsOnly_checkBinaryTypes.
  - read_only. apply readsOnly_checkUnaryType.
  - read_only.
  - read_only.
  - apply readsOnly_bind; [apply readsOnly_gets|]. intros [sym|]; [|read_only].
    destruct (negb _); [read_only|]. destruct (negb _); [read_only|].
    apply readsOnly_bind; [|intros ?; read_only].
    match goal with
    | |- readsOnly (?f 0 args) => enough (H : forall i, readsOnly (f i args)) by apply H
    end.
    induction IH as [|arg rest Harg _ IHrest]; intros i; [read_only|].
    apply readsOnly_bind; [exact Harg|]. intros argType.
    destruct (Symbols.parameters sym !! i) as [[? paramType]|]; [|apply IHrest].
    destruct (strictMismatch _ _); [read_only|apply IHrest].
  - read_only.
  - read_only.
Qed.

(** X6.  Checking an expression never changes the checker: whatever the
    expression and whether the check returns a type or raises, the symbol
    table and the function context are those from before. *)
Theorem checkExpression_reads_only (e : Expression) (tc : TypeChecker) :
  snd (checkExpression e tc) = tc.
Proof. apply readsOnly_checkExpression. Qed.

Lemma readsOnly_get : readsOnly (@get TypeChecker).
Proof. intros tc. split; [reflexivity|discriminate]. Qed.

Lemma readsOnly_checkCondition what cond : readsOnly (checkCondition what cond).
Proof.
  unfold checkCondition. apply readsOnly_bind; [apply readsOnly_checkExpression|].
  intros t. read_only.
Qed.

Lemma readsOnly_checkReturnStatement value : readsOnly (checkReturnStatement value).
Proof.
  unfold checkReturnStatement. apply readsOnly_bind; [apply readsOnly_get|].
  intros tc. destruct (negb _); [read_only|]. destruct value as [e|]; [|read_only].
  apply readsOnly_bind; [apply readsOnly_checkExpression|]. intros t. read_only.
Qed.

Lemma checks_ret {A} (P : TypeChecker -> Prop) (a : A) Q E :
  (forall tc, P tc -> Q a tc) -> checks P (ret a) Q E.
Proof. intros H tc HP. apply H, HP. Qed.

Lemma checks_throw {A} (P : TypeChecker -> Prop) w (Q : A -> TypeChecker -> Prop) E :
  (forall tc, P tc -> E tc) -> checks P (throw w) Q E.
Proof. intros H tc HP. apply H, HP. Qed.

Lemma checks_modify (P : TypeChecker -> Prop) f Q E :
  (forall tc, P tc -> Q tt (f tc)) -> checks P (modify f) Q E.
Proof. intros H tc HP. apply H, HP. Qed.

Lemma checks_bind {A B} P (m : TC A) (f : A -> TC B) (R : A -> TypeChecker -> Prop) Q E :
  checks P m R E -> (forall a, checks (R a) (f a) Q E) -> checks P (bind m f) Q E.
Proof.
  intros Hm Hf tc HP. unfold bind. specialize (Hm tc HP).
  destruct (m tc) as [[a|w|] tc']; [|exact Hm|exact Hm].
  apply Hf, Hm.
Qed.

Lemma checks_weaken {A} (P P' : TypeChecker -> Prop) (m : TC A)
    (Q Q' : A -> TypeChecker -> Prop) (E E' : TypeChecker -> Prop) :
  checks P m Q E ->
  (forall tc, P' tc -> P tc) ->
  (forall a tc, Q a tc -> Q' a tc) ->
  (forall tc, E tc -> E' tc) ->
  checks P' m Q' E'.
Proof.
  intros H HP HQ HE tc Htc. specialize (H tc (HP tc Htc)).
  destruct (m tc) as [[a|w|] tc']; [apply HQ, H|apply HE, H|exact H].
Qed.

Lemma checks_readsOnly {A} (P : TypeChecker -> Prop) (m : TC A) (E : TypeChecker -> Prop) :
  readsOnly m -> (forall tc, P tc -> E tc) -> checks P m (fun _ => P) E.
Proof.
  intros Hm HE tc HP. destruct (Hm tc) as [Hs Ho].
  destruct (m tc) as [[a|w|] tc']; cbn [fst snd] in *; subst;
    [exact HP|apply HE, HP|congruence].
Qed.

Lemma checks_get_bind {B} (P : TypeChecker -> Prop) (f : TypeChecker -> TC B) Q E :
  (forall tc0, P tc0 -> checks (fun tc => tc = tc0) (f tc0) Q E) ->
  checks P (bind get f) Q E.
Proof. intros H tc HP. exact (H tc HP tc eq_refl). Qed.


Lemma atDepth_enterScope d c tc :
  atDepth d c tc -> atDepth (S d) c (withSymbolTable Symbols.enterScope tc).
Proof.
  intros [<- <-]. split; [|reflexivity].
  unfold scopeDepth, withSymbolTable. cbn [symbolTable]. apply depth_enterScope.
Qed.

Lemma atDepth_exitScope d c tc :
  1 <= d -> atDepth (S d) c tc -> atDepth d c (withSymbolTable Symbols.exitScope tc).
Proof.
  intros Hd [Hdepth <-]. split; [|reflexivity].
  unfold scopeDepth, withSymbolTable in *. cbn [symbolTable].
  rewrite depth_exitScope, Hdepth.
  replace (1 <? S d)%nat with true by (symmetry; apply Nat.ltb_lt; lia). lia.
Qed.

Lemma atDepth_define d c sym tc :
  atDepth d c tc ->
  atDepth d c (withSymbolTable (fun st => snd (Symbols.define sym st)) tc).
Proof.
  intros [<- <-]. split; [|reflexivity].
  unfold scopeDepth, withSymbolTable. cbn [symbolTable]. apply depth_define.
Qed.

Lemma depth_defines {A} (mk : A -> Symbols.Symbol) (l : list A) : forall st,
  length (Symbols.scopes
            (fold_left (fun st a => snd (Symbols.define (mk a) st)) l st))
  = length (Symbols.scopes st).
Proof.
  induction l as [|a l IH]; intros st; [reflexivity|].
  cbn [fold_left]. rewrite IH. apply depth_define.
Qed.


Lemma atDepth_le d c tc : atDepth d c tc -> d <= scopeDepth tc.
Proof. intros [<- _]. lia. Qed.

Lemma balancedAt_checkStatement s : forall d, 1 <= d -> balancedAt d s.
Proof.
  induction s as [stmts IH|e|cond t e IHt IHe|cond b IH|i cond inc b IHi IHb|v|t p n i
                  |n rt ps b IH] using Statement_nested_ind;
    intros d Hd c; cbn [checkStatement].
  - (* block *)
    eapply checks_bind with (R := fun _ => atDepth (S d) c).
    { apply checks_modify. intros tc. apply atDepth_enterScope. }
    intros _. eapply checks_bind with (R := fun _ => atDepth (S d) c).
    + induction IH as [|s rest Hs _ IHrest].
      * apply checks_ret. auto.
      * eapply checks_bind with (R := fun _ => atDepth (S d) c).
        { eapply checks_weaken; [exact (Hs (S d) ltac:(lia) c)| | |]; cbv beta; auto.
          intros tc. lia. }
        intros _. exact IHrest.
    + intros _. apply checks_modify. intros tc. apply atDepth_exitScope, Hd.
  - (* expression statement *)
    eapply checks_bind with (R := fun _ => atDepth d c).
    { apply checks_readsOnly; [apply readsOnly_checkExpression|apply atDepth_le]. }
    intros _. apply checks_ret. auto.
  - (* if *)
    eapply checks_bind with (R := fun _ => atDepth d c).
    { apply checks_readsOnly; [apply readsOnly_checkCondition|apply atDepth_le]. }
    intros _. eapply checks_bind with (R := fun _ => atDepth d c); [exact (IHt d Hd c)|].
    intros _. destruct e as [s|]; [exact (IHe d Hd c)|apply checks_ret; auto].
  - (* while *)
    eapply checks_bind with (R := fun _ => atDepth d c).
    { apply checks_readsOnly; [apply readsOnly_checkCondition|apply atDepth_le]. }
    intros _. exact (IH d Hd c).
  - (* for *)
    eapply checks_bind with (R := fun _ => atDepth (S d) c).
    { apply checks_modify. intros tc. apply atDepth_enterScope. }
    intros _. eapply checks_bind with (R := fun _ => atDepth (S d) c).
    { destruct i as [s|].
      - eapply checks_weaken; [exact (IHi (S d) ltac:(lia) c)| | |]; cbv beta; auto.
        intros tc. lia.
      - apply checks_ret. auto. }
    intros _. eapply checks_bind with (R := fun _ => atDepth (S d) c).
    { destruct cond as [e|].
      - apply checks_readsOnly; [apply readsOnly_checkCondition|].
        intros tc H. apply atDepth_le in H. lia.
      - apply checks_ret. auto. }
    intros _. eapply checks_bind with (R := fun _ => atDepth (S d) c).
    { destruct inc as [e|].
      - eapply checks_bind with (R := fun _ => atDepth (S d) c).
        { apply checks_readsOnly; [apply readsOnly_checkExpression|].
          intros tc H. apply atDepth_le in H. lia. }
        intros _. apply checks_ret. auto.
      - apply checks_ret. auto. }
    intros _. eapply checks_bind with (R := fun _ => atDepth (S d) c).
    { eapply checks_weaken; [exact (IHb (S d) ltac:(lia) c)| | |]; cbv beta; auto.
      intros tc. lia. }
    intros _. apply checks_modify. intros tc. apply atDepth_exitScope, Hd.
  - (* return *)
    apply checks_readsOnly; [apply readsOnly_checkReturnStatement|apply atDepth_le].
  - (* variable declaration *)
    unfold checkVariableDeclaration, resolveM.
    eapply checks_bind with (R := fun _ => atDepth d c).
    { apply checks_readsOnly; [apply readsOnly_gets|apply atDepth_le]. }
    intros [sym|]; [apply checks_throw, atDepth_le|].
    eapply checks_bind with (R := fun _ => atDepth d c).
    { destruct i as [e|]; [|apply checks_ret; auto].
      eapply checks_bind with (R := fun _ => atDepth d c).
      { apply checks_readsOnly; [apply readsOnly_checkExpression|apply atDepth_le]. }
      intros initType. destruct (negb _);
        [apply checks_throw, atDepth_le|apply checks_ret; auto]. }
    intros _. apply checks_modify. intros tc. apply atDepth_define.
  - (* function declaration *)
    unfold resolveM.
    eapply checks_bind with (R := fun _ => atDepth d c).
    { apply checks_readsOnly; [apply readsOnly_gets|apply atDepth_le]. }
    intros [sym|]; [|apply checks_throw, atDepth_le].
    destruct (negb _); [apply checks_throw, atDepth_le|].
    apply checks_get_bind. intros saved Hsaved.
    eapply checks_bind with (R := fun _ => atDepth d (n, rt, true)).
    { apply checks_modify. intros tc ->. destruct Hsaved as [Hdepth _].
      split; [exact Hdepth|reflexivity]. }
    intros _. eapply checks_bind with (R := fun _ => atDepth (S d) (n, rt, true)).
    { apply checks_modify. intros tc. apply atDepth_enterScope. }
    intros _. eapply checks_bind with (R := fun _ => atDepth (S d) (n, rt, true)).
    { apply checks_modify. intros tc [Hdepth Hctx]. split; [|exact Hctx].
      unfold scopeDepth, withSymbolTable in *. cbn [symbolTable].
      rewrite (depth_defines
                 (fun param : string * TokenType =>
                    Symbols.variableSymbol (fst param) (snd param)
                      (TokenType_eqb (snd param) POINTER) Symbols.PARAMETER)).
      exact Hdepth. }
    intros _. eapply checks_bind with (R := fun _ => atDepth (S d) (n, rt, true)).
    { eapply checks_weaken; [exact (IH (S d) ltac:(lia) (n, rt, true))| | |]; cbv beta; auto.
      intros tc. lia. }
    intros _. eapply checks_bind with (R := fun _ => atDepth d (n, rt, true)).
    { apply checks_modify. intros tc. apply atDepth_exitScope, Hd. }
    intros _. apply checks_modify. intros tc [Hdepth _]. split; [exact Hdepth|].
    destruct Hsaved as [_ <-]. reflexivity.
Qed.

(** X7.  On the path without error the checker pops what it pushed:
    when checking a statement returns, the table has as many scopes as
    before and the function context is the one from before.  When it
    raises, scopes may be left over but none of the earlier ones is
    lost. *)
Theorem checkStatement_scope_balance (s : Statement) (tc : TypeChecker)
    (Hglobal : 1 <= scopeDepth tc) :
  match checkStatement s tc with
  | (Ok _, tc') =>
      scopeDepth tc' = scopeDepth tc /\ functionContext tc' = functionContext tc
  | (Throw _, tc') => scopeDepth tc <= scopeDepth tc'
  | (OutOfFuel, _) => False
  end.
Proof.
  exact (balancedAt_checkStatement s (scopeDepth tc) Hglobal (functionContext tc)
           tc (conj eq_refl eq_refl)).
Qed.

Lemma checkStatement_scope_balance_witness :
  let s := BlockStatement [VariableDeclaration INT false "x" None] in
  1 <= scopeDepth newTypeChecker
  /\ fst (checkStatement s newTypeChecker) = Ok tt
  /\ scopeDepth (snd (checkStatement s newTypeChecker)) = scopeDepth newTypeChecker.
Proof.
  intros s.
  assert (H : 1 <= scopeDepth newTypeChecker) by (vm_compute; lia).
  split; [exact H|]. split; [vm_compute; reflexivity|].
  pose proof (checkStatement_scope_balance s newTypeChecker H) as Hb.
  destruct (checkStatement s newTypeChecker) as [[u|w|] tc'] eqn:E;
    [exact (proj1 Hb)| |destruct Hb].
  exfalso. assert (Hf : fst (checkStatement s newTypeChecker) = Ok tt)
    by (vm_compute; reflexivity).
  rewrite E in Hf. discriminate Hf.
Defined.

(** The first pass keeps the scopes and the function context. *)
Lemma registerFunctions_atDepth stmts : forall errors tc d c,
  atDepth d c tc -> atDepth d c (snd (registerFunctions stmts errors tc)).
Proof.
  induction stmts as [|s stmts IH]; intros errors tc d c H; [exact H|].
  destruct s; cbn [registerFunctions]; try (apply IH; exact H).
  destruct (Symbols.define _ _) as [ok st] eqn:E. apply IH.
  destruct H as [<- <-]. split; [|reflexivity].
  unfold scopeDepth, withSymbolTable. cbn [symbolTable].
  pose proof (depth_define (Symbols.functionSymbol name returnType parameters)
                (symbolTable tc)) as Hd.
  rewrite E in Hd. exact Hd.
Qed.

Lemma registerFunctions_errors stmts : forall errors tc,
  length errors <= length (fst (registerFunctions stmts errors tc)).
Proof.
  induction stmts as [|s stmts IH]; intros errors tc; [cbn; lia|].
  destruct s; cbn [registerFunctions]; try apply IH.
  destruct (Symbols.define _ _) as [[|] st].
  - apply IH.
  - etransitivity; [|apply IH]. rewrite length_app. lia.
Qed.

Lemma checkAllStatements_errors stmts : forall errors tc,
  length errors <= length (fst (checkAllStatements stmts errors tc)).
Proof.
  induction stmts as [|s stmts IH]; intros errors tc; [cbn; lia|].
  cbn [checkAllStatements]. destruct (checkStatement s tc) as [[u|w|] tc'];
    try apply IH.
  etransitivity; [|apply IH]. rewrite length_app. lia.
Qed.

Lemma checkAllStatements_atDepth stmts : forall tc d c tc',
  1 <= d -> atDepth d c tc ->
  checkAllStatements stmts [] tc = ([], tc') ->
  atDepth d c tc'.
Proof.
  induction stmts as [|s stmts IH]; intros tc d c tc' Hd H E.
  - injection E as <-. exact H.
  - cbn [checkAllStatements] in E.
    pose proof (balancedAt_checkStatement s d Hd c tc H) as Hs.
    destruct (checkStatement s tc) as [[u|w|] tc1]; [|..].
    + exact (IH tc1 d c tc' Hd Hs E).
    + exfalso. pose proof (checkAllStatements_errors stmts ([] ++ [what w]) tc1) as Hl.
      rewrite E in Hl. cbn in Hl. lia.
    + destruct Hs.
Qed.

(** X8.  A check that reports no error leaves the checker as it found
    it, as far as scopes go: the table has the scopes it had (for the
    checker of the driver, the global scope alone) and the function
    context is unchanged. *)
Theorem check_success_keeps_scopes (stmts : list Statement) (tc tc' : TypeChecker)
    (Hglobal : 1 <= scopeDepth tc)
    (Hok : check stmts tc = (Ok tt, tc')) :
  scopeDepth tc' = scopeDepth tc /\ functionContext tc' = functionContext tc.
Proof.
  unfold check in Hok.
  destruct (registerFunctions stmts [] tc) as [errors tc1] eqn:E1.
  destruct (checkAllStatements stmts errors tc1) as [errors' tc2] eqn:E2.
  destruct errors' as [|e errors']; [|discriminate Hok]. injection Hok as <-.
  assert (errors = []) as ->.
  { pose proof (checkAllStatements_errors stmts errors tc1) as Hl.
    rewrite E2 in Hl. destruct errors; [reflexivity|cbn in Hl; lia]. }
  pose proof (registerFunctions_atDepth stmts [] tc _ _ (conj eq_refl eq_refl)) as H1.
  rewrite E1 in H1. cbn [snd] in H1.
  exact (checkAllStatements_atDepth stmts tc1 _ _ tc2 Hglobal H1 E2).
Qed.

Lemma check_success_keeps_scopes_witness :
  let stmts := [FunctionDeclaration "f" INT [("a", INT)]
                  (BlockStatement [ReturnStatement (Some (IdentifierExpression "a"))])] in
  1 <= scopeDepth newTypeChecker
  /\ fst (check stmts newTypeChecker) = Ok tt
  /\ scopeDepth (snd (check stmts newTypeChecker)) = 1.
Proof.
  intros stmts.
  assert (H : 1 <= scopeDepth newTypeChecker) by (vm_compute; lia).
  split; [exact H|]. split; [vm_compute; reflexivity|].
  destruct (check stmts newTypeChecker) as [[[]|w|] tc'] eqn:E.
  - exact (proj1 (check_success_keeps_scopes stmts newTypeChecker tc' H E)).
  - exfalso. assert (Hf : fst (check stmts newTypeChecker) = Ok tt)
      by (vm_compute; reflexivity).
    rewrite E in Hf. discriminate Hf.
  - exfalso. assert (Hf : fst (check stmts newTypeChecker) = Ok tt)
      by (vm_compute; reflexivity).
    rewrite E in Hf. discriminate Hf.
Defined.

(** The first pass on a table with one scope. *)
Lemma registerFunctions_global stmts : forall errors tc (sc : gmap string Symbols.Symbol),
  symbolTable tc = Symbols.mkSymbolTable [sc] ->
  exists sc' : gmap string Symbols.Symbol,
    symbolTable (snd (registerFunctions stmts errors tc)) = Symbols.mkSymbolTable [sc']
    /\ forall n,
         sc' !! n = match sc !! n with
                    | Some sym => Some sym
                    | None =>
                        option_map (fun f => Symbols.functionSymbol n (fst f) (snd f))
                                   (firstFunction n stmts)
                    end.
Proof.
  induction stmts as [|s stmts IH]; intros errors tc sc Htable.
  - exists sc. split; [exact Htable|]. intros n. cbn. destruct (sc !! n); reflexivity.
  - destruct s as [| | | | | | |f rt ps b];
      cbn [registerFunctions firstFunction]; try (apply IH; exact Htable).
    rewrite Htable. change [sc] with ([] ++ [sc]). rewrite define_snoc.
    cbn [Symbols.name Symbols.functionSymbol app].
    destruct (sc !! f) as [old|] eqn:Hold.
    + destruct (IH (errors ++ ["Function '" +:+ f +:+ "' already defined"])
                  (withSymbolTable (fun _ => Symbols.mkSymbolTable [sc]) tc) sc
                  eq_refl) as (sc' & Hsc' & Hlook).
      exists sc'. split; [exact Hsc'|]. intros n. rewrite (Hlook n).
      destruct (sc !! n) eqn:Hn; [reflexivity|].
      destruct (String.eqb_spec f n) as [->|Hne]; [congruence|reflexivity].
    + destruct (IH errors
                  (withSymbolTable
                     (fun _ => Symbols.mkSymbolTable
                                 [<[f := Symbols.functionSymbol f rt ps]> sc]) tc)
                  (<[f := Symbols.functionSymbol f rt ps]> sc)
                  eq_refl) as (sc' & Hsc' & Hlook).
      exists sc'. split; [exact Hsc'|]. intros n. rewrite (Hlook n).
      destruct (String.eqb_spec f n) as [->|Hne].
      * rewrite lookup_insert_eq, Hold. reflexivity.
      * rewrite lookup_insert_ne by exact Hne. reflexivity.
Qed.

(** X9.  Functions can be used before their declaration: after the
    first pass of [check] on the checker of the driver, a name resolves
    exactly when a top-level function has it, and it resolves to the
    symbol of the first such declaration, with its return type and
    parameters. *)
Theorem functions_registered_first (stmts : list Statement) (n : string) :
  Symbols.resolve n (symbolTable (snd (registerFunctions stmts [] newTypeChecker)))
  = option_map (fun f => Symbols.functionSymbol n (fst f) (snd f))
               (firstFunction n stmts).
Proof.
  destruct (registerFunctions_global stmts [] newTypeChecker ∅ eq_refl)
    as (sc' & Hsc' & Hlook).
  rewrite Hsc'. change [sc'] with ([] ++ [sc']). rewrite resolve_snoc.
  rewrite (Hlook n), lookup_empty.
  destruct (firstFunction n stmts) as [[rt ps]|]; reflexivity.
Qed.

Lemma run_bind_Ok {S A B} (m : M S A) (f : A -> M S B) s a s' :
  m s = (Ok a, s') -> bind m f s = f a s'.
Proof. intros H. unfold bind. rewrite H. reflexivity. Qed.

Lemma run_bind_Throw {S A B} (m : M S A) (f : A -> M S B) s w s' :
  m s = (Throw w, s') -> bind m f s = (Throw w, s').
Proof. intros H. unfold bind. rewrite H. reflexivity. Qed.

(** An arithmetic result is never of the type [INT]. *)
Lemma checkBinaryTypes_arithmetic l op r tc :
  isArithmetic op = true ->
  match checkBinaryTypes l op r tc with
  | (Ok t, _) => In t [STRING_LITERAL; POINTER; FLOAT_LITERAL; INTEGER_LITERAL]
  | (Throw _, _) => True
  | (OutOfFuel, _) => False
  end.
Proof.
  intros Hop. unfold checkBinaryTypes. rewrite Hop.
  assert (Hshift : TokenType_eqb op LEFT_SHIFT || TokenType_eqb op RIGHT_SHIFT = false).
  { unfold isArithmetic in Hop. destruct op; try discriminate Hop; reflexivity. }
  rewrite Hshift.
  repeat match goal with
         | |- context [if ?b then _ else _] => destruct b
         end; cbn; tauto.
Qed.

(** X10.  No compound assignment to an [int] variable passes the
    checker: for a variable of type [int] that is not a pointer, the
    expression [x = x op e] that the parser builds for [x op= e] is
    rejected whatever [e] is, because the type of an arithmetic result
    is never [INT] and an assignment wants the very type of the
    variable. *)
Theorem compound_assignment_to_int_rejected
    (x : string) (sym : Symbols.Symbol) (op : TokenType) (e : Expression)
    (tc : TypeChecker)
    (Hx : Symbols.resolve x (symbolTable tc) = Some sym)
    (Hkind : Symbols.kind sym <> Symbols.FUNCTION)
    (Hint : symbolType sym = INT)
    (Hop : isArithmetic op = true) :
  exists w,
    checkExpression
      (AssignExpression x EQUAL (BinaryExpression (IdentifierExpression x) op e)) tc
    = (Throw w, tc).
Proof.
  assert (Hk : Symbols.SymbolKind_eqb (Symbols.kind sym) Symbols.FUNCTION = false)
    by (destruct (Symbols.kind sym); [reflexivity|congruence|reflexivity]).
  assert (Hres : resolveM x tc = (Ok (Some sym), tc))
    by (unfold resolveM, gets; rewrite Hx; reflexivity).
  cbn [checkExpression].
  rewrite (run_bind_Ok _ _ _ _ _ Hres), Hk.
  assert (Hleft : (let* symbol := resolveM x in
                   match symbol with
                   | Some sym0 =>
                       if Symbols.SymbolKind_eqb (Symbols.kind sym0) Symbols.FUNCTION
                       then throw ("'" +:+ x +:+
                                   "' is a function and cannot be used as a variable")
                       else ret (symbolType sym0)
                   | None => throw ("Undefined variable '" +:+ x +:+ "'")
                   end) tc = (Ok INT, tc)).
  { rewrite (run_bind_Ok _ _ _ _ _ Hres), Hk, Hint. reflexivity. }
  destruct (readsOnly_checkExpression e tc) as [Hs Ho].
  destruct (checkExpression e tc) as [[t|w|] tc1] eqn:He; cbn [fst snd] in *; subst tc1;
    [| |congruence].
  - pose proof (checkBinaryTypes_arithmetic INT op t tc Hop) as Hb.
    destruct (readsOnly_checkBinaryTypes INT op t tc) as [Hs' _].
    destruct (checkBinaryTypes INT op t tc) as [[t'|w|] tc1] eqn:Hbin;
      cbn [snd] in Hs'; subst tc1; [| |destruct Hb].
    + erewrite run_bind_Ok;
        [|erewrite run_bind_Ok; [|exact Hleft]; erewrite run_bind_Ok; [|exact He];
          exact Hbin].
      rewrite Hint. destruct Hb as [<-|[<-|[<-|[<-|[]]]]]; eexists; reflexivity.
    + erewrite run_bind_Throw;
        [|erewrite run_bind_Ok; [|exact Hleft]; erewrite run_bind_Ok; [|exact He];
          exact Hbin].
      eexists; reflexivity.
  - erewrite run_bind_Throw;
      [|erewrite run_bind_Ok; [|exact Hleft]; erewrite run_bind_Throw; [|exact He];
        reflexivity].
    eexists; reflexivity.
Qed.

Lemma compound_assignment_to_int_rejected_witness :
  let sym := Symbols.variableSymbol "x" INT false Symbols.VARIABLE in
  let tc := withSymbolTable (fun st => snd (Symbols.define sym st)) newTypeChecker in
  Symbols.resolve "x" (symbolTable tc) = Some sym
  /\ exists w,
       checkExpression
         (AssignExpression "x" EQUAL
            (BinaryExpression (IdentifierExpression "x") PLUS
               (LiteralExpression "5" INTEGER_LITERAL))) tc
       = (Throw w, tc).
Proof.
  intros sym tc.
  assert (Hx : Symbols.resolve "x" (symbolTable tc) = Some sym) by (vm_compute; reflexivity).
  split; [exact Hx|].
  apply (compound_assignment_to_int_rejected "x" sym PLUS
           (LiteralExpression "5" INTEGER_LITERAL) tc Hx);
    [discriminate|reflexivity|reflexivity].
Defined.

Lemma readsOnly_checkInitializer (t : TokenType) (isPtr : bool) (init : option Expression) :
  @readsOnly unit
            (match init with
             | Some e =>
                 let* initType := checkExpression e in
                 if negb (isCompatibleType t initType) then
                   throw ("Cannot initialize variable of type " +:+
                          tokenTypeToString (if isPtr then POINTER else t) +:+
                          " with value of type " +:+ tokenTypeToString initType)
                 else ret tt
             | None => ret tt
             end).
Proof.
  destruct init as [e|]; [|apply readsOnly_ret].
  apply readsOnly_bind; [apply readsOnly_checkExpression|]. intros initType. read_only.
Qed.

(** X11.  A declaration that passes the checker makes the variable
    visible: afterwards the name has the declared type as an expression
    ([POINTER] for a pointer), every other name resolves as before, and a
    second declaration of the name is rejected. *)
Theorem declared_variable_is_visible
    (t : TokenType) (isPtr : bool) (n : string) (init : option Expression)
    (tc tc' : TypeChecker)
    (Hglobal : 1 <= scopeDepth tc)
    (Hok : checkStatement (VariableDeclaration t isPtr n init) tc = (Ok tt, tc')) :
  checkExpression (IdentifierExpression n) tc' = (Ok (if isPtr then POINTER else t), tc')
  /\ (forall m, m <> n ->
        Symbols.resolve m (symbolTable tc') = Symbols.resolve m (symbolTable tc))
  /\ forall t2 isPtr2 init2,
       checkStatement (VariableDeclaration t2 isPtr2 n init2) tc'
       = (Throw ("Variable '" +:+ n +:+ "' already defined"), tc').
Proof.
  cbn [checkStatement] in Hok. unfold checkVariableDeclaration in Hok.
  unfold bind at 1, resolveM, gets in Hok.
  destruct (Symbols.resolve n (symbolTable tc)) as [old|] eqn:Hres; [discriminate Hok|].
  destruct (readsOnly_checkInitializer t isPtr init tc) as [Hs Ho].
  unfold bind in Hok.
  match type of Hok with
  | match ?x with _ => _ end = _ =>
      change (snd x = tc) in Hs; change (fst x <> OutOfFuel) in Ho;
      destruct x as [[[]|w|] tc1]
  end; cbn [fst snd] in *; [|discriminate Hok|discriminate Hok].
  subst tc1. unfold modify in Hok. injection Hok as <-.
  destruct (table_snoc (symbolTable tc) Hglobal) as (l & sc & Htable).
  rewrite Htable in Hres. rewrite resolve_snoc in Hres.
  destruct (sc !! n) as [sym|] eqn:Hsc; [discriminate Hres|].
  assert (Hres' : forall m,
            Symbols.resolve m
              (symbolTable (withSymbolTable
                 (fun st => snd (Symbols.define
                                   (Symbols.variableSymbol n t isPtr Symbols.VARIABLE) st))
                 tc))
            = if String.eqb m n
              then Some (Symbols.variableSymbol n t isPtr Symbols.VARIABLE)
              else Symbols.resolve m (symbolTable tc)).
  { intros m. unfold withSymbolTable. cbn [symbolTable]. rewrite Htable, define_snoc.
    cbn [Symbols.name Symbols.variableSymbol]. rewrite Hsc. cbn [snd].
    rewrite !resolve_snoc. destruct (String.eqb_spec m n) as [->|Hne].
    - rewrite lookup_insert_eq. reflexivity.
    - rewrite lookup_insert_ne by congruence. reflexivity. }
  split; [|split].
  - cbn [checkExpression]. unfold bind, resolveM, gets. rewrite Hres', String.eqb_refl.
    cbn. destruct isPtr; reflexivity.
  - intros m Hm. rewrite Hres'. destruct (String.eqb_spec m n); [contradiction|reflexivity].
  - intros t2 isPtr2 init2. cbn [checkStatement]. unfold checkVariableDeclaration.
    unfold bind at 1, resolveM, gets. rewrite Hres', String.eqb_refl. reflexivity.
Qed.

Lemma declared_variable_is_visible_witness :
  let tc' := withSymbolTable
               (fun st => snd (Symbols.define
                                 (Symbols.variableSymbol "x" FLOAT false Symbols.VARIABLE) st))
               newTypeChecker in
  checkStatement (VariableDeclaration FLOAT false "x"
                    (Some (LiteralExpression "1" INTEGER_LITERAL))) newTypeChecker
  = (Ok tt, tc')
  /\ checkExpression (IdentifierExpression "x") tc' = (Ok FLOAT, tc').
Proof.
  intros tc'.
  assert (H : checkStatement (VariableDeclaration FLOAT false "x"
                                (Some (LiteralExpression "1" INTEGER_LITERAL)))
                newTypeChecker = (Ok tt, tc')) by reflexivity.
  split; [exact H|].
  apply (declared_variable_is_visible FLOAT false "x"
           (Some (LiteralExpression "1" INTEGER_LITERAL)) newTypeChecker tc');
    [vm_compute; lia|exact H].
Defined.

End CheckerState.

(** ** The emitted code *)

Section Emission.

Implicit Types (g : CodeGenerator) (e : Expression) (s : Statement).

Lemma extends_refl g : extends g g.
Proof.
  split; [exists []; rewrite app_nil_r; reflexivity|].
  split; [lia|]. split; [lia|]. exists []. rewrite app_nil_r. reflexivity.
Qed.

Lemma extends_trans g1 g2 g3 : extends g1 g2 -> extends g2 g3 -> extends g1 g3.
Proof.
  intros ([c1 H1] & Ht1 & Hl1 & [w1 Hw1]) ([c2 H2] & Ht2 & Hl2 & [w2 Hw2]).
  split; [exists (c1 ++ c2); rewrite H2, H1, app_assoc; reflexivity|].
  split; [lia|]. split; [lia|].
  exists (w1 ++ w2). rewrite Hw2, Hw1, app_assoc. reflexivity.
Qed.

Lemma extends_emplace_back op a1 a2 res g : extends g (emplace_back op a1 a2 res g).
Proof.
  split; [eexists; reflexivity|]. split; [cbn; lia|]. split; [cbn; lia|].
  exists []. cbn. rewrite app_nil_r. reflexivity.
Qed.

Lemma extends_warn msg g : extends g (warn msg g).
Proof.
  split; [exists []; cbn; rewrite app_nil_r; reflexivity|].
  split; [cbn; lia|]. split; [cbn; lia|]. eexists. reflexivity.
Qed.

Lemma extends_generateTemp g : extends g (snd (generateTemp g)).
Proof.
  split; [exists []; cbn; rewrite app_nil_r; reflexivity|].
  split; [cbn; lia|]. split; [cbn; lia|]. exists []. cbn. rewrite app_nil_r. reflexivity.
Qed.

Lemma extends_generateLabel g : extends g (snd (generateLabel g)).
Proof.
  split; [exists []; cbn; rewrite app_nil_r; reflexivity|].
  split; [cbn; lia|]. split; [cbn; lia|]. exists []. cbn. rewrite app_nil_r. reflexivity.
Qed.

Lemma extends_fold {A} (f : CodeGenerator -> A -> CodeGenerator) (l : list A) :
  (forall g a, extends g (f g a)) -> forall g, extends g (fold_left f l g).
Proof.
  intros Hf. induction l as [|a l IH]; intros g; [apply extends_refl|].
  cbn [fold_left]. eapply extends_trans; [apply Hf|apply IH].
Qed.

(** One step of a chain of emissions. *)
Ltac emits :=
  repeat first
    [ apply extends_refl
    | assumption
    | match goal with
      | |- extends ?g (emplace_back _ _ _ _ ?g') =>
          apply (extends_trans g g'); [|apply extends_emplace_back]
      | |- extends ?g (warn _ ?g') =>
          apply (extends_trans g g'); [|apply extends_warn]
      | |- extends ?g (snd (generateTemp ?g')) =>
          apply (extends_trans g g'); [|apply extends_generateTemp]
      | |- extends ?g (snd (generateLabel ?g')) =>
          apply (extends_trans g g'); [|apply extends_generateLabel]
      | H : forall g, extends g (?f g) |- extends ?g (?f ?g') =>
          apply (extends_trans g g'); [|apply H]
      end ].

Lemma generateTemp_snd g : generateTemp g = (fst (generateTemp g), snd (generateTemp g)).
Proof. reflexivity. Qed.

Lemma extends_generateExpression e : forall g, extends g (generateExpression e g).
Proof.
  induction e as [l op r IHl IHr|op e IH|n|v t|callee args IH|l op r IHl IHr|n op v IH]
    using Expression_nested_ind; intros g; cbn [generateExpression].
  - assert (H : forall g', extends g g' ->
                  extends g (match op with
                             | PLUS => emplace_back ADD "a" "b" "c" g'
                             | _ => g'
                             end)) by (intros; destruct op; emits).
    clear H.
    cbv zeta. rewrite (generateTemp_snd (generateExpression l g)).
    rewrite (generateTemp_snd (generateExpression r _)).
    rewrite (generateTemp_snd (snd (generateTemp (generateExpression r _)))).
    destruct op; emits; apply IHr.
  - emits.
  - unfold generateIdentifier. rewrite (generateTemp_snd g). emits.
  - unfold generateLiteral. rewrite (generateTemp_snd g). emits.
  - match goal with
    | |- context [fold_left ?f args ([], g)] =>
        assert (Hargs : forall temps g0, extends g g0 ->
                  extends g (snd (fold_left f args (temps, g0))))
    end.
    { clear -IH. induction IH as [|a args Ha _ IHargs]; intros temps g0 H0; [exact H0|].
      cbn [fold_left]. cbv beta iota zeta.
      rewrite (generateTemp_snd (generateExpression a g0)). cbv beta iota.
      apply IHargs.
      apply (extends_trans g (generateExpression a g0)); [|apply extends_generateTemp].
      apply (extends_trans g g0); [exact H0|apply Ha]. }
    specialize (Hargs [] g (extends_refl g)).
    destruct (fold_left _ args ([], g)) as [argTemps g1]. cbn [snd] in Hargs.
    cbv zeta.
    match goal with
    | |- context [generateTemp ?x] => rewrite (generateTemp_snd x)
    end.
    emits.
    match goal with
    | |- extends g (fold_left ?f ?l ?x) =>
        apply (extends_trans g x); [|apply extends_fold; intros; apply extends_emplace_back]
    end.
    emits.
    match goal with
    | |- extends g (fold_left ?f ?l ?x) =>
        apply (extends_trans g x); [|apply extends_fold; intros; apply extends_emplace_back]
    end.
    exact Hargs.
  - emits.
  - emits.
Qed.

Lemma generateLabel_snd g : generateLabel g = (fst (generateLabel g), snd (generateLabel g)).
Proof. reflexivity. Qed.

Lemma extends_generateStatement s : forall g, extends g (generateStatement s g).
Proof.
  induction s as [stmts IH|e|cond t e IHt IHe|cond b IH|i cond inc b IHi IHb|v|t p n i
                  |n rt ps b IH] using Statement_nested_ind;
    intros g; cbn [generateStatement].
  - revert g. induction IH as [|s rest Hs _ IHrest]; intros g; [apply extends_refl|].
    eapply extends_trans; [apply Hs|apply IHrest].
  - apply extends_generateExpression.
  - rewrite (generateLabel_snd g). cbv beta iota zeta.
    rewrite (generateLabel_snd (snd (generateLabel g))). cbv beta iota zeta.
    pose proof extends_generateExpression cond as Hcond.
    destruct e as [s|]; emits.
  - rewrite (generateLabel_snd g). cbv beta iota zeta.
    rewrite (generateLabel_snd (snd (generateLabel g))). cbv beta iota zeta.
    pose proof extends_generateExpression cond as Hcond. emits.
  - rewrite (generateLabel_snd g). cbv beta iota zeta.
    rewrite (generateLabel_snd (snd (generateLabel g))). cbv beta iota zeta.
    destruct inc as [e|]; [pose proof extends_generateExpression e as Hinc|];
      (destruct cond as [c|]; [pose proof extends_generateExpression c as Hcond|]);
      (destruct i as [s|]); emits.
  - unfold generateReturnStatement.
    destruct v as [e|]; [pose proof extends_generateExpression e as He|]; emits.
  - unfold generateVariableDeclaration.
    destruct i as [e|]; [pose proof extends_generateExpression e as He|]; cbv zeta.
    + rewrite (generateTemp_snd (generateExpression e g)). emits.
    + emits.
  - cbv zeta. destruct (needsRet _); emits.
Qed.

(** X12.  The emitter only appends: whatever statements are lowered,
    the instructions and warnings emitted before stay where they are, in
    front of the new ones, and neither counter goes down. *)
Theorem generate_only_appends (statements : list Statement) (g : CodeGenerator) :
  (exists code, instructions (generate statements g) = instructions g ++ code)
  /\ tempVarCounter g <= tempVarCounter (generate statements g)
  /\ labelCounter g <= labelCounter (generate statements g)
  /\ (exists warnings, cerr (generate statements g) = cerr g ++ warnings).
Proof.
  unfold generate. apply (extends_fold (fun g stmt => generateStatement stmt g)).
  intros g0 s. apply extends_generateStatement.
Qed.

(** X13.  The code of a function is closed: it starts with the label of
    the function and its last instruction is a [RET], whether the body
    ends with a return statement or not. *)
Theorem function_code_is_closed
    (name : string) (returnType : TokenType) (parameters : list (string * TokenType))
    (body : Statement) (g : CodeGenerator) :
  exists (code : list Instruction) (last : Instruction),
    instructions (generateStatement (FunctionDeclaration name returnType parameters body) g)
    = instructions g ++ mkInstruction LABEL name "" "" :: code ++ [last]
    /\ opcode last = RET.
Proof.
  cbn [generateStatement]. cbv zeta.
  destruct (extends_generateStatement body (emplace_back LABEL name "" "" g))
    as [[code Hcode] _].
  cbn [emplace_back instructions] in Hcode.
  destruct (needsRet _) eqn:Hret.
  - exists code, (mkInstruction RET "" "" ""). split; [|reflexivity].
    cbn [emplace_back instructions]. rewrite Hcode, <- !app_assoc. reflexivity.
  - unfold needsRet in Hret. rewrite Hcode in Hret |- *.
    destruct code as [|c code _] using rev_ind.
    + rewrite app_nil_r, last_snoc in Hret. discriminate Hret.
    + rewrite app_assoc, last_snoc in Hret. exists code, c. split.
      * rewrite <- !app_assoc. reflexivity.
      * apply OpCode_eqb_eq. destruct (OpCode_eqb (opcode c) RET); [reflexivity|discriminate].
Qed.

End Emission.

Section PeepholeFacts.

Implicit Types (v : list Instruction) (a b : Instruction).

(** The scan, two instructions at a time. *)
Lemma single_scan_ind (P : list Instruction -> Prop) :
  P [] -> (forall a, P [a]) ->
  (forall a b rest, P rest -> P (b :: rest) -> P (a :: b :: rest)) ->
  forall v, P v.
Proof.
  intros Hnil Hone Hstep v.
  enough (H : P v /\ forall a, P (a :: v)) by exact (proj1 H).
  induction v as [|b rest [IH1 IH2]]; [split; [exact Hnil|exact Hone]|].
  split; [apply IH2|]. intros a. apply Hstep; [exact IH1|apply IH2].
Qed.

Lemma single_scan_step a b rest :
  single_scan (a :: b :: rest)
  = if OpCode_eqb (opcode a) LOAD && OpCode_eqb (opcode b) STORE
    then single_scan rest else a :: single_scan (b :: rest).
Proof. reflexivity. Qed.

Lemma single_scan_sublist v : sublist (single_scan v) v.
Proof.
  induction v as [|a|a b rest IH1 IH2] using single_scan_ind; [constructor|reflexivity|].
  rewrite single_scan_step.
  destruct (OpCode_eqb (opcode a) LOAD && OpCode_eqb (opcode b) STORE).
  - apply sublist_cons, sublist_cons, IH1.
  - apply sublist_skip, IH2.
Qed.

Lemma single_scan_keeps v :
  List.filter (fun i => negb (isMemoryAccess i)) (single_scan v)
  = List.filter (fun i => negb (isMemoryAccess i)) v.
Proof.
  induction v as [|a|a b rest IH1 IH2] using single_scan_ind; [reflexivity|reflexivity|].
  rewrite single_scan_step.
  destruct (OpCode_eqb (opcode a) LOAD && OpCode_eqb (opcode b) STORE) eqn:Hpair.
  - apply andb_true_iff in Hpair. destruct Hpair as [Ha Hb].
    assert (Hma : isMemoryAccess a = true) by (unfold isMemoryAccess; rewrite Ha; reflexivity).
    assert (Hmb : isMemoryAccess b = true)
      by (unfold isMemoryAccess; rewrite Hb; apply orb_true_r).
    rewrite IH1. cbn [List.filter]. rewrite Hma, Hmb. reflexivity.
  - cbn [List.filter]. rewrite IH2. reflexivity.
Qed.

Lemma single_scan_fixed v : has_load_store_pair v = false -> single_scan v = v.
Proof.
  induction v as [|a|a b rest IH1 IH2] using single_scan_ind; [reflexivity|reflexivity|].
  rewrite single_scan_step. cbn [has_load_store_pair]. intros H.
  apply orb_false_iff in H. destruct H as [Hpair Hrest].
  rewrite Hpair, (IH2 Hrest). reflexivity.
Qed.

(** X14.  The peephole pass only deletes, and only instructions that
    access memory: its result is a subsequence of the code it was given,
    every instruction that is neither a [LOAD] nor a [STORE] (labels,
    jumps, calls, arithmetic) is kept in its order, and code without a
    [LOAD] directly before a [STORE] is returned as it is. *)
Theorem optimize_only_deletes_memory_accesses (g : CodeGenerator) :
  exists g' : CodeGenerator,
    optimize g = Some g'
    /\ sublist (instructions g') (instructions g)
    /\ List.filter (fun i => negb (isMemoryAccess i)) (instructions g')
       = List.filter (fun i => negb (isMemoryAccess i)) (instructions g)
    /\ (has_load_store_pair (instructions g) = false -> g' = g).
Proof.
  rewrite optimize_scan. eexists. split; [reflexivity|]. cbn [instructions].
  split; [apply single_scan_sublist|]. split; [apply single_scan_keeps|].
  intros H. rewrite (single_scan_fixed _ H). destruct g; reflexivity.
Qed.

Lemma single_scan_load_store v a b :
  opcode a = LOAD -> opcode b = STORE -> single_scan (v ++ [a; b]) = single_scan v.
Proof.
  intros Ha Hb.
  induction v as [|c|c d rest IH1 IH2] using single_scan_ind.
  - cbn. rewrite Ha, Hb. reflexivity.
  - cbn. rewrite Ha, Hb. cbn. rewrite andb_false_r. reflexivity.
  - change ((c :: d :: rest) ++ [a; b]) with (c :: d :: (rest ++ [a; b])).
    rewrite (single_scan_step c d (rest ++ [a; b])), (single_scan_step c d rest).
    change (d :: (rest ++ [a; b])) with ((d :: rest) ++ [a; b]).
    destruct (OpCode_eqb (opcode c) LOAD && OpCode_eqb (opcode d) STORE).
    + exact IH1.
    + rewrite IH2. reflexivity.
Qed.

(** X15.  A declaration initialised from a variable is optimised away:
    the lowering of [T x = y;] is a [LOAD] of [y] followed by a [STORE]
    into [x], and the peephole pass deletes the two, wherever the
    declaration stands; the optimised code is the optimised code of what
    was emitted before it. *)
Theorem declaration_from_variable_is_deleted
    (t : TokenType) (isPointer : bool) (x y : string) (g : CodeGenerator) :
  let g' := generateStatement
              (VariableDeclaration t isPointer x (Some (IdentifierExpression y))) g in
  (exists t1 t2,
     instructions g' = instructions g
                       ++ [mkInstruction LOAD y "" t1; mkInstruction STORE t2 "" x])
  /\ option_map instructions (optimize g') = option_map instructions (optimize g).
Proof.
  intros g'.
  assert (Hcode : instructions g'
                  = instructions g
                    ++ [mkInstruction LOAD y "" ("t" +:+ to_string (S (tempVarCounter g)));
                        mkInstruction STORE ("t" +:+ to_string (S (S (tempVarCounter g))))
                          "" x]).
  { subst g'. cbn. rewrite <- app_assoc. reflexivity. }
  split; [eexists _, _; exact Hcode|].
  rewrite !optimize_scan. cbn [option_map instructions]. f_equal.
  rewrite Hcode. apply single_scan_load_store; reflexivity.
Qed.

End PeepholeFacts.

(** ** The temporaries of the emitted code *)

Section Temporaries.

Implicit Types (g : CodeGenerator) (e : Expression).

Lemma to_string_inj (a b : nat) : to_string a = to_string b -> a = b.
Proof.
  unfold to_string. intros H. apply Unsigned.to_uint_inj.
  assert (Hnz : forall n, Nat.to_uint n <> Nil).
  { intros n Hn. pose proof (Unsigned.of_to n) as Hof. rewrite Hn in Hof.
    cbn in Hof. subst n. discriminate Hn. }
  pose proof (NilZero.usu _ (Hnz a)) as Ha. pose proof (NilZero.usu _ (Hnz b)) as Hb.
  rewrite H in Ha. rewrite Ha in Hb. injection Hb as Hb. exact Hb.
Qed.

Lemma temporary_inj (a b : nat) : temporary a = temporary b -> a = b.
Proof. unfold temporary. intros [= H]. apply to_string_inj, H. Qed.

(** The code of an expression that leaves a value ends with the
    instruction that writes the temporary of the current number. *)
Lemma value_instruction e g :
  leavesValue e = true ->
  exists code value,
    instructions (generateExpression e g) = instructions g ++ code ++ [value]
    /\ result value = temporary (tempVarCounter (generateExpression e g)).
Proof.
  intros Hvalue.
  assert (Hlast : forall g0 op a1 a2 res,
            extends g g0 ->
            exists code,
              instructions (emplace_back op a1 a2 res g0)
              = instructions g ++ code ++ [mkInstruction op a1 a2 res]).
  { intros g0 op a1 a2 res [[code Hcode] _]. exists code.
    cbn [emplace_back instructions]. rewrite Hcode, app_assoc. reflexivity. }
  destruct e as [l op r|op e|n|v t|callee args|l op r|n op v]; try discriminate Hvalue.
  - cbn [leavesValue] in Hvalue. cbn [generateExpression]. cbv zeta.
    rewrite (generateTemp_snd (generateExpression l g)).
    rewrite (generateTemp_snd (generateExpression r _)).
    rewrite (generateTemp_snd (snd (generateTemp (generateExpression r _)))).
    cbv beta iota.
    match goal with
    | |- context [emplace_back ADD ?a ?b ?c ?g0] =>
        assert (Hg0 : extends g g0)
          by (apply (extends_trans g (snd (generateTemp (generateExpression r
                       (snd (generateTemp (generateExpression l g)))))));
              [apply (extends_trans g (generateExpression r
                        (snd (generateTemp (generateExpression l g)))));
               [apply (extends_trans g (snd (generateTemp (generateExpression l g))));
                [apply (extends_trans g (generateExpression l g));
                 [apply extends_generateExpression|apply extends_generateTemp]
                |apply extends_generateExpression]
               |apply extends_generateTemp]
              |apply extends_generateTemp])
    end.
    destruct op; try discriminate Hvalue;
      match goal with
      | |- context [emplace_back ?o ?a ?b ?c ?g0] =>
          destruct (Hlast g0 o a b c Hg0) as [code Hcode];
          exists code, (mkInstruction o a b c); split; [exact Hcode|reflexivity]
      end.
  - cbn [generateExpression]. unfold generateIdentifier.
    rewrite (generateTemp_snd g). cbv beta iota.
    match goal with
    | |- context [emplace_back ?o ?a ?b ?c ?g0] =>
        destruct (Hlast g0 o a b c (extends_generateTemp g)) as [code Hcode];
        exists code, (mkInstruction o a b c); split; [exact Hcode|reflexivity]
    end.
  - cbn [generateExpression]. unfold generateLiteral.
    rewrite (generateTemp_snd g). cbv beta iota.
    match goal with
    | |- context [emplace_back ?o ?a ?b ?c ?g0] =>
        destruct (Hlast g0 o a b c (extends_generateTemp g)) as [code Hcode];
        exists code, (mkInstruction o a b c); split; [exact Hcode|reflexivity]
    end.
  - cbn [generateExpression].
    match goal with
    | |- context [fold_left ?f args ([], g)] =>
        assert (Hargs : forall temps g0, extends g g0 ->
                  extends g (snd (fold_left f args (temps, g0))))
    end.
    { clear Hvalue. induction args as [|a args IHargs]; intros temps g0 H0; [exact H0|].
      cbn [fold_left]. cbv beta iota zeta.
      rewrite (generateTemp_snd (generateExpression a g0)). cbv beta iota.
      apply IHargs.
      apply (extends_trans g (generateExpression a g0)); [|apply extends_generateTemp].
      apply (extends_trans g g0); [exact H0|apply extends_generateExpression]. }
    specialize (Hargs [] g (extends_refl g)).
    destruct (fold_left _ args ([], g)) as [argTemps g1]. cbn [snd] in Hargs.
    cbv zeta.
    match goal with
    | |- context [generateTemp ?x] =>
        rewrite (generateTemp_snd x); cbv beta iota;
        assert (Hx : extends g (snd (generateTemp x)))
    end.
    { eapply extends_trans; [|apply extends_generateTemp].
      eapply extends_trans; [|apply extends_fold; intros; apply extends_emplace_back].
      eapply extends_trans; [|apply extends_emplace_back].
      eapply extends_trans; [|apply extends_fold; intros; apply extends_emplace_back].
      exact Hargs. }
    match goal with
    | |- context [emplace_back ?o ?a ?b ?c ?g0] =>
        destruct (Hlast g0 o a b c Hx) as [code Hcode];
        exists code, (mkInstruction o a b c); split; [exact Hcode|reflexivity]
    end.
Qed.

(** X16.  The value of an initialiser never reaches the variable.  For
    an initialiser that is a literal, a variable, a call or a binary
    expression with an operator the emitter supports, the code of the
    declaration ends with the instruction that writes the value into the
    temporary of the current number, followed by a [STORE] into the
    variable that reads the temporary of the next number, which is a
    different name. *)
Theorem initializer_value_is_not_stored
    (t : TokenType) (isPointer : bool) (x : string) (e : Expression) (g : CodeGenerator)
    (Hvalue : leavesValue e = true) :
  exists (code : list Instruction) (value store : Instruction),
    instructions (generateStatement (VariableDeclaration t isPointer x (Some e)) g)
    = instructions g ++ code ++ [value; store]
    /\ result value = temporary (tempVarCounter (generateExpression e g))
    /\ store = mkInstruction STORE
                 (temporary (S (tempVarCounter (generateExpression e g)))) "" x
    /\ arg1 store <> result value.
Proof.
  destruct (value_instruction e g Hvalue) as (code & value & Hcode & Hresult).
  exists code, value, (mkInstruction STORE
                         (temporary (S (tempVarCounter (generateExpression e g)))) "" x).
  split; [|split; [exact Hresult|split; [reflexivity|]]].
  - cbn [generateStatement]. unfold generateVariableDeclaration.
    rewrite (generateTemp_snd (generateExpression e g)). cbv beta iota.
    cbn [emplace_back instructions generateTemp snd fst]. rewrite Hcode.
    rewrite <- !app_assoc. reflexivity.
  - rewrite Hresult. cbn [arg1]. intros H. apply temporary_inj in H. lia.
Qed.

Lemma initializer_value_is_not_stored_witness :
  let decl := VariableDeclaration INT false "x" (Some (CallExpression "f" [])) in
  leavesValue (CallExpression "f" []) = true
  /\ exists code value store,
       instructions (generateStatement decl newCodeGenerator)
       = instructions newCodeGenerator ++ code ++ [value; store]
       /\ arg1 store <> result value.
Proof.
  intros decl.
  assert (H : leavesValue (CallExpression "f" []) = true) by reflexivity.
  split; [exact H|].
  destruct (initializer_value_is_not_stored INT false "x" _ newCodeGenerator H)
    as (code & value & store & Hcode & _ & _ & Hne).
  exists code, value, store. split; [exact Hcode|exact Hne].
Defined.

(** X17.  The operands of a binary instruction are not the values of
    the operands.  For a supported operator and operands that leave a
    value, the code of the left operand ends by writing the temporary of
    the current number, and so does the code of the right operand; the
    instruction of the operator comes last and reads the temporaries of
    the next numbers, two names that differ from the ones written. *)
Theorem binary_operands_are_fresh_temporaries
    (l r : Expression) (op : TokenType) (g : CodeGenerator)
    (Hop : loweredOperator op = true)
    (Hl : leavesValue l = true) (Hr : leavesValue r = true) :
  let gl := generateExpression l g in
  let gr := generateExpression r (snd (generateTemp gl)) in
  exists (left_ right_ operation : Instruction),
    last (instructions gl) = Some left_
    /\ result left_ = temporary (tempVarCounter gl)
    /\ last (instructions gr) = Some right_
    /\ result right_ = temporary (tempVarCounter gr)
    /\ last (instructions (generateExpression (BinaryExpression l op r) g)) = Some operation
    /\ arg1 operation = temporary (S (tempVarCounter gl))
    /\ arg2 operation = temporary (S (tempVarCounter gr))
    /\ arg1 operation <> result left_
    /\ arg2 operation <> result right_.
Proof.
  intros gl gr.
  destruct (value_instruction l g Hl) as (codel & left_ & Hcodel & Hresl).
  destruct (value_instruction r (snd (generateTemp gl)) Hr) as (coder & right_ & Hcoder & Hresr).
  fold gl in Hcodel, Hresl. fold gr in Hcoder, Hresr.
  assert (Hlastl : last (instructions gl) = Some left_)
    by (rewrite Hcodel, app_assoc; apply last_snoc).
  assert (Hlastr : last (instructions gr) = Some right_)
    by (rewrite Hcoder, app_assoc; apply last_snoc).
  assert (Hop' : exists o,
            generateExpression (BinaryExpression l op r) g
            = emplace_back o (temporary (S (tempVarCounter gl)))
                (temporary (S (tempVarCounter gr)))
                (temporary (S (S (tempVarCounter gr))))
                (snd (generateTemp (snd (generateTemp gr))))).
  { cbn [generateExpression]. cbv zeta. fold gl.
    rewrite (generateTemp_snd gl). cbv beta iota. fold gr.
    rewrite (generateTemp_snd gr). cbv beta iota.
    rewrite (generateTemp_snd (snd (generateTemp gr))). cbv beta iota.
    destruct op; try discriminate Hop; eexists; reflexivity. }
  destruct Hop' as [o Ho].
  exists left_, right_, (mkInstruction o (temporary (S (tempVarCounter gl)))
                           (temporary (S (tempVarCounter gr)))
                           (temporary (S (S (tempVarCounter gr))))).
  split; [exact Hlastl|]. split; [exact Hresl|]. split; [exact Hlastr|].
  split; [exact Hresr|]. split; [rewrite Ho; cbn [emplace_back instructions]; apply last_snoc|].
  split; [reflexivity|]. split; [reflexivity|]. cbn [arg1 arg2]. split.
  - rewrite Hresl. intros H. apply temporary_inj in H. lia.
  - rewrite Hresr. intros H. apply temporary_inj in H. lia.
Qed.

Lemma binary_operands_are_fresh_temporaries_witness :
  let a := IdentifierExpression "a" in
  let b := IdentifierExpression "b" in
  loweredOperator PLUS = true
  /\ exists left_ operation,
       last (instructions (generateExpression a newCodeGenerator)) = Some left_
       /\ last (instructions (generateExpression (BinaryExpression a PLUS b)
                                newCodeGenerator)) = Some operation
       /\ arg1 operation <> result left_.
Proof.
  intros a b.
  assert (H : loweredOperator PLUS = true) by reflexivity.
  split; [exact H|].
  destruct (binary_operands_are_fresh_temporaries a b PLUS newCodeGenerator H
              eq_refl eq_refl)
    as (left_ & right_ & operation & Hl & _ & _ & _ & Ho & _ & _ & Hne & _).
  exists left_, operation. split; [exact Hl|]. split; [exact Ho|exact Hne].
Defined.

End Temporaries.

(** ** The results of the lexer *)

Section LexerMessages.

Import Lex.

Lemma raises_ret {A} (a : A) E : raises (ret a) E.
Proof. intros lx w lx'. discriminate. Qed.

Lemma raises_gets {A} (g : Lexer -> A) E : raises (gets g) E.
Proof. intros lx w lx'. discriminate. Qed.

Lemma raises_get E : raises (@get Lexer) E.
Proof. intros lx w lx'. discriminate. Qed.

Lemma raises_outOfFuel {A} E : raises (@outOfFuel Lexer A) E.
Proof. intros lx w lx'. discriminate. Qed.

Lemma raises_advance E : raises advance E.
Proof. intros lx w lx'. discriminate. Qed.

Lemma raises_throw {A} w (E : string -> Prop) : E w -> raises (@throw Lexer A w) E.
Proof. intros H lx w' lx' [= <- _]. exact H. Qed.

Lemma raises_bind {A B} (m : LX A) (f : A -> LX B) E :
  raises m E -> (forall a, raises (f a) E) -> raises (bind m f) E.
Proof.
  intros Hm Hf lx w lx'. unfold bind.
  destruct (m lx) as [[a|w1|] lx1] eqn:Em; [apply Hf| |discriminate].
  intros [= <- <-]. exact (Hm _ _ _ Em).
Qed.

Ltac silent_step :=
  first
    [ apply raises_ret
    | apply raises_gets
    | apply raises_get
    | apply raises_outOfFuel
    | apply raises_advance
    | assumption
    | lazymatch goal with
      | |- raises (bind _ _) _ => apply raises_bind; [|intros ?]
      | |- raises (if ?b then _ else _) _ => destruct b
      | |- raises (match ?o with Some _ => _ | None => _ end) _ => destruct o
      | |- raises (let (_, _) := ?x in _) _ => destruct x
      | |- raises (token _ _) _ => unfold token
      | |- raises peek _ => unfold peek
      | |- raises (match_ _) _ => unfold match_
      end ].

Ltac silent := repeat silent_step.

Lemma raises_skipWhile E cond f : raises (skipWhile f cond) E.
Proof. induction f as [|f IH]; cbn [skipWhile]; silent. Qed.

Lemma raises_readWhile E cond f : forall lexeme, raises (readWhile f cond lexeme) E.
Proof. induction f as [|f IH]; intros lexeme; cbn [readWhile]; silent; apply IH. Qed.

Lemma raises_skipBlockComment E f : raises (skipBlockComment f) E.
Proof. induction f as [|f IH]; cbn [skipBlockComment]; silent. Qed.

Lemma raises_skipComment E f : raises (skipComment f) E.
Proof.
  unfold skipComment. silent; first [apply raises_skipWhile|apply raises_skipBlockComment].
Qed.

Lemma raises_numberLoop E f : forall isFloat lexeme, raises (numberLoop f isFloat lexeme) E.
Proof.
  induction f as [|f IH]; intros isFloat lexeme; cbn [numberLoop]; silent; apply IH.
Qed.

Lemma raises_stringLoop E f : forall lexeme, raises (stringLoop f lexeme) E.
Proof. induction f as [|f IH]; intros lexeme; cbn [stringLoop]; silent; apply IH. Qed.

Lemma what_unexpected_character (c : ascii) :
  what ("Unexpected character: " +:+ String c "")
  = "Unexpected character: " +:+ (if Ascii.eqb c NUL then "" else String c "").
Proof. reflexivity. Qed.

Lemma lexicalError_unexpected_character (c : ascii) :
  lexicalError (what ("Unexpected character: " +:+ String c "")).
Proof.
  rewrite what_unexpected_character. unfold lexicalError.
  destruct (Ascii.eqb c NUL) eqn:E.
  - right. right. left. reflexivity.
  - right. right. right. exists c. split; [|reflexivity].
    intros ->. discriminate E.
Qed.

(** A message of the lexer is a C string as it stands. *)
Lemma lexicalError_what w : lexicalError w -> what w = w.
Proof.
  intros [->|[->|[->|(c & Hc & ->)]]]; try reflexivity.
  change (what ("Unexpected character: " +:+ String c ""))
    with ("Unexpected character: " +:+ (if Ascii.eqb c NUL then "" else String c "")).
  destruct (Ascii.eqb_spec c NUL) as [->|_]; [contradiction|reflexivity].
Qed.

Lemma raises_getNextTokenFuel f : raises (getNextTokenFuel f) lexicalError.
Proof.
  induction f as [|f IH]; cbn [getNextTokenFuel];
    unfold skipWhitespace, identifier, number, preprocessorDirective, punctuation,
      string_, character;
    repeat first
      [ apply raises_skipWhile | apply raises_readWhile | apply raises_skipComment
      | apply raises_numberLoop | apply raises_stringLoop
      | apply raises_throw;
        first [apply lexicalError_unexpected_character | unfold lexicalError; eauto]
      | silent_step ].
Qed.

(** X18.  The lexer knows three errors and each of them makes
    progress: an exception that leaves [getNextToken] carries, as
    [what()] hands it out, the message of an unterminated string, of an
    invalid character literal or of an unexpected character, which is
    [Unexpected character: ] followed by the character, and by nothing
    when the character is the NUL byte, where the C string ends; the
    lexer has then consumed at least one character, so that calling it
    again and again reaches the end of the source. *)
Theorem lexical_errors_are_three (lx lx' : Lexer) (w : string)
    (Hthrow : getNextToken lx = (Throw w, lx')) :
  lexicalError w /\ what w = w /\ remaining lx' < remaining lx.
Proof.
  pose proof (raises_getNextTokenFuel _ lx w lx' Hthrow) as Hw.
  split; [|split].
  - exact Hw.
  - exact (lexicalError_what w Hw).
  - pose proof (scans_getNextToken lx) as H. unfold scans in H.
    rewrite Hthrow in H. apply H.
Qed.

Lemma lexical_errors_are_three_witness :
  getNextToken (mkLexer "x = @;" 4 1 5)
  = (Throw "Unexpected character: @", mkLexer "x = @;" 5 1 6)
  /\ lexicalError "Unexpected character: @".
Proof.
  assert (H : getNextToken (mkLexer "x = @;" 4 1 5)
              = (Throw "Unexpected character: @", mkLexer "x = @;" 5 1 6))
    by (vm_compute; reflexivity).
  split; [exact H|]. exact (proj1 (lexical_errors_are_three _ _ _ H)).
Defined.

(** The NUL byte is an unexpected character whose message shows no
    character: the text of the exception ends where the byte stands. *)
Lemma unexpected_NUL_byte :
  getNextToken (newLexer (String NUL ""))
  = (Throw "Unexpected character: ", mkLexer (String NUL "") 1 1 2)
  /\ String.length "Unexpected character: " = 22.
Proof. split; vm_compute; reflexivity. Qed.

End LexerMessages.

Section LexerTokenKinds.

Import Lex.

Lemma keywords_kinds word t :
  keywords !! word = Some t -> t <> IDENTIFIER /\ t <> END_OF_FILE.
Proof.
  unfold keywords. intros H.
  repeat (apply lookup_insert_Some in H;
          destruct H as [[_ H]|[_ H]]; [subst t; split; discriminate|]).
  rewrite lookup_empty in H. discriminate H.
Qed.

Lemma returns_identifier_word f : returns (identifier f) wordToken.
Proof.
  unfold identifier. apply returns_bind. intros word.
  destruct (keywords !! word) as [t|] eqn:E; apply returns_token; intros ln;
    unfold wordToken; cbn [type lexeme].
  - destruct (keywords_kinds _ _ E) as [H1 H2]. split; [exact H2|]. intros ->. congruence.
  - split; [discriminate|]. intros _. exact E.
Qed.

Ltac words :=
  repeat first
    [ apply returns_identifier_word
    | apply returns_throw
    | apply returns_outOfFuel
    | apply returns_token; intros ?; split; [discriminate|intros ?; discriminate]
    | lazymatch goal with
      | |- returns (bind _ _) _ => apply returns_bind; intros ?
      | |- returns (if ?b then _ else _) _ => destruct b
      | |- returns (token (if ?b then _ else _) _) _ => destruct b
      | |- returns (let (_, _) := ?x in _) _ => destruct x
      end ].

Lemma returns_number_word f : returns (number f) wordToken.
Proof. unfold number. words. Qed.

Lemma returns_preprocessorDirective_word f : returns (preprocessorDirective f) wordToken.
Proof. unfold preprocessorDirective. words. Qed.

Lemma returns_punctuation_word f c : returns (punctuation f c) wordToken.
Proof. unfold punctuation, string_, character. words. Qed.

Lemma lands_bind {A B} (m : LX A) (f : A -> LX B) Q :
  (forall a, lands (f a) Q) -> lands (bind m f) Q.
Proof.
  intros Hf lx b lx'. unfold bind. destruct (m lx) as [[a|w|] lx1]; [|discriminate..].
  apply Hf.
Qed.

Lemma lands_get_bind {B} (f : Lexer -> LX B) (Q : B -> Lexer -> Prop) :
  (forall lx b lx', f lx lx = (Ok b, lx') -> Q b lx') -> lands (bind get f) Q.
Proof. intros H lx b lx' E. exact (H lx b lx' E). Qed.

(** The end marker is returned at the end of the source only, with the
    empty lexeme; every other token is made from characters. *)
Lemma lands_getNextTokenFuel f :
  lands (getNextTokenFuel f)
        (fun t lx' => (atEnd lx' /\ t = mkToken END_OF_FILE "" (line lx')) \/ wordToken t).
Proof.
  induction f as [|f IH]; cbn [getNextTokenFuel]; apply lands_bind; intros [];
    apply lands_get_bind; intros lx t lx';
    (destruct (String.length (source lx) <=? position lx)%nat eqn:Hend;
     [intros [= <- <-]; left; split; [apply Nat.leb_le, Hend|reflexivity]|]);
    cbv zeta; (destruct (_ && _ && _); [|]).
  - discriminate.
  - destruct (Ascii.eqb _ _); [intros E; right; exact (returns_preprocessorDirective_word _ _ _ _ E)|].
    destruct (_ || _); [intros E; right; exact (returns_identifier_word _ _ _ _ E)|].
    destruct (isdigit _); [intros E; right; exact (returns_number_word _ _ _ _ E)|].
    intros E. right. revert E. apply returns_bind. intros c.
    apply returns_punctuation_word.
  - intros E. exact (lands_bind _ _ _ (fun _ => IH) lx t lx' E).
  - destruct (Ascii.eqb _ _); [intros E; right; exact (returns_preprocessorDirective_word _ _ _ _ E)|].
    destruct (_ || _); [intros E; right; exact (returns_identifier_word _ _ _ _ E)|].
    destruct (isdigit _); [intros E; right; exact (returns_number_word _ _ _ _ E)|].
    intros E. right. revert E. apply returns_bind. intros c.
    apply returns_punctuation_word.
Qed.

(** At the end of the source the lexer returns the end marker and stays
    where it is. *)
Lemma getNextToken_atEnd lx :
  atEnd lx -> getNextToken lx = (Ok (mkToken END_OF_FILE "" (line lx)), lx).
Proof.
  unfold atEnd. intros H. apply Nat.leb_le in H.
  unfold getNextToken. cbn [getNextTokenFuel].
  unfold skipWhitespace. cbn [skipWhile]. unfold bind at 1, peek, gets, peekAt.
  unfold bind at 1. rewrite H. cbn [isspace]. 
  change (isspace NUL) with false. cbv iota. unfold ret, bind, get. rewrite H. reflexivity.
Qed.

(** X19.  The end of the source is final: a call of [getNextToken] that
    returns [END_OF_FILE] returns it with the empty lexeme and with the
    lexer at the end of its source, and every later call returns the same
    token and leaves the lexer as it is. *)
Theorem end_of_file_is_final (lx lx' : Lexer) (t : Token)
    (Hcall : getNextToken lx = (Ok t, lx'))
    (Heof : type t = END_OF_FILE) :
  lexeme t = "" /\ atEnd lx' /\ getNextToken lx' = (Ok t, lx').
Proof.
  destruct (lands_getNextTokenFuel _ lx t lx' Hcall) as [[Hend ->]|[Hword _]];
    [|congruence].
  split; [reflexivity|]. split; [exact Hend|]. apply getNextToken_atEnd, Hend.
Qed.

Lemma end_of_file_is_final_witness :
  getNextToken (mkLexer "x  " 1 1 2) = (Ok (mkToken END_OF_FILE "" 1), mkLexer "x  " 3 1 4)
  /\ getNextToken (mkLexer "x  " 3 1 4) = (Ok (mkToken END_OF_FILE "" 1), mkLexer "x  " 3 1 4).
Proof.
  assert (H : getNextToken (mkLexer "x  " 1 1 2)
              = (Ok (mkToken END_OF_FILE "" 1), mkLexer "x  " 3 1 4))
    by (vm_compute; reflexivity).
  split; [exact H|]. exact (proj2 (proj2 (end_of_file_is_final _ _ _ H eq_refl))).
Defined.

Lemma returns_getNextToken_kinds lx t lx' :
  getNextToken lx = (Ok t, lx') ->
  (type t = END_OF_FILE -> lexeme t = "")
  /\ (type t = IDENTIFIER -> keywords !! lexeme t = None).
Proof.
  intros E. destruct (lands_getNextTokenFuel _ lx t lx' E) as [[_ ->]|[H1 H2]].
  - split; [reflexivity|discriminate].
  - split; [congruence|exact H2].
Qed.

Lemma tokenizeFuel_results fuel : forall lx results,
  tokenizeFuel fuel lx = Some results ->
  length results <= S (remaining lx)
  /\ forall t, In (Tok t) results ->
       (type t = END_OF_FILE -> lexeme t = "")
       /\ (type t = IDENTIFIER -> keywords !! lexeme t = None).
Proof.
  induction fuel as [|fuel IH]; intros lx results; cbn [tokenizeFuel]; [discriminate|].
  pose proof (scans_getNextToken lx) as Hscan. unfold scans in Hscan.
  pose proof (returns_getNextToken_kinds lx) as Hkinds.
  destruct (getNextToken lx) as [[t|w|] lx']; [| |discriminate].
  - specialize (Hkinds t lx' eq_refl).
    destruct (TokenType_eqb (type t) END_OF_FILE) eqn:Heof.
    + intros [= <-]. split; [cbn; lia|]. intros t' [[= <-]|[]]. exact Hkinds.
    + destruct (tokenizeFuel fuel lx') as [rest|] eqn:E; [|discriminate].
      intros [= <-]. destruct (IH _ _ E) as [Hlen Hall].
      destruct Hscan as [_ [Ht|Hlt]]; [rewrite Ht in Heof; discriminate Heof|].
      split; [cbn [length]; lia|].
      intros t' [[= <-]|Hin]; [exact Hkinds|apply Hall, Hin].
  - destruct (tokenizeFuel fuel lx') as [rest|] eqn:E; [|discriminate].
    intros [= <-]. destruct (IH _ _ E) as [Hlen Hall]. destruct Hscan as [_ Hlt].
    split; [cbn [length]; lia|].
    intros t' [Hin|Hin]; [discriminate Hin|apply Hall, Hin].
Qed.

(** X20.  Lexing ends on every source text, with one result per call of
    [getNextToken]: the results are finitely many, at most one for each
    character of the source, followed by the one [END_OF_FILE] token,
    whose lexeme is empty; and a token of type [IDENTIFIER] never spells
    a keyword. *)
Theorem lexing_ends_with_end_of_file (src : string) :
  exists (pre : list Lexed) (eof : Token),
    tokenize src = Some (pre ++ [Tok eof])
    /\ type eof = END_OF_FILE /\ lexeme eof = ""
    /\ Forall noEOF pre
    /\ length pre <= String.length src
    /\ forall t, In (Tok t) pre -> type t = IDENTIFIER -> keywords !! lexeme t = None.
Proof.
  destruct (tokenize_tokens src) as (pre & eof & E & Hty & Hpre & _).
  exists pre, eof. split; [exact E|]. split; [exact Hty|].
  destruct (tokenizeFuel_results _ _ _ E) as [Hlen Hall].
  split; [apply (Hall eof); [apply in_or_app; right; left; reflexivity|exact Hty]|].
  split; [exact Hpre|]. split.
  - rewrite length_app in Hlen. cbn in Hlen. unfold remaining in Hlen. cbn in Hlen. lia.
  - intros t Hin. apply (Hall t). apply in_or_app. left. exact Hin.
Qed.

End LexerTokenKinds.

(** ** From characters to tokens *)

Section Reading.

Import Lex.

Lemma string_app_nil_r (s : string) : s +:+ "" = s.
Proof.
  induction s as [|c s IH]; [reflexivity|].
  change (String c (s +:+ "") = String c s). f_equal. exact IH.
Qed.

Lemma string_app_assoc (a b c : string) : (a +:+ b) +:+ c = a +:+ (b +:+ c).
Proof.
  induction a as [|x a IH]; [reflexivity|].
  change (String x ((a +:+ b) +:+ c) = String x (a +:+ (b +:+ c))). f_equal. exact IH.
Qed.

Lemma get_length_None (s : string) : forall n, String.length s <= n -> String.get n s = None.
Proof.
  induction s as [|c s IH]; intros n H; [reflexivity|].
  destruct n as [|n]; [cbn in H; lia|]. cbn. apply IH. cbn in H. lia.
Qed.

Lemma get_lt_length (s : string) : forall n, n < String.length s -> String.get n s <> None.
Proof.
  induction s as [|c s IH]; intros n H; [cbn in H; lia|].
  destruct n as [|n]; [discriminate|]. cbn. apply IH. cbn in H. lia.
Qed.

Lemma reads_remaining lx s : reads lx s -> remaining lx = String.length s.
Proof.
  intros H. unfold remaining.
  destruct (Nat.lt_ge_cases (String.length (source lx)) (position lx + String.length s))
    as [Hlt|Hge].
  - destruct (Nat.lt_ge_cases (String.length (source lx)) (position lx)) as [Hlt'|Hge'].
    + destruct s as [|c s]; [cbn; lia|]. specialize (H 0).
      rewrite get_length_None in H by lia. discriminate H.
    + exfalso. specialize (H (String.length (source lx) - position lx)).
      rewrite get_length_None in H by lia. symmetry in H. revert H.
      apply get_lt_length. lia.
  - destruct (Nat.eq_dec (String.length (source lx)) (position lx + String.length s))
      as [->|Hne]; [lia|].
    exfalso. specialize (H (String.length s)).
    rewrite (get_length_None s) in H by lia. revert H. apply get_lt_length. lia.
Qed.

Lemma reads_newLexer src : reads (newLexer src) src.
Proof. intros i. reflexivity. Qed.

Lemma peekAt_reads_nil lx : reads lx "" -> peekAt lx = NUL.
Proof.
  intros H. pose proof (reads_remaining _ _ H) as Hr. unfold remaining in Hr. cbn in Hr.
  unfold peekAt. replace (_ <=? _)%nat with true; [reflexivity|].
  symmetry. apply Nat.leb_le. lia.
Qed.

Lemma peekAt_reads_cons lx c s : reads lx (String c s) -> peekAt lx = c.
Proof.
  intros H. pose proof (reads_remaining _ _ H) as Hr. unfold remaining in Hr. cbn in Hr.
  unfold peekAt. replace (_ <=? _)%nat with false by (symmetry; apply Nat.leb_gt; lia).
  unfold charAt. specialize (H 0). rewrite Nat.add_0_r in H. rewrite H. reflexivity.
Qed.

Lemma advance_reads lx c s :
  reads lx (String c s) ->
  exists lx', advance lx = (Ok c, lx')
    /\ reads lx' s
    /\ line lx' = (if Ascii.eqb c (ascii_of_nat 10) then 1 else 0) + line lx.
Proof.
  intros H. unfold advance. rewrite (peekAt_reads_cons _ _ _ H).
  eexists. split; [reflexivity|].
  destruct (Ascii.eqb c _); (split; [|reflexivity]); intros i; cbn [position source];
    specialize (H (S i)); cbn in H; rewrite <- H; f_equal; lia.
Qed.

Section Runs.

Variable cond : ascii -> bool.
Hypothesis Hcond : cond NUL = false.

Lemma peekAt_stops lx rest :
  reads lx rest -> stopsAt cond rest = true -> cond (peekAt lx) = false.
Proof.
  intros H Hstop. destruct rest as [|c rest].
  - rewrite (peekAt_reads_nil _ H). exact Hcond.
  - rewrite (peekAt_reads_cons _ _ _ H). cbn in Hstop.
    destruct (cond c); [discriminate|reflexivity].
Qed.

Lemma readWhile_run (w : string) : forall f acc lx rest,
  reads lx (w ++ rest) -> allChars cond w = true -> stopsAt cond rest = true ->
  String.length w <= f ->
  exists lx', readWhile f cond acc lx = (Ok (acc +:+ w), lx')
    /\ reads lx' rest /\ line lx' = lineFeeds w + line lx.
Proof.
  induction w as [|c w IH]; intros f acc lx rest Hreads Hall Hstop Hf.
  - exists lx. cbn in Hreads.
    assert (E : readWhile f cond acc lx = (Ok acc, lx)).
    { destruct f; cbn [readWhile]; unfold bind, peek, gets;
        rewrite (peekAt_stops _ _ Hreads Hstop); reflexivity. }
    rewrite E. split; [|split; [exact Hreads|reflexivity]].
    f_equal. f_equal. symmetry. apply string_app_nil_r.
  - cbn in Hreads, Hall, Hf. apply andb_prop in Hall. destruct Hall as [Hc Hall].
    destruct f as [|f]; [lia|]. cbn [readWhile].
    unfold bind at 1, peek, gets. rewrite (peekAt_reads_cons _ _ _ Hreads), Hc.
    destruct (advance_reads _ _ _ Hreads) as (lx1 & Eadv & Hreads1 & Hline1).
    unfold bind. rewrite Eadv.
    destruct (IH f (acc +:+ String c "") lx1 rest Hreads1 Hall Hstop ltac:(lia))
      as (lx' & E & Hreads' & Hline').
    exists lx'. rewrite E. split; [|split; [exact Hreads'|]].
    + f_equal. f_equal. rewrite string_app_assoc. reflexivity.
    + rewrite Hline', Hline1. cbn [lineFeeds]. lia.
Qed.

Lemma skipWhile_run (w : string) : forall f lx rest,
  reads lx (w ++ rest) -> allChars cond w = true -> stopsAt cond rest = true ->
  String.length w <= f ->
  exists lx', skipWhile f cond lx = (Ok tt, lx')
    /\ reads lx' rest /\ line lx' = lineFeeds w + line lx.
Proof.
  induction w as [|c w IH]; intros f lx rest Hreads Hall Hstop Hf.
  - exists lx. cbn in Hreads.
    assert (E : skipWhile f cond lx = (Ok tt, lx)).
    { destruct f; cbn [skipWhile]; unfold bind, peek, gets;
        rewrite (peekAt_stops _ _ Hreads Hstop); reflexivity. }
    rewrite E. split; [reflexivity|split; [exact Hreads|reflexivity]].
  - cbn in Hreads, Hall, Hf. apply andb_prop in Hall. destruct Hall as [Hc Hall].
    destruct f as [|f]; [lia|]. cbn [skipWhile].
    unfold bind at 1, peek, gets. rewrite (peekAt_reads_cons _ _ _ Hreads), Hc.
    destruct (advance_reads _ _ _ Hreads) as (lx1 & Eadv & Hreads1 & Hline1).
    unfold bind. rewrite Eadv.
    destruct (IH f lx1 rest Hreads1 Hall Hstop ltac:(lia)) as (lx' & E & Hreads' & Hline').
    exists lx'. rewrite E. split; [reflexivity|split; [exact Hreads'|]].
    rewrite Hline', Hline1. cbn [lineFeeds]. lia.
Qed.

End Runs.

Lemma length_string_app (a b : string) :
  String.length (a +:+ b) = String.length a + String.length b.
Proof.
  induction a as [|x a IH]; [reflexivity|].
  change (S (String.length (a +:+ b)) = S (String.length a + String.length b)).
  rewrite IH. reflexivity.
Qed.

Lemma identifierStart_char c :
  identifierStart c = true ->
  isspace c = false /\ Ascii.eqb c "/"%char = false /\ Ascii.eqb c "#"%char = false
  /\ identifierChar c = true.
Proof.
  destruct c as [b0 b1 b2 b3 b4 b5 b6 b7].
  destruct b0, b1, b2, b3, b4, b5, b6, b7; vm_compute; intros H;
    first [discriminate H | repeat split].
Qed.

Lemma identifierChar_no_lineFeed w : allChars identifierChar w = true -> lineFeeds w = 0.
Proof.
  induction w as [|c w IH]; [reflexivity|]. cbn [allChars lineFeeds]. intros H.
  apply andb_prop in H. destruct H as [Hc Hw]. rewrite (IH Hw).
  destruct (Ascii.eqb c (ascii_of_nat 10)) eqn:E; [|reflexivity].
  apply Ascii.eqb_eq in E. subst c. vm_compute in Hc. discriminate Hc.
Qed.

(** X21.  Identifiers and keywords are whole words: when the unread
    source starts with a word, the longest run of letters, digits and
    underscores that starts with a letter or an underscore, the next
    token has that very word as its lexeme, on the line of the lexer; its
    type is the one the keyword table gives the word, [IDENTIFIER] when
    the table does not have it; and the lexer stops right behind the
    word. *)
Theorem word_becomes_one_token (lx : Lexer) (w rest : string)
    (Hreads : reads lx (w +:+ rest))
    (Hword : isWord w = true)
    (Hrest : stopsAt identifierChar rest = true) :
  exists lx' : Lexer,
    getNextToken lx
    = (Ok (mkToken (default IDENTIFIER (keywords !! w)) w (line lx)), lx')
    /\ reads lx' rest.
Proof.
  destruct w as [|c w]; [discriminate Hword|]. cbn [isWord] in Hword.
  apply andb_prop in Hword. destruct Hword as [Hstart Hall].
  destruct (identifierStart_char c Hstart) as (Hspace & Hslash & Hhash & Hchar).
  pose proof (reads_remaining _ _ Hreads) as Hrem.
  rewrite length_string_app in Hrem. cbn [String.length] in Hrem.
  unfold remaining in Hrem.
  unfold getNextToken. cbn [getNextTokenFuel]. unfold skipWhitespace.
  assert (Eskip' : skipWhile (S (String.length (source lx))) isspace lx = (Ok tt, lx)).
  { cbn [skipWhile]. unfold bind, peek, gets.
    rewrite (peekAt_reads_cons _ _ _ Hreads), Hspace. reflexivity. }
  unfold bind at 1. rewrite Eskip'. unfold bind at 1, get.
  replace (String.length (source lx) <=? position lx)%nat with false
    by (symmetry; apply Nat.leb_gt; lia).
  cbv zeta. rewrite (peekAt_reads_cons _ _ _ Hreads), Hslash, Hhash. cbn [andb].
  unfold identifierStart in Hstart. rewrite Hstart.
  unfold identifier.
  destruct (readWhile_run identifierChar eq_refl (String c w)
              (S (String.length (source lx))) "" lx rest Hreads)
    as (lx' & Eread & Hreads' & Hline);
    [cbn [allChars]; rewrite Hchar, Hall; reflexivity|exact Hrest|cbn; lia|].
  change (fun c0 : ascii => isalnum c0 || Ascii.eqb c0 "_"%char) with identifierChar.
  unfold bind. rewrite Eread. change ("" +:+ String c w) with (String c w).
  exists lx'. split; [|exact Hreads'].
  assert (Hl : line lx' = line lx).
  { rewrite Hline. cbn [lineFeeds].
    rewrite (identifierChar_no_lineFeed w Hall).
    destruct (Ascii.eqb c (ascii_of_nat 10)) eqn:E; [|reflexivity].
    apply Ascii.eqb_eq in E. subst c. vm_compute in Hchar. discriminate Hchar. }
  destruct (keywords !! String c w) as [t|]; unfold token, gets; rewrite Hl; reflexivity.
Qed.

Lemma word_becomes_one_token_witness :
  reads (mkLexer "x = intx;" 4 1 5) ("intx" +:+ ";")
  /\ exists lx',
       getNextToken (mkLexer "x = intx;" 4 1 5) = (Ok (mkToken IDENTIFIER "intx" 1), lx').
Proof.
  assert (H : reads (mkLexer "x = intx;" 4 1 5) ("intx" +:+ ";")).
  { intros i. do 6 (destruct i as [|i]; [reflexivity|]). reflexivity. }
  split; [exact H|].
  destruct (word_becomes_one_token _ "intx" ";" H eq_refl eq_refl) as (lx' & E & _).
  exists lx'. exact E.
Defined.

(** X22.  A source text of white space alone, the empty one included,
    is a program without statements: the lexer delivers the one
    [END_OF_FILE] token, on the line after the last line feed, and the
    driver runs all its phases, prints no instruction and exits with
    code 0. *)
Theorem blank_source_compiles (src : string)
    (Hblank : allChars isspace src = true) :
  tokenize src = Some [Tok (mkToken END_OF_FILE "" (lineFeeds src + 1))]
  /\ compile src
     = Some (mkRun 0
               ["Parsing source code..."; "Performing semantic analysis...";
                "No semantic errors found."; "Generating code..."; "Optimizing...";
                endl +:+ "Generated Code:"; "----------------"]
               []).
Proof.
  assert (Htok : tokenize src = Some [Tok (mkToken END_OF_FILE "" (lineFeeds src + 1))]).
  { unfold tokenize. cbn [tokenizeFuel].
    assert (Hreads : reads (newLexer src) (src +:+ ""))
      by (rewrite string_app_nil_r; apply reads_newLexer).
    destruct (skipWhile_run isspace eq_refl src (S (String.length src)) (newLexer src) ""
                Hreads Hblank eq_refl ltac:(lia)) as (lx' & Eskip & Hreads' & Hline).
    assert (Enext : getNextToken (newLexer src)
                    = (Ok (mkToken END_OF_FILE "" (lineFeeds src + 1)), lx')).
    { unfold getNextToken. cbn [getNextTokenFuel source newLexer]. unfold skipWhitespace.
      unfold bind at 1. rewrite Eskip. unfold bind, get.
      pose proof (reads_remaining _ _ Hreads') as Hrem. unfold remaining in Hrem.
      cbn [String.length] in Hrem.
      replace (String.length (source lx') <=? position lx')%nat with true
        by (symmetry; apply Nat.leb_le; lia).
      unfold token, gets. rewrite Hline. reflexivity. }
    rewrite Enext. reflexivity. }
  split; [exact Htok|]. unfold compile. rewrite Htok. reflexivity.
Qed.

Lemma blank_source_compiles_witness :
  allChars isspace (String (ascii_of_nat 10) "  ") = true
  /\ tokenize (String (ascii_of_nat 10) "  ") = Some [Tok (mkToken END_OF_FILE "" 2)].
Proof.
  assert (H : allChars isspace (String (ascii_of_nat 10) "  ") = true) by reflexivity.
  split; [exact H|]. exact (proj1 (blank_source_compiles _ H)).
Defined.

Lemma stringLoop_run (s : string) : forall f acc lx rest,
  reads lx (s +:+ String QUOTE rest) -> allChars plainChar s = true ->
  String.length s <= f ->
  exists lx', stringLoop f acc lx = (Ok (acc +:+ s), lx')
    /\ reads lx' (String QUOTE rest) /\ line lx' = lineFeeds s + line lx.
Proof.
  induction s as [|c s IH]; intros f acc lx rest Hreads Hall Hf.
  - exists lx. change ("" +:+ String QUOTE rest) with (String QUOTE rest) in Hreads.
    assert (E : stringLoop f acc lx = (Ok acc, lx)).
    { destruct f; cbn [stringLoop]; unfold bind, peek, gets;
        rewrite (peekAt_reads_cons _ _ _ Hreads); reflexivity. }
    rewrite E, string_app_nil_r. split; [reflexivity|split; [exact Hreads|reflexivity]].
  - change (String c s +:+ String QUOTE rest) with (String c (s +:+ String QUOTE rest))
      in Hreads.
    cbn [allChars String.length] in Hall, Hf.
    apply andb_prop in Hall. destruct Hall as [Hc Hall].
    unfold plainChar in Hc. apply andb_prop in Hc. destruct Hc as [Hc Hnul].
    apply andb_prop in Hc. destruct Hc as [Hquote Hback].
    destruct f as [|f]; [lia|]. cbn [stringLoop].
    unfold bind at 1, peek, gets. rewrite (peekAt_reads_cons _ _ _ Hreads).
    rewrite Hquote, Hnul. cbn [andb].
    destruct (Ascii.eqb c BACKSLASH); [discriminate Hback|].
    destruct (advance_reads _ _ _ Hreads) as (lx1 & Eadv & Hreads1 & Hline1).
    unfold bind. rewrite Eadv.
    destruct (IH f (acc +:+ String c "") lx1 rest Hreads1 Hall ltac:(lia))
      as (lx' & E & Hreads' & Hline').
    exists lx'. rewrite E. split; [|split; [exact Hreads'|]].
    + f_equal. f_equal. rewrite string_app_assoc. reflexivity.
    + rewrite Hline', Hline1. cbn [lineFeeds]. lia.
Qed.

Lemma unescape_plain (s : string) : allChars plainChar s = true -> Parse.unescape s = s.
Proof.
  induction s as [|c s IH]; [reflexivity|]. cbn [allChars]. intros H.
  apply andb_prop in H. destruct H as [Hc Hall].
  unfold plainChar in Hc. apply andb_prop in Hc. destruct Hc as [Hc _].
  apply andb_prop in Hc. destruct Hc as [_ Hback].
  cbn [Parse.unescape]. destruct (Ascii.eqb c BACKSLASH); [discriminate Hback|].
  rewrite (IH Hall). reflexivity.
Qed.

Lemma allChars_substring cond (s : string) : forall n m,
  allChars cond s = true -> allChars cond (String.substring n m s) = true.
Proof.
  induction s as [|c s IH]; intros n m H.
  - destruct n, m; reflexivity.
  - cbn [allChars] in H. apply andb_prop in H. destruct H as [Hc Hall].
    destruct n as [|n]; cbn [String.substring].
    + destruct m as [|m]; [reflexivity|]. cbn [allChars]. rewrite Hc. apply IH, Hall.
    + apply IH, Hall.
Qed.

(** X23.  A string literal loses its ends.  For a literal of plain
    characters (no quote, no backslash) the lexer delivers one
    [STRING_LITERAL] token whose lexeme is the text between the quotes,
    on the line of the closing quote; and [parsePrimary] then removes the
    first and the last character of a lexeme of two characters or more,
    so the literal expression holds the text without its first and last
    character. *)
Theorem string_literal_loses_its_ends (lx : Lexer) (s rest : string)
    (Hreads : reads lx (String QUOTE (s +:+ String QUOTE rest)))
    (Hplain : allChars plainChar s = true) :
  (exists lx' : Lexer,
     getNextToken lx = (Ok (mkToken STRING_LITERAL s (lineFeeds s + line lx)), lx')
     /\ reads lx' rest)
  /\ forall (rec : Parse.P Expression) (fuel : nat) (ln : nat) (next : Token)
            (pending : list Lexed),
       Parse.parsePrimary rec (S fuel)
         (Parse.mkParser (mkToken STRING_LITERAL s ln) (Tok next :: pending))
       = (Ok (LiteralExpression
                (if (2 <=? String.length s)%nat
                 then String.substring 1 (String.length s - 2) s else s)
                STRING_LITERAL),
          Parse.mkParser next pending).
Proof.
  split.
  - pose proof (reads_remaining _ _ Hreads) as Hrem.
    cbn [String.length] in Hrem. rewrite length_string_app in Hrem.
    cbn [String.length] in Hrem. unfold remaining in Hrem.
    unfold getNextToken. cbn [getNextTokenFuel]. unfold skipWhitespace.
    assert (Eskip : skipWhile (S (String.length (source lx))) isspace lx = (Ok tt, lx)).
    { cbn [skipWhile]. unfold bind, peek, gets.
      rewrite (peekAt_reads_cons _ _ _ Hreads). reflexivity. }
    unfold bind at 1. rewrite Eskip. unfold bind at 1, get.
    replace (String.length (source lx) <=? position lx)%nat with false
      by (symmetry; apply Nat.leb_gt; lia).
    cbv zeta. rewrite (peekAt_reads_cons _ _ _ Hreads).
    change (Ascii.eqb QUOTE "/"%char) with false.
    change (Ascii.eqb QUOTE "#"%char) with false.
    change (isalpha QUOTE || Ascii.eqb QUOTE "_"%char) with false.
    change (isdigit QUOTE) with false. cbv iota. cbn [andb].
    destruct (advance_reads _ _ _ Hreads) as (lx1 & Eadv & Hreads1 & Hline1).
    unfold bind at 1. rewrite Eadv.
    change (punctuation (S (String.length (source lx))) QUOTE)
      with (string_ (S (String.length (source lx)))).
    unfold string_.
    destruct (stringLoop_run s (S (String.length (source lx))) "" lx1 rest Hreads1 Hplain
                ltac:(lia)) as (lx2 & Eloop & Hreads2 & Hline2).
    unfold bind at 1. rewrite Eloop. change ("" +:+ s) with s.
    unfold bind at 1, peek, gets. rewrite (peekAt_reads_cons _ _ _ Hreads2).
    change (Ascii.eqb QUOTE QUOTE) with true. cbv iota.
    destruct (advance_reads _ _ _ Hreads2) as (lx3 & Eadv3 & Hreads3 & Hline3).
    unfold bind. rewrite Eadv3. exists lx3. split; [|exact Hreads3].
    unfold token, gets. rewrite Hline3, Hline2, Hline1. reflexivity.
  - intros rec fuel ln next pending.
    assert (Hvalue : Parse.stringLiteralValue s
                     = if (2 <=? String.length s)%nat
                       then String.substring 1 (String.length s - 2) s else s).
    { unfold Parse.stringLiteralValue. destruct (2 <=? String.length s)%nat; [|reflexivity].
      apply unescape_plain, allChars_substring, Hplain. }
    rewrite <- Hvalue. reflexivity.
Qed.

Lemma string_literal_loses_its_ends_witness :
  reads (mkLexer (String QUOTE ("hello" +:+ String QUOTE ";")) 0 1 1)
        (String QUOTE ("hello" +:+ String QUOTE ";"))
  /\ forall rec next pending,
       fst (Parse.parsePrimary rec 1
              (Parse.mkParser (mkToken STRING_LITERAL "hello" 1) (Tok next :: pending)))
       = Ok (LiteralExpression "ell" STRING_LITERAL).
Proof.
  assert (H : reads (mkLexer (String QUOTE ("hello" +:+ String QUOTE ";")) 0 1 1)
                    (String QUOTE ("hello" +:+ String QUOTE ";")))
    by (intros i; reflexivity).
  split; [exact H|]. intros rec next pending.
  rewrite (proj2 (string_literal_loses_its_ends _ "hello" ";" H eq_refl) rec 0 1 next pending).
  reflexivity.
Defined.

End Reading.

(** ** The stream between the lexer and the parser *)

Section ParserStream.

Import Parse.

Lemma draws_ret {A} (a : A) : draws (ret a).
Proof. intros p. reflexivity. Qed.

Lemma draws_throw {A} w : draws (@throw Parser A w).
Proof. intros p. reflexivity. Qed.

Lemma draws_outOfFuel {A} : draws (@outOfFuel Parser A).
Proof. intros p. reflexivity. Qed.

Lemma draws_gets {A} (g : Parser -> A) : draws (gets g).
Proof. intros p. reflexivity. Qed.

Lemma draws_bind {A B} (m : P A) (f : A -> P B) :
  draws m -> (forall a, draws (f a)) -> draws (bind m f).
Proof.
  intros Hm Hf p. unfold bind. specialize (Hm p).
  destruct (m p) as [[a|w|] p']; cbn [snd] in *; [|exact Hm|exact Hm].
  etransitivity; [apply Hf|exact Hm].
Qed.

Lemma draws_tryCatch {A} (m : P A) (h : string -> P A) :
  draws m -> (forall w, draws (h w)) -> draws (tryCatch m h).
Proof.
  intros Hm Hh p. unfold tryCatch. specialize (Hm p).
  destruct (m p) as [[a|w|] p']; cbn [snd] in *; [exact Hm| |exact Hm].
  etransitivity; [apply Hh|exact Hm].
Qed.

Lemma draws_advance : draws advance.
Proof.
  intros [cur pending]. unfold advance. cbn [lexer].
  destruct pending as [|[t|w] rest]; cbn [snd lexer]; [reflexivity|..];
    apply suffix_cons_r; reflexivity.
Qed.

Lemma draws_advanceWhile cond : draws (advanceWhile cond).
Proof.
  intros [cur pending]. unfold advanceWhile. cbn [lexer currentToken].
  generalize "". revert cur.
  induction pending as [|[t|w] rest IH]; intros cur acc; cbn [advanceWhileLoop].
  - destruct (cond cur); [destruct (cond _)|]; reflexivity.
  - destruct (cond cur); [|reflexivity]. apply suffix_cons_r, IH.
  - destruct (cond cur); [|reflexivity]. apply suffix_cons_r. reflexivity.
Qed.

Lemma synchronizeLoop_draws pending : forall cur,
  lexer (snd (synchronizeLoop cur pending)) `suffix_of` pending.
Proof.
  induction pending as [|[t|w] rest IH]; intros cur; cbn [synchronizeLoop];
    repeat match goal with
           | |- context [if ?b then _ else _] => destruct b
           end;
    cbn [snd lexer]; try reflexivity;
    try (apply (draws_advance (mkParser cur _)));
    apply suffix_cons_r; first [apply IH|reflexivity].
Qed.

Lemma draws_synchronize : draws synchronize.
Proof.
  unfold synchronize. apply draws_bind; [apply draws_advance|].
  intros [] p. apply synchronizeLoop_draws.
Qed.

Lemma draws_recovering {A} (m : P A) : draws m -> draws (recovering m).
Proof.
  intros H. unfold recovering. apply draws_tryCatch; [exact H|].
  intros w. apply draws_bind; [apply draws_synchronize|]. intros. apply draws_throw.
Qed.

Lemma draws_match_ t : draws (match_ t).
Proof.
  unfold match_, check. apply draws_bind; [apply draws_gets|].
  intros []; [|apply draws_ret].
  apply draws_bind; [apply draws_advance|]. intros. apply draws_ret.
Qed.

Lemma draws_consume t msg : draws (consume t msg).
Proof.
  unfold consume, check. apply draws_bind; [apply draws_gets|].
  intros []; [apply draws_advance|apply draws_throw].
Qed.

Ltac draw_step :=
  cbv beta zeta;
  first
    [ assumption
    | lazymatch goal with
      | |- draws (ret _) => apply draws_ret
      | |- draws (throw _) => apply draws_throw
      | |- draws outOfFuel => apply draws_outOfFuel
      | |- draws (gets _) => apply draws_gets
      | |- draws peek => apply draws_gets
      | |- draws (check _) => apply draws_gets
      | |- draws (checkAny _) => apply draws_gets
      | |- draws advance => apply draws_advance
      | |- draws (advanceWhile _) => apply draws_advanceWhile
      | |- draws (match_ _) => apply draws_match_
      | |- draws (consume _ _) => apply draws_consume
      | |- draws synchronize => apply draws_synchronize
      | |- draws (recovering _) => apply draws_recovering
      | |- draws (tryCatch _ _) => apply draws_tryCatch; [|intros ?]
      | |- draws (bind _ _) => apply draws_bind; [|intros ?]
      | |- draws (if ?b then _ else _) => destruct b
      | |- draws (match ?e with IdentifierExpression _ => _ | _ => _ end) => destruct e
      | |- draws (match ?l with [] => _ | _ :: _ => _ end) => destruct l
      end ].

Ltac draw := repeat draw_step.

Section OfExpressions.

Variable rec : P Expression.
Hypothesis Hrec : draws rec.

Lemma draws_parseArguments fuel : forall arguments,
  draws (parseArguments rec fuel arguments).
Proof.
  induction fuel as [|fuel IH]; intros arguments; cbn [parseArguments]; draw. apply IH.
Qed.

Lemma draws_parseStream fuel : forall left_, draws (parseStream rec fuel left_).
Proof.
  induction fuel as [|fuel IH]; intros left_; cbn [parseStream]; draw; apply IH.
Qed.

Lemma draws_parsePrimary fuel : draws (parsePrimary rec fuel).
Proof.
  induction fuel as [|fuel IH]; cbn [parsePrimary]; draw;
    first [apply draws_parseArguments|apply draws_parseStream].
Qed.

Lemma draws_binaryLoop fuel ops mk operand :
  draws operand -> forall expr, draws (binaryLoop fuel ops mk operand expr).
Proof.
  intros Hop. induction fuel as [|fuel IH]; intros expr; cbn [binaryLoop]; draw; apply IH.
Qed.

Lemma draws_binaryLevel fuel ops mk operand :
  draws operand -> draws (binaryLevel fuel ops mk operand).
Proof. intros Hop. unfold binaryLevel. draw. apply draws_binaryLoop, Hop. Qed.

Lemma draws_parseLogicalOr fuel : draws (parseLogicalOr rec fuel).
Proof.
  unfold parseLogicalOr, parseLogicalAnd, parseEquality, parseComparison, parseTerm,
    parseFactor.
  repeat apply draws_binaryLevel. apply draws_parsePrimary.
Qed.

Lemma draws_parseAssignmentFuel fuel depth : draws (parseAssignmentFuel rec depth fuel).
Proof.
  induction depth as [|depth IH]; cbn [parseAssignmentFuel]; draw.
  all: try apply draws_parseLogicalOr.
Qed.

End OfExpressions.

Lemma draws_parseExpression fuel : draws (parseExpression fuel).
Proof.
  induction fuel as [|fuel IH]; cbn [parseExpression]; draw.
  unfold parseAssignment. apply draws_parseAssignmentFuel, IH.
Qed.

Lemma draws_parsePreprocessorDirective : draws parsePreprocessorDirective.
Proof. unfold parsePreprocessorDirective. draw. Qed.

Lemma draws_parseUsingDirective : draws parseUsingDirective.
Proof. unfold parseUsingDirective. draw. Qed.

Lemma draws_parseParameters fuel : forall parameters,
  draws (parseParameters fuel parameters).
Proof.
  induction fuel as [|fuel IH]; intros parameters; cbn [parseParameters]; draw. apply IH.
Qed.

Lemma draws_parseInitializer fuel : draws (parseInitializer fuel).
Proof. unfold parseInitializer. draw. apply draws_parseExpression. Qed.

Lemma draws_parseDeclarators fuel : forall t isPointer declarations,
  draws (parseDeclarators fuel t isPointer declarations).
Proof.
  induction fuel as [|fuel IH]; intros t isPointer declarations; cbn [parseDeclarators];
    draw; first [apply draws_parseInitializer|apply IH].
Qed.

Section OfStatements.

Variable rec : P Statement.
Hypothesis Hrec : draws rec.

Lemma draws_parseBlockLoop fuel : forall statements,
  draws (parseBlockLoop rec fuel statements).
Proof.
  induction fuel as [|fuel IH]; intros statements; cbn [parseBlockLoop]; draw. apply IH.
Qed.

Lemma draws_parseBracedBlock fuel m1 m2 : draws (parseBracedBlock rec fuel m1 m2).
Proof. unfold parseBracedBlock, parseBlock. draw. apply draws_parseBlockLoop. Qed.

Lemma draws_parseFunctionOrVariableDeclaration fuel :
  draws (parseFunctionOrVariableDeclaration rec fuel).
Proof.
  unfold parseFunctionOrVariableDeclaration.
  repeat first
    [ apply draws_parseParameters | apply draws_parseBracedBlock
    | apply draws_parseInitializer | apply draws_parseDeclarators | draw_step ].
Qed.

Lemma draws_parseStatementBody fuel : draws (parseStatementBody rec fuel).
Proof.
  unfold parseStatementBody.
  repeat first
    [ apply draws_parsePreprocessorDirective | apply draws_parseUsingDirective
    | apply draws_parseExpression | apply draws_parseBracedBlock
    | apply draws_parseFunctionOrVariableDeclaration | draw_step ].
Qed.

End OfStatements.

Lemma draws_parseStatement fuel : draws (parseStatement fuel).
Proof.
  induction fuel as [|fuel IH]; cbn [parseStatement]; [apply draws_outOfFuel|].
  apply draws_parseStatementBody, IH.
Qed.

Lemma advance_throws p w p' : advance p = (Throw w, p') -> In (Lex.LexError w) (lexer p).
Proof.
  destruct p as [cur pending]. unfold advance. cbn [lexer].
  destruct pending as [|[t|w0] rest]; [discriminate..|].
  intros [= <- _]. left. reflexivity.
Qed.

Lemma synchronizeLoop_throws pending : forall cur w p',
  synchronizeLoop cur pending = (Throw w, p') -> In (Lex.LexError w) pending.
Proof.
  induction pending as [|[t|w0] rest IH]; intros cur w p'; cbn [synchronizeLoop];
    repeat match goal with
           | |- context [if ?b then _ else _] => destruct b
           end;
    try discriminate;
    try (intros H; apply advance_throws in H; exact H).
  - intros H. right. exact (IH _ _ _ H).
  - intros [= <- _]. left. reflexivity.
Qed.

Lemma synchronize_throws p w p' :
  synchronize p = (Throw w, p') -> In (Lex.LexError w) (lexer p).
Proof.
  unfold synchronize, bind. destruct (advance p) as [[[]|w1|] p1] eqn:E.
  - intros H. apply synchronizeLoop_throws in H.
    pose proof (draws_advance p) as [k Hk]. rewrite E in Hk. cbn [snd] in Hk.
    rewrite Hk. apply in_or_app. right. exact H.
  - intros [= <- _]. exact (advance_throws _ _ _ E).
  - discriminate.
Qed.

Lemma parseLoop_throws fuel : forall statements diagnostics p w diagnostics' p',
  parseLoop fuel statements diagnostics p = (Throw w, diagnostics', p') ->
  In (Lex.LexError w) (lexer p).
Proof.
  induction fuel as [|fuel IH]; intros statements diagnostics p w diagnostics' p';
    cbn [parseLoop]; (destruct (TokenType_eqb _ _); [discriminate|]); [discriminate|].
  match goal with
  | |- context [match ?attempt p with _ => _ end] =>
      assert (Hattempt : draws attempt)
        by (apply draws_bind; [apply draws_gets|]; intros [];
            [apply draws_bind; [apply draws_advance|intros; apply draws_ret]
            |apply draws_bind; [apply draws_parseStatement|intros; apply draws_ret]]);
      specialize (Hattempt p); destruct (attempt p) as [[[stmt|]|w1|] p1]
  end; cbn [snd] in Hattempt; destruct Hattempt as [k Hk]; rewrite Hk.
  - intros H. apply in_or_app. right. exact (IH _ _ _ _ _ _ H).
  - intros H. apply in_or_app. right. exact (IH _ _ _ _ _ _ H).
  - destruct (synchronize p1) as [[[]|w2|] p2] eqn:Esync.
    + intros H. apply in_or_app. right.
      pose proof (draws_synchronize p1) as [k2 Hk2]. rewrite Esync in Hk2.
      cbn [snd] in Hk2. rewrite Hk2. apply in_or_app. right.
      exact (IH _ _ _ _ _ _ H).
    + intros [= <- _ _]. apply in_or_app. right. exact (synchronize_throws _ _ _ Esync).
    + discriminate.
  - discriminate.
Qed.

(** What leaves the constructor of the parser and [parse]. *)
Lemma parseProgram_outcome (results : list Lex.Lexed) :
  match fst (parseProgram results) with
  | Ok _ => True
  | Throw w => In (Lex.LexError w) results
  | OutOfFuel => False
  end.
Proof.
  unfold parseProgram. pose proof (newParser_answers results) as Hnew.
  destruct (newParser results) as [[[]|w|] p] eqn:Enew; cbn [fst] in *; [| |congruence].
  - pose proof (parse_answers p) as Hparse.
    destruct (parse p) as [[[ast|w|] diagnostics] p'] eqn:Eparse; cbn [fst] in *;
      [exact I| |congruence].
    unfold parse in Eparse. apply parseLoop_throws in Eparse.
    pose proof (draws_advance (mkParser defaultToken results)) as [k Hk].
    unfold newParser in Enew. rewrite Enew in Hk. cbn [snd lexer] in Hk.
    rewrite Hk. apply in_or_app. right. exact Eparse.
  - unfold newParser in Enew. apply advance_throws in Enew. exact Enew.
Qed.


(** X24.  Syntax errors never leave [Parser::parse]: on every stream of
    lexer results the constructor and [parse] return or throw, and the
    only exception that leaves them carries the message of a lexical
    error that the lexer raised for this source.  On a stream without
    lexical errors [parse] therefore returns statements, whatever the
    tokens are. *)
Theorem syntax_errors_stay_inside_parse (results : list Lex.Lexed) :
  match fst (parseProgram results) with
  | Ok _ => True
  | Throw w => In (Lex.LexError w) results
  | OutOfFuel => False
  end.
Proof. exact (parseProgram_outcome results). Qed.

End ParserStream.

Section DriverErrors.

Lemma tokenizeFuel_errors fuel : forall lx results w,
  Lex.tokenizeFuel fuel lx = Some results -> In (Lex.LexError w) results -> lexicalError w.
Proof.
  induction fuel as [|fuel IH]; intros lx results w; cbn [Lex.tokenizeFuel]; [discriminate|].
  destruct (Lex.getNextToken lx) as [[t|w1|] lx'] eqn:E; [| |discriminate].
  - destruct (TokenType_eqb (type t) END_OF_FILE).
    + intros [= <-] [H|[]]. discriminate H.
    + destruct (Lex.tokenizeFuel fuel lx') as [rest|] eqn:E'; [|discriminate].
      intros [= <-] [H|H]; [discriminate H|]. exact (IH _ _ _ E' H).
  - destruct (Lex.tokenizeFuel fuel lx') as [rest|] eqn:E'; [|discriminate].
    intros [= <-] [[= <-]|H]; [|exact (IH _ _ _ E' H)].
    exact (raises_getNextTokenFuel _ _ _ _ E).
Qed.

(** X25.  Before the type checker runs, only the lexer can stop the
    driver: on every source text the driver either reaches the semantic
    analysis, or exits with code 1 without emitting code, and the last
    line on standard error is then [Error: ] with one of the three
    messages of the lexer as [what()] hands it out, so that for a NUL
    byte the line is [Error: Unexpected character: ] and ends there. *)
Theorem only_lexical_errors_stop_the_parser (source : string) :
  exists r : Run,
    compile source = Some r
    /\ (ranTypeChecker r = true
        \/ (exitCode r = 1 /\ ranEmitter r = false
            /\ exists diagnostics w,
                 stderr r = diagnostics ++ ["Error: " +:+ w] /\ lexicalError w)).
Proof.
  unfold compile. pose proof (tokenize_answers source) as Htok.
  destruct (Lex.tokenize source) as [results|] eqn:Etok; [|congruence].
  pose proof (parseProgram_outcome results) as Hparse. unfold parseProgram in Hparse.
  assert (Hlex : forall w, In (Lex.LexError w) results -> lexicalError w)
    by (intros w; exact (tokenizeFuel_errors _ _ _ w Etok)).
  destruct (Parse.newParser results) as [[[]|w|] p]; cbn [fst] in Hparse.
  - destruct (Parse.parse p) as [[[ast|w|] diagnostics] p']; cbn [fst] in Hparse.
    + pose proof (check_answers ast newTypeChecker) as Hcheck.
      destruct (check ast newTypeChecker) as [[[]|w|] tc]; cbn [fst] in Hcheck.
      * rewrite optimize_scan. eexists. split; [reflexivity|]. left. reflexivity.
      * eexists. split; [reflexivity|]. left. reflexivity.
      * congruence.
    + eexists. split; [reflexivity|]. right. split; [reflexivity|].
      split; [reflexivity|]. exists diagnostics, w.
      split; [|apply Hlex, Hparse].
      cbn [stderr]. rewrite (lexicalError_what w (Hlex w Hparse)). reflexivity.
    + destruct Hparse.
  - eexists. split; [reflexivity|]. right. split; [reflexivity|].
    split; [reflexivity|]. exists [], w. split; [|apply Hlex, Hparse].
    cbn [stderr]. rewrite (lexicalError_what w (Hlex w Hparse)). reflexivity.
  - destruct Hparse.
Qed.

(** The driver on the source that is one NUL byte. *)
Lemma driver_on_NUL_byte :
  compile (String Lex.NUL "") = Some (mkRun 1 [] ["Error: Unexpected character: "])
  /\ String.length "Error: Unexpected character: " = 29.
Proof. split; vm_compute; reflexivity. Qed.

End DriverErrors.
